(** * SockBot: the browser's post normaliser and the command parser

    A shallow embedding of [commands.js] and of the [browser] module
    (queue worker, chunked read submission, login sequencing, trust
    classification and the quote stripper [cleanPostRaw]), with the
    properties the specification states about them.

    Strings are lists of 8-bit code units: the Latin-1 range of the
    UTF-16 code units of a JavaScript string. *)

From Stdlib Require Import Ascii String.
From Stdlib Require Import List Bool Arith Lia NArith ZArith.
From Stdlib Require Import DecimalString DecimalN.
From Equations Require Import Equations.
Import ListNotations.

(* ================================================================== *)
(** ** Strings *)

Definition jsstring := list ascii.

Definition str (s : string) : jsstring := list_ascii_of_string s.

Definition code (c : ascii) : N := N_of_ascii c.

Definition LF : ascii := "010"%char.
Definition CR : ascii := "013"%char.
Definition STX : ascii := "002"%char.
Definition ETX : ascii := "003"%char.
Definition DLE : ascii := "016"%char.
Definition SUB : ascii := "026"%char.

Definition in_range (lo hi : N) (c : ascii) : bool :=
  ((lo <=? code c) && (code c <=? hi))%N.

(** [String.prototype.toLowerCase] on one code unit of the Latin-1 range. *)
Definition lower (c : ascii) : ascii :=
  if in_range 65 90 c then ascii_of_N (code c + 32)
  else if in_range 192 222 c && negb (code c =? 215)%N then ascii_of_N (code c + 32)
  else c.

Definition toLowerCase (s : jsstring) : jsstring := map lower s.

(** The [Canonicalize] operation of a regular expression with the [i]
    flag: the upper-case form of the code unit, when that is again one
    code unit. Within Latin-1 the code units whose upper-case form lies
    outside the range (y-diaeresis, micro sign) or is two characters long
    (sharp s) are each alone in their class, so they stay as they are. *)
Definition canon (c : ascii) : ascii :=
  if in_range 97 122 c then ascii_of_N (code c - 32)
  else if in_range 224 254 c && negb (code c =? 247)%N then ascii_of_N (code c - 32)
  else c.

Fixpoint jsstring_eqb (a b : jsstring) : bool :=
  match a, b with
  | [], [] => true
  | x :: a', y :: b' => Ascii.eqb x y && jsstring_eqb a' b'
  | _, _ => false
  end.

(** [Array.prototype.join]. *)
Fixpoint join (sep : jsstring) (l : list jsstring) : jsstring :=
  match l with
  | [] => []
  | [x] => x
  | x :: l' => x ++ sep ++ join sep l'
  end.

(** [String.prototype.split] with a one character string as separator. *)
Fixpoint split_char_from (sep : ascii) (cur : jsstring) (s : jsstring) : list jsstring :=
  match s with
  | [] => [rev cur]
  | c :: t =>
      if Ascii.eqb c sep then rev cur :: split_char_from sep [] t
      else split_char_from sep (c :: cur) t
  end.

Definition split_char (sep : ascii) (s : jsstring) : list jsstring :=
  split_char_from sep [] s.

(* ================================================================== *)
(** ** Regular expressions

    The patterns of the program are kept as data and run by one
    backtracking matcher that follows the matcher of the language
    definition: alternatives in order, greedy and lazy quantifiers,
    capture groups, back references, line anchors and negative
    lookahead. No pattern of the program has a capture group under a
    quantifier, so the reset of captures at each iteration is left out. *)

Inductive regex : Type :=
| Eps                                            (* empty pattern *)
| Chr (c : ascii)                                (* a pattern character *)
| Cls (neg : bool) (rs : list (N * N))           (* [..] and [^..], as ranges *)
| Seq (r1 r2 : regex)
| Alt (r1 r2 : regex)                            (* r1|r2 *)
| Rep (min : nat) (max : option nat) (greedy : bool) (r : regex)
| Grp (n : nat) (r : regex)                      (* the n-th ( ) *)
| Ref (n : nat)                                  (* \n *)
| Bol                                            (* ^ *)
| Eol                                            (* $ *)
| NotAhead (r : regex).                          (* (?!r) *)

Fixpoint cat (l : list regex) : regex :=
  match l with
  | [] => Eps
  | [r] => r
  | r :: l' => Seq r (cat l')
  end.

Fixpoint lit (s : jsstring) : regex :=
  match s with
  | [] => Eps
  | [c] => Chr c
  | c :: s' => Seq (Chr c) (lit s')
  end.

(** Quantifiers. *)
Definition opt (r : regex) : regex := Rep 0 (Some 1) true r.       (* r?  *)
Definition star (r : regex) : regex := Rep 0 None true r.          (* r*  *)
Definition star_lazy (r : regex) : regex := Rep 0 None false r.    (* r*? *)
Definition plus (r : regex) : regex := Rep 1 None true r.          (* r+  *)
Definition at_least (n : nat) (r : regex) : regex := Rep n None true r. (* r{n,} *)

(** Character class escapes. *)
Definition ws_ranges : list (N * N) := [(9, 13); (32, 32); (160, 160)]%N.
Definition cls_s : regex := Cls false ws_ranges.                   (* \s *)
Definition cls_S : regex := Cls true ws_ranges.                    (* \S *)
Definition dot : regex := Cls true [(10, 10); (13, 13)]%N.         (* .  *)
Definition any : regex := Cls true [].                             (* [^] *)
Definition ctrl_ranges : list (N * N) := [(0, 8); (11, 31)]%N.     (* \x00-\x08\x0b-\x1f *)

Record flags : Type := { ignoreCase : bool; multiline : bool }.

Record mstate : Type := {
  prev : option ascii;            (* the character before the current position *)
  rest : jsstring;                (* the input from the current position on *)
  caps : list (nat * jsstring)    (* the captures, latest first *)
}.

Definition cont : Type := mstate -> option mstate.

Definition advance (c : ascii) (t : jsstring) (st : mstate) : mstate :=
  {| prev := Some c; rest := t; caps := caps st |}.

Definition in_ranges (rs : list (N * N)) (c : ascii) : bool :=
  existsb (fun r => in_range (fst r) (snd r) c) rs.

(** With the [i] flag a class contains [c] when it contains a character with
    the canonical form of [c]: [c] itself or its other case. *)
Definition in_ranges_fl (fl : flags) (rs : list (N * N)) (c : ascii) : bool :=
  if ignoreCase fl
  then in_ranges rs c || in_ranges rs (canon c) || in_ranges rs (lower c)
  else in_ranges rs c.

Definition cls_match (fl : flags) (neg : bool) (rs : list (N * N)) (c : ascii) : bool :=
  xorb neg (in_ranges_fl fl rs c).

Definition chr_match (fl : flags) (p c : ascii) : bool :=
  if ignoreCase fl then Ascii.eqb (canon p) (canon c) else Ascii.eqb p c.

Definition is_line_terminator (c : ascii) : bool :=
  Ascii.eqb c LF || Ascii.eqb c CR.

Definition at_bol (fl : flags) (st : mstate) : bool :=
  match prev st with
  | None => true
  | Some c => multiline fl && is_line_terminator c
  end.

Definition at_eol (fl : flags) (st : mstate) : bool :=
  match rest st with
  | [] => true
  | c :: _ => multiline fl && is_line_terminator c
  end.

Fixpoint get_cap (n : nat) (cs : list (nat * jsstring)) : option jsstring :=
  match cs with
  | [] => None
  | (m, s) :: cs' => if Nat.eqb m n then Some s else get_cap n cs'
  end.

(** The input consumed between two states of one match. *)
Definition consumed (st st' : mstate) : jsstring :=
  firstn (length (rest st) - length (rest st')) (rest st).

Definition set_cap (n : nat) (s : jsstring) (st : mstate) : mstate :=
  {| prev := prev st; rest := rest st; caps := (n, s) :: caps st |}.

(** A back reference matches the captured text again. *)
Fixpoint match_ref (fl : flags) (s : jsstring) (st : mstate) : option mstate :=
  match s with
  | [] => Some st
  | p :: s' =>
      match rest st with
      | c :: t => if chr_match fl p c then match_ref fl s' (advance c t st) else None
      | [] => None
      end
  end.

Definition dec_max (max : option nat) : option nat :=
  match max with
  | Some n => Some (Nat.pred n)
  | None => None
  end.

(** The optional iterations of a quantifier. An iteration that consumes
    nothing is rejected, as in the language definition, so [fuel] above the
    length of the remaining input is never used up. *)
Fixpoint rep_opt (fuel : nat) (m : cont -> cont) (max : option nat) (greedy : bool)
    (k : cont) (st : mstate) : option mstate :=
  match max with
  | Some 0 => k st
  | _ =>
      match fuel with
      | 0 => None
      | S fuel' =>
          if greedy then
            match m (fun st' =>
                       if length (rest st') <? length (rest st)
                       then rep_opt fuel' m (dec_max max) greedy k st'
                       else None) st with
            | Some x => Some x
            | None => k st
            end
          else
            match k st with
            | Some x => Some x
            | None =>
                m (fun st' =>
                     if length (rest st') <? length (rest st)
                     then rep_opt fuel' m (dec_max max) greedy k st'
                     else None) st
            end
      end
  end.

(** The mandatory iterations first. *)
Fixpoint rep (min : nat) (m : cont -> cont) (max : option nat) (greedy : bool)
    (k : cont) (st : mstate) : option mstate :=
  match min with
  | 0 => rep_opt (S (length (rest st))) m max greedy k st
  | S min' =>
      match max with
      | Some 0 => k st
      | _ => m (fun st' => rep min' m (dec_max max) greedy k st') st
      end
  end.

Fixpoint rmatch (fl : flags) (r : regex) (k : cont) (st : mstate) : option mstate :=
  match r with
  | Eps => k st
  | Chr p =>
      match rest st with
      | c :: t => if chr_match fl p c then k (advance c t st) else None
      | [] => None
      end
  | Cls neg rs =>
      match rest st with
      | c :: t => if cls_match fl neg rs c then k (advance c t st) else None
      | [] => None
      end
  | Seq r1 r2 => rmatch fl r1 (rmatch fl r2 k) st
  | Alt r1 r2 =>
      match rmatch fl r1 k st with
      | Some x => Some x
      | None => rmatch fl r2 k st
      end
  | Rep min max greedy r' => rep min (rmatch fl r') max greedy k st
  | Grp n r' => rmatch fl r' (fun st' => k (set_cap n (consumed st st') st')) st
  | Ref n =>
      match get_cap n (caps st) with
      | None => k st
      | Some s =>
          match match_ref fl s st with
          | Some st' => k st'
          | None => None
          end
      end
  | Bol => if at_bol fl st then k st else None
  | Eol => if at_eol fl st then k st else None
  | NotAhead r' =>
      match rmatch fl r' (fun st' => Some st') st with
      | Some _ => None
      | None => k st
      end
  end.

(** A regular expression object: pattern and flags. *)
Record regexp : Type := {
  source : regex;
  flag_g : bool;
  flag_i : bool;
  flag_m : bool
}.

Definition flags_of (re : regexp) : flags :=
  {| ignoreCase := flag_i re; multiline := flag_m re |}.

(** One attempt at the current position: the text matched and the captures. *)
Definition match_at (re : regexp) (pv : option ascii) (s : jsstring)
  : option (jsstring * list (nat * jsstring)) :=
  match rmatch (flags_of re) (source re) (fun st => Some st)
          {| prev := pv; rest := s; caps := [] |} with
  | Some st' => Some (firstn (length s - length (rest st')) s, caps st')
  | None => None
  end.

(** [RegExp.prototype.test] of an expression without the [g] flag: is there
    a match starting at some position. *)
Fixpoint test_from (re : regexp) (pv : option ascii) (s : jsstring) : bool :=
  match match_at re pv s with
  | Some _ => true
  | None =>
      match s with
      | [] => false
      | c :: t => test_from re (Some c) t
      end
  end.

Definition test (re : regexp) (s : jsstring) : bool := test_from re None s.

(** What a match is replaced by: a function of the matched text and of the
    captures. *)
Definition replacement : Type := jsstring -> list (nat * jsstring) -> jsstring.

Definition cap_or_empty (n : nat) (cs : list (nat * jsstring)) : jsstring :=
  match get_cap n cs with
  | Some s => s
  | None => []
  end.

(** A replacement string: literal text, [$&] and [$n]. *)
Inductive template_item : Type :=
| TLit (s : jsstring)
| TWhole                  (* $& *)
| TCap (n : nat).         (* $n *)

Definition template (items : list template_item) : replacement :=
  fun m cs =>
    flat_map (fun it =>
                match it with
                | TLit s => s
                | TWhole => m
                | TCap n => cap_or_empty n cs
                end) items.

(** A replacement function that reads the matched text only. *)
Definition by_function (g : jsstring -> jsstring) : replacement := fun m _ => g m.

(** [String.prototype.replace] with a [g] expression: every match, left to
    right, each search starting where the last match ended (one further
    after an empty match). [skip] counts the characters of the last match
    that are still to be passed over. *)
Fixpoint replace_all_from (re : regexp) (f : replacement) (pv : option ascii)
    (skip : nat) (s : jsstring) : jsstring :=
  match skip with
  | S n =>
      match s with
      | [] => []
      | c :: t => replace_all_from re f (Some c) n t
      end
  | 0 =>
      match match_at re pv s with
      | Some (m, cs) =>
          f m cs ++
          match s with
          | [] => []
          | c :: t =>
              match length m with
              | 0 => c :: replace_all_from re f (Some c) 0 t
              | S n => replace_all_from re f (Some c) n t
              end
          end
      | None =>
          match s with
          | [] => []
          | c :: t => c :: replace_all_from re f (Some c) 0 t
          end
      end
  end.

(** [replace] with an expression without [g]: the first match only. *)
Fixpoint replace_first_from (re : regexp) (f : replacement) (pv : option ascii)
    (s : jsstring) : jsstring :=
  match match_at re pv s with
  | Some (m, cs) => f m cs ++ skipn (length m) s
  | None =>
      match s with
      | [] => []
      | c :: t => c :: replace_first_from re f (Some c) t
      end
  end.

Definition replace (re : regexp) (f : replacement) (s : jsstring) : jsstring :=
  if flag_g re then replace_all_from re f None 0 s
  else replace_first_from re f None s.

(** [String.prototype.split] with a regular expression as separator: [cur]
    is the piece open since the last separator, reversed. The separators of
    the program have no capture group, so none is spliced into the result. *)
Fixpoint split_from (re : regexp) (pv : option ascii) (skip : nat)
    (cur : jsstring) (s : jsstring) : list jsstring :=
  match s with
  | [] => [rev cur]
  | c :: t =>
      match skip with
      | S n => split_from re (Some c) n cur t
      | 0 =>
          match match_at re pv s with
          | Some (m, _) =>
              match length m with
              | 0 =>
                  match cur with
                  | [] => split_from re (Some c) 0 [c] t
                  | _ => rev cur :: split_from re (Some c) 0 [c] t
                  end
              | S n => rev cur :: split_from re (Some c) n [] t
              end
          | None => split_from re (Some c) 0 (c :: cur) t
          end
      end
  end.

Definition split (re : regexp) (s : jsstring) : list jsstring :=
  match s with
  | [] =>
      match match_at re None [] with
      | Some _ => []
      | None => [[]]
      end
  | _ => split_from re None 0 [] s
  end.

(* ================================================================== *)
(** ** Configuration and posts *)

(** The part of [config.core] the two modules read. *)
Record config : Type := {
  username : jsstring;
  owner : jsstring;
  ignoreUsers : list jsstring;
  forum : jsstring;
  password : jsstring
}.

(** A post, with the attributes the code reads or writes. [raw] and
    [cleaned] are [None] when the attribute is missing. *)
Record Post : Type := {
  raw : option jsstring;
  cleaned : option jsstring;
  post_username : jsstring;
  trust_level : N;
  admin : bool;
  moderator : bool;
  staff : bool
}.

(** A call either returns or throws. *)
Inductive outcome (A : Type) : Type :=
| Ret (a : A)
| Throw (msg : jsstring).
Arguments Ret {A} a.
Arguments Throw {A} msg.

(* ================================================================== *)
(** ** commands.js *)

Record ParsedCommand : Type := {
  input : jsstring;
  command : jsstring;
  args : list jsstring;
  mention : option jsstring;
  post : option Post
}.

(** Pattern "/^!\S{3,}(\s|$)/". *)
Definition short_re : regexp :=
  {| source := cat [Bol; Chr "!"; at_least 3 cls_S; Grp 1 (Alt cls_s Eol)];
     flag_g := false; flag_i := false; flag_m := false |}.

(** Pattern "/\s+/". *)
Definition spaces_re : regexp :=
  {| source := plus cls_s; flag_g := false; flag_i := false; flag_m := false |}.

(** Pattern "/\s+$/". *)
Definition trailing_spaces_re : regexp :=
  {| source := cat [plus cls_s; Eol]; flag_g := false; flag_i := false; flag_m := false |}.

Definition empty_replacement : replacement := template [].

Definition TypeError_undefined : jsstring := str "TypeError: undefined is not an object".
Definition TypeError_null : jsstring := str "TypeError: null is not an object".

Definition parseShortCommand (line : jsstring) : outcome (option ParsedCommand) :=
  if negb (test short_re line) then Ret None
  else
    match split spaces_re line with
    | [] => Throw TypeError_undefined
    | first :: args' =>
        Ret (Some {| input := line;
                     command := toLowerCase (skipn 1 first);
                     args := args';
                     mention := None;
                     post := None |})
    end.

(** The characters with a meaning of their own in a pattern text. *)
Definition syntax_chars : jsstring := str "^$\.*+?()[]{}|".

(** The pattern a user name stands for when it is spliced into the text of a
    regular expression: a character that is no syntax character stands for
    itself and a dot for any character of a line. A name with another syntax
    character is outside this model. *)
Fixpoint name_pattern (u : jsstring) : option (list regex) :=
  match u with
  | [] => Some []
  | c :: u' =>
      match name_pattern u' with
      | None => None
      | Some rs =>
          if Ascii.eqb c "."%char then Some (dot :: rs)
          else if existsb (Ascii.eqb c) syntax_chars then None
          else Some (Chr c :: rs)
      end
  end.

(** [new RegExp('^@' + config.core.username + '\\s\\S{3,}(\\s|$)', 'i')] *)
Definition mention_re (cfg : config) : option regexp :=
  match name_pattern (username cfg) with
  | None => None
  | Some rs =>
      Some {| source := cat ([Bol; Chr "@"] ++ rs ++ [cls_s; at_least 3 cls_S; Grp 1 (Alt cls_s Eol)]);
              flag_g := false; flag_i := true; flag_m := false |}
  end.

(** [internals.mention]: [None] while it is [null]. *)
Definition parseMentionCommand (mention_rx : option regexp) (line : jsstring)
  : outcome (option ParsedCommand) :=
  match mention_rx with
  | None => Throw TypeError_null
  | Some rx =>
      if negb (test rx line) then Ret None
      else
        match split spaces_re line with
        | mention' :: command' :: args' =>
            let command'' := toLowerCase command' in
            Ret (Some {| input := replace trailing_spaces_re empty_replacement
                                    (str "!" ++ command'' ++ str " " ++ join (str " ") args');
                         command := command'';
                         args := args';
                         mention := Some mention';
                         post := None |})
        | _ => Throw TypeError_undefined
        end
  end.

(* ================================================================== *)
(** ** browser: the content normaliser *)

Definition backtick : ascii := "`"%char.

(** [code.replace(/\[(?!\x10)/g, '[\x10')] *)
Definition hidetags_re : regexp :=
  {| source := cat [Chr "["; NotAhead (Chr DLE)];
     flag_g := true; flag_i := false; flag_m := false |}.

Definition hidetags (code' : jsstring) : jsstring :=
  replace hidetags_re (template [TLit ["["%char; DLE]]) code'.

(** Pattern "/^````.*\n(?:.*\n)*```(?:\n|$)/gm". *)
Definition fencedgreedy : regexp :=
  {| source := cat [Bol; Chr backtick; Chr backtick; Chr backtick; Chr backtick;
                    star dot; Chr LF;
                    star (Seq (star dot) (Chr LF));
                    Chr backtick; Chr backtick; Chr backtick;
                    Alt (Chr LF) Eol];
     flag_g := true; flag_i := false; flag_m := true |}.

(** Pattern "/^```(?:[^`\n].* )?\n(?:.*\n)*?```(?:\n|$)/gm", written here with
    a blank before the parenthesis that closes the first group. *)
Definition fencedlazy : regexp :=
  {| source := cat [Bol; Chr backtick; Chr backtick; Chr backtick;
                    opt (Seq (Cls true [(96, 96); (10, 10)]%N) (star dot)); Chr LF;
                    star_lazy (Seq (star dot) (Chr LF));
                    Chr backtick; Chr backtick; Chr backtick;
                    Alt (Chr LF) Eol];
     flag_g := true; flag_i := false; flag_m := true |}.

(** Pattern "/(`+)[^]*?\1/g". *)
Definition inline : regexp :=
  {| source := cat [Grp 1 (plus (Chr backtick)); star_lazy any; Ref 1];
     flag_g := true; flag_i := false; flag_m := false |}.

(** Pattern "/\r\n?/g". *)
Definition newline_re : regexp :=
  {| source := cat [Chr CR; opt (Chr LF)];
     flag_g := true; flag_i := false; flag_m := false |}.

(** Pattern "/[\x00-\x08\x0b-\x1f]/g". *)
Definition control_re : regexp :=
  {| source := Cls false ctrl_ranges;
     flag_g := true; flag_i := false; flag_m := false |}.

(** Pattern "/\[quote(?:=[^[\]]* )?]/ig", written here with a blank before
    the parenthesis that closes the group. *)
Definition quote_open_re : regexp :=
  {| source := cat [lit (str "[quote");
                    opt (Seq (Chr "=") (star (Cls true [(91, 91); (93, 93)]%N)));
                    Chr "]"];
     flag_g := true; flag_i := true; flag_m := false |}.

(** Pattern "/\[\/quote]/ig". *)
Definition quote_close_re : regexp :=
  {| source := lit (str "[/quote]");
     flag_g := true; flag_i := true; flag_m := false |}.

(** Pattern "/\x02[^\x02\x03]*\x03/g". *)
Definition innermost_re : regexp :=
  {| source := cat [Chr STX; star (Cls true [(2, 2); (3, 3)]%N); Chr ETX];
     flag_g := true; flag_i := false; flag_m := false |}.

(** Pattern "/\x02[^\x1a]*\x1a/g". *)
Definition unbalanced_re : regexp :=
  {| source := cat [Chr STX; star (Cls true [(26, 26)]%N); Chr SUB];
     flag_g := true; flag_i := false; flag_m := false |}.

(** Pattern "/^(`+)\x1a`/gm". *)
Definition coalesce_re : regexp :=
  {| source := cat [Bol; Grp 1 (plus (Chr backtick)); Chr SUB; Chr backtick];
     flag_g := true; flag_i := false; flag_m := true |}.

(** The value of [edited] when the loop is entered: new lines normalised,
    control characters dropped, tags inside code hidden, quote tags marked. *)
Definition mark_quotes (text : jsstring) : jsstring :=
  replace quote_close_re (template [TWhole; TLit [ETX]])
    (replace quote_open_re (template [TLit [STX]; TWhole])
      (replace inline (by_function hidetags)
        (replace fencedlazy (by_function hidetags)
          (replace fencedgreedy (by_function hidetags)
            (replace control_re empty_replacement
              (replace newline_re (template [TLit [LF]]) text)))))).

(** [do { text = edited; edited = text.replace(..., '\x1a'); } while (edited !== text);]
    and the value of [text] after it. Every round that changes the text
    shortens it, so [fuel] above its length is never used up. *)
Fixpoint strip_loop (fuel : nat) (edited : jsstring) : jsstring :=
  match fuel with
  | 0 => edited
  | S fuel' =>
      let text := edited in
      let edited' := replace innermost_re (template [TLit [SUB]]) text in
      if negb (jsstring_eqb edited' text) then strip_loop fuel' edited' else text
  end.

Definition strip_nested (edited : jsstring) : jsstring :=
  strip_loop (S (length edited)) edited.

(** The chain that computes [post.cleaned] from [text]. *)
Definition finish (text : jsstring) : jsstring :=
  replace fencedlazy empty_replacement
    (replace fencedgreedy empty_replacement
      (replace control_re empty_replacement
        (replace coalesce_re (template [TCap 1; TLit [" "%char; backtick]])
          (replace unbalanced_re (template [TLit [SUB]]) text)))).

Definition set_cleaned (p : Post) (s : jsstring) : Post :=
  {| raw := raw p; cleaned := Some s; post_username := post_username p;
     trust_level := trust_level p; admin := admin p; moderator := moderator p;
     staff := staff p |}.

Definition cleanPostRaw (p : Post) : Post :=
  let text := match raw p with Some s => s | None => [] end in
  set_cleaned p (finish (strip_nested (mark_quotes text))).

(** [internals.mention] after [prepareParser]; [None] when the user name is
    outside the pattern model. *)
Definition prepareParser (cfg : config) : option (option regexp) :=
  match mention_re cfg with
  | Some rx => Some (Some rx)
  | None => None
  end.

(** The value given as [callback]: only whether it is a function matters. *)
Inductive callback_value : Type :=
| NotAFunction
| Function.

(** What a call of [parseCommands] does before it returns. *)
Inductive parse_effect : Type :=
| SetImmediate (c : ParsedCommand) (p : Post)        (* a dispatch is deferred *)
| Callback (err : option jsstring) (commands : list ParsedCommand).

(** [!!value] of a string or [undefined]. *)
Definition truthy (v : option jsstring) : bool :=
  match v with
  | None => false
  | Some [] => false
  | Some _ => true
  end.

(** [lines.map(parse)], stopping at the first exception. *)
Fixpoint map_outcome {A B : Type} (f : A -> outcome B) (l : list A) : outcome (list B) :=
  match l with
  | [] => Ret []
  | x :: l' =>
      match f x with
      | Throw msg => Throw msg
      | Ret y =>
          match map_outcome f l' with
          | Throw msg => Throw msg
          | Ret ys => Ret (y :: ys)
          end
      end
  end.

(** [.filter((command) => !!command)] *)
Fixpoint filter_some {A : Type} (l : list (option A)) : list A :=
  match l with
  | [] => []
  | Some x :: l' => x :: filter_some l'
  | None :: l' => filter_some l'
  end.

Definition parse_line (mention_rx : option regexp) (line : jsstring)
  : outcome (option ParsedCommand) :=
  match line with
  | "!"%char :: _ => parseShortCommand line
  | _ => parseMentionCommand mention_rx line
  end.

Definition callback_missing : jsstring := str "callback must be supplied".

Definition parseCommands (mention_rx : option regexp) (post' : option Post)
    (callback : callback_value) : outcome (list parse_effect) :=
  match callback with
  | NotAFunction => Throw callback_missing
  | Function =>
      match post' with
      | None => Ret [Callback None []]
      | Some p =>
          if negb (truthy (raw p)) then Ret [Callback None []]
          else
            let text := match raw p with Some s => s | None => [] end in
            let lines := map (replace trailing_spaces_re empty_replacement)
                             (split_char LF text) in
            match map_outcome (parse_line mention_rx) lines with
            | Throw msg => Throw msg
            | Ret parsed =>
                let commands := filter_some parsed in
                Ret (map (fun c => SetImmediate c p) commands ++ [Callback None commands])
            end
      end
  end.

(** What is emitted on the event bus: a command, or an error. *)
Inductive payload : Type :=
| PCommand (c : ParsedCommand)
| PError (msg : jsstring).

Definition unhandled (c : ParsedCommand) : jsstring :=
  str "command `" ++ command c ++ str "` was unhandled.".

Definition with_post (c : ParsedCommand) (p : Post) : ParsedCommand :=
  {| input := input c; command := command c; args := args c; mention := mention c;
     post := Some p |}.

Section Dispatch.

(** The event bus is the host's: its state, and [emit], which tells whether
    the event had a subscriber. *)
Variable bus : Type.
Variable emit : jsstring -> payload -> bus -> bool * bus.

(** The function given to [setImmediate] for one command: the emissions it
    makes, in order, and the bus after them. *)
Definition dispatch (c : ParsedCommand) (p : Post) (b : bus)
  : list (jsstring * payload) * bus :=
  let c' := with_post c p in
  let e1 := (str "command#" ++ command c', PCommand c') in
  let (handled, b1) := emit (fst e1) (snd e1) b in
  if negb handled && negb (truthy (mention c')) then
    let e2 := (str "command#ERROR", PCommand c') in
    let (handled2, b2) := emit (fst e2) (snd e2) b1 in
    if negb handled2 then
      let e3 := (str "error", PError (unhandled c')) in
      let (_, b3) := emit (fst e3) (snd e3) b2 in
      ([e1; e2; e3], b3)
    else ([e1; e2], b2)
  else ([e1], b1).

(** The deferred dispatches of a call, run in the order they were set. *)
Fixpoint run_immediates (effects : list parse_effect) (b : bus)
  : list (jsstring * payload) * bus :=
  match effects with
  | [] => ([], b)
  | SetImmediate c p :: effects' =>
      let (tr, b1) := dispatch c p b in
      let (tr', b2) := run_immediates effects' b1 in
      (tr ++ tr', b2)
  | Callback _ _ :: effects' => run_immediates effects' b
  end.

End Dispatch.

Arguments dispatch {bus} emit c p b.
Arguments run_immediates {bus} emit effects b.

(** A bus that only knows which events have a subscriber. *)
Definition subscribed (names : list jsstring) : jsstring -> payload -> unit -> bool * unit :=
  fun name _ b => (existsb (jsstring_eqb name) names, b).

(* ================================================================== *)
(** ** browser: trust levels *)

Module trustLevels.
Definition owner : N := 9.
Definition admin : N := 8.
Definition moderator : N := 7.
Definition staff : N := 6.
Definition tl4 : N := 4.
Definition tl3 : N := 3.
Definition tl2 : N := 2.
Definition tl1 : N := 1.
Definition tl0 : N := 0.
Definition ignored : N := 0.
End trustLevels.

(** [Array.prototype.indexOf]: the first index, or -1. *)
Fixpoint indexOf_from (l : list jsstring) (x : jsstring) (i : Z) : Z :=
  match l with
  | [] => (-1)%Z
  | y :: l' => if jsstring_eqb y x then i else indexOf_from l' x (i + 1)%Z
  end.

Definition indexOf (l : list jsstring) (x : jsstring) : Z := indexOf_from l x 0%Z.

Definition set_trust_level (p : Post) (level : N) : Post :=
  {| raw := raw p; cleaned := cleaned p; post_username := post_username p;
     trust_level := level; admin := admin p; moderator := moderator p;
     staff := staff p |}.

Definition setTrustLevel (cfg : config) (p : Post) : Post :=
  if jsstring_eqb (post_username p) (owner cfg) then set_trust_level p trustLevels.owner
  else if admin p then set_trust_level p trustLevels.admin
  else if moderator p then set_trust_level p trustLevels.moderator
  else if staff p then set_trust_level p trustLevels.staff
  else if (0 <=? indexOf (ignoreUsers cfg) (post_username p))%Z
       then set_trust_level p trustLevels.ignored
  else p.

(* ================================================================== *)
(** ** browser: tasks, the queue worker and the operations on it *)

(** Decoded JSON. A number keeps its text. *)
#[local] Unset Elimination Schemes.
Inductive json : Type :=
| JNull
| JBool (b : bool)
| JNumber (text : jsstring)
| JString (s : jsstring)
| JArray (items : list json)
| JObject (fields : list (jsstring * json)).
#[local] Set Elimination Schemes.

Inductive jsvalue : Type :=
| VUndefined
| VString (s : jsstring)
| VJson (j : json).

Definition jserror : Type := jsstring.

(** What the transport hands to the callback of a request: the error, if
    any, and the body as text. *)
Record response : Type := { err : option jserror; body : option jsstring }.

Inductive form_data : Type :=
| NoForm
| TimingsForm (topic_id topic_time : N) (timings : list (N * N))
| LoginForm (login' password' : jsstring).

Record task : Type := {
  method : option jsstring;
  url : jsstring;
  form : form_data;
  delay : N;
  bypassRateLimit : bool
}.

Record request : Type := {
  req_url : jsstring;
  req_method : jsstring;
  req_form : form_data
}.

(** What the worker does with one task: the request it sends, the arguments
    it calls [task.callback] with and the delay before the next task. *)
Record worked : Type := {
  sent : request;
  reply : option jserror * jsvalue;
  wait : N
}.

(** The request the worker sends for a task: a site relative URL is
    resolved against the forum, the method defaults to GET. *)
Definition request_of (cfg : config) (t : task) : request :=
  {| req_url := match url t with
                | "/"%char :: _ => forum cfg ++ url t
                | _ => url t
                end;
     req_method := if truthy (method t)
                   then match method t with Some m => m | None => [] end
                   else str "GET";
     req_form := form t |}.

Section Worker.

(** [JSON.parse]: [None] when it throws. *)
Variable JSON_parse : jsstring -> option json.

(** [try { body = JSON.parse(body); } catch (ignore) {}] *)
Definition decode (body' : option jsstring) : jsvalue :=
  let text := match body' with Some s => s | None => str "undefined" end in
  match JSON_parse text with
  | Some j => VJson j
  | None =>
      match body' with
      | Some s => VString s
      | None => VUndefined
      end
  end.

Definition queueWorker (cfg : config) (t : task) (r : response) : worked :=
  {| sent := request_of cfg t;
     reply := (err r, decode (body r));
     wait := delay t |}.

End Worker.

(** An operation on the queue: it pushes a task, whose callback goes on
    with the operation, sets a default header, or ends: by calling the
    completion callback, by the end of [async.whilst] (which calls the
    completion callback, with the error of the iteration that failed or
    with none), or by an exception in a callback. *)
Inductive proc : Type :=
| Push (t : task) (k : option jserror -> jsvalue -> proc)
| SetHeader (name : jsstring) (v : jsvalue) (p : proc)
| Return (e : option jserror) (v : jsvalue)
| Finished (e : option jserror)
| Crash (msg : jsstring).

Inductive event : Type :=
| Requested (r : request)
| HeaderSet (name : jsstring) (v : jsvalue)
| Completed (e : option jserror) (v : jsvalue)
| WhilstCompleted (e : option jserror)
| Crashed (msg : jsstring).

(** The run of an operation that has the queue to itself: [net n] is the
    answer of the transport to the [n]-th request. *)
Fixpoint run (JSON_parse : jsstring -> option json) (cfg : config)
    (net : nat -> request -> response) (n : nat) (p : proc) : list event :=
  match p with
  | Push t k =>
      let w := queueWorker JSON_parse cfg t (net n (request_of cfg t)) in
      Requested (sent w) :: run JSON_parse cfg net (S n) (k (fst (reply w)) (snd (reply w)))
  | SetHeader name v p' => HeaderSet name v :: run JSON_parse cfg net n p'
  | Return e v => [Completed e v]
  | Finished e => [WhilstCompleted e]
  | Crash msg => [Crashed msg]
  end.

Inductive ids_value : Type :=
| OneId (id : N)               (* typeof postIds === 'number' *)
| Ids (ids : list N).

Definition timings_task (delay' topicId : N) (part : list N) : task :=
  {| method := Some (str "POST");
     url := str "/topics/timings";
     form := TimingsForm topicId 4242 (map (fun v => (v, 4242%N)) part);
     delay := delay';
     bypassRateLimit := false |}.

(** [async.whilst(() => postIds.length > 0, (next) => {...}, callback)]:
    [splice(0, 200)] takes the first 200 identifiers off the list. *)
Definition batch_limit : nat := 200.

Equations readPosts_loop (delay' topicId : N) (postIds : list N) : proc
  by wf (length postIds) lt :=
  readPosts_loop delay' topicId [] := Finished None;
  readPosts_loop delay' topicId (id :: ids) :=
    Push (timings_task delay' topicId (firstn batch_limit (id :: ids)))
         (fun e _ =>
            match e with
            | Some err' => Finished (Some err')
            | None => readPosts_loop delay' topicId (skipn batch_limit (id :: ids))
            end).
Next Obligation.
  change (length (skipn 199 ids) < S (length ids)).
  rewrite length_skipn. lia.
Qed.

Definition readPosts (delay' topicId : N) (postIds : ids_value) (callback : callback_value)
  : outcome proc :=
  match callback with
  | NotAFunction => Throw callback_missing
  | Function =>
      Ret (readPosts_loop delay' topicId
             (match postIds with OneId id => [id] | Ids ids => ids end))
  end.

(** [!!v] *)
Definition number_is_zero (text : jsstring) : bool :=
  forallb (fun c => negb (in_range 49 57 c))
          ((fix mantissa (s : jsstring) : jsstring :=
              match s with
              | [] => []
              | c :: s' => if Ascii.eqb c "e"%char || Ascii.eqb c "E"%char then []
                           else c :: mantissa s'
              end) text).

Definition truthy_value (v : jsvalue) : bool :=
  match v with
  | VUndefined => false
  | VString s => truthy (Some s)
  | VJson JNull => false
  | VJson (JBool b) => b
  | VJson (JNumber text) => negb (number_is_zero text)
  | VJson (JString s) => truthy (Some s)
  | VJson _ => true
  end.

(** The member of an object decoded from JSON; the last one of that name. *)
Fixpoint member (name : jsstring) (fields : list (jsstring * json)) : option json :=
  match fields with
  | [] => None
  | (k, j) :: fields' =>
      match member name fields' with
      | Some j' => Some j'
      | None => if jsstring_eqb k name then Some j else None
      end
  end.

(** [v.csrf] and [v.user]: a property that only an object decoded from JSON
    can have. *)
Definition get_field (name : jsstring) (v : jsvalue) : outcome jsvalue :=
  match v with
  | VUndefined => Throw TypeError_undefined
  | VJson JNull => Throw TypeError_null
  | VJson (JObject fields) =>
      Ret (match member name fields with Some j => VJson j | None => VUndefined end)
  | _ => Ret VUndefined
  end.

Definition empty_object : jsvalue := VJson (JObject []).

Definition csrf_task (delay' : N) : task :=
  {| method := Some (str "GET");
     url := str "/session/csrf.json";
     form := NoForm;
     delay := delay';
     bypassRateLimit := true |}.

Definition getCSRF (delay' : N) (callback : option jserror -> proc) : proc :=
  Push (csrf_task delay')
       (fun err' data =>
          match err' with
          | Some e => callback (Some e)
          | None =>
              match get_field (str "csrf") (if truthy_value data then data else empty_object) with
              | Throw msg => Crash msg
              | Ret csrf => SetHeader (str "X-CSRF-Token") csrf (callback None)
              end
          end).

Definition login_task (cfg : config) (delay' : N) : task :=
  {| method := Some (str "POST");
     url := str "/session";
     form := LoginForm (username cfg) (password cfg);
     delay := delay';
     bypassRateLimit := false |}.

Definition doLogin (cfg : config) (delay' : N) (callback : option jserror -> jsvalue -> proc)
  : proc :=
  Push (login_task cfg delay')
       (fun err' data =>
          match err' with
          | Some e => callback (Some e) VUndefined
          | None =>
              match get_field (str "user") data with
              | Throw msg => Crash msg
              | Ret user => callback None (if truthy_value user then user else empty_object)
              end
          end).

Definition login (cfg : config) (delay' : N) (callback : callback_value) : outcome proc :=
  match callback with
  | NotAFunction => Throw callback_missing
  | Function =>
      Ret (getCSRF delay'
             (fun err' =>
                match err' with
                | Some e => Return (Some e) VUndefined
                | None => doLogin cfg delay' (fun e v => Return e v)
                end))
  end.

(* ================================================================== *)
(** ** A decoder for examples *)

(** A decoder for the part of JSON the examples need: the literals, strings
    without escapes, integers, arrays and objects. It stands in for
    [JSON.parse] where a theorem is run on an example; the theorems
    themselves hold for any decoder. *)
Definition dquote : ascii := "034"%char.

Fixpoint json_skip_ws (s : jsstring) : jsstring :=
  match s with
  | c :: t =>
      if Ascii.eqb c " "%char || Ascii.eqb c LF || Ascii.eqb c CR || Ascii.eqb c "009"%char
      then json_skip_ws t else s
  | [] => []
  end.

Fixpoint json_string (acc s : jsstring) : option (jsstring * jsstring) :=
  match s with
  | [] => None
  | c :: t =>
      if Ascii.eqb c dquote then Some (rev acc, t)
      else if Ascii.eqb c "\"%char || in_range 0 31 c then None
      else json_string (c :: acc) t
  end.

Fixpoint json_digits (acc s : jsstring) : jsstring * jsstring :=
  match s with
  | c :: t => if in_range 48 57 c then json_digits (c :: acc) t else (rev acc, s)
  | [] => (rev acc, [])
  end.

Definition json_number (s : jsstring) : option (json * jsstring) :=
  let (sign, s1) := match s with
                    | "-"%char :: t => (["-"%char], t)
                    | _ => ([], s)
                    end in
  match json_digits [] s1 with
  | ([], _) => None
  | ("0"%char :: _ :: _, _) => None
  | (ds, r) => Some (JNumber (sign ++ ds), r)
  end.

Fixpoint json_value (fuel : nat) (s : jsstring) : option (json * jsstring) :=
  match fuel with
  | 0 => None
  | S fuel' =>
      match json_skip_ws s with
      | "n"%char :: "u"%char :: "l"%char :: "l"%char :: r => Some (JNull, r)
      | "t"%char :: "r"%char :: "u"%char :: "e"%char :: r => Some (JBool true, r)
      | "f"%char :: "a"%char :: "l"%char :: "s"%char :: "e"%char :: r => Some (JBool false, r)
      | "["%char :: r =>
          match json_skip_ws r with
          | "]"%char :: r' => Some (JArray [], r')
          | _ => json_items fuel' [] r
          end
      | "{"%char :: r =>
          match json_skip_ws r with
          | "}"%char :: r' => Some (JObject [], r')
          | _ => json_members fuel' [] r
          end
      | c :: r =>
          if Ascii.eqb c dquote then
            match json_string [] r with
            | Some (x, r') => Some (JString x, r')
            | None => None
            end
          else json_number (c :: r)
      | [] => None
      end
  end
with json_items (fuel : nat) (acc : list json) (s : jsstring) : option (json * jsstring) :=
  match fuel with
  | 0 => None
  | S fuel' =>
      match json_value fuel' s with
      | Some (v, r) =>
          match json_skip_ws r with
          | ","%char :: r' => json_items fuel' (v :: acc) r'
          | "]"%char :: r' => Some (JArray (rev (v :: acc)), r')
          | _ => None
          end
      | None => None
      end
  end
with json_members (fuel : nat) (acc : list (jsstring * json)) (s : jsstring)
  : option (json * jsstring) :=
  match fuel with
  | 0 => None
  | S fuel' =>
      match json_skip_ws s with
      | c :: r =>
          if Ascii.eqb c dquote then
            match json_string [] r with
            | Some (key, r1) =>
                match json_skip_ws r1 with
                | ":"%char :: r2 =>
                    match json_value fuel' r2 with
                    | Some (v, r3) =>
                        match json_skip_ws r3 with
                        | ","%char :: r4 => json_members fuel' ((key, v) :: acc) r4
                        | "}"%char :: r4 => Some (JObject (rev ((key, v) :: acc)), r4)
                        | _ => None
                        end
                    | None => None
                    end
                | _ => None
                end
            | None => None
            end
          else None
      | [] => None
      end
  end.

Definition json_decode (s : jsstring) : option json :=
  match json_value (S (S (length s))) s with
  | Some (v, r) =>
      match json_skip_ws r with
      | [] => Some v
      | _ => None
      end
  | None => None
  end.

(** A configuration and a post for the examples. *)
Definition example_config : config :=
  {| username := str "BotName";
     owner := str "accalia";
     ignoreUsers := [str "blakeyrat"];
     forum := str "https://what.thedailywtf.com";
     password := str "secret" |}.

Definition post_of (text : jsstring) : Post :=
  {| raw := Some text; cleaned := None; post_username := str "someone";
     trust_level := 1; admin := false; moderator := false; staff := false |}.

(* ================================================================== *)
(** ** Notions the properties are stated with *)

(** *** Kinds of characters *)

Definition is_control (c : ascii) : bool := in_ranges ctrl_ranges c.

Definition no_control (c : ascii) : bool := negb (is_control c).

(** Neither a control character (a carriage return is one) nor a backtick. *)
Definition calm (c : ascii) : bool := negb (is_control c) && negb (Ascii.eqb c backtick).

(** A character of plain text: calm, and no opening bracket. *)
Definition plain (c : ascii) : bool := calm c && negb (Ascii.eqb c "["%char).

(** A character of a line of code: calm, and no new line. *)
Definition line_char (c : ascii) : bool := calm c && negb (Ascii.eqb c LF).

Definition not_backtick (c : ascii) : bool := negb (Ascii.eqb backtick c).

Definition nostx (c : ascii) : bool := negb (Ascii.eqb STX c).

Definition is_space (c : ascii) : bool := in_ranges ws_ranges c.

Definition not_space (c : ascii) : bool := negb (is_space c).

Definition inner_char (c : ascii) : bool :=
  cls_match (flags_of innermost_re) true [(2, 2); (3, 3)]%N c.

Definition fl_lazy : flags := flags_of fencedlazy.

Definition fl_inline : flags := flags_of inline.

Definition fl_mention : flags := {| ignoreCase := true; multiline := false |}.

Definition dot_char (c : ascii) : bool := cls_match fl_lazy true [(10, 10); (13, 13)]%N c.

(** *** Positions in a text *)

(** The character before the position reached after [P]. *)
Definition prev_after (pv : option ascii) (P : jsstring) : option ascii :=
  fold_left (fun _ c => Some c) P pv.

(** What follows [P] starts a line. *)
Definition at_line_start (P : jsstring) : bool :=
  match prev_after None P with
  | None => true
  | Some c => Ascii.eqb c LF
  end.

Definition bol_ok (pv : option ascii) : Prop := pv = None \/ pv = Some LF.

(** *** Nested quotes *)

Definition nested_text (A B C D E : jsstring) : jsstring :=
  A ++ str "[quote]" ++ B ++ str "[quote]" ++ C ++ str "[/quote]" ++ D ++ str "[/quote]" ++ E.

Definition nested_marked (A B C D E : jsstring) : jsstring :=
  A ++ STX :: str "[quote]" ++ B ++ STX :: str "[quote]" ++ C ++ str "[/quote]" ++ ETX ::
  D ++ str "[/quote]" ++ ETX :: E.

Definition nested_round1 (A B D E : jsstring) : jsstring :=
  A ++ STX :: str "[quote]" ++ B ++ SUB :: D ++ str "[/quote]" ++ ETX :: E.

Definition nested_round2 (A E : jsstring) : jsstring := A ++ SUB :: E.

(** *** Fenced code blocks *)

Definition fence : jsstring := [backtick; backtick; backtick].

Fixpoint unlines (ls : list jsstring) : jsstring :=
  match ls with
  | [] => []
  | l :: ls' => l ++ LF :: unlines ls'
  end.

(** A fenced block: the opening fence with its info string, the lines of
    code and the closing fence, each on a line of its own. *)
Definition block (info : jsstring) (ls : list jsstring) : jsstring :=
  fence ++ info ++ LF :: unlines ls ++ fence ++ [LF].

(** The text between the two fences. *)
Definition mid (info : jsstring) (ls : list jsstring) : jsstring := info ++ LF :: unlines ls.

(** A data link escape after every opening bracket. *)
Fixpoint hide (s : jsstring) : jsstring :=
  match s with
  | [] => []
  | c :: t => if Ascii.eqb "["%char c then "["%char :: DLE :: hide t else c :: hide t
  end.

Definition fenced_text (P info : jsstring) (ls : list jsstring) (T : jsstring) : jsstring :=
  P ++ block info ls ++ T.

Definition fenced_hidden (P info : jsstring) (ls : list jsstring) (T : jsstring) : jsstring :=
  P ++ fence ++ hide (mid info ls) ++ fence ++ LF :: T.

(** The end of a fenced block in the patterns: the closing fence on a line
    of its own. *)
Definition fence_close : regex :=
  cat [Chr backtick; Chr backtick; Chr backtick; Alt (Chr LF) Eol].

(** The pattern after the info string: the end of the opening line, the
    lines of the block and the closing fence. *)
Definition fence_body : regex :=
  cat [Chr LF; star_lazy (Seq (star dot) (Chr LF));
       Chr backtick; Chr backtick; Chr backtick; Alt (Chr LF) Eol].

(** *** Commands *)

(** The pattern of a mention after the name. *)
Definition mention_tail : list regex := [cls_s; at_least 3 cls_S; Grp 1 (Alt cls_s Eol)].

Definition mention_line (name word : jsstring) : jsstring :=
  str "@" ++ name ++ str " " ++ word ++ str " thing".

(** The emissions of the error event in a trace. *)
Definition error_reports (tr : list (jsstring * payload)) : list (jsstring * payload) :=
  filter (fun e => jsstring_eqb (fst e) (str "error")) tr.

Definition first_event (c : ParsedCommand) (p : Post) : jsstring * payload :=
  (str "command#" ++ command c, PCommand (with_post c p)).

Definition fallback_event (c : ParsedCommand) (p : Post) : jsstring * payload :=
  (str "command#ERROR", PCommand (with_post c p)).

Definition report_event (c : ParsedCommand) : jsstring * payload :=
  (str "error", PError (unhandled c)).

Section BusNotions.

Variable bus : Type.
Variable emit : jsstring -> payload -> bus -> bool * bus.
Variable c : ParsedCommand.
Variable p : Post.
Variable b : bus.

(** Had the event of the command a subscriber; the bus after it; had the
    fallback event one. *)
Definition handled_first : bool :=
  fst (emit (fst (first_event c p)) (snd (first_event c p)) b).

Definition bus_after_first : bus :=
  snd (emit (fst (first_event c p)) (snd (first_event c p)) b).

Definition handled_fallback : bool :=
  fst (emit (fst (fallback_event c p)) (snd (fallback_event c p)) bus_after_first).

End BusNotions.

Arguments handled_first {bus} emit c p b.
Arguments bus_after_first {bus} emit c p b.
Arguments handled_fallback {bus} emit c p b.

(** *** Batches *)

(** The list cut into slices of [batch_limit]. *)
Equations chunks (l : list N) : list (list N) by wf (length l) lt :=
  chunks [] := [];
  chunks (x :: l) := firstn batch_limit (x :: l) :: chunks (skipn batch_limit (x :: l)).
Next Obligation.
  change (length (skipn 199 l) < S (length l)).
  rewrite length_skipn. lia.
Qed.

(** The request of one batch. *)
Definition batch_event (cfg : config) (delay' topicId : N) (part : list N) : event :=
  Requested (request_of cfg (timings_task delay' topicId part)).

(** *** The matcher *)

(** A matcher that consumes one character passing [p]. *)
Definition one_char (p : ascii -> bool) (m : cont -> cont) : Prop :=
  forall k pv s cs,
    m k {| prev := pv; rest := s; caps := cs |} =
    match s with
    | c :: t => if p c then k {| prev := Some c; rest := t; caps := cs |} else None
    | [] => None
    end.

(** The outcome of a greedy run over [W]: the continuation is tried after
    all of [W] first, then after ever shorter parts of it. *)
Fixpoint greedy_run (k : cont) (cs : list (nat * jsstring)) (pv : option ascii)
    (W X : jsstring) : option mstate :=
  match W with
  | [] => k {| prev := pv; rest := X; caps := cs |}
  | w :: W' =>
      match greedy_run k cs (Some w) W' X with
      | Some x => Some x
      | None => k {| prev := pv; rest := w :: W' ++ X; caps := cs |}
      end
  end.

(** The outcome of a lazy run over [W]: the continuation is tried at once,
    then after ever longer parts of [W]. *)
Fixpoint lazy_run (k : cont) (cs : list (nat * jsstring)) (pv : option ascii)
    (W X : jsstring) : option mstate :=
  match W with
  | [] => k {| prev := pv; rest := X; caps := cs |}
  | w :: W' =>
      match k {| prev := pv; rest := w :: W' ++ X; caps := cs |} with
      | Some x => Some x
      | None => lazy_run k cs (Some w) W' X
      end
  end.

(** The run of characters passing [p] stops before [X]. *)
Definition stops (p : ascii -> bool) (X : jsstring) : Prop :=
  match X with
  | [] => True
  | c :: _ => p c = false
  end.

(** No match of [re] starts with the character [c]. *)
Definition dead (re : regexp) (c : ascii) : Prop :=
  forall pv t, match_at re pv (c :: t) = None.

(** No match of [re] is empty at the end of the input. *)
Definition dead_end (re : regexp) : Prop :=
  forall pv, match_at re pv [] = None.

(** A matcher only looks at what its continuation returns. *)
Definition extensional (m : cont -> cont) : Prop :=
  forall k1 k2, (forall st, k1 st = k2 st) -> forall st, m k1 st = m k2 st.

(** What a matcher passes on to its continuation is [n] characters further
    at least. *)
Definition consumes (n : nat) (m : cont -> cont) : Prop :=
  forall k st x, m k st = Some x ->
    exists st1, k st1 = Some x /\ length (rest st1) + n <= length (rest st).

(** *** Words and blanks *)

(** A run of blanks: one blank at least. *)
Definition blank_run (s : jsstring) : bool :=
  match s with
  | [] => false
  | _ => forallb is_space s
  end.

(** A word: one character at least, none of them a blank. *)
Definition is_word (s : jsstring) : bool :=
  match s with
  | [] => false
  | _ => forallb not_space s
  end.

(** The pieces of a text between its runs of blanks. [cur] is the piece
    that is open, reversed; [in_blank] tells that the last character was a
    blank. *)
Fixpoint pieces_from (cur : jsstring) (in_blank : bool) (s : jsstring) : list jsstring :=
  match s with
  | [] => [rev cur]
  | c :: t =>
      if is_space c then
        if in_blank then pieces_from [] true t else rev cur :: pieces_from [] true t
      else pieces_from (c :: cur) false t
  end.

Definition pieces (s : jsstring) : list jsstring := pieces_from [] false s.

(** Words, each after the run of blanks that separates it from what is
    before it. *)
Definition spaced (tail : list (jsstring * jsstring)) : jsstring :=
  flat_map (fun sa => fst sa ++ snd sa) tail.

Definition well_spaced (tail : list (jsstring * jsstring)) : bool :=
  forallb (fun sa => blank_run (fst sa) && is_word (snd sa)) tail.

(** The text without the blanks at its end. *)
Fixpoint rstrip (s : jsstring) : jsstring :=
  match s with
  | [] => []
  | c :: t =>
      match rstrip t with
      | [] => if is_space c then [] else [c]
      | r => c :: r
      end
  end.

(** The pattern of a command word and of what ends it. *)
Definition word_tail : list regex := [at_least 3 cls_S; Grp 1 (Alt cls_s Eol)].

(** A text the pattern of the user name [u] passes: a dot of the name
    stands for any character that ends no line, another character for
    itself in either letter case. *)
Fixpoint name_like (u u' : jsstring) : bool :=
  match u, u' with
  | [], [] => true
  | c :: u1, c' :: u1' =>
      (if Ascii.eqb c "."%char then negb (is_line_terminator c')
       else Ascii.eqb (canon c) (canon c')) && name_like u1 u1'
  | _, _ => false
  end.

(** The words joined by one blank each, as pairs of blanks and word. *)
Definition single_spaced (l : list jsstring) : list (jsstring * jsstring) :=
  map (fun a => ([" "%char], a)) l.

(** A character of a user name that stands for itself in the pattern and
    is no blank. *)
Definition name_char (c : ascii) : bool := not_space c && negb (Ascii.eqb c "."%char).

(** The command a short form line gives. *)
Definition short_form (c : ParsedCommand) : ParsedCommand :=
  {| input := input c; command := command c; args := args c; mention := None; post := None |}.

(** The effects of [parseCommands] on a post that gives the commands [cs]. *)
Definition deferred (post' : option Post) (cs : list ParsedCommand) : list parse_effect :=
  match post' with
  | Some p => map (fun c => SetImmediate c p) cs
  | None => []
  end.

(** The pattern of the mention for the configuration of the examples. *)
Definition example_mention : regexp :=
  {| source := cat ([Bol; Chr "@"] ++ map Chr (str "BotName") ++ mention_tail);
     flag_g := false; flag_i := true; flag_m := false |}.

(** A configuration whose user name has a dot. *)
Definition dotted_config : config :=
  {| username := str "john.doe";
     owner := str "accalia";
     ignoreUsers := [];
     forum := str "https://what.thedailywtf.com";
     password := str "secret" |}.

Definition dotted_mention : regexp :=
  {| source := cat ([Bol; Chr "@"] ++ map Chr (str "john") ++ [dot] ++ map Chr (str "doe")
                    ++ mention_tail);
     flag_g := false; flag_i := true; flag_m := false |}.

(** The lines of a post, as [parseCommands] cuts them. *)
Definition lines_of (post' : option Post) : list jsstring :=
  match post' with
  | Some p =>
      match raw p with
      | Some text => split_char LF text
      | None => []
      end
  | None => []
  end.

(** *** Texts with hidden tags *)

(** Every opening bracket has a data link escape after it. *)
Fixpoint hidden (s : jsstring) : bool :=
  match s with
  | [] => true
  | c :: t =>
      (if Ascii.eqb "["%char c
       then match t with
            | d :: _ => Ascii.eqb DLE d
            | [] => false
            end
       else true) && hidden t
  end.

(** A data link escape after every opening bracket that has none. *)
Fixpoint hide_open (s : jsstring) : jsstring :=
  match s with
  | [] => []
  | c :: t =>
      if Ascii.eqb "["%char c then
        match t with
        | d :: _ => if Ascii.eqb DLE d then c :: hide_open t else c :: DLE :: hide_open t
        | [] => [c; DLE]
        end
      else c :: hide_open t
  end.

(** *** Line ends *)

(** The text with the line ends of Windows, and with those of the old
    Macintosh. *)
Definition to_crlf (s : jsstring) : jsstring :=
  flat_map (fun c => if Ascii.eqb c LF then [CR; LF] else [c]) s.

Definition to_cr (s : jsstring) : jsstring :=
  map (fun c => if Ascii.eqb c LF then CR else c) s.

Definition not_CR (c : ascii) : bool := negb (Ascii.eqb CR c).

(** *** Quotes in quotes *)

(** The word of a quote tag, in any letter case. *)
Definition quote_word (kw : jsstring) : bool := jsstring_eqb (map canon kw) (str "QUOTE").

(** A character of the attribute of an opening tag: plain, and no closing
    bracket. *)
Definition attr_char (c : ascii) : bool := plain c && negb (Ascii.eqb c "]"%char).

(** The two tags of a quote as they are written. *)
Record tag : Type := {
  open_word : jsstring;
  attribute : option jsstring;
  close_word : jsstring
}.

Definition open_tag (t : tag) : jsstring :=
  "["%char :: open_word t ++
  match attribute t with
  | Some a => "="%char :: a
  | None => []
  end ++ ["]"%char].

Definition close_tag (t : tag) : jsstring := "["%char :: "/"%char :: close_word t ++ ["]"%char].

Definition tag_ok (t : tag) : bool :=
  quote_word (open_word t) && quote_word (close_word t) &&
  match attribute t with
  | Some a => forallb attr_char a
  | None => true
  end.

(** A text with quotes: text, a quote with its body, and the marker of a
    block that was removed, each followed by the rest of the text. *)
Inductive doc : Type :=
| Done
| Txt (s : jsstring) (rest : doc)
| Gone (rest : doc)
| Quote (t : tag) (body rest : doc).

(** The text as it is written. *)
Fixpoint render (d : doc) : jsstring :=
  match d with
  | Done => []
  | Txt s r => s ++ render r
  | Gone r => SUB :: render r
  | Quote t b r => open_tag t ++ render b ++ close_tag t ++ render r
  end.

(** The text with the opening tags marked, and with both tags marked. *)
Fixpoint opened (d : doc) : jsstring :=
  match d with
  | Done => []
  | Txt s r => s ++ opened r
  | Gone r => SUB :: opened r
  | Quote t b r => STX :: open_tag t ++ opened b ++ close_tag t ++ opened r
  end.

Fixpoint marked (d : doc) : jsstring :=
  match d with
  | Done => []
  | Txt s r => s ++ marked r
  | Gone r => SUB :: marked r
  | Quote t b r => STX :: open_tag t ++ marked b ++ close_tag t ++ ETX :: marked r
  end.

(** The text outside of all quotes. *)
Fixpoint top (d : doc) : jsstring :=
  match d with
  | Done => []
  | Txt s r => s ++ top r
  | Gone r => top r
  | Quote _ _ r => top r
  end.

(** Plain text and well-formed tags; [written] for a text as it is posted,
    without marker. *)
Fixpoint well_marked (d : doc) : bool :=
  match d with
  | Done => true
  | Txt s r => forallb plain s && well_marked r
  | Gone r => well_marked r
  | Quote t b r => tag_ok t && well_marked b && well_marked r
  end.

Fixpoint written (d : doc) : bool :=
  match d with
  | Done => true
  | Txt s r => forallb plain s && written r
  | Gone _ => false
  | Quote t b r => tag_ok t && written b && written r
  end.

(** No quote in the text. *)
Fixpoint leaf (d : doc) : bool :=
  match d with
  | Done => true
  | Txt _ r => leaf r
  | Gone r => leaf r
  | Quote _ _ _ => false
  end.

(** How deep the quotes are nested. *)
Fixpoint depth (d : doc) : nat :=
  match d with
  | Done => 0
  | Txt _ r => depth r
  | Gone r => depth r
  | Quote _ b r => Nat.max (S (depth b)) (depth r)
  end.

(** One round of the loop: the quotes without a quote in them go. *)
Fixpoint round (d : doc) : doc :=
  match d with
  | Done => Done
  | Txt s r => Txt s (round r)
  | Gone r => Gone (round r)
  | Quote t b r => if leaf b then Gone (round r) else Quote t (round b) (round r)
  end.

(** Quotes nested [n] deep around a text. *)
Fixpoint nest (t : tag) (n : nat) (s : jsstring) : doc :=
  match n with
  | 0 => Txt s Done
  | S n' => Quote t (nest t n' s) Done
  end.

(** Tags for the examples. *)
Definition plain_tag : tag :=
  {| open_word := str "quote"; attribute := None; close_word := str "quote" |}.

Definition full_tag : tag :=
  {| open_word := str "QUOTE";
     attribute := Some (dquote :: str "accalia, post:3, topic:42" ++ [dquote]);
     close_word := str "Quote" |}.

(** *** Inline code *)

(** Code between two backticks. *)
Definition inline_code (W : jsstring) : jsstring := backtick :: W ++ [backtick].

Definition not_SUB (c : ascii) : bool :=
  cls_match (flags_of unbalanced_re) true [(26, 26)]%N c.

(* ================================================================== *)
(** ** browser: the links of a post and [cleanPost] *)

(** The text of a number that is a non-negative integer: its decimal
    numeral, as long as the number is one that JavaScript holds exactly. *)
Definition decimal (n : N) : jsstring :=
  list_ascii_of_string (NilZero.string_of_uint (N.to_uint n)).

(** The attributes of a post that [setPostUrl] reads and writes.
    [reply_to_post_number] is [None] when the attribute is [null]; the two
    links are [None] as long as they are not set. *)
Record PostLinks : Type := {
  topic_slug : jsstring;
  topic_id : N;
  post_number : N;
  reply_to_post_number : option N;
  post_url : option jsstring;
  reply_to : option jsstring
}.

(** [post.reply_to_post_number || ''], as text. *)
Definition reply_text (n : option N) : jsstring :=
  match n with
  | Some k => if (k =? 0)%N then [] else decimal k
  | None => []
  end.

Definition setPostUrl (cfg : config) (l : PostLinks) : PostLinks :=
  let url1 := forum cfg ++ str "/t/" ++ topic_slug l ++ str "/" ++ decimal (topic_id l) ++ str "/" in
  let reply_to' := url1 ++ reply_text (reply_to_post_number l) in
  let url2 := url1 ++ decimal (post_number l) in
  {| topic_slug := topic_slug l; topic_id := topic_id l; post_number := post_number l;
     reply_to_post_number := reply_to_post_number l;
     post_url := Some url2;
     reply_to := Some reply_to' |}.

(** A post with the attributes the three steps of [cleanPost] work on. *)
Record FullPost : Type := {
  content : Post;
  links : PostLinks
}.

Definition on_content (f : Post -> Post) (fp : FullPost) : FullPost :=
  {| content := f (content fp); links := links fp |}.

Definition on_links (f : PostLinks -> PostLinks) (fp : FullPost) : FullPost :=
  {| content := content fp; links := f (links fp) |}.

Definition cleanPost (cfg : config) (fp : FullPost) : FullPost :=
  on_links (setPostUrl cfg) (on_content (setTrustLevel cfg) (on_content cleanPostRaw fp)).

(** The link to the topic of a post. *)
Definition topic_link (cfg : config) (l : PostLinks) : jsstring :=
  forum cfg ++ str "/t/" ++ topic_slug l ++ str "/" ++ decimal (topic_id l) ++ str "/".

Definition same_topic (l1 l2 : PostLinks) : Prop :=
  topic_slug l1 = topic_slug l2 /\ topic_id l1 = topic_id l2.

(** Posts for the examples. *)
Definition example_links (number : N) (reply : option N) : PostLinks :=
  {| topic_slug := str "the-topic"; topic_id := 1000; post_number := number;
     reply_to_post_number := reply; post_url := None; reply_to := None |}.

(* ================================================================== *)
(** ** browser: notifications *)

Definition TypeError_not_a_function : jsstring := str "TypeError: callback is not a function".

(** A call of a completion callback that was not checked to be a
    function. *)
Definition call (callback : callback_value) (e : option jserror) (v : jsvalue) : proc :=
  match callback with
  | Function => Return e v
  | NotAFunction => Crash TypeError_not_a_function
  end.

Definition notifications_task (delay' : N) : task :=
  {| method := Some (str "GET");
     url := str "/notifications.json";
     form := NoForm;
     delay := delay';
     bypassRateLimit := false |}.

Definition mark_read_task (delay' : N) : task :=
  {| method := Some (str "PUT");
     url := str "/notifications/mark-read";
     form := NoForm;
     delay := delay';
     bypassRateLimit := false |}.

Definition getNotifications (delay' : N) (callback : callback_value) : proc :=
  Push (notifications_task delay')
       (fun err' notifications =>
          match err' with
          | Some e => call callback (Some e) VUndefined
          | None =>
              Push (mark_read_task delay')
                   (fun err2 _ => call callback err2 notifications)
          end).

(** Transports for the examples: every request answered with the same
    body, and the answers given by a list of bodies, in order. *)
Definition answer_all (text : jsstring) : nat -> request -> response :=
  fun _ _ => {| err := None; body := Some text |}.

Definition answer_each (texts : list jsstring) : nat -> request -> response :=
  fun n _ => {| err := None; body := nth_error texts n |}.

(** Bodies for the examples: an object with one member that is a text. *)
Definition json_text_member (name value : jsstring) : jsstring :=
  str "{" ++ dquote :: name ++ dquote :: str ":" ++ dquote :: value ++ dquote :: str "}".

(* ================================================================== *)
(** ** browser: [cleanPost] on a decoded body *)

(** The cleaned text of a raw text, as [cleanPostRaw] computes it. *)
Definition clean_text (text : jsstring) : jsstring :=
  finish (strip_nested (mark_quotes text)).

Definition TypeError_replace : jsstring := str "TypeError: text.replace is not a function".
Definition TypeError_primitive : jsstring :=
  str "TypeError: Cannot create property on a primitive value".

(** [delete post.name] *)
Fixpoint remove_member (name : jsstring) (fields : list (jsstring * json))
  : list (jsstring * json) :=
  match fields with
  | [] => []
  | (k, j) :: fields' =>
      if jsstring_eqb k name then remove_member name fields'
      else (k, j) :: remove_member name fields'
  end.

(** [post.name = v]: the member is replaced where it stands, or added at
    the end. *)
Fixpoint set_member (name : jsstring) (v : json) (fields : list (jsstring * json))
  : list (jsstring * json) :=
  match fields with
  | [] => [(name, v)]
  | (k, j) :: fields' =>
      if jsstring_eqb k name then (k, v) :: remove_member name fields'
      else (k, j) :: set_member name v fields'
  end.

(** [!!post.name] *)
Definition truthy_member (m : option json) : bool :=
  match m with
  | Some j => truthy_value (VJson j)
  | None => false
  end.

(** An object or an array after [cleanPost]: an array keeps its items and
    gets the members that are set on it. *)
Record cleaned_post : Type := {
  items_of : option (list json);
  members : list (jsstring * json)
}.

Section JsonPost.

(** The text of a JSON number as a value of JavaScript prints. *)
Variable number_text : jsstring -> jsstring.

Variable cfg : config.

(** ['' + v] *)
Fixpoint to_text (j : json) : jsstring :=
  match j with
  | JNull => str "null"
  | JBool true => str "true"
  | JBool false => str "false"
  | JNumber text => number_text text
  | JString s => s
  | JArray items =>
      join (str ",") (map (fun i => match i with JNull => [] | _ => to_text i end) items)
  | JObject _ => str "[object Object]"
  end.

Definition member_text (m : option json) : jsstring :=
  match m with
  | Some j => to_text j
  | None => str "undefined"
  end.

Definition cleanPostRaw_members (fields : list (jsstring * json))
  : outcome (list (jsstring * json)) :=
  let raw' := member (str "raw") fields in
  match (if truthy_member raw' then raw' else Some (JString [])) with
  | Some (JString text) => Ret (set_member (str "cleaned") (JString (clean_text text)) fields)
  | _ => Throw TypeError_replace
  end.

Definition level (n : N) : json := JNumber (decimal n).

Definition setTrustLevel_members (fields : list (jsstring * json)) : list (jsstring * json) :=
  let name := member (str "username") fields in
  if match name with Some (JString u) => jsstring_eqb u (owner cfg) | _ => false end
  then set_member (str "trust_level") (level trustLevels.owner) fields
  else if truthy_member (member (str "admin") fields)
  then set_member (str "trust_level") (level trustLevels.admin) fields
  else if truthy_member (member (str "moderator") fields)
  then set_member (str "trust_level") (level trustLevels.moderator) fields
  else if truthy_member (member (str "staff") fields)
  then set_member (str "trust_level") (level trustLevels.staff) fields
  else if match name with
          | Some (JString u) => (0 <=? indexOf (ignoreUsers cfg) u)%Z
          | _ => false
          end
  then set_member (str "trust_level") (level trustLevels.ignored) fields
  else fields.

Definition setPostUrl_members (fields : list (jsstring * json)) : list (jsstring * json) :=
  let url1 := forum cfg ++ str "/t/" ++ member_text (member (str "topic_slug") fields) ++
              str "/" ++ member_text (member (str "topic_id") fields) ++ str "/" in
  let fields1 := set_member (str "url") (JString url1) fields in
  let reply := member (str "reply_to_post_number") fields1 in
  let fields2 := set_member (str "reply_to")
                   (JString (url1 ++ (if truthy_member reply then member_text reply else [])))
                   fields1 in
  set_member (str "url") (JString (url1 ++ member_text (member (str "post_number") fields2)))
    fields2.

Definition cleanPost_members (fields : list (jsstring * json))
  : outcome (list (jsstring * json)) :=
  match cleanPostRaw_members fields with
  | Throw msg => Throw msg
  | Ret fields' => Ret (setPostUrl_members (setTrustLevel_members fields'))
  end.

(** [cleanPost] on what the worker hands to the callback of a task. A
    primitive value has no members and takes none; the members of an array
    are those set on it. *)
Definition cleanPost_value (post : jsvalue) : outcome cleaned_post :=
  match post with
  | VUndefined => Throw TypeError_undefined
  | VJson JNull => Throw TypeError_null
  | VJson (JObject fields) =>
      match cleanPost_members fields with
      | Throw msg => Throw msg
      | Ret fields' => Ret {| items_of := None; members := fields' |}
      end
  | VJson (JArray items) =>
      match cleanPost_members [] with
      | Throw msg => Throw msg
      | Ret fields' => Ret {| items_of := Some items; members := fields' |}
      end
  | _ => Throw TypeError_primitive
  end.

End JsonPost.

(** A post as the forum sends it. *)
Definition optional_member (name : jsstring) (v : option jsstring) : list (jsstring * json) :=
  match v with
  | Some s => [(name, JString s)]
  | None => []
  end.

Definition post_members (fp : FullPost) : list (jsstring * json) :=
  optional_member (str "raw") (raw (content fp)) ++
  [(str "username", JString (post_username (content fp)));
   (str "trust_level", JNumber (decimal (trust_level (content fp))));
   (str "admin", JBool (admin (content fp)));
   (str "moderator", JBool (moderator (content fp)));
   (str "staff", JBool (staff (content fp)));
   (str "topic_slug", JString (topic_slug (links fp)));
   (str "topic_id", JNumber (decimal (topic_id (links fp))));
   (str "post_number", JNumber (decimal (post_number (links fp))));
   (str "reply_to_post_number",
    match reply_to_post_number (links fp) with
    | Some n => JNumber (decimal n)
    | None => JNull
    end)] ++
  optional_member (str "cleaned") (cleaned (content fp)) ++
  optional_member (str "url") (post_url (links fp)) ++
  optional_member (str "reply_to") (reply_to (links fp)).

(** The members of a post that [cleanPost] reads or writes. *)
Definition post_names : list jsstring :=
  [str "raw"; str "username"; str "trust_level"; str "admin"; str "moderator"; str "staff";
   str "topic_slug"; str "topic_id"; str "post_number"; str "reply_to_post_number";
   str "cleaned"; str "url"; str "reply_to"].

(** An object that has these members as the post [fp] has them, and any
    others. *)
Definition describes (fp : FullPost) (fields : list (jsstring * json)) : Prop :=
  Forall (fun name => member name fields = member name (post_members fp)) post_names.

(** The values of [post.raw] that [cleanPostRaw] can work on. *)
Definition raw_ok (m : option json) : Prop :=
  truthy_member m = false \/ exists s, m = Some (JString s).

(** A post for the examples. *)
Definition example_post : FullPost :=
  {| content := {| raw := Some (str "a[quote]b[/quote]c"); cleaned := None;
                   post_username := str "boss"; trust_level := 2;
                   admin := false; moderator := true; staff := true |};
     links := example_links 7 (Some 3%N) |}.

Definition example_forum : config :=
  {| username := str "BotName"; owner := str "boss"; ignoreUsers := [];
     forum := str "https://forum.example"; password := str "secret" |}.

(* ================================================================== *)
(** ** browser: the operations that write and fetch a post *)

(** An argument of an operation, as far as the operations tell their
    arguments apart. A function is given by its source text, which is what
    stands for it where a text is built. *)
Inductive argument : Type :=
| AUndefined
| ANumber (n : N)
| AString (s : jsstring)
| AFunction (source : jsstring).

Definition is_function (a : argument) : bool :=
  match a with
  | AFunction _ => true
  | _ => false
  end.

Definition is_undefined (a : argument) : bool :=
  match a with
  | AUndefined => true
  | _ => false
  end.

(** [a + ''] *)
Definition argument_text (a : argument) : jsstring :=
  match a with
  | AUndefined => str "undefined"
  | ANumber n => decimal n
  | AString s => s
  | AFunction source => source
  end.

Definition signature : jsstring := LF :: LF :: str "<!-- Posted by a clever robot -->".

#[local] Unset Elimination Schemes.
Inductive form_value : Type :=
| FArgument (a : argument)
| FBoolean (b : bool)
| FText (s : jsstring)
| FObject (fields : list (jsstring * form_value)).
#[local] Set Elimination Schemes.

(** What the callback of such a task does with the answer: it calls the
    completion callback, or an exception ends it. *)
Inductive completion : Type :=
| Called (e : option jserror) (post' : option cleaned_post)
| Raised (msg : jsstring).

Record post_task : Type := {
  task_method : jsstring;
  task_url : jsstring;
  task_form : option (list (jsstring * form_value));
  task_callback : option jserror -> jsvalue -> completion;
  task_delay : N
}.

(** The member of a form. *)
Fixpoint form_member (name : jsstring) (fields : list (jsstring * form_value))
  : option form_value :=
  match fields with
  | [] => None
  | (k, v) :: fields' => if jsstring_eqb k name then Some v else form_member name fields'
  end.

Section Posting.

Variable number_text : jsstring -> jsstring.
Variable cfg : config.

(** [(err, body) => { if (err) { return callback(err); } callback(null, cleanPost(body)); }] *)
Definition cleaned_callback (callback : argument) (err' : option jserror) (body' : jsvalue)
  : completion :=
  match err' with
  | Some e => if is_function callback then Called (Some e) None
              else Raised TypeError_not_a_function
  | None =>
      match cleanPost_value number_text cfg body' with
      | Throw msg => Raised msg
      | Ret p => if is_function callback then Called None (Some p)
                 else Raised TypeError_not_a_function
      end
  end.

Definition createPost (delay' : N) (topicId replyTo content callback : argument)
  : outcome post_task :=
  let shift := is_undefined callback in
  let callback' := if shift then content else callback in
  let content' := if shift then replyTo else content in
  let replyTo' := if shift then AUndefined else replyTo in
  if negb (is_function callback') then Throw callback_missing
  else Ret {| task_method := str "POST";
              task_url := str "/posts";
              task_form := Some [(str "raw", FText (argument_text content' ++ signature));
                                 (str "topic_id", FArgument topicId);
                                 (str "is_warning", FBoolean false);
                                 (str "reply_to_post_number", FArgument replyTo');
                                 (str "category", FText []);
                                 (str "archetype", FText (str "regular"));
                                 (str "auto_close_time", FText [])];
              task_callback := cleaned_callback callback';
              task_delay := delay' |}.

Definition createPrivateMessage (delay' : N) (to title content callback : argument)
  : outcome post_task :=
  if negb (is_function callback) then Throw callback_missing
  else Ret {| task_method := str "POST";
              task_url := str "/posts";
              task_form := Some [(str "raw", FText (argument_text content ++ signature));
                                 (str "is_warning", FBoolean false);
                                 (str "archetype", FText (str "private_message"));
                                 (str "title", FArgument title);
                                 (str "target_usernames", FArgument to)];
              task_callback := cleaned_callback callback;
              task_delay := delay' |}.

Definition editPost (delay' : N) (postId content editReason callback : argument)
  : outcome post_task :=
  let shift := is_undefined callback in
  let callback' := if shift then editReason else callback in
  let editReason' := if shift then AString [] else editReason in
  if negb (is_function callback') then Throw callback_missing
  else Ret {| task_method := str "PUT";
              task_url := str "/posts/" ++ argument_text postId;
              task_form := Some [(str "post",
                                  FObject [(str "raw",
                                            FText (argument_text content ++ signature));
                                           (str "edit_reason", FArgument editReason')])];
              task_callback := cleaned_callback callback';
              task_delay := delay' |}.

Definition getPost (delay' : N) (postId callback : argument) : post_task :=
  {| task_method := str "GET";
     task_url := str "/posts/" ++ argument_text postId ++ str ".json";
     task_form := None;
     task_callback := cleaned_callback callback;
     task_delay := delay' |}.

End Posting.

(** The text that a task sends as [raw]. *)
Definition sent_raw (t : post_task) : option jsstring :=
  match task_form t with
  | None => None
  | Some fields =>
      match form_member (str "raw") fields, form_member (str "post") fields with
      | Some (FText s), _ => Some s
      | _, Some (FObject fields') =>
          match form_member (str "raw") fields' with
          | Some (FText s) => Some s
          | _ => None
          end
      | _, _ => None
      end
  end.

(* ================================================================== *)
(** ** browser: [getTopic] *)

Section Topic.

Variable number_text : jsstring -> jsstring.

(** What the callback of the task does to the members of the topic. *)
Definition topic_members (fields : list (jsstring * json)) : list (jsstring * json) :=
  let fields1 := remove_member (str "post_stream") fields in
  let fields2 :=
    match member (str "details") fields1 with
    | Some (JObject details) =>
        set_member (str "details")
          (JObject (remove_member (str "suggested_topics")
                      (remove_member (str "participants")
                         (remove_member (str "links") details))))
          fields1
    | _ => fields1
    end in
  set_member (str "url")
    (JString (str "/t/" ++ member_text number_text (member (str "slug") fields2) ++ str "/" ++
              member_text number_text (member (str "id") fields2)))
    fields2.

Definition trim_topic (topic : jsvalue) : outcome cleaned_post :=
  match topic with
  | VUndefined => Throw TypeError_undefined
  | VJson JNull => Throw TypeError_null
  | VJson (JObject fields) => Ret {| items_of := None; members := topic_members fields |}
  | VJson (JArray items) => Ret {| items_of := Some items; members := topic_members [] |}
  | _ => Throw TypeError_primitive
  end.

Definition topic_callback (callback : argument) (err' : option jserror) (topic : jsvalue)
  : completion :=
  match err' with
  | Some e => if is_function callback then Called (Some e) None
              else Raised TypeError_not_a_function
  | None =>
      match trim_topic topic with
      | Throw msg => Raised msg
      | Ret p => if is_function callback then Called None (Some p)
                 else Raised TypeError_not_a_function
      end
  end.

Definition getTopic (delay' : N) (topicId callback : argument) : post_task :=
  {| task_method := str "GET";
     task_url := str "/t/" ++ argument_text topicId ++ str ".json?include_raw=1&track_visit=true";
     task_form := None;
     task_callback := topic_callback callback;
     task_delay := delay' |}.

End Topic.

(** A topic for the examples. *)
Definition example_topic : list (jsstring * json) :=
  [(str "id", JNumber (str "1000"));
   (str "slug", JString (str "the-topic"));
   (str "post_stream", JObject [(str "stream", JArray [JNumber (str "1"); JNumber (str "2")])]);
   (str "details", JObject [(str "links", JArray []);
                            (str "created_by", JString (str "boss"));
                            (str "participants", JArray [])]);
   (str "title", JString (str "The topic"))].

(* ================================================================== *)
(** ** browser: [getPosts] and [getTopics] *)

(** An operation that fetches pages and hands what it finds to a handler
    of the caller, one item at a time: [eachPost] and [eachTopic] are taken
    to be functions that call back once, with an error or with none, and
    [complete] to be a function. [Beyond] stands for what only the libraries
    decide: [async.eachSeries] on a value that is no array, a request whose
    address is no text. *)
Inductive walk : Type :=
| Fetch (t : task) (k : option jserror -> jsvalue -> walk)
| HandPost (p : cleaned_post) (k : option jserror -> walk)
| HandTopic (topic : json) (k : option jserror -> walk)
| Complete (e : option jserror)
| Fault (msg : jsstring)
| Beyond
| OutOfFuel.

Inductive seen : Type :=
| Sent (r : request)
| PostHanded (p : cleaned_post)
| TopicHanded (topic : json)
| Ended (e : option jserror)
| Faulted (msg : jsstring)
| Unknown
| Unfinished.

(** The run of a walk that has the queue to itself: [net n] is the answer
    to the [n]-th request, [eachPost m] and [eachTopic m] what the handler
    calls back with for the [m]-th item. *)
Fixpoint run_walk (JSON_parse : jsstring -> option json) (cfg : config)
    (net : nat -> request -> response)
    (eachPost : nat -> cleaned_post -> option jserror)
    (eachTopic : nat -> json -> option jserror)
    (n m : nat) (w : walk) : list seen :=
  match w with
  | Fetch t k =>
      let r := queueWorker JSON_parse cfg t (net n (request_of cfg t)) in
      Sent (sent r)
        :: run_walk JSON_parse cfg net eachPost eachTopic (S n) m (k (fst (reply r)) (snd (reply r)))
  | HandPost p k =>
      PostHanded p :: run_walk JSON_parse cfg net eachPost eachTopic n (S m) (k (eachPost m p))
  | HandTopic topic k =>
      TopicHanded topic
        :: run_walk JSON_parse cfg net eachPost eachTopic n (S m) (k (eachTopic m topic))
  | Complete e => [Ended e]
  | Fault msg => [Faulted msg]
  | Beyond => [Unknown]
  | OutOfFuel => [Unfinished]
  end.

Definition TypeError_shift : jsstring := str "TypeError: posts.shift is not a function".
Definition TypeError_map : jsstring :=
  str "TypeError: topic2.post_stream.posts.map is not a function".

Definition get_task (delay' : N) (url' : jsstring) : task :=
  {| method := Some (str "GET");
     url := url';
     form := NoForm;
     delay := delay';
     bypassRateLimit := false |}.

(** [async.eachSeries(items, (item, next) => setTimeout(() => each(item, (error) => next(error)), 0), callback)] *)
Fixpoint eachSeries {A : Type} (hand : A -> (option jserror -> walk) -> walk)
    (items : list A) (callback : option jserror -> walk) : walk :=
  match items with
  | [] => callback None
  | item :: items' =>
      hand item (fun e =>
                   match e with
                   | Some err' => callback (Some err')
                   | None => eachSeries hand items' callback
                   end)
  end.

(** [v.a.b] *)
Definition get_field2 (a b : jsstring) (v : jsvalue) : outcome jsvalue :=
  match get_field a v with
  | Throw msg => Throw msg
  | Ret v' => get_field b v'
  end.

Section Walks.

Variable number_text : jsstring -> jsstring.

(** [v > 0] for the member [length] of an object. *)
Variable positive : option json -> bool.

Variable cfg : config.

(** [posts.map((p) => cleanPost(p))] *)
Fixpoint clean_all (items : list json) : outcome (list cleaned_post) :=
  match items with
  | [] => Ret []
  | item :: items' =>
      match cleanPost_value number_text cfg (VJson item) with
      | Throw msg => Throw msg
      | Ret p =>
          match clean_all items' with
          | Throw msg => Throw msg
          | Ret ps => Ret (p :: ps)
          end
      end
  end.

(** [part.join('&post_ids[]=')] *)
Definition join_ids (part : list json) : jsstring :=
  join (str "&post_ids[]=")
       (map (fun i => match i with JNull => [] | _ => to_text number_text i end) part).

Definition batch_task (delay' : N) (base : jsstring) (part : list json) : task :=
  get_task delay' (base ++ str "&post_ids[]=" ++ join_ids part).

Equations getPosts_loop (delay' : N) (base : jsstring) (posts : list json) : walk
  by wf (length posts) lt :=
  getPosts_loop delay' base [] := Complete None;
  getPosts_loop delay' base (id :: ids) :=
    Fetch (batch_task delay' base (firstn batch_limit (id :: ids)))
      (fun err2 topic2 =>
         match err2 with
         | Some e => Complete (Some e)
         | None =>
             match get_field2 (str "post_stream") (str "posts") topic2 with
             | Throw msg => Fault msg
             | Ret VUndefined => Fault TypeError_undefined
             | Ret (VJson JNull) => Fault TypeError_null
             | Ret (VJson (JArray items)) =>
                 match clean_all items with
                 | Throw msg => Fault msg
                 | Ret cleaned' =>
                     eachSeries HandPost cleaned'
                       (fun e =>
                          match e with
                          | Some err' => Complete (Some err')
                          | None => getPosts_loop delay' base (skipn batch_limit (id :: ids))
                          end)
                 end
             | Ret _ => Fault TypeError_map
             end
         end).
Next Obligation.
  change (length (skipn 199 ids) < S (length ids)).
  rewrite length_skipn. lia.
Qed.

Definition posts_base (topicId : argument) : jsstring :=
  str "/t/" ++ argument_text topicId ++ str "/posts.json?include_raw=1".

(** The first task is pushed without [delay]: the worker goes on to the
    next task at once. *)
Definition getPosts (delay' : N) (topicId : argument) : walk :=
  Fetch (get_task 0 (posts_base topicId ++ str "&post_ids=0"))
    (fun err' topic =>
       match err' with
       | Some e => Complete (Some e)
       | None =>
           match get_field2 (str "post_stream") (str "stream") topic with
           | Throw msg => Fault msg
           | Ret VUndefined => Fault TypeError_undefined
           | Ret (VJson JNull) => Fault TypeError_null
           | Ret (VJson (JArray items)) => getPosts_loop delay' (posts_base topicId) items
           | Ret (VJson (JString s)) | Ret (VString s) =>
               match s with
               | [] => Complete None
               | _ :: _ => Fault TypeError_shift
               end
           | Ret (VJson (JObject fields)) =>
               if positive (member (str "length") fields) then Fault TypeError_shift
               else Complete None
           | Ret _ => Complete None
           end
       end).

Definition latest : jsstring := str "/latest.json?no_definitions=true".

(** [async.whilst(() => url, ...)]: [fuel] bounds the number of pages. *)
Fixpoint getTopics_loop (fuel : nat) (delay' : N) (url' : jsstring) : walk :=
  match fuel with
  | 0 => OutOfFuel
  | S fuel' =>
      Fetch (get_task delay' url')
        (fun err' topics =>
           match err' with
           | Some e => Complete (Some e)
           | None =>
               match get_field (str "topic_list") topics with
               | Throw msg => Fault msg
               | Ret topic_list =>
                   match get_field (str "more_topics_url") topic_list with
                   | Throw msg => Fault msg
                   | Ret more =>
                       match get_field (str "topics") topic_list with
                       | Throw msg => Fault msg
                       | Ret (VJson (JArray items)) =>
                           eachSeries HandTopic items
                             (fun e =>
                                match e with
                                | Some err' => Complete (Some err')
                                | None =>
                                    if truthy_value more
                                    then match more with
                                         | VJson (JString s) => getTopics_loop fuel' delay' s
                                         | _ => Beyond
                                         end
                                    else Complete None
                                end)
                       | Ret _ => Beyond
                       end
                   end
               end
           end)
  end.

Definition getTopics (fuel : nat) (delay' : N) : walk := getTopics_loop fuel delay' latest.

End Walks.

(** The slices of at most 200 items that a list is taken off in. *)
Equations slices (l : list json) : list (list json) by wf (length l) lt :=
  slices [] := [];
  slices (x :: l) := firstn batch_limit (x :: l) :: slices (skipn batch_limit (x :: l)).
Next Obligation.
  change (length (skipn 199 l) < S (length l)).
  rewrite length_skipn. lia.
Qed.

(** The items handed until the handler reports an error, and that error. *)
Fixpoint until_error {A : Type} (each : nat -> A -> option jserror) (m : nat)
    (items : list A) : list A * option jserror :=
  match items with
  | [] => ([], None)
  | item :: items' =>
      match each m item with
      | Some e => ([item], Some e)
      | None =>
          let (handed, e) := until_error each (S m) items' in
          (item :: handed, e)
      end
  end.

(** What is seen of a walk, by batches and by pages. *)
Section Seen.

Variable number_text : jsstring -> jsstring.
Variable JSON_parse : jsstring -> option json.
Variable cfg : config.
Variable net : nat -> request -> response.
Variable eachPost : nat -> cleaned_post -> option jserror.
Variable eachTopic : nat -> json -> option jserror.
Variable delay' : N.

(** The answer to the [n]-th request is a batch of posts, which
    [cleanPost] makes the posts [cleaned']. *)
Definition batch_answer (n : nat) (cleaned' : list cleaned_post) : Prop :=
  forall r,
    err (net n r) = None /\
    exists items,
      get_field2 (str "post_stream") (str "posts") (decode JSON_parse (body (net n r)))
      = Ret (VJson (JArray items)) /\
      clean_all number_text cfg items = Ret cleaned'.

(** The requests for the slices [parts], from the [n]-th request and the
    [m]-th post on, each followed by the posts of its answer as they are
    handed over, up to the first error of the handler. *)
Fixpoint batches_seen (base : jsstring) (cleaned' : nat -> list cleaned_post) (n m : nat)
    (parts : list (list json)) : list seen :=
  match parts with
  | [] => [Ended None]
  | part :: parts' =>
      Sent (request_of cfg (batch_task number_text delay' base part))
        :: map PostHanded (fst (until_error eachPost m (cleaned' n))) ++
           match snd (until_error eachPost m (cleaned' n)) with
           | Some e => [Ended (Some e)]
           | None =>
               batches_seen base cleaned' (S n)
                 (m + length (fst (until_error eachPost m (cleaned' n)))) parts'
           end
  end.

(** The answer to the [n]-th request is a page of topics, which names the
    next page or none. *)
Definition page_answer (n : nat) (topics : list json) (more : jsvalue) : Prop :=
  forall r,
    err (net n r) = None /\
    exists topic_list,
      get_field (str "topic_list") (decode JSON_parse (body (net n r))) = Ret topic_list /\
      get_field (str "topics") topic_list = Ret (VJson (JArray topics)) /\
      get_field (str "more_topics_url") topic_list = Ret more.

(** The requests for [pages] pages, from the [n]-th request and the [m]-th
    topic on, each followed by its topics as they are handed over. *)
Fixpoint pages_seen (address : nat -> jsstring) (topics : nat -> list json) (n m : nat)
    (pages : nat) : list seen :=
  match pages with
  | 0 => [Ended None]
  | S pages' =>
      Sent (request_of cfg (get_task delay' (address n)))
        :: map TopicHanded (fst (until_error eachTopic m (topics n))) ++
           match snd (until_error eachTopic m (topics n)) with
           | Some e => [Ended (Some e)]
           | None =>
               pages_seen address topics (S n)
                 (m + length (fst (until_error eachTopic m (topics n)))) pages'
           end
  end.

End Seen.

(** Answers for the examples. *)
Definition quoted (s : jsstring) : jsstring := dquote :: s ++ [dquote].

(** The post stream of a topic with the posts 1, 2 and 3. *)
Definition stream_body : jsstring :=
  str "{" ++ quoted (str "post_stream") ++ str ":{" ++ quoted (str "stream") ++
  str ":[1,2,3]}}".

(** A batch with one post. *)
Definition posts_body : jsstring :=
  str "{" ++ quoted (str "post_stream") ++ str ":{" ++ quoted (str "posts") ++ str ":[{" ++
  quoted (str "raw") ++ str ":" ++ quoted (str "hi") ++ str "}]}}".

Definition posts_net : nat -> request -> response :=
  fun n _ => {| err := None; body := Some (match n with 0 => stream_body | _ => posts_body end) |}.

Definition hi_post : cleaned_post :=
  {| items_of := None;
     members := [(str "raw", JString (str "hi"));
                 (str "cleaned", JString (str "hi"));
                 (str "url", JString (str "https://forum.example/t/undefined/undefined/undefined"));
                 (str "reply_to", JString (str "https://forum.example/t/undefined/undefined/"))] |}.

(** Two pages of topics: the first names the second, the second names
    none. *)
Definition page_body (more : jsstring) : jsstring :=
  str "{" ++ quoted (str "topic_list") ++ str ":{" ++ quoted (str "topics") ++ str ":[1,2]," ++
  quoted (str "more_topics_url") ++ str ":" ++ more ++ str "}}".

Definition pages_net : nat -> request -> response :=
  fun n _ => {| err := None;
                body := Some (match n with
                              | 0 => page_body (quoted (str "/latest?page=1"))
                              | _ => page_body (str "null")
                              end) |}.

Definition page_address (n : nat) : jsstring :=
  match n with
  | 0 => latest
  | _ => str "/latest?page=1"
  end.

(** A fenced block after the tags in it are hidden. *)
Definition hidden_block (info : jsstring) (ls : list jsstring) : jsstring :=
  fence ++ hide (mid info ls) ++ fence ++ [LF].

(** A fenced block whose closing fence ends the text, as written and after
    the tags in it are hidden. *)
Definition last_block (info : jsstring) (ls : list jsstring) : jsstring :=
  fence ++ info ++ LF :: unlines ls ++ fence.

Definition hidden_last_block (info : jsstring) (ls : list jsstring) : jsstring :=
  fence ++ hide (mid info ls) ++ fence.

(** A fence of four backticks. *)
Definition long_fence : jsstring := [backtick; backtick; backtick; backtick].

(* ================================================================== *)
(** * Properties *)

#[local] Arguments Ascii.eqb !a !b.
#[local] Arguments canon !c.
#[local] Arguments lower !c.
#[local] Arguments in_range lo hi !c.


(* ================================================================== *)
(** ** The matcher: equations *)

Lemma rmatch_cat_cons fl r l k st :
  rmatch fl (cat (r :: l)) k st = rmatch fl r (rmatch fl (cat l) k) st.
Proof. destruct l; reflexivity. Qed.


Lemma one_char_Cls fl neg rs : one_char (cls_match fl neg rs) (rmatch fl (Cls neg rs)).
Proof. intros k pv s cs. destruct s; reflexivity. Qed.

Lemma one_char_Chr fl p : one_char (chr_match fl p) (rmatch fl (Chr p)).
Proof. intros k pv s cs. destruct s; reflexivity. Qed.


Lemma rep_opt_greedy p m (Hm : one_char p m) :
  forall W fuel k cs pv X,
    length (W ++ X) < fuel ->
    forallb p W = true ->
    stops p X ->
    rep_opt fuel m None true k {| prev := pv; rest := W ++ X; caps := cs |}
    = greedy_run k cs pv W X.
Proof.
  induction W as [|w W IH]; intros fuel k cs pv X Hf HW HX.
  - destruct fuel as [|fuel]; [simpl in Hf; lia|].
    simpl. rewrite Hm. destruct X as [|c X]; [reflexivity|].
    simpl in HX. rewrite HX. reflexivity.
  - destruct fuel as [|fuel]; [simpl in Hf; lia|].
    simpl in HW. apply andb_prop in HW. destruct HW as [Hw HW].
    cbn [rep_opt app]. rewrite Hm. rewrite Hw.
    cbn [rest dec_max]. 
    replace (length (W ++ X) <? length (w :: W ++ X)) with true
      by (symmetry; apply Nat.ltb_lt; simpl; lia).
    rewrite IH; [reflexivity| simpl in Hf; lia | assumption | assumption].
Qed.

Lemma rep_opt_lazy p m (Hm : one_char p m) :
  forall W fuel k cs pv X,
    length (W ++ X) < fuel ->
    forallb p W = true ->
    stops p X ->
    rep_opt fuel m None false k {| prev := pv; rest := W ++ X; caps := cs |}
    = lazy_run k cs pv W X.
Proof.
  induction W as [|w W IH]; intros fuel k cs pv X Hf HW HX.
  - destruct fuel as [|fuel]; [simpl in Hf; lia|].
    simpl. destruct (k _); [reflexivity|]. rewrite Hm. destruct X as [|c X]; [reflexivity|].
    simpl in HX. rewrite HX. reflexivity.
  - destruct fuel as [|fuel]; [simpl in Hf; lia|].
    simpl in HW. apply andb_prop in HW. destruct HW as [Hw HW].
    cbn [rep_opt app lazy_run]. destruct (k _); [reflexivity|].
    rewrite Hm. rewrite Hw.
    cbn [rest dec_max].
    replace (length (W ++ X) <? length (w :: W ++ X)) with true
      by (symmetry; apply Nat.ltb_lt; simpl; lia).
    rewrite IH; [reflexivity| simpl in Hf; lia | assumption | assumption].
Qed.

Lemma greedy_run_end k cs pv W X x :
  greedy_run k cs (fold_left (fun _ c => Some c) W pv) [] X = Some x ->
  greedy_run k cs pv W X = Some x.
Proof.
  revert pv. induction W as [|w W IH]; intros pv H; simpl in *.
  - exact H.
  - rewrite (IH _ H). reflexivity.
Qed.

(** When the continuation fails wherever the run could stop short, only the
    end of the run counts. *)
Lemma greedy_run_only_end k cs :
  forall W pv X,
    (forall pv' W1 w W2, W = W1 ++ w :: W2 ->
       k {| prev := pv'; rest := w :: W2 ++ X; caps := cs |} = None) ->
    greedy_run k cs pv W X
    = k {| prev := fold_left (fun _ c => Some c) W pv; rest := X; caps := cs |}.
Proof.
  induction W as [|w W IH]; intros pv X H; simpl.
  - reflexivity.
  - rewrite IH.
    + destruct (k _) eqn:E; [reflexivity|].
      apply (H pv [] w W). reflexivity.
    + intros pv' W1 w' W2 ->. apply (H pv' (w :: W1) w' W2). reflexivity.
Qed.

Lemma lazy_run_only_end k cs :
  forall W pv X,
    (forall pv' W1 w W2, W = W1 ++ w :: W2 ->
       k {| prev := pv'; rest := w :: W2 ++ X; caps := cs |} = None) ->
    lazy_run k cs pv W X
    = k {| prev := fold_left (fun _ c => Some c) W pv; rest := X; caps := cs |}.
Proof.
  induction W as [|w W IH]; intros pv X H; simpl.
  - reflexivity.
  - rewrite (H pv [] w W eq_refl). apply IH.
    intros pv' W1 w' W2 ->. apply (H pv' (w :: W1) w' W2). reflexivity.
Qed.

(* ================================================================== *)
(** ** Global replacement: equations *)


Lemma prev_after_app pv P Q : prev_after pv (P ++ Q) = prev_after (prev_after pv P) Q.
Proof. apply fold_left_app. Qed.

Lemma prev_after_snoc pv P c : prev_after pv (P ++ [c]) = Some c.
Proof. rewrite prev_after_app. reflexivity. Qed.


Lemma replace_all_skip re f :
  forall P pv X,
    Forall (dead re) P ->
    replace_all_from re f pv 0 (P ++ X) = P ++ replace_all_from re f (prev_after pv P) 0 X.
Proof.
  induction P as [|c P IH]; intros pv X HP.
  - reflexivity.
  - inversion HP as [|? ? Hc HP']; subst.
    change ((c :: P) ++ X) with (c :: (P ++ X)).
    cbn [replace_all_from]. rewrite Hc. cbn [app]. f_equal. apply IH. assumption.
Qed.

Lemma replace_all_id re f P pv :
  Forall (dead re) P -> dead_end re -> replace_all_from re f pv 0 P = P.
Proof.
  intros HP He. rewrite <- (app_nil_r P) at 1. rewrite replace_all_skip by assumption.
  cbn [replace_all_from]. rewrite He. apply app_nil_r.
Qed.

Lemma replace_all_pass re f :
  forall M pv X,
    replace_all_from re f pv (length M) (M ++ X) = replace_all_from re f (prev_after pv M) 0 X.
Proof.
  induction M as [|c M IH]; intros pv X.
  - reflexivity.
  - cbn [length app replace_all_from]. apply IH.
Qed.

Lemma replace_all_hit re f pv c M X cs :
  match_at re pv (c :: M ++ X) = Some (c :: M, cs) ->
  replace_all_from re f pv 0 (c :: M ++ X)
  = f (c :: M) cs ++ replace_all_from re f (prev_after (Some c) M) 0 X.
Proof.
  intros H. cbn [replace_all_from]. rewrite H. cbn [length]. rewrite replace_all_pass. reflexivity.
Qed.

Lemma replace_all_miss re f pv c t :
  match_at re pv (c :: t) = None ->
  replace_all_from re f pv 0 (c :: t) = c :: replace_all_from re f (Some c) 0 t.
Proof. intros H. cbn [replace_all_from]. rewrite H. reflexivity. Qed.

Lemma firstn_app_exact (M X : jsstring) : firstn (length (M ++ X) - length X) (M ++ X) = M.
Proof.
  rewrite length_app. replace (length M + length X - length X) with (length M + 0) by lia.
  rewrite firstn_app_2. simpl. apply app_nil_r.
Qed.

Lemma match_at_some re pv M X cs pv' :
  rmatch (flags_of re) (source re) (fun st => Some st) {| prev := pv; rest := M ++ X; caps := [] |}
  = Some {| prev := pv'; rest := X; caps := cs |} ->
  match_at re pv (M ++ X) = Some (M, cs).
Proof.
  intros H. unfold match_at. rewrite H. cbn [rest caps]. rewrite firstn_app_exact. reflexivity.
Qed.

Lemma match_at_none re pv s :
  rmatch (flags_of re) (source re) (fun st => Some st) {| prev := pv; rest := s; caps := [] |} = None ->
  match_at re pv s = None.
Proof. intros H. unfold match_at. rewrite H. reflexivity. Qed.


Lemma control_neq x c : is_control x = true -> is_control c = false -> Ascii.eqb x c = false.
Proof.
  intros Hx Hc. destruct (Ascii.eqb_spec x c) as [->|]; [congruence|reflexivity].
Qed.

Lemma calm_inv c : calm c = true -> is_control c = false /\ Ascii.eqb backtick c = false.
Proof.
  unfold calm. intros H. apply andb_prop in H. destruct H as [H1 H2].
  apply negb_true_iff in H1, H2. rewrite Ascii.eqb_sym. auto.
Qed.

Lemma plain_inv c : plain c = true -> calm c = true /\ Ascii.eqb "["%char c = false.
Proof.
  unfold plain. intros H. apply andb_prop in H. destruct H as [H1 H2].
  apply negb_true_iff in H2. rewrite Ascii.eqb_sym. auto.
Qed.

Lemma canon_bracket c : Ascii.eqb "["%char c = false -> Ascii.eqb "["%char (canon c) = false.
Proof.
  destruct c as [[] [] [] [] [] [] [] []]; vm_compute; congruence.
Qed.

Ltac dead_tac :=
  intros pv t; apply match_at_none; cbn; unfold CR, LF, STX, ETX, SUB, DLE, backtick in *;
  try (destruct (at_bol _ _)); cbn;
  repeat match goal with H : _ = false |- _ => rewrite H end; reflexivity.

Ltac dead_end_tac :=
  intros pv; apply match_at_none; cbn; try (destruct (at_bol _ _)); reflexivity.

Lemma dead_newline c : is_control c = false -> dead newline_re c.
Proof. intros H. assert (E := control_neq CR c eq_refl H). dead_tac. Qed.

Lemma dead_control c : is_control c = false -> dead control_re c.
Proof.
  intros H pv t. apply match_at_none. cbn.
  unfold cls_match, in_ranges_fl. cbn. fold (is_control c). unfold is_control in *.
  cbn in H. rewrite H. reflexivity.
Qed.

Lemma dead_fencedgreedy c : Ascii.eqb backtick c = false -> dead fencedgreedy c.
Proof. intros H. dead_tac. Qed.

Lemma dead_fencedlazy c : Ascii.eqb backtick c = false -> dead fencedlazy c.
Proof. intros H. dead_tac. Qed.

Lemma dead_coalesce c : Ascii.eqb backtick c = false -> dead coalesce_re c.
Proof. intros H. dead_tac. Qed.

Lemma dead_inline c : Ascii.eqb backtick c = false -> dead inline c.
Proof. intros H. dead_tac. Qed.

Lemma dead_quote_open c : Ascii.eqb "["%char c = false -> dead quote_open_re c.
Proof. intros H. apply canon_bracket in H. dead_tac. Qed.

Lemma dead_quote_close c : Ascii.eqb "["%char c = false -> dead quote_close_re c.
Proof. intros H. apply canon_bracket in H. dead_tac. Qed.

Lemma dead_innermost c : Ascii.eqb STX c = false -> dead innermost_re c.
Proof. intros H. dead_tac. Qed.

Lemma dead_unbalanced c : Ascii.eqb STX c = false -> dead unbalanced_re c.
Proof. intros H. dead_tac. Qed.

Lemma dead_hidetags c : Ascii.eqb "["%char c = false -> dead hidetags_re c.
Proof. intros H. dead_tac. Qed.

Lemma dead_end_newline : dead_end newline_re. Proof. dead_end_tac. Qed.
Lemma dead_end_control : dead_end control_re. Proof. dead_end_tac. Qed.
Lemma dead_end_fencedgreedy : dead_end fencedgreedy. Proof. dead_end_tac. Qed.
Lemma dead_end_fencedlazy : dead_end fencedlazy. Proof. dead_end_tac. Qed.
Lemma dead_end_coalesce : dead_end coalesce_re. Proof. dead_end_tac. Qed.
Lemma dead_end_inline : dead_end inline. Proof. dead_end_tac. Qed.
Lemma dead_end_quote_open : dead_end quote_open_re. Proof. dead_end_tac. Qed.
Lemma dead_end_quote_close : dead_end quote_close_re. Proof. dead_end_tac. Qed.
Lemma dead_end_innermost : dead_end innermost_re. Proof. dead_end_tac. Qed.
Lemma dead_end_unbalanced : dead_end unbalanced_re. Proof. dead_end_tac. Qed.
Lemma dead_end_hidetags : dead_end hidetags_re. Proof. dead_end_tac. Qed.


Ltac ascii_cases c := destruct c as [[] [] [] [] [] [] [] []]; vm_compute; congruence.

Lemma replace_g re f s : flag_g re = true -> replace re f s = replace_all_from re f None 0 s.
Proof. intros H. unfold replace. rewrite H. reflexivity. Qed.

(** *** The quote tags *)

Lemma quote_open_hit pv X :
  match_at quote_open_re pv (str "[quote]" ++ X) = Some (str "[quote]", []).
Proof. eapply match_at_some. cbn. reflexivity. Qed.

Lemma quote_open_miss pv X :
  match_at quote_open_re pv (str "[/quote]" ++ X) = None.
Proof. apply match_at_none. reflexivity. Qed.

Lemma quote_close_hit pv X :
  match_at quote_close_re pv (str "[/quote]" ++ X) = Some (str "[/quote]", []).
Proof. eapply match_at_some. cbn. reflexivity. Qed.

Lemma quote_close_miss pv X :
  match_at quote_close_re pv (str "[quote]" ++ X) = None.
Proof. apply match_at_none. reflexivity. Qed.


Lemma inner_char_not_control c : is_control c = false -> inner_char c = true.
Proof. revert c. intros c. ascii_cases c. Qed.

Lemma inner_char_ETX c : inner_char c = true -> Ascii.eqb ETX c = false.
Proof. ascii_cases c. Qed.

Lemma innermost_rmatch pv W Y :
  forallb inner_char W = true ->
  stops inner_char Y ->
  rmatch (flags_of innermost_re) (source innermost_re) (fun st => Some st)
    {| prev := pv; rest := STX :: W ++ Y; caps := [] |}
  = match Y with
    | c :: X => if Ascii.eqb ETX c then Some {| prev := Some c; rest := X; caps := [] |} else None
    | [] => None
    end.
Proof.
  intros HW HY.
  change (rmatch (flags_of innermost_re) (source innermost_re) (fun st => Some st)
    {| prev := pv; rest := STX :: W ++ Y; caps := [] |})
    with (rep_opt (S (length (W ++ Y))) (rmatch (flags_of innermost_re) (Cls true [(2, 2); (3, 3)]%N)) None true
            (rmatch (flags_of innermost_re) (Chr ETX) (fun st => Some st))
            {| prev := Some STX; rest := W ++ Y; caps := [] |}).
  rewrite (rep_opt_greedy _ _ (one_char_Cls _ _ _)); [| lia | exact HW | exact HY].
  rewrite greedy_run_only_end.
  - destruct Y; reflexivity.
  - intros pv' W1 w W2 ->. rewrite forallb_app in HW. apply andb_prop in HW.
    destruct HW as [_ HW]. simpl in HW. apply andb_prop in HW. destruct HW as [Hw _].
    apply inner_char_ETX in Hw. cbn. unfold ETX in *. rewrite Hw. reflexivity.
Qed.

Lemma innermost_hit pv W X :
  forallb inner_char W = true ->
  match_at innermost_re pv (STX :: W ++ ETX :: X) = Some (STX :: W ++ [ETX], []).
Proof.
  intros HW.
  replace (STX :: W ++ ETX :: X) with ((STX :: W ++ [ETX]) ++ X)
    by (simpl; rewrite <- app_assoc; reflexivity).
  eapply match_at_some.
  replace ((STX :: W ++ [ETX]) ++ X) with (STX :: W ++ ETX :: X)
    by (simpl; rewrite <- app_assoc; reflexivity).
  rewrite innermost_rmatch; [reflexivity | exact HW | reflexivity].
Qed.

Lemma innermost_miss pv W X :
  forallb inner_char W = true ->
  match_at innermost_re pv (STX :: W ++ STX :: X) = None.
Proof.
  intros HW. apply match_at_none.
  rewrite innermost_rmatch; [reflexivity | exact HW | reflexivity].
Qed.


Lemma jsstring_eqb_eq a b : jsstring_eqb a b = true <-> a = b.
Proof.
  revert b. induction a as [|x a IH]; intros [|y b]; simpl; split; intros H;
    try reflexivity; try discriminate.
  - apply andb_prop in H. destruct H as [H1 H2]. apply Ascii.eqb_eq in H1.
    apply IH in H2. congruence.
  - inversion H; subst. rewrite Ascii.eqb_refl. simpl. apply IH. reflexivity.
Qed.

Lemma jsstring_eqb_refl a : jsstring_eqb a a = true.
Proof. apply jsstring_eqb_eq. reflexivity. Qed.

Lemma jsstring_eqb_length a b : length a <> length b -> jsstring_eqb a b = false.
Proof.
  intros H. destruct (jsstring_eqb a b) eqn:E; [|reflexivity].
  apply jsstring_eqb_eq in E. subst. congruence.
Qed.

Lemma Forall_of_forallb (p : ascii -> bool) (P : ascii -> Prop) s :
  (forall c, p c = true -> P c) -> forallb p s = true -> Forall P s.
Proof.
  intros H Hs. apply Forall_forall. intros c Hc.
  apply H. rewrite forallb_forall in Hs. apply Hs. exact Hc.
Qed.

Lemma forallb_imp (p q : ascii -> bool) s :
  (forall c, p c = true -> q c = true) -> forallb p s = true -> forallb q s = true.
Proof.
  intros H Hs. apply forallb_forall. intros c Hc.
  apply H. rewrite forallb_forall in Hs. apply Hs. exact Hc.
Qed.

Lemma stage_id re f s :
  flag_g re = true -> Forall (dead re) s -> dead_end re -> replace re f s = s.
Proof. intros Hg Hs He. rewrite replace_g by exact Hg. apply replace_all_id; assumption. Qed.

(** A text without control characters and backticks passes the first five
    replacements unchanged. *)
Lemma calm_unprotected f s :
  forallb calm s = true ->
  replace inline f
    (replace fencedlazy f
      (replace fencedgreedy f
        (replace control_re empty_replacement
          (replace newline_re (template [TLit [LF]]) s)))) = s.
Proof.
  intros H.
  rewrite (stage_id newline_re); [| reflexivity | | exact dead_end_newline].
  2:{ eapply Forall_of_forallb; [|exact H]. intros c Hc. apply dead_newline, calm_inv, Hc. }
  rewrite (stage_id control_re); [| reflexivity | | exact dead_end_control].
  2:{ eapply Forall_of_forallb; [|exact H]. intros c Hc. apply dead_control, calm_inv, Hc. }
  rewrite (stage_id fencedgreedy); [| reflexivity | | exact dead_end_fencedgreedy].
  2:{ eapply Forall_of_forallb; [|exact H]. intros c Hc. apply dead_fencedgreedy, calm_inv, Hc. }
  rewrite (stage_id fencedlazy); [| reflexivity | | exact dead_end_fencedlazy].
  2:{ eapply Forall_of_forallb; [|exact H]. intros c Hc. apply dead_fencedlazy, calm_inv, Hc. }
  rewrite (stage_id inline); [| reflexivity | | exact dead_end_inline].
  2:{ eapply Forall_of_forallb; [|exact H]. intros c Hc. apply dead_inline, calm_inv, Hc. }
  reflexivity.
Qed.

Lemma plain_calm c : plain c = true -> calm c = true.
Proof. intros H. apply plain_inv in H. tauto. Qed.

Lemma plain_dead_open s : forallb plain s = true -> Forall (dead quote_open_re) s.
Proof. apply Forall_of_forallb. intros c Hc. apply dead_quote_open, plain_inv, Hc. Qed.

Lemma plain_dead_close s : forallb plain s = true -> Forall (dead quote_close_re) s.
Proof. apply Forall_of_forallb. intros c Hc. apply dead_quote_close, plain_inv, Hc. Qed.

Lemma plain_inner s : forallb plain s = true -> forallb inner_char s = true.
Proof.
  apply forallb_imp. intros c Hc. apply inner_char_not_control.
  apply plain_calm, calm_inv in Hc. tauto.
Qed.

Lemma plain_dead_innermost s : forallb plain s = true -> Forall (dead innermost_re) s.
Proof.
  apply Forall_of_forallb. intros c Hc. apply dead_innermost.
  apply plain_calm, calm_inv in Hc. destruct Hc as [Hc _].
  exact (control_neq STX c eq_refl Hc).
Qed.

Lemma template_open m cs : template [TLit [STX]; TWhole] m cs = STX :: m.
Proof. cbn. rewrite app_nil_r. reflexivity. Qed.

Lemma template_close m cs : template [TWhole; TLit [ETX]] m cs = m ++ [ETX].
Proof. reflexivity. Qed.

Lemma open_step pv X :
  replace_all_from quote_open_re (template [TLit [STX]; TWhole]) pv 0 (str "[quote]" ++ X)
  = STX :: str "[quote]" ++
    replace_all_from quote_open_re (template [TLit [STX]; TWhole]) (Some "]"%char) 0 X.
Proof.
  rewrite (replace_all_hit quote_open_re _ pv "["%char (str "quote]") X [] (quote_open_hit pv X)).
  rewrite template_open. reflexivity.
Qed.

Lemma open_pass f pv X :
  replace_all_from quote_open_re f pv 0 (str "[/quote]" ++ X)
  = str "[/quote]" ++ replace_all_from quote_open_re f (Some "]"%char) 0 X.
Proof.
  change (str "[/quote]" ++ X) with ("["%char :: (str "/quote]" ++ X)).
  rewrite replace_all_miss by exact (quote_open_miss pv X).
  rewrite replace_all_skip; [reflexivity|].
  repeat constructor; apply dead_quote_open; reflexivity.
Qed.

Lemma close_step pv X :
  replace_all_from quote_close_re (template [TWhole; TLit [ETX]]) pv 0 (str "[/quote]" ++ X)
  = str "[/quote]" ++ ETX ::
    replace_all_from quote_close_re (template [TWhole; TLit [ETX]]) (Some "]"%char) 0 X.
Proof.
  rewrite (replace_all_hit quote_close_re _ pv "["%char (str "/quote]") X [] (quote_close_hit pv X)).
  reflexivity.
Qed.

Lemma close_pass f pv X :
  replace_all_from quote_close_re f pv 0 (str "[quote]" ++ X)
  = str "[quote]" ++ replace_all_from quote_close_re f (Some "]"%char) 0 X.
Proof.
  change (str "[quote]" ++ X) with ("["%char :: (str "quote]" ++ X)).
  rewrite replace_all_miss by exact (quote_close_miss pv X).
  rewrite replace_all_skip; [reflexivity|].
  repeat constructor; apply dead_quote_close; reflexivity.
Qed.

Lemma close_pass_STX f pv X :
  replace_all_from quote_close_re f pv 0 (STX :: X)
  = STX :: replace_all_from quote_close_re f (Some STX) 0 X.
Proof. apply replace_all_miss. apply dead_quote_close. reflexivity. Qed.


Lemma nostx_dead s : forallb nostx s = true -> Forall (dead innermost_re) s.
Proof.
  apply Forall_of_forallb. intros c Hc. apply dead_innermost.
  unfold nostx in Hc. apply negb_true_iff in Hc. exact Hc.
Qed.

Lemma nostx_dead_unbalanced s : forallb nostx s = true -> Forall (dead unbalanced_re) s.
Proof.
  apply Forall_of_forallb. intros c Hc. apply dead_unbalanced.
  unfold nostx in Hc. apply negb_true_iff in Hc. exact Hc.
Qed.

Lemma plain_nostx s : forallb plain s = true -> forallb nostx s = true.
Proof.
  apply forallb_imp. intros c Hc. unfold nostx. apply negb_true_iff.
  apply plain_calm, calm_inv in Hc. destruct Hc as [Hc _].
  exact (control_neq STX c eq_refl Hc).
Qed.

Lemma replace_all_hit' f pv W X :
  forallb inner_char W = true ->
  replace_all_from innermost_re f pv 0 (STX :: W ++ ETX :: X)
  = f (STX :: W ++ [ETX]) [] ++ replace_all_from innermost_re f (Some ETX) 0 X.
Proof.
  intros HW.
  assert (H := innermost_hit pv W X HW).
  replace (STX :: W ++ ETX :: X) with (STX :: (W ++ [ETX]) ++ X) in *
    by (rewrite <- app_assoc; reflexivity).
  rewrite (replace_all_hit innermost_re f pv STX (W ++ [ETX]) X [] H).
  rewrite prev_after_snoc. reflexivity.
Qed.

Lemma control_hit pv c X : is_control c = true -> match_at control_re pv (c :: X) = Some ([c], []).
Proof.
  intros H. apply (match_at_some control_re pv [c] X [] (Some c)).
  cbn. unfold cls_match, in_ranges_fl. cbn. unfold is_control in H. cbn in H. rewrite H. reflexivity.
Qed.

Lemma control_step pv c X :
  is_control c = true ->
  replace_all_from control_re empty_replacement pv 0 (c :: X)
  = replace_all_from control_re empty_replacement (Some c) 0 X.
Proof.
  intros H. exact (replace_all_hit control_re empty_replacement pv c [] X [] (control_hit pv c X H)).
Qed.

Ltac len := repeat (progress (rewrite ?length_app; cbn)).

Section NestedQuotes.

Variables A B C D E : jsstring.
Hypothesis HA : forallb plain A = true.
Hypothesis HB : forallb plain B = true.
Hypothesis HC : forallb plain C = true.
Hypothesis HD : forallb plain D = true.
Hypothesis HE : forallb plain E = true.


Lemma nested_text_calm : forallb calm (nested_text A B C D E) = true.
Proof.
  unfold nested_text. rewrite !forallb_app.
  rewrite (forallb_imp _ _ _ plain_calm HA), (forallb_imp _ _ _ plain_calm HB),
    (forallb_imp _ _ _ plain_calm HC), (forallb_imp _ _ _ plain_calm HD),
    (forallb_imp _ _ _ plain_calm HE).
  reflexivity.
Qed.

Lemma nested_mark : mark_quotes (nested_text A B C D E) = (nested_marked A B C D E).
Proof.
  unfold mark_quotes. rewrite calm_unprotected by exact nested_text_calm.
  rewrite (replace_g quote_open_re) by reflexivity.
  unfold nested_text.
  rewrite replace_all_skip by (apply plain_dead_open, HA).
  rewrite open_step.
  rewrite replace_all_skip by (apply plain_dead_open, HB).
  rewrite open_step.
  rewrite replace_all_skip by (apply plain_dead_open, HC).
  rewrite open_pass.
  rewrite replace_all_skip by (apply plain_dead_open, HD).
  rewrite open_pass.
  rewrite replace_all_id by (apply plain_dead_open, HE || exact dead_end_quote_open).
  rewrite (replace_g quote_close_re) by reflexivity.
  rewrite replace_all_skip by (apply plain_dead_close, HA).
  cbn [app]. rewrite close_pass_STX.
  rewrite close_pass.
  rewrite replace_all_skip by (apply plain_dead_close, HB).
  rewrite close_pass_STX, close_pass.
  rewrite replace_all_skip by (apply plain_dead_close, HC).
  rewrite close_step.
  rewrite replace_all_skip by (apply plain_dead_close, HD).
  rewrite close_step.
  rewrite replace_all_id by (apply plain_dead_close, HE || exact dead_end_quote_close).
  reflexivity.
Qed.

Lemma nested_round1_eq :
  replace innermost_re (template [TLit [SUB]]) (nested_marked A B C D E) = (nested_round1 A B D E).
Proof.
  rewrite replace_g by reflexivity. unfold nested_marked, nested_round1.
  rewrite replace_all_skip by (apply plain_dead_innermost, HA).
  rewrite (app_assoc (str "[quote]") B).
  rewrite replace_all_miss.
  2:{ apply innermost_miss. rewrite forallb_app, (plain_inner _ HB). reflexivity. }
  rewrite replace_all_skip.
  2:{ apply nostx_dead. rewrite forallb_app, (plain_nostx _ HB). reflexivity. }
  rewrite (app_assoc (str "[quote]") C), (app_assoc _ (str "[/quote]")).
  rewrite replace_all_hit'.
  2:{ rewrite !forallb_app, (plain_inner _ HC). reflexivity. }
  rewrite replace_all_id; [| | exact dead_end_innermost].
  2:{ apply nostx_dead. rewrite !forallb_app. cbn [forallb]. rewrite (plain_nostx _ HD), (plain_nostx _ HE). reflexivity. }
  rewrite <- !app_assoc. reflexivity.
Qed.

Lemma nested_round2_eq :
  replace innermost_re (template [TLit [SUB]]) (nested_round1 A B D E) = (nested_round2 A E).
Proof.
  rewrite replace_g by reflexivity. unfold nested_round1, nested_round2.
  rewrite replace_all_skip by (apply plain_dead_innermost, HA).
  change (SUB :: D ++ str "[/quote]" ++ ETX :: E) with ([SUB] ++ D ++ str "[/quote]" ++ ETX :: E).
  rewrite (app_assoc (str "[quote]") B), (app_assoc _ [SUB]), (app_assoc _ D), (app_assoc _ (str "[/quote]")).
  rewrite replace_all_hit'.
  2:{ rewrite !forallb_app, (plain_inner _ HB), (plain_inner _ HD). reflexivity. }
  rewrite replace_all_id; [| | exact dead_end_innermost].
  2:{ apply plain_dead_innermost, HE. }
  reflexivity.
Qed.

Lemma nested_round3_eq :
  replace innermost_re (template [TLit [SUB]]) (nested_round2 A E) = (nested_round2 A E).
Proof.
  apply stage_id; [reflexivity | | exact dead_end_innermost].
  apply nostx_dead. unfold nested_round2. rewrite forallb_app. cbn [forallb].
  rewrite (plain_nostx _ HA), (plain_nostx _ HE). reflexivity.
Qed.

Lemma nested_strip : strip_nested (nested_marked A B C D E) = (nested_round2 A E).
Proof.
  unfold strip_nested.
  assert (H1 : length (nested_round1 A B D E) <> length (nested_marked A B C D E)).
  { unfold nested_round1, nested_marked. len. lia. }
  assert (H2 : length (nested_round2 A E) <> length (nested_round1 A B D E)).
  { unfold nested_round1, nested_round2. len. lia. }
  assert (H3 : 2 <= length (nested_marked A B C D E)).
  { unfold nested_marked. len. lia. }
  assert (H4 : S (length (nested_marked A B C D E)) = S (S (S (length (nested_marked A B C D E) - 2)))) by lia.
  rewrite H4.
  cbn [strip_loop].
  rewrite nested_round1_eq, (jsstring_eqb_length _ _ H1). cbn [negb].
  rewrite nested_round2_eq, (jsstring_eqb_length _ _ H2). cbn [negb].
  rewrite nested_round3_eq, jsstring_eqb_refl. reflexivity.
Qed.

Lemma nested_finish : finish (nested_round2 A E) = A ++ E.
Proof.
  unfold finish, nested_round2.
  rewrite (stage_id unbalanced_re); [| reflexivity | | exact dead_end_unbalanced].
  2:{ apply nostx_dead_unbalanced. rewrite forallb_app. cbn [forallb].
      rewrite (plain_nostx _ HA), (plain_nostx _ HE). reflexivity. }
  rewrite (stage_id coalesce_re); [| reflexivity | | exact dead_end_coalesce].
  2:{ apply Forall_app. split; [|constructor].
      - eapply Forall_of_forallb; [|exact HA]. intros c Hc. apply dead_coalesce, calm_inv, plain_calm, Hc.
      - apply dead_coalesce. reflexivity.
      - eapply Forall_of_forallb; [|exact HE]. intros c Hc. apply dead_coalesce, calm_inv, plain_calm, Hc. }
  rewrite (replace_g control_re) by reflexivity.
  rewrite replace_all_skip.
  2:{ eapply Forall_of_forallb; [|exact HA]. intros c Hc. apply dead_control, calm_inv, plain_calm, Hc. }
  rewrite control_step by reflexivity.
  rewrite replace_all_id; [| | exact dead_end_control].
  2:{ eapply Forall_of_forallb; [|exact HE]. intros c Hc. apply dead_control, calm_inv, plain_calm, Hc. }
  assert (HAE : forallb calm (A ++ E) = true).
  { rewrite forallb_app, (forallb_imp _ _ _ plain_calm HA), (forallb_imp _ _ _ plain_calm HE). reflexivity. }
  rewrite (stage_id fencedgreedy); [| reflexivity | | exact dead_end_fencedgreedy].
  2:{ eapply Forall_of_forallb; [|exact HAE]. intros c Hc. apply dead_fencedgreedy, calm_inv, Hc. }
  rewrite (stage_id fencedlazy); [| reflexivity | | exact dead_end_fencedlazy].
  2:{ eapply Forall_of_forallb; [|exact HAE]. intros c Hc. apply dead_fencedlazy, calm_inv, Hc. }
  reflexivity.
Qed.

End NestedQuotes.


Lemma line_char_dot c : line_char c = true -> dot_char c = true.
Proof. ascii_cases c. Qed.

Lemma line_char_calm c : line_char c = true -> calm c = true.
Proof. unfold line_char. intros H. apply andb_prop in H. tauto. Qed.

Lemma line_char_LF c : line_char c = true -> Ascii.eqb LF c = false.
Proof. ascii_cases c. Qed.

Lemma dot_char_LF c : dot_char c = true -> Ascii.eqb LF c = false.
Proof. ascii_cases c. Qed.

(** One iteration of [(?:.*\n)] passes one line. *)
Lemma line_iter K l R pv cs :
  forallb dot_char l = true ->
  rmatch fl_lazy (Seq (star dot) (Chr LF)) K {| prev := pv; rest := l ++ LF :: R; caps := cs |}
  = K {| prev := Some LF; rest := R; caps := cs |}.
Proof.
  intros Hl.
  change (rmatch fl_lazy (Seq (star dot) (Chr LF)) K {| prev := pv; rest := l ++ LF :: R; caps := cs |})
    with (rep_opt (S (length (l ++ LF :: R))) (rmatch fl_lazy (Cls true [(10, 10); (13, 13)]%N)) None true
            (rmatch fl_lazy (Chr LF) K) {| prev := pv; rest := l ++ LF :: R; caps := cs |}).
  rewrite (rep_opt_greedy _ _ (one_char_Cls _ _ _)); [| lia | exact Hl | reflexivity].
  rewrite greedy_run_only_end.
  - reflexivity.
  - intros pv' W1 w W2 ->. rewrite forallb_app in Hl. apply andb_prop in Hl.
    destruct Hl as [_ Hl]. simpl in Hl. apply andb_prop in Hl. destruct Hl as [Hw _].
    apply dot_char_LF in Hw. cbn. unfold LF in *. rewrite Hw. reflexivity.
Qed.


Lemma fence_close_hit pv T cs :
  rmatch fl_lazy fence_close (fun st => Some st) {| prev := pv; rest := fence ++ LF :: T; caps := cs |}
  = Some {| prev := Some LF; rest := T; caps := cs |}.
Proof. reflexivity. Qed.

Lemma fence_close_miss pv c t cs :
  Ascii.eqb backtick c = false ->
  rmatch fl_lazy fence_close (fun st => Some st) {| prev := pv; rest := c :: t; caps := cs |} = None.
Proof. intros H. cbn. unfold backtick in *. rewrite H. reflexivity. Qed.

Lemma line_head_not_backtick l R :
  forallb line_char l = true ->
  exists c t, l ++ LF :: R = c :: t /\ Ascii.eqb backtick c = false.
Proof.
  intros Hl. destruct l as [|c l].
  - exists LF, R. split; reflexivity.
  - exists c, (l ++ LF :: R). split; [reflexivity|].
    simpl in Hl. apply andb_prop in Hl. destruct Hl as [Hc _].
    apply line_char_calm, calm_inv in Hc. tauto.
Qed.

(** The lazy loop over the lines of the block stops at the closing fence. *)
Lemma lazy_lines :
  forall ls fuel pv T cs,
    Forall (fun l => forallb line_char l = true) ls ->
    length (unlines ls ++ fence ++ LF :: T) < fuel ->
    rep_opt fuel (rmatch fl_lazy (Seq (star dot) (Chr LF))) None false
      (rmatch fl_lazy fence_close (fun st => Some st))
      {| prev := pv; rest := unlines ls ++ fence ++ LF :: T; caps := cs |}
    = Some {| prev := Some LF; rest := T; caps := cs |}.
Proof.
  induction ls as [|l ls IH]; intros fuel pv T cs Hls Hf.
  - destruct fuel as [|fuel]; [simpl in Hf; lia|]. reflexivity.
  - destruct fuel as [|fuel]; [simpl in Hf; lia|].
    inversion Hls as [|? ? Hl Hls']; subst.
    cbn [unlines]. rewrite <- app_assoc. cbn [app].
    destruct (line_head_not_backtick l (unlines ls ++ fence ++ LF :: T) Hl) as (c & t & Ect & Hc).
    cbn [rep_opt].
    rewrite Ect at 1. rewrite (fence_close_miss _ _ _ _ Hc).
    rewrite line_iter by (eapply forallb_imp; [exact line_char_dot | exact Hl]).
    cbn [rest dec_max].
    replace (length (unlines ls ++ fence ++ LF :: T) <? length (l ++ LF :: unlines ls ++ fence ++ LF :: T))
      with true by (symmetry; apply Nat.ltb_lt; rewrite !length_app; simpl; rewrite ?length_app; simpl; lia).
    apply IH; [assumption|].
    cbn [unlines] in Hf. rewrite <- app_assoc in Hf. rewrite !length_app in Hf. simpl in Hf. rewrite ?length_app in *. simpl in *. lia.
Qed.


Lemma fence_body_hit pv ls T cs :
  Forall (fun l => forallb line_char l = true) ls ->
  rmatch fl_lazy fence_body (fun st => Some st)
    {| prev := pv; rest := LF :: unlines ls ++ fence ++ LF :: T; caps := cs |}
  = Some {| prev := Some LF; rest := T; caps := cs |}.
Proof.
  intros Hls.
  change (rmatch fl_lazy fence_body (fun st => Some st)
    {| prev := pv; rest := LF :: unlines ls ++ fence ++ LF :: T; caps := cs |})
    with (rep_opt (S (length (unlines ls ++ fence ++ LF :: T)))
            (rmatch fl_lazy (Seq (star dot) (Chr LF))) None false
            (rmatch fl_lazy fence_close (fun st => Some st))
            {| prev := Some LF; rest := unlines ls ++ fence ++ LF :: T; caps := cs |}).
  apply lazy_lines; [assumption | lia].
Qed.


Lemma fencedlazy_rmatch pv info ls T :
  bol_ok pv ->
  forallb line_char info = true ->
  Forall (fun l => forallb line_char l = true) ls ->
  rmatch fl_lazy (source fencedlazy) (fun st => Some st)
    {| prev := pv; rest := fence ++ info ++ LF :: unlines ls ++ fence ++ LF :: T; caps := [] |}
  = Some {| prev := Some LF; rest := T; caps := [] |}.
Proof.
  intros Hpv Hinfo Hls.
  assert (Hbol : at_bol fl_lazy {| prev := pv; rest := fence ++ info ++ LF :: unlines ls ++ fence ++ LF :: T; caps := [] |} = true).
  { destruct Hpv as [-> | ->]; reflexivity. }
  destruct info as [|i info].
  - change (rmatch fl_lazy (source fencedlazy) (fun st => Some st)
      {| prev := pv; rest := fence ++ [] ++ LF :: unlines ls ++ fence ++ LF :: T; caps := [] |})
      with (if at_bol fl_lazy {| prev := pv; rest := fence ++ [] ++ LF :: unlines ls ++ fence ++ LF :: T; caps := [] |}
            then rmatch fl_lazy fence_body (fun st => Some st)
                   {| prev := Some backtick; rest := LF :: unlines ls ++ fence ++ LF :: T; caps := [] |}
            else None).
    rewrite Hbol. apply fence_body_hit. assumption.
  - simpl in Hinfo. apply andb_prop in Hinfo. destruct Hinfo as [Hi Hinfo].
    assert (Hi1 : cls_match fl_lazy true [(96, 96); (10, 10)]%N i = true).
    { revert Hi. clear. ascii_cases i. }
    change (rmatch fl_lazy (source fencedlazy) (fun st => Some st)
      {| prev := pv; rest := fence ++ (i :: info) ++ LF :: unlines ls ++ fence ++ LF :: T; caps := [] |})
      with (if at_bol fl_lazy {| prev := pv; rest := fence ++ (i :: info) ++ LF :: unlines ls ++ fence ++ LF :: T; caps := [] |}
            then
              match
                (if cls_match fl_lazy true [(96, 96); (10, 10)]%N i
                 then rep_opt (S (length (info ++ LF :: unlines ls ++ fence ++ LF :: T)))
                        (rmatch fl_lazy (Cls true [(10, 10); (13, 13)]%N)) None true
                        (fun st' =>
                           if length (rest st') <? S (length (info ++ LF :: unlines ls ++ fence ++ LF :: T))
                           then rmatch fl_lazy fence_body (fun st => Some st) st'
                           else None)
                        {| prev := Some i; rest := info ++ LF :: unlines ls ++ fence ++ LF :: T; caps := [] |}
                 else None)
              with
              | Some x => Some x
              | None => rmatch fl_lazy fence_body (fun st => Some st)
                          {| prev := Some backtick; rest := (i :: info) ++ LF :: unlines ls ++ fence ++ LF :: T; caps := [] |}
              end
            else None).
    rewrite Hbol, Hi1.
    rewrite (rep_opt_greedy _ _ (one_char_Cls _ _ _));
      [| lia | eapply forallb_imp; [exact line_char_dot | exact Hinfo] | reflexivity].
    erewrite greedy_run_end; [reflexivity|].
    cbn [greedy_run rest].
    replace (length (LF :: unlines ls ++ fence ++ LF :: T) <? S (length (info ++ LF :: unlines ls ++ fence ++ LF :: T)))
      with true by (symmetry; apply Nat.ltb_lt; rewrite !length_app; simpl; lia).
    apply fence_body_hit. assumption.
Qed.


Lemma block_app info ls T :
  block info ls ++ T = fence ++ info ++ LF :: unlines ls ++ fence ++ LF :: T.
Proof.
  unfold block. rewrite <- !app_assoc. cbn [app]. f_equal.
  rewrite <- !app_assoc. reflexivity.
Qed.

Lemma fencedlazy_hit pv info ls T :
  bol_ok pv ->
  forallb line_char info = true ->
  Forall (fun l => forallb line_char l = true) ls ->
  match_at fencedlazy pv (block info ls ++ T) = Some (block info ls, []).
Proof.
  intros Hpv Hinfo Hls. eapply match_at_some. rewrite block_app.
  apply fencedlazy_rmatch; assumption.
Qed.

Lemma block_cons info ls : exists M, block info ls = backtick :: M /\ prev_after (Some backtick) M = Some LF.
Proof.
  exists ([backtick; backtick] ++ info ++ LF :: unlines ls ++ fence ++ [LF]). split; [reflexivity|].
  rewrite !prev_after_app. cbn [app].
  change (LF :: unlines ls ++ fence ++ [LF]) with ([LF] ++ unlines ls ++ fence ++ [LF]).
  rewrite !prev_after_app. reflexivity.
Qed.

Lemma fencedlazy_step f pv info ls T :
  bol_ok pv ->
  forallb line_char info = true ->
  Forall (fun l => forallb line_char l = true) ls ->
  replace_all_from fencedlazy f pv 0 (block info ls ++ T)
  = f (block info ls) [] ++ replace_all_from fencedlazy f (Some LF) 0 T.
Proof.
  intros Hpv Hinfo Hls.
  assert (H := fencedlazy_hit pv info ls T Hpv Hinfo Hls).
  destruct (block_cons info ls) as (M & EM & HM). rewrite EM in *.
  cbn [app] in *. rewrite (replace_all_hit fencedlazy f pv backtick M T [] H), HM. reflexivity.
Qed.

(** The greedy pattern needs four backticks at the start of a line. *)
Lemma fencedgreedy_not4 pv c T :
  Ascii.eqb backtick c = false ->
  match_at fencedgreedy pv (fence ++ c :: T) = None.
Proof.
  intros H. apply match_at_none. cbn. destruct (at_bol _ _); [|reflexivity].
  unfold backtick in *. rewrite H. reflexivity.
Qed.

Lemma fencedgreedy_mid c s :
  is_line_terminator c = false -> match_at fencedgreedy (Some c) s = None.
Proof.
  intros H. apply match_at_none. cbn. unfold at_bol. cbn. rewrite H. reflexivity.
Qed.

Lemma fencedgreedy_fence f pv c T :
  Ascii.eqb backtick c = false ->
  replace_all_from fencedgreedy f pv 0 (fence ++ c :: T)
  = fence ++ replace_all_from fencedgreedy f (Some backtick) 0 (c :: T).
Proof.
  intros H. unfold fence at 1. cbn [app].
  rewrite replace_all_miss by exact (fencedgreedy_not4 pv c T H).
  rewrite replace_all_miss by (apply fencedgreedy_mid; reflexivity).
  rewrite replace_all_miss by (apply fencedgreedy_mid; reflexivity).
  reflexivity.
Qed.

Lemma calm_dead_fencedgreedy s : forallb calm s = true -> Forall (dead fencedgreedy) s.
Proof. apply Forall_of_forallb. intros c Hc. apply dead_fencedgreedy, calm_inv, Hc. Qed.

Lemma calm_dead_fencedlazy s : forallb calm s = true -> Forall (dead fencedlazy) s.
Proof. apply Forall_of_forallb. intros c Hc. apply dead_fencedlazy, calm_inv, Hc. Qed.

Lemma unlines_calm ls :
  Forall (fun l => forallb line_char l = true) ls -> forallb calm (unlines ls) = true.
Proof.
  induction 1 as [|l ls Hl _ IH]; [reflexivity|].
  cbn [unlines]. rewrite forallb_app. cbn [forallb]. rewrite IH.
  rewrite (forallb_imp _ _ _ line_char_calm Hl). reflexivity.
Qed.

(** The greedy pattern finds nothing in a text whose only backticks are the
    two fences of one block. *)
Lemma fencedgreedy_block f pv P info ls T :
  forallb calm P = true ->
  forallb line_char info = true ->
  Forall (fun l => forallb line_char l = true) ls ->
  forallb calm T = true ->
  replace_all_from fencedgreedy f pv 0 (P ++ block info ls ++ T) = P ++ block info ls ++ T.
Proof.
  intros HP Hinfo Hls HT.
  rewrite replace_all_skip by (apply calm_dead_fencedgreedy, HP).
  rewrite block_app.
  assert (Hmid : forallb calm (info ++ LF :: unlines ls) = true).
  { rewrite forallb_app. cbn [forallb]. rewrite (unlines_calm _ Hls).
    rewrite (forallb_imp _ _ _ line_char_calm Hinfo). reflexivity. }
  assert (E : info ++ LF :: unlines ls ++ fence ++ LF :: T = (info ++ LF :: unlines ls) ++ fence ++ LF :: T).
  { rewrite <- app_assoc. reflexivity. }
  destruct (info ++ LF :: unlines ls) as [|c mid] eqn:Emid.
  { destruct info; discriminate. }
  rewrite E. cbn [app].
  simpl in Hmid. apply andb_prop in Hmid. destruct Hmid as [Hc Hmid].
  rewrite fencedgreedy_fence by (apply calm_inv, Hc).
  change (c :: mid ++ fence ++ LF :: T) with ((c :: mid) ++ fence ++ LF :: T).
  rewrite replace_all_skip.
  2:{ apply calm_dead_fencedgreedy. simpl. rewrite Hc, Hmid. reflexivity. }
  rewrite fencedgreedy_fence by reflexivity.
  change (LF :: T) with ([LF] ++ T).
  rewrite replace_all_skip by (repeat constructor; apply dead_fencedgreedy; reflexivity).
  rewrite replace_all_id; [reflexivity | apply calm_dead_fencedgreedy, HT | exact dead_end_fencedgreedy].
Qed.

(** The lazy pattern finds the block, and nothing else. *)
Lemma fencedlazy_block f P info ls T :
  forallb calm P = true ->
  bol_ok (prev_after None P) ->
  forallb line_char info = true ->
  Forall (fun l => forallb line_char l = true) ls ->
  forallb calm T = true ->
  replace_all_from fencedlazy f None 0 (P ++ block info ls ++ T)
  = P ++ f (block info ls) [] ++ T.
Proof.
  intros HP Hbol Hinfo Hls HT.
  rewrite replace_all_skip by (apply calm_dead_fencedlazy, HP).
  rewrite fencedlazy_step by assumption.
  rewrite replace_all_id; [reflexivity | apply calm_dead_fencedlazy, HT | exact dead_end_fencedlazy].
Qed.


Lemma replace_all_hit1 re f pv c X cs :
  match_at re pv (c :: X) = Some ([c], cs) ->
  replace_all_from re f pv 0 (c :: X) = f [c] cs ++ replace_all_from re f (Some c) 0 X.
Proof. intros H. exact (replace_all_hit re f pv c [] X cs H). Qed.


Lemma hide_app s t : hide (s ++ t) = hide s ++ hide t.
Proof.
  induction s as [|c s IH]; [reflexivity|].
  cbn [app hide]. destruct (Ascii.eqb "["%char c); cbn [app]; rewrite IH; reflexivity.
Qed.

Lemma hide_forallb (q : ascii -> bool) s :
  q "["%char = true -> q DLE = true -> forallb q s = true -> forallb q (hide s) = true.
Proof.
  intros Hb Hd. induction s as [|c s IH]; intros H; [reflexivity|].
  simpl in H. apply andb_prop in H. destruct H as [Hc Hs].
  cbn [hide]. destruct (Ascii.eqb "["%char c); cbn [forallb]; rewrite ?Hb, ?Hd, ?Hc, IH by assumption; reflexivity.
Qed.

Lemma hide_plain s : forallb plain s = true -> hide s = s.
Proof.
  induction s as [|c s IH]; intros H; [reflexivity|].
  simpl in H. apply andb_prop in H. destruct H as [Hc Hs].
  cbn [hide]. apply plain_inv in Hc. destruct Hc as [_ Hc]. rewrite Hc, IH by assumption. reflexivity.
Qed.


Lemma hidetags_bracket pv T :
  stops (Ascii.eqb DLE) T ->
  match_at hidetags_re pv ("["%char :: T) = Some (["["%char], []).
Proof.
  intros H. apply (match_at_some hidetags_re pv ["["%char] T [] (Some "["%char)).
  cbn. destruct T as [|c T]; [reflexivity|]. simpl in H. unfold DLE in *. rewrite H. reflexivity.
Qed.

Lemma hidetags_hidden_bracket pv T :
  match_at hidetags_re pv ("["%char :: DLE :: T) = None.
Proof. apply match_at_none. reflexivity. Qed.

(** [hidetags] on a text without control characters. *)
Lemma hidetags_fresh s :
  forall pv, forallb no_control s = true ->
  replace_all_from hidetags_re (template [TLit ["["%char; DLE]]) pv 0 s = hide s.
Proof.
  induction s as [|c s IH]; intros pv H; [reflexivity|].
  simpl in H. apply andb_prop in H. destruct H as [Hc Hs].
  cbn [hide]. destruct (Ascii.eqb_spec "["%char c) as [<-|Hne].
  - rewrite (replace_all_hit1 hidetags_re (template [TLit ["["%char; DLE]]) pv "["%char s []).
    + cbn [app]. rewrite IH by assumption. reflexivity.
    + apply hidetags_bracket. destruct s as [|d s]; [exact I|].
      simpl in Hs. apply andb_prop in Hs. destruct Hs as [Hd _].
      unfold no_control in Hd. apply negb_true_iff in Hd.
      exact (control_neq DLE d eq_refl Hd).
  - rewrite replace_all_miss.
    + rewrite IH by assumption. reflexivity.
    + apply dead_hidetags. apply Ascii.eqb_neq. exact Hne.
Qed.

(** [hidetags] on a text whose tags are hidden already. *)
Lemma hidetags_hidden s :
  forall pv Y,
  replace_all_from hidetags_re (template [TLit ["["%char; DLE]]) pv 0 (hide s ++ Y)
  = hide s ++ replace_all_from hidetags_re (template [TLit ["["%char; DLE]]) (prev_after pv (hide s)) 0 Y.
Proof.
  induction s as [|c s IH]; intros pv Y; [reflexivity|].
  cbn [hide]. destruct (Ascii.eqb_spec "["%char c) as [<-|Hne].
  - cbn [app]. rewrite replace_all_miss by apply hidetags_hidden_bracket.
    rewrite replace_all_miss by (apply dead_hidetags; reflexivity).
    rewrite IH. reflexivity.
  - cbn [app]. rewrite replace_all_miss by (apply dead_hidetags, Ascii.eqb_neq, Hne).
    rewrite IH. reflexivity.
Qed.

(** No quote tag starts at a hidden bracket. *)
Lemma quote_open_hidden_bracket pv T :
  match_at quote_open_re pv ("["%char :: DLE :: T) = None.
Proof. apply match_at_none. reflexivity. Qed.

Lemma quote_close_hidden_bracket pv T :
  match_at quote_close_re pv ("["%char :: DLE :: T) = None.
Proof. apply match_at_none. reflexivity. Qed.

Lemma quote_open_hidden f s :
  forall pv Y,
  replace_all_from quote_open_re f pv 0 (hide s ++ Y)
  = hide s ++ replace_all_from quote_open_re f (prev_after pv (hide s)) 0 Y.
Proof.
  induction s as [|c s IH]; intros pv Y; [reflexivity|].
  cbn [hide]. destruct (Ascii.eqb_spec "["%char c) as [<-|Hne].
  - cbn [app]. rewrite replace_all_miss by apply quote_open_hidden_bracket.
    rewrite replace_all_miss by (apply dead_quote_open; reflexivity).
    rewrite IH. reflexivity.
  - cbn [app]. rewrite replace_all_miss by (apply dead_quote_open, Ascii.eqb_neq, Hne).
    rewrite IH. reflexivity.
Qed.

Lemma quote_close_hidden f s :
  forall pv Y,
  replace_all_from quote_close_re f pv 0 (hide s ++ Y)
  = hide s ++ replace_all_from quote_close_re f (prev_after pv (hide s)) 0 Y.
Proof.
  induction s as [|c s IH]; intros pv Y; [reflexivity|].
  cbn [hide]. destruct (Ascii.eqb_spec "["%char c) as [<-|Hne].
  - cbn [app]. rewrite replace_all_miss by apply quote_close_hidden_bracket.
    rewrite replace_all_miss by (apply dead_quote_close; reflexivity).
    rewrite IH. reflexivity.
  - cbn [app]. rewrite replace_all_miss by (apply dead_quote_close, Ascii.eqb_neq, Hne).
    rewrite IH. reflexivity.
Qed.

(** Dropping the control characters undoes the hiding. *)
Lemma control_hidden s :
  forall pv Y,
  forallb no_control s = true ->
  replace_all_from control_re empty_replacement pv 0 (hide s ++ Y)
  = s ++ replace_all_from control_re empty_replacement (prev_after pv (hide s)) 0 Y.
Proof.
  induction s as [|c s IH]; intros pv Y H; [reflexivity|].
  simpl in H. apply andb_prop in H. destruct H as [Hc Hs].
  unfold no_control in Hc. apply negb_true_iff in Hc.
  cbn [hide]. destruct (Ascii.eqb_spec "["%char c) as [<-|Hne].
  - cbn [app]. rewrite replace_all_miss by (apply dead_control; reflexivity).
    rewrite control_step by reflexivity.
    rewrite IH by assumption. reflexivity.
  - cbn [app]. rewrite replace_all_miss by (apply dead_control, Hc).
    rewrite IH by assumption. reflexivity.
Qed.

(** *** Inline code *)

Lemma lazy_run_skip k cs :
  forall W1 pv W2 X,
    (forall pv' U1 w U2, W1 = U1 ++ w :: U2 ->
       k {| prev := pv'; rest := w :: (U2 ++ W2) ++ X; caps := cs |} = None) ->
    lazy_run k cs pv (W1 ++ W2) X = lazy_run k cs (prev_after pv W1) W2 X.
Proof.
  induction W1 as [|w W1 IH]; intros pv W2 X H.
  - reflexivity.
  - cbn [app lazy_run]. rewrite (H pv [] w W1 eq_refl). apply IH.
    intros pv' U1 w' U2 ->. apply (H pv' (w :: U1) w' U2). reflexivity.
Qed.


Lemma any_char c : cls_match fl_inline true [] c = true.
Proof. reflexivity. Qed.

Lemma forallb_any s : forallb (cls_match fl_inline true []) s = true.
Proof. induction s; [reflexivity|assumption]. Qed.

(** The text after the opening fence, up to the next fence. *)
Lemma inline_span pv W R :
  forallb not_backtick W = true ->
  rmatch fl_inline (Seq (star_lazy any) (Ref 1)) (fun st => Some st)
    {| prev := pv; rest := W ++ fence ++ R; caps := [(1, fence)] |}
  = Some {| prev := Some backtick; rest := R; caps := [(1, fence)] |}.
Proof.
  intros HW.
  change (rmatch fl_inline (Seq (star_lazy any) (Ref 1)) (fun st => Some st)
    {| prev := pv; rest := W ++ fence ++ R; caps := [(1, fence)] |})
    with (rep_opt (S (length (W ++ fence ++ R))) (rmatch fl_inline (Cls true [])) None false
            (rmatch fl_inline (Ref 1) (fun st => Some st))
            {| prev := pv; rest := W ++ fence ++ R; caps := [(1, fence)] |}).
  rewrite <- (app_nil_r (W ++ fence ++ R)) at 2.
  rewrite (rep_opt_lazy _ _ (one_char_Cls _ _ _));
    [| rewrite app_nil_r; lia | apply forallb_any | exact I].
  rewrite lazy_run_skip.
  - cbn. rewrite app_nil_r. reflexivity.
  - intros pv' U1 w U2 ->. rewrite forallb_app in HW. apply andb_prop in HW.
    destruct HW as [_ HW]. simpl in HW. apply andb_prop in HW. destruct HW as [Hw _].
    unfold not_backtick in Hw. apply negb_true_iff in Hw.
    cbn. unfold backtick in *. rewrite Hw. reflexivity.
Qed.

Lemma inline_rmatch pv w W R :
  forallb not_backtick (w :: W) = true ->
  rmatch fl_inline (source inline) (fun st => Some st)
    {| prev := pv; rest := fence ++ (w :: W) ++ fence ++ R; caps := [] |}
  = Some {| prev := Some backtick; rest := R; caps := [(1, fence)] |}.
Proof.
  intros HW.
  assert (Hw : Ascii.eqb backtick w = false).
  { simpl in HW. apply andb_prop in HW. destruct HW as [Hw _].
    unfold not_backtick in Hw. apply negb_true_iff in Hw. exact Hw. }
  set (X := (w :: W) ++ fence ++ R) in *.
  change (rmatch fl_inline (source inline) (fun st => Some st)
    {| prev := pv; rest := fence ++ X; caps := [] |})
    with (rep_opt (S (length ([backtick; backtick] ++ X))) (rmatch fl_inline (Chr backtick)) None true
            (fun st' => rmatch fl_inline (Seq (star_lazy any) (Ref 1)) (fun st => Some st)
                          (set_cap 1 (consumed {| prev := pv; rest := fence ++ X; caps := [] |} st') st'))
            {| prev := Some backtick; rest := [backtick; backtick] ++ X; caps := [] |}).
  rewrite (rep_opt_greedy _ _ (one_char_Chr _ _)); [| lia | reflexivity | exact Hw].
  erewrite greedy_run_end; [reflexivity|].
  cbn [greedy_run fold_left]. unfold consumed. cbn [rest].
  rewrite firstn_app_exact. unfold set_cap. cbn [prev rest caps].
  apply inline_span. exact HW.
Qed.

Lemma inline_hit pv w W R :
  forallb not_backtick (w :: W) = true ->
  match_at inline pv (fence ++ (w :: W) ++ fence ++ R)
  = Some (fence ++ (w :: W) ++ fence, [(1, fence)]).
Proof.
  intros HW.
  replace (fence ++ (w :: W) ++ fence ++ R) with ((fence ++ (w :: W) ++ fence) ++ R)
    by (rewrite <- !app_assoc; reflexivity).
  eapply match_at_some.
  replace ((fence ++ (w :: W) ++ fence) ++ R) with (fence ++ (w :: W) ++ fence ++ R)
    by (rewrite <- !app_assoc; reflexivity).
  apply inline_rmatch. exact HW.
Qed.

(** *** Backticks next to a removed quote *)

Lemma coalesce_mid c s :
  is_line_terminator c = false -> match_at coalesce_re (Some c) s = None.
Proof.
  intros H. apply match_at_none. cbn. unfold at_bol. cbn. rewrite H. reflexivity.
Qed.

Lemma coalesce_fence pv c T :
  Ascii.eqb backtick c = false -> Ascii.eqb SUB c = false ->
  match_at coalesce_re pv (fence ++ c :: T) = None.
Proof.
  intros H1 H2. apply match_at_none. cbn. destruct (at_bol _ _); [|reflexivity].
  unfold backtick, SUB in *. rewrite H1, H2. destruct (_ <=? _); reflexivity.
Qed.

Lemma inline_step f pv w W R :
  forallb not_backtick (w :: W) = true ->
  replace_all_from inline f pv 0 (fence ++ (w :: W) ++ fence ++ R)
  = f (fence ++ (w :: W) ++ fence) [(1, fence)] ++ replace_all_from inline f (Some backtick) 0 R.
Proof.
  intros HW. assert (Hhit := inline_hit pv w W R HW).
  assert (E1 : fence ++ (w :: W) ++ fence ++ R
               = backtick :: ([backtick; backtick] ++ (w :: W) ++ fence) ++ R).
  { unfold fence. cbn [app]. rewrite <- !app_assoc. reflexivity. }
  assert (E2 : fence ++ (w :: W) ++ fence = backtick :: [backtick; backtick] ++ (w :: W) ++ fence).
  { reflexivity. }
  rewrite E1, E2 in *.
  rewrite (replace_all_hit inline f pv backtick _ R _ Hhit).
  rewrite !prev_after_app. reflexivity.
Qed.


Lemma calm_no_control c : calm c = true -> no_control c = true.
Proof. unfold calm, no_control. intros H. apply andb_prop in H. tauto. Qed.

Lemma calm_not_backtick c : calm c = true -> not_backtick c = true.
Proof. intros H. apply calm_inv in H. unfold not_backtick. apply negb_true_iff. tauto. Qed.

Lemma calm_nostx c : calm c = true -> nostx c = true.
Proof.
  intros H. apply calm_inv in H. destruct H as [H _].
  unfold nostx. apply negb_true_iff. exact (control_neq STX c eq_refl H).
Qed.

Lemma coalesce_fence_pass f pv c T :
  Ascii.eqb backtick c = false -> Ascii.eqb SUB c = false ->
  replace_all_from coalesce_re f pv 0 (fence ++ c :: T)
  = fence ++ replace_all_from coalesce_re f (Some backtick) 0 (c :: T).
Proof.
  intros H1 H2. unfold fence at 1. cbn [app].
  rewrite replace_all_miss by exact (coalesce_fence pv c T H1 H2).
  rewrite replace_all_miss by (apply coalesce_mid; reflexivity).
  rewrite replace_all_miss by (apply coalesce_mid; reflexivity).
  reflexivity.
Qed.

Lemma fence_skip re f pv X :
  dead re backtick ->
  replace_all_from re f pv 0 (fence ++ X) = fence ++ replace_all_from re f (Some backtick) 0 X.
Proof. intros H. rewrite replace_all_skip by (repeat constructor; exact H). reflexivity. Qed.

Lemma LF_skip re f pv X :
  dead re LF ->
  replace_all_from re f pv 0 (LF :: X) = LF :: replace_all_from re f (Some LF) 0 X.
Proof. intros H. apply replace_all_miss. apply H. Qed.


Section FencedBlock.

Variables P info T : jsstring.
Variable ls : list jsstring.
Hypothesis HP : forallb plain P = true.
Hypothesis HPl : bol_ok (prev_after None P).
Hypothesis Hinfo : forallb line_char info = true.
Hypothesis Hls : Forall (fun l => forallb line_char l = true) ls.
Hypothesis HT : forallb plain T = true.


Lemma block_mid : block info ls = fence ++ (mid info ls) ++ fence ++ [LF].
Proof. unfold block, mid. rewrite <- app_assoc. reflexivity. Qed.

Lemma mid_calm : forallb calm (mid info ls) = true.
Proof.
  unfold mid. rewrite forallb_app. cbn [forallb].
  rewrite (unlines_calm _ Hls), (forallb_imp _ _ _ line_char_calm Hinfo). reflexivity.
Qed.

Lemma mid_cons : exists c m, (mid info ls) = c :: m.
Proof. unfold mid. destruct info as [|c i]; [exists LF, (unlines ls) | exists c, (i ++ LF :: unlines ls)]; reflexivity. Qed.

Lemma P_calm : forallb calm P = true.
Proof. exact (forallb_imp _ _ _ plain_calm HP). Qed.

Lemma T_calm : forallb calm T = true.
Proof. exact (forallb_imp _ _ _ plain_calm HT). Qed.

Lemma fenced_text_no_control : forallb no_control (fenced_text P info ls T) = true.
Proof.
  unfold fenced_text. rewrite block_mid, !forallb_app.
  rewrite (forallb_imp _ _ _ calm_no_control P_calm), (forallb_imp _ _ _ calm_no_control T_calm),
    (forallb_imp _ _ _ calm_no_control mid_calm). reflexivity.
Qed.

Lemma block_no_control : forallb no_control (block info ls) = true.
Proof.
  rewrite block_mid, !forallb_app.
  rewrite (forallb_imp _ _ _ calm_no_control mid_calm). reflexivity.
Qed.

Lemma hide_block : hide (block info ls) = fence ++ hide (mid info ls) ++ fence ++ [LF].
Proof. rewrite block_mid, !hide_app. reflexivity. Qed.

Lemma hidetags_block : hidetags (block info ls) = fence ++ hide (mid info ls) ++ fence ++ [LF].
Proof.
  unfold hidetags. rewrite replace_g by reflexivity.
  rewrite (hidetags_fresh _ None block_no_control). apply hide_block.
Qed.

Lemma hide_mid_not_backtick : forallb not_backtick (hide (mid info ls)) = true.
Proof.
  apply hide_forallb; [reflexivity | reflexivity |].
  exact (forallb_imp _ _ _ calm_not_backtick mid_calm).
Qed.

Lemma hide_mid_cons : exists c m, hide (mid info ls) = c :: m.
Proof.
  destruct mid_cons as (c & m & ->). cbn [hide].
  destruct (Ascii.eqb "["%char c); eauto.
Qed.

Lemma hidetags_span : hidetags (fence ++ hide (mid info ls) ++ fence) = fence ++ hide (mid info ls) ++ fence.
Proof.
  unfold hidetags. rewrite replace_g by reflexivity.
  rewrite fence_skip by (apply dead_hidetags; reflexivity).
  rewrite hidetags_hidden.
  rewrite replace_all_id; [reflexivity | | exact dead_end_hidetags].
  repeat constructor; apply dead_hidetags; reflexivity.
Qed.

Lemma fenced_protect :
  replace inline (by_function hidetags)
    (replace fencedlazy (by_function hidetags)
      (replace fencedgreedy (by_function hidetags)
        (replace control_re empty_replacement
          (replace newline_re (template [TLit [LF]]) (fenced_text P info ls T))))) = (fenced_hidden P info ls T).
Proof.
  rewrite (stage_id newline_re); [| reflexivity | | exact dead_end_newline].
  2:{ eapply Forall_of_forallb; [|exact fenced_text_no_control].
      intros c Hc. apply dead_newline. apply negb_true_iff, Hc. }
  rewrite (stage_id control_re); [| reflexivity | | exact dead_end_control].
  2:{ eapply Forall_of_forallb; [|exact fenced_text_no_control].
      intros c Hc. apply dead_control. apply negb_true_iff, Hc. }
  rewrite (replace_g fencedgreedy) by reflexivity. unfold fenced_text.
  rewrite fencedgreedy_block by (exact P_calm || exact Hinfo || exact Hls || exact T_calm).
  rewrite (replace_g fencedlazy) by reflexivity.
  rewrite fencedlazy_block by (exact P_calm || exact HPl || exact Hinfo || exact Hls || exact T_calm).
  change (by_function hidetags (block info ls) []) with (hidetags (block info ls)).
  rewrite hidetags_block.
  rewrite (replace_g inline) by reflexivity.
  rewrite replace_all_skip.
  2:{ eapply Forall_of_forallb; [|exact P_calm]. intros c Hc. apply dead_inline, calm_inv, Hc. }
  destruct hide_mid_cons as (w & W & EW).
  assert (HW := hide_mid_not_backtick).
  assert (Hs := hidetags_span).
  unfold fenced_hidden. rewrite EW in *.
  replace (fence ++ (w :: W) ++ fence ++ [LF]) with (fence ++ (w :: W) ++ fence ++ [LF])  by reflexivity.
  rewrite <- !app_assoc.
  rewrite inline_step by exact HW.
  change (by_function hidetags (fence ++ (w :: W) ++ fence) [(1, fence)]) with (hidetags (fence ++ (w :: W) ++ fence)).
  rewrite Hs.
  rewrite replace_all_id; [| | exact dead_end_inline].
  2:{ apply Forall_cons; [apply dead_inline; reflexivity|].
      eapply Forall_of_forallb; [|exact T_calm]. intros c Hc. apply dead_inline, calm_inv, Hc. }
  rewrite <- !app_assoc. reflexivity.
Qed.

Lemma P_not_bracket : Forall (fun c => Ascii.eqb "["%char c = false) P.
Proof. eapply Forall_of_forallb; [|exact HP]. intros c Hc. apply plain_inv, Hc. Qed.

Lemma fenced_mark : mark_quotes (fenced_text P info ls T) = (fenced_hidden P info ls T).
Proof.
  unfold mark_quotes. rewrite fenced_protect. unfold fenced_hidden.
  rewrite (replace_g quote_open_re) by reflexivity.
  rewrite replace_all_skip by (apply plain_dead_open, HP).
  rewrite fence_skip by (apply dead_quote_open; reflexivity).
  rewrite quote_open_hidden.
  rewrite fence_skip by (apply dead_quote_open; reflexivity).
  rewrite LF_skip by (apply dead_quote_open; reflexivity).
  rewrite replace_all_id by (apply plain_dead_open, HT || exact dead_end_quote_open).
  rewrite (replace_g quote_close_re) by reflexivity.
  rewrite replace_all_skip by (apply plain_dead_close, HP).
  rewrite fence_skip by (apply dead_quote_close; reflexivity).
  rewrite quote_close_hidden.
  rewrite fence_skip by (apply dead_quote_close; reflexivity).
  rewrite LF_skip by (apply dead_quote_close; reflexivity).
  rewrite replace_all_id by (apply plain_dead_close, HT || exact dead_end_quote_close).
  reflexivity.
Qed.

Lemma fenced_hidden_nostx : forallb nostx (fenced_hidden P info ls T) = true.
Proof.
  unfold fenced_hidden. rewrite !forallb_app. cbn [forallb]. rewrite ?forallb_app.
  rewrite (plain_nostx _ HP), (plain_nostx _ HT).
  rewrite (hide_forallb nostx (mid info ls) eq_refl eq_refl (forallb_imp _ _ _ calm_nostx mid_calm)).
  reflexivity.
Qed.

Lemma fenced_strip : strip_nested (fenced_hidden P info ls T) = (fenced_hidden P info ls T).
Proof.
  unfold strip_nested. cbn [strip_loop].
  rewrite (stage_id innermost_re); [| reflexivity | | exact dead_end_innermost].
  - rewrite jsstring_eqb_refl. reflexivity.
  - apply nostx_dead, fenced_hidden_nostx.
Qed.

Lemma hide_mid_head :
  exists c m, hide (mid info ls) = c :: m /\ Ascii.eqb backtick c = false /\ Ascii.eqb SUB c = false.
Proof.
  destruct mid_cons as (c & m & E). assert (H := mid_calm). rewrite E in *.
  simpl in H. apply andb_prop in H. destruct H as [Hc _].
  apply calm_inv in Hc. destruct Hc as [Hc1 Hc2].
  cbn [hide]. destruct (Ascii.eqb_spec "["%char c) as [<-|_].
  - eexists _, _. repeat split.
  - exists c, (hide m). repeat split; [exact Hc2|].
    exact (control_neq SUB c eq_refl Hc1).
Qed.

Lemma fenced_finish : finish (fenced_hidden P info ls T) = P ++ T.
Proof.
  unfold finish.
  rewrite (stage_id unbalanced_re); [| reflexivity | | exact dead_end_unbalanced].
  2:{ apply nostx_dead_unbalanced, fenced_hidden_nostx. }
  unfold fenced_hidden.
  (* backticks next to a removed quote: none *)
  rewrite (replace_g coalesce_re) by reflexivity.
  rewrite replace_all_skip.
  2:{ eapply Forall_of_forallb; [|exact P_calm]. intros c Hc. apply dead_coalesce, calm_inv, Hc. }
  destruct hide_mid_head as (c & m & Ehm & Hc1 & Hc2).
  assert (HW := hide_mid_not_backtick).
  rewrite Ehm in HW |- *. cbn [app].
  rewrite coalesce_fence_pass by assumption.
  change (c :: m ++ fence ++ LF :: T) with ((c :: m) ++ fence ++ LF :: T).
  rewrite replace_all_skip.
  2:{ eapply Forall_of_forallb; [|exact HW]. intros x Hx. apply dead_coalesce.
      unfold not_backtick in Hx. apply negb_true_iff, Hx. }
  rewrite coalesce_fence_pass by reflexivity.
  rewrite replace_all_id; [| | exact dead_end_coalesce].
  2:{ apply Forall_cons; [apply dead_coalesce; reflexivity|].
      eapply Forall_of_forallb; [|exact T_calm]. intros x Hx. apply dead_coalesce, calm_inv, Hx. }
  rewrite <- Ehm.
  (* the control characters go, and with them the hiding *)
  rewrite (replace_g control_re) by reflexivity.
  rewrite replace_all_skip.
  2:{ eapply Forall_of_forallb; [|exact P_calm]. intros x Hx. apply dead_control, calm_inv, Hx. }
  rewrite fence_skip by (apply dead_control; reflexivity).
  rewrite control_hidden by exact (forallb_imp _ _ _ calm_no_control mid_calm).
  rewrite fence_skip by (apply dead_control; reflexivity).
  rewrite replace_all_id; [| | exact dead_end_control].
  2:{ apply Forall_cons; [apply dead_control; reflexivity|].
      eapply Forall_of_forallb; [|exact T_calm]. intros x Hx. apply dead_control, calm_inv, Hx. }
  (* the block is found again and removed *)
  replace (P ++ fence ++ (mid info ls) ++ fence ++ LF :: T) with (P ++ block info ls ++ T).
  2:{ rewrite block_mid, <- !app_assoc. reflexivity. }
  rewrite (replace_g fencedgreedy) by reflexivity.
  rewrite fencedgreedy_block by (exact P_calm || exact Hinfo || exact Hls || exact T_calm).
  rewrite (replace_g fencedlazy) by reflexivity.
  rewrite fencedlazy_block by (exact P_calm || exact HPl || exact Hinfo || exact Hls || exact T_calm).
  reflexivity.
Qed.

Lemma fenced_no_marks : ~ In STX (fenced_hidden P info ls T) /\ ~ In ETX (fenced_hidden P info ls T).
Proof.
  assert (H : forallb no_control (fenced_hidden P info ls T) = true \/ True) by (right; exact I).
  clear H.
  assert (Hn : forall x, is_control x = true -> Ascii.eqb x DLE = false -> ~ In x (fenced_hidden P info ls T)).
  { intros x Hx Hd Hin. unfold fenced_hidden in Hin.
    assert (Hq : forallb (fun c => negb (Ascii.eqb x c)) (fenced_hidden P info ls T) = true).
    { unfold fenced_hidden. rewrite !forallb_app. cbn [forallb]. rewrite ?forallb_app.
      assert (Hcalm : forall s, forallb calm s = true -> forallb (fun c => negb (Ascii.eqb x c)) s = true).
      { intros s. apply forallb_imp. intros c Hc. apply negb_true_iff.
        apply calm_inv in Hc. destruct Hc as [Hc _]. exact (control_neq x c Hx Hc). }
      rewrite (Hcalm _ P_calm), (Hcalm _ T_calm).
      rewrite (hide_forallb (fun c => negb (Ascii.eqb x c)) (mid info ls)).
      - cbn [forallb]. 
        assert (Hb : Ascii.eqb x backtick = false) by (apply control_neq; [exact Hx | reflexivity]).
        assert (Hl : Ascii.eqb x LF = false) by (apply control_neq; [exact Hx | reflexivity]).
        unfold fence. cbn [forallb]. rewrite Hb, Hl. reflexivity.
      - apply negb_true_iff. apply control_neq; [exact Hx | reflexivity].
      - apply negb_true_iff. exact Hd.
      - apply Hcalm, mid_calm. }
    rewrite forallb_forall in Hq. specialize (Hq x Hin).
    rewrite Ascii.eqb_refl in Hq. discriminate. }
  split; apply Hn; reflexivity.
Qed.

End FencedBlock.


Lemma length_ind (A : Type) (P : list A -> Prop) :
  (forall l, (forall l', length l' < length l -> P l') -> P l) -> forall l, P l.
Proof.
  intros H l. remember (length l) as n eqn:En. revert l En.
  induction n as [n IH] using lt_wf_ind. intros l ->.
  apply H. intros l' Hl'. exact (IH _ Hl' l' eq_refl).
Qed.

(** *** Trust levels *)

Lemma setTrustLevel_cases cfg p :
  setTrustLevel cfg p =
  if jsstring_eqb (post_username p) (owner cfg) then set_trust_level p trustLevels.owner
  else if admin p then set_trust_level p trustLevels.admin
  else if moderator p then set_trust_level p trustLevels.moderator
  else if staff p then set_trust_level p trustLevels.staff
  else if (0 <=? indexOf (ignoreUsers cfg) (post_username p))%Z
       then set_trust_level p trustLevels.ignored
  else p.
Proof. reflexivity. Qed.

Lemma indexOf_from_In l x : forall i, (0 <= i)%Z ->
  ((0 <=? indexOf_from l x i)%Z = true <-> In x l).
Proof.
  induction l as [|y l IH]; intros i Hi; simpl.
  - split; [discriminate | tauto].
  - destruct (jsstring_eqb y x) eqn:E.
    + apply jsstring_eqb_eq in E. subst. split; [auto|]. intros _. apply Z.leb_le. exact Hi.
    + rewrite IH by lia. split; [auto|]. intros [H|H]; [|exact H].
      subst. rewrite jsstring_eqb_refl in E. discriminate.
Qed.

Lemma indexOf_In l x : (0 <=? indexOf l x)%Z = true <-> In x l.
Proof. apply indexOf_from_In. lia. Qed.

Lemma trust_cases (cfg : config) (p : Post) :
  let p' := setTrustLevel cfg p in
  (post_username p = owner cfg -> trust_level p' = trustLevels.owner) /\
  (post_username p <> owner cfg -> admin p = true -> trust_level p' = trustLevels.admin) /\
  (post_username p <> owner cfg -> admin p = false -> moderator p = true ->
     trust_level p' = trustLevels.moderator) /\
  (post_username p <> owner cfg -> admin p = false -> moderator p = false -> staff p = true ->
     trust_level p' = trustLevels.staff) /\
  (post_username p <> owner cfg -> admin p = false -> moderator p = false -> staff p = false ->
     In (post_username p) (ignoreUsers cfg) -> trust_level p' = trustLevels.ignored) /\
  (post_username p <> owner cfg -> admin p = false -> moderator p = false -> staff p = false ->
     ~ In (post_username p) (ignoreUsers cfg) -> p' = p) /\
  (admin p = true -> moderator p = true ->
     trust_level p' <> trustLevels.moderator /\
     (post_username p <> owner cfg -> trust_level p' = trustLevels.admin)).
Proof.
  cbv zeta. rewrite setTrustLevel_cases.
  destruct (jsstring_eqb (post_username p) (owner cfg)) eqn:Eo.
  - apply jsstring_eqb_eq in Eo.
    repeat split; intros; try reflexivity; try contradiction; try discriminate.
  - assert (Hne : post_username p <> owner cfg).
    { intros H. rewrite H, jsstring_eqb_refl in Eo. discriminate. }
    destruct (admin p) eqn:Ea; [repeat split; intros; try reflexivity; try contradiction; try discriminate|].
    destruct (moderator p) eqn:Em; [repeat split; intros; try reflexivity; try contradiction; try discriminate|].
    destruct (staff p) eqn:Es; [repeat split; intros; try reflexivity; try contradiction; try discriminate|].
    destruct (0 <=? indexOf (ignoreUsers cfg) (post_username p))%Z eqn:Ei.
    + apply indexOf_In in Ei.
      repeat split; intros; try reflexivity; try contradiction; try discriminate.
    + assert (Hni : ~ In (post_username p) (ignoreUsers cfg)).
      { intros H. apply indexOf_In in H. congruence. }
      repeat split; intros; try reflexivity; try contradiction; try discriminate.
Qed.

(** *** The queue worker *)

Lemma worker_malformed_body (JSON_parse : jsstring -> option json) (cfg : config)
    (t : task) (e : option jserror) (text : jsstring) :
  JSON_parse text = None ->
  reply (queueWorker JSON_parse cfg t {| err := e; body := Some text |}) = (e, VString text).
Proof. intros H. cbn. unfold decode. rewrite H. reflexivity. Qed.

(** *** Reading posts *)

Section ReadPosts.

Variable JSON_parse : jsstring -> option json.
Variable cfg : config.
Variable net : nat -> request -> response.
Variables delay' topicId : N.


Lemma run_readPosts_ok :
  (forall n r, err (net n r) = None) ->
  forall ids n,
    run JSON_parse cfg net n (readPosts_loop delay' topicId ids)
    = map (batch_event cfg delay' topicId) (chunks ids) ++ [WhilstCompleted None].
Proof.
  intros Hnet ids.
  induction ids as [ids IH] using length_ind.
  intros n. destruct ids as [|id ids].
  - simp readPosts_loop chunks. reflexivity.
  - simp readPosts_loop chunks. cbn [run map app queueWorker reply sent fst snd].
    rewrite Hnet. f_equal. apply IH.
    rewrite length_skipn. unfold batch_limit. cbn [length]. lia.
Qed.

(** A batch that reports an error ends the submission. *)
Lemma run_readPosts_error id ids n e :
  err (net n (request_of cfg (timings_task delay' topicId (firstn batch_limit (id :: ids))))) = Some e ->
  run JSON_parse cfg net n (readPosts_loop delay' topicId (id :: ids))
  = [(batch_event cfg delay' topicId) (firstn batch_limit (id :: ids)); WhilstCompleted (Some e)].
Proof.
  intros H. simp readPosts_loop. cbn [run queueWorker reply sent fst snd].
  rewrite H. reflexivity.
Qed.

(** Whatever the transport answers: the tasks issued are the first slices, in
    order, and the completion callback is called once, after them; without
    error only when every slice was issued. *)
Lemma run_readPosts_shape :
  forall ids n,
    exists parts others e,
      run JSON_parse cfg net n (readPosts_loop delay' topicId ids)
      = map (batch_event cfg delay' topicId) parts ++ [WhilstCompleted e] /\
      chunks ids = parts ++ others /\
      (e = None -> others = []).
Proof.
  intros ids.
  induction ids as [ids IH] using length_ind.
  intros n. destruct ids as [|id ids].
  - exists [], [], None. simp readPosts_loop chunks. repeat split.
  - destruct (err (net n (request_of cfg (timings_task delay' topicId (firstn batch_limit (id :: ids))))))
      as [e|] eqn:He.
    + exists [firstn batch_limit (id :: ids)], (chunks (skipn batch_limit (id :: ids))), (Some e).
      rewrite (run_readPosts_error id ids n e He). simp chunks.
      repeat split. discriminate.
    + destruct (IH (skipn batch_limit (id :: ids))
                  ltac:(rewrite length_skipn; unfold batch_limit; cbn [length]; lia) (S n))
        as (parts & others & e & Hrun & Hc & Hnone).
      exists (firstn batch_limit (id :: ids) :: parts), others, e.
      simp readPosts_loop chunks. cbn [run map app queueWorker reply sent fst snd].
      rewrite He, Hrun, Hc. repeat split. exact Hnone.
Qed.

End ReadPosts.

Lemma chunks_cons l : l <> [] -> chunks l = firstn batch_limit l :: chunks (skipn batch_limit l).
Proof. destruct l; [congruence|]. intros _. simp chunks. reflexivity. Qed.

Lemma chunks_concat l : concat (chunks l) = l.
Proof.
  induction l as [l IH] using length_ind.
  destruct l as [|x l]; [reflexivity|].
  rewrite chunks_cons by congruence. cbn [concat]. rewrite IH.
  - apply firstn_skipn.
  - rewrite length_skipn. unfold batch_limit. cbn [length]. lia.
Qed.

Lemma chunks_bounded l : Forall (fun c => 1 <= length c <= batch_limit) (chunks l).
Proof.
  induction l as [l IH] using length_ind.
  destruct l as [|x l]; [simp chunks; constructor|].
  rewrite chunks_cons by congruence. constructor.
  - rewrite length_firstn. unfold batch_limit. cbn [length]. lia.
  - apply IH. rewrite length_skipn. unfold batch_limit. cbn [length]. lia.
Qed.

Lemma chunks_450 l :
  length l = 450 ->
  exists b1 b2 b3,
    chunks l = [b1; b2; b3] /\ length b1 = 200 /\ length b2 = 200 /\ length b3 = 50.
Proof.
  intros H.
  exists (firstn batch_limit l), (firstn batch_limit (skipn batch_limit l)),
    (skipn batch_limit (skipn batch_limit l)).
  assert (H1 : length (skipn batch_limit l) = 250) by (rewrite length_skipn; unfold batch_limit; lia).
  assert (H2 : length (skipn batch_limit (skipn batch_limit l)) = 50).
  { rewrite length_skipn, H1. reflexivity. }
  repeat split.
  - rewrite chunks_cons by (intros ->; discriminate).
    rewrite (chunks_cons (skipn batch_limit l)) by (intros E; rewrite E in H1; discriminate).
    rewrite (chunks_cons (skipn batch_limit (skipn batch_limit l))) by (intros E; rewrite E in H2; discriminate).
    rewrite (firstn_all2 (n := batch_limit) (skipn batch_limit (skipn batch_limit l)))
      by (rewrite H2; unfold batch_limit; lia).
    rewrite (skipn_all2 (n := batch_limit) (skipn batch_limit (skipn batch_limit l)))
      by (rewrite H2; unfold batch_limit; lia).
    simp chunks. reflexivity.
  - rewrite length_firstn. unfold batch_limit. lia.
  - rewrite length_firstn. unfold batch_limit in *. lia.
  - exact H2.
Qed.

#[local] Arguments cls_match : simpl never.


Lemma cls_s_plain fl c : ignoreCase fl = false -> cls_match fl false ws_ranges c = is_space c.
Proof. intros H. unfold cls_match, in_ranges_fl. rewrite H. reflexivity. Qed.

Lemma space_canon c : is_space (canon c) = is_space c.
Proof. ascii_cases c. Qed.

Lemma space_lower c : is_space (lower c) = is_space c.
Proof. ascii_cases c. Qed.

Lemma in_ranges_fl_space fl c : in_ranges_fl fl ws_ranges c = is_space c.
Proof.
  unfold in_ranges_fl. destruct (ignoreCase fl); [|reflexivity].
  fold (is_space c) (is_space (canon c)) (is_space (lower c)).
  rewrite space_canon, space_lower. destruct (is_space c); reflexivity.
Qed.

Lemma cls_s_match fl c : cls_match fl false ws_ranges c = is_space c.
Proof. unfold cls_match. rewrite in_ranges_fl_space. reflexivity. Qed.

Lemma cls_S_match fl c : cls_match fl true ws_ranges c = negb (is_space c).
Proof. unfold cls_match. rewrite in_ranges_fl_space. reflexivity. Qed.

(** *** Splitting at blanks *)

Lemma spaces_miss pv c t : is_space c = false -> match_at spaces_re pv (c :: t) = None.
Proof.
  intros H. apply match_at_none. cbn. rewrite cls_s_match, H. reflexivity.
Qed.

(** One blank before a character that is none. *)
Lemma spaces_hit1 pv c x t :
  is_space c = true -> is_space x = false ->
  match_at spaces_re pv (c :: x :: t) = Some ([c], []).
Proof.
  intros Hc Hx. apply (match_at_some spaces_re pv [c] (x :: t) [] (Some c)).
  cbn. rewrite !cls_s_match, Hc, Hx. reflexivity.
Qed.

Lemma split_from_word re pv :
  forall w cur X,
    Forall (dead re) w ->
    split_from re pv 0 cur (w ++ X) = split_from re (prev_after pv w) 0 (rev w ++ cur) X.
Proof.
  intros w. revert pv. induction w as [|c w IH]; intros pv cur X Hw.
  - reflexivity.
  - inversion Hw as [|? ? Hc Hw']; subst.
    cbn [app split_from]. rewrite Hc. rewrite IH by assumption.
    cbn [rev]. rewrite <- app_assoc. reflexivity.
Qed.

Lemma split_from_end re pv cur : split_from re pv 0 cur [] = [rev cur].
Proof. reflexivity. Qed.

Lemma nonspace_dead w : forallb (fun c => negb (is_space c)) w = true -> Forall (dead spaces_re) w.
Proof.
  apply Forall_of_forallb. intros c Hc pv t. apply spaces_miss. apply negb_true_iff, Hc.
Qed.

(** The first piece of a split holds what was open when the search went on. *)
Lemma split_from_first re :
  forall s pv skip cur, exists ext pieces,
    split_from re pv skip cur s = rev (ext ++ cur) :: pieces.
Proof.
  induction s as [|c s IH]; intros pv skip cur.
  - exists [], []. reflexivity.
  - cbn [split_from]. destruct skip as [|n].
    + destruct (match_at re pv (c :: s)) as [[m cs]|].
      * destruct (length m).
        -- destruct cur as [|x cur].
           ++ destruct (IH (Some c) 0 [c]) as (ext & pieces & E).
              exists (ext ++ [c]), pieces. rewrite E. rewrite <- app_assoc. reflexivity.
           ++ exists [], (split_from re (Some c) 0 [c] s). reflexivity.
        -- exists [], (split_from re (Some c) n [] s). reflexivity.
      * destruct (IH (Some c) 0 (c :: cur)) as (ext & pieces & E).
        exists (ext ++ [c]), pieces. rewrite E. rewrite <- app_assoc. reflexivity.
    + apply IH.
Qed.

Lemma split_nonempty re s : split re s <> [] \/ s = [].
Proof.
  destruct s as [|c s]; [right; reflexivity|left].
  unfold split. destruct (split_from_first re (c :: s) None 0 []) as (ext & pieces & E).
  rewrite E. discriminate.
Qed.

(** *** Tests anchored at the start of the input *)

Lemma test_from_anchored re l :
  flag_m re = false ->
  source re = cat (Bol :: l) ->
  forall s c, test_from re (Some c) s = false.
Proof.
  intros Hm Hsrc.
  assert (H : forall s c, match_at re (Some c) s = None).
  { intros s c. apply match_at_none. rewrite Hsrc, rmatch_cat_cons.
    cbn [rmatch]. unfold at_bol. cbn [prev flags_of multiline]. rewrite Hm. reflexivity. }
  induction s as [|x s IH]; intros c; cbn [test_from]; rewrite H; [reflexivity|apply IH].
Qed.

Lemma test_anchored re l s :
  flag_m re = false ->
  source re = cat (Bol :: l) ->
  test re s = match match_at re None s with Some _ => true | None => false end.
Proof.
  intros Hm Hsrc. unfold test. destruct s as [|c s]; cbn [test_from].
  - destruct (match_at re None []); reflexivity.
  - destruct (match_at re None (c :: s)); [reflexivity|].
    apply (test_from_anchored re l Hm Hsrc).
Qed.

(** *** The short form *)

Lemma short_re_inv line :
  test short_re line = true ->
  exists a b c t,
    line = "!"%char :: a :: b :: c :: t /\
    is_space a = false /\ is_space b = false /\ is_space c = false.
Proof.
  rewrite (test_anchored short_re [Chr "!"; at_least 3 cls_S; Grp 1 (Alt cls_s Eol)]) by reflexivity.
  unfold match_at.
  destruct (rmatch _ _ _ _) as [st'|] eqn:H; [|discriminate]. intros _.
  destruct line as [|x1 [|x2 [|x3 [|x4 t]]]]; cbn in H;
    repeat match type of H with
           | context [if ?b then _ else _] => destruct b eqn:?
           end; try discriminate.
  all: exists x2, x3, x4, t.
  all: repeat match goal with
         | E : cls_match _ true ws_ranges ?x = true |- _ =>
             rewrite cls_S_match in E; apply negb_true_iff in E
         | E : Ascii.eqb "!"%char _ = true |- _ => apply Ascii.eqb_eq in E; subst
         end.
  all: repeat split; assumption.
Qed.

Lemma short_first_piece a b c t :
  is_space a = false -> is_space b = false -> is_space c = false ->
  exists ext pieces,
    split spaces_re ("!"%char :: a :: b :: c :: t)
    = rev (ext ++ [c; b; a; "!"%char]) :: pieces.
Proof.
  intros Ha Hb Hc. unfold split.
  change ("!"%char :: a :: b :: c :: t) with (["!"%char; a; b; c] ++ t).
  rewrite split_from_word.
  - apply split_from_first.
  - repeat constructor; intros pv s; apply spaces_miss; assumption || reflexivity.
Qed.

Lemma toLowerCase_length s : length (toLowerCase s) = length s.
Proof. apply length_map. Qed.

Lemma short_command_length line c :
  parseShortCommand line = Ret (Some c) ->
  3 <= length (command c) /\ mention c = None /\ input c = line.
Proof.
  unfold parseShortCommand. destruct (test short_re line) eqn:Ht; cbn [negb]; [|discriminate].
  destruct (short_re_inv line Ht) as (a & b & x & t & -> & Ha & Hb & Hx).
  destruct (short_first_piece a b x t Ha Hb Hx) as (ext & pieces & E).
  rewrite E. intros H. inversion H; subst; clear H. cbn [command mention input].
  repeat split.
  change (3 <= length (toLowerCase (skipn 1 (rev (ext ++ [x; b; a; "!"%char]))))).
  rewrite toLowerCase_length, length_skipn, length_rev, length_app. cbn [length]. lia.
Qed.

(** *** The mention form *)

Lemma canon_at c : Ascii.eqb "@"%char (canon c) = true -> c = "@"%char.
Proof. ascii_cases c. Qed.

Lemma mention_re_source cfg rx :
  mention_re cfg = Some rx ->
  exists rs,
    name_pattern (username cfg) = Some rs /\
    rx = {| source := cat ([Bol; Chr "@"] ++ rs ++ [cls_s; at_least 3 cls_S; Grp 1 (Alt cls_s Eol)]);
            flag_g := false; flag_i := true; flag_m := false |}.
Proof.
  unfold mention_re. destruct (name_pattern (username cfg)) as [rs|]; [|discriminate].
  intros H. inversion H. exists rs. split; reflexivity.
Qed.

Lemma mention_re_inv cfg rx line :
  mention_re cfg = Some rx ->
  test rx line = true ->
  exists t, line = "@"%char :: t.
Proof.
  intros Hrx. destruct (mention_re_source cfg rx Hrx) as (rs & _ & ->).
  rewrite (test_anchored _ (Chr "@" :: rs ++ [cls_s; at_least 3 cls_S; Grp 1 (Alt cls_s Eol)]))
    by reflexivity.
  unfold match_at. cbn [source flags_of flag_i flag_m app].
  rewrite rmatch_cat_cons. cbn [rmatch]. unfold at_bol. cbn [prev].
  rewrite rmatch_cat_cons. cbn [rmatch rest].
  destruct line as [|c t]; [discriminate|].
  unfold chr_match. cbn [ignoreCase].
  destruct (Ascii.eqb (canon "@") (canon c)) eqn:E; [|discriminate].
  intros _. exists t. f_equal. apply canon_at. exact E.
Qed.

Lemma mention_truthy cfg rx line c :
  mention_re cfg = Some rx ->
  parseMentionCommand (Some rx) line = Ret (Some c) ->
  truthy (mention c) = true.
Proof.
  intros Hrx. unfold parseMentionCommand.
  destruct (test rx line) eqn:Ht; cbn [negb]; [|discriminate].
  destruct (mention_re_inv cfg rx line Hrx Ht) as (t & ->).
  unfold split.
  change ("@"%char :: t) with (["@"%char] ++ t).
  rewrite split_from_word by (repeat constructor; intros pv s; apply spaces_miss; reflexivity).
  destruct (split_from_first spaces_re t (prev_after None ["@"%char]) 0 (rev ["@"%char] ++ []))
    as (ext & pieces & E).
  rewrite E. destruct pieces as [|cmd args']; [discriminate|].
  intros H. inversion H; subst; clear H. cbn [mention truthy rev app].
  destruct (rev (ext ++ ["@"%char])) eqn:Er; [|reflexivity].
  apply (f_equal (@length ascii)) in Er. rewrite length_rev, length_app in Er.
  cbn in Er. lia.
Qed.

(** *** What [parseCommands] can throw *)

Lemma parseShortCommand_throws line msg :
  parseShortCommand line = Throw msg -> msg = TypeError_undefined.
Proof.
  unfold parseShortCommand. destruct (negb (test short_re line)); [discriminate|].
  destruct (split spaces_re line); intros H; inversion H; reflexivity.
Qed.

Lemma parseMentionCommand_throws rx line msg :
  parseMentionCommand rx line = Throw msg -> msg = TypeError_undefined \/ msg = TypeError_null.
Proof.
  unfold parseMentionCommand. destruct rx as [rx|].
  - destruct (negb (test rx line)); [discriminate|].
    destruct (split spaces_re line) as [|a [|b l]]; intros H; inversion H; auto.
  - intros H; inversion H; auto.
Qed.

Lemma parse_line_throws rx line msg :
  parse_line rx line = Throw msg -> msg = TypeError_undefined \/ msg = TypeError_null.
Proof.
  unfold parse_line. intros H.
  assert (Hs : parseShortCommand line = Throw msg -> msg = TypeError_undefined \/ msg = TypeError_null).
  { intros Hs. left. exact (parseShortCommand_throws line msg Hs). }
  assert (Hm := parseMentionCommand_throws rx line msg).
  destruct line as [|c t]; [auto|].
  destruct c as [[] [] [] [] [] [] [] []]; auto.
Qed.

Lemma map_outcome_throws (A B : Type) (f : A -> outcome B) l msg :
  map_outcome f l = Throw msg -> exists x, In x l /\ f x = Throw msg.
Proof.
  induction l as [|x l IH]; cbn [map_outcome]; [discriminate|].
  destruct (f x) eqn:E.
  - destruct (map_outcome f l); [discriminate|].
    intros H. inversion H; subst. destruct (IH eq_refl) as (y & Hy & Ey).
    exists y. split; [right; exact Hy | exact Ey].
  - intros H. inversion H; subst. exists x. split; [left; reflexivity | exact E].
Qed.

Lemma parseCommands_throws rx p cb msg :
  parseCommands rx p cb = Throw msg ->
  msg = callback_missing \/ msg = TypeError_undefined \/ msg = TypeError_null.
Proof.
  unfold parseCommands. destruct cb; [intros H; inversion H; auto|].
  destruct p as [p|]; [|discriminate].
  destruct (negb (truthy (raw p))); [discriminate|].
  destruct (map_outcome _ _) eqn:E; [discriminate|].
  intros H. inversion H; subst.
  destruct (map_outcome_throws _ _ _ _ _ E) as (line & _ & Hl).
  right. exact (parse_line_throws _ _ _ Hl).
Qed.

Lemma unhandled_not_thrown rx p cb msg c :
  parseCommands rx p cb = Throw msg -> msg <> unhandled c.
Proof.
  intros H. destruct (parseCommands_throws _ _ _ _ H) as [-> | [-> | ->]]; discriminate.
Qed.


Lemma canon_dot c : canon c = "."%char -> c = "."%char.
Proof. ascii_cases c. Qed.

(** The pattern of a user name passes the name, in any letter case. *)
Lemma name_match :
  forall u rs u' tail k pv X cs,
    name_pattern u = Some rs ->
    map canon u' = map canon u ->
    rmatch fl_mention (cat (rs ++ tail)) k {| prev := pv; rest := u' ++ X; caps := cs |}
    = rmatch fl_mention (cat tail) k {| prev := prev_after pv u'; rest := X; caps := cs |}.
Proof.
  induction u as [|c u IH]; intros rs u' tail k pv X cs Hrs Hu.
  - destruct u'; [|discriminate]. cbn in Hrs. inversion Hrs; subst. reflexivity.
  - destruct u' as [|c' u']; [discriminate|].
    cbn [map] in Hu. inversion Hu as [[Hc Hu']]. 
    cbn [name_pattern] in Hrs.
    destruct (name_pattern u) as [rs0|] eqn:E0; [|discriminate].
    cbn [app]. 
    destruct (Ascii.eqb c "."%char) eqn:Edot.
    + inversion Hrs; subst. apply Ascii.eqb_eq in Edot. subst c.
      apply canon_dot in Hc. subst c'.
      cbn [app]. rewrite rmatch_cat_cons. cbn [rmatch dot rest].
      change (cls_match fl_mention true [(10, 10); (13, 13)]%N "."%char) with true.
      cbn iota. unfold advance. cbn [caps].
      apply (IH rs0 u' tail k (Some "."%char) X cs eq_refl Hu').
    + destruct (existsb (Ascii.eqb c) syntax_chars); [discriminate|].
      inversion Hrs; subst.
      cbn [app]. rewrite rmatch_cat_cons. cbn [rmatch rest].
      unfold chr_match. cbn [ignoreCase fl_mention]. rewrite Hc, Ascii.eqb_refl.
      unfold advance. cbn [caps].
      apply (IH rs0 u' tail k (Some c') X cs eq_refl Hu').
Qed.


(** After the name: a blank, and a word of three characters at least. *)
Lemma mention_tail_hit pv sp a b c w x X cs :
  is_space sp = true ->
  forallb not_space (a :: b :: c :: w) = true ->
  is_space x = true ->
  exists st',
    rmatch fl_mention (cat mention_tail) (fun st => Some st)
      {| prev := pv; rest := sp :: (a :: b :: c :: w) ++ x :: X; caps := cs |} = Some st'.
Proof.
  intros Hsp Hw Hx.
  cbn [forallb] in Hw. apply andb_prop in Hw. destruct Hw as [Ha Hw].
  apply andb_prop in Hw. destruct Hw as [Hb Hw].
  apply andb_prop in Hw. destruct Hw as [Hc Hw].
  unfold not_space in Ha, Hb, Hc.
  eexists.
  change (rmatch fl_mention (cat mention_tail) (fun st => Some st)
      {| prev := pv; rest := sp :: (a :: b :: c :: w) ++ x :: X; caps := cs |})
    with (if cls_match fl_mention false ws_ranges sp then
            if cls_match fl_mention true ws_ranges a then
              if cls_match fl_mention true ws_ranges b then
                if cls_match fl_mention true ws_ranges c then
                  rep_opt (S (length (w ++ x :: X))) (rmatch fl_mention (Cls true ws_ranges)) None true
                    (rmatch fl_mention (Grp 1 (Alt cls_s Eol)) (fun st => Some st))
                    {| prev := Some c; rest := w ++ x :: X; caps := cs |}
                else None
              else None
            else None
          else None).
  rewrite cls_s_match, !cls_S_match, Hsp, Ha, Hb, Hc. cbn iota.
  rewrite (rep_opt_greedy _ _ (one_char_Cls _ _ _)); [| lia | | ].
  - apply greedy_run_end. cbn [greedy_run rmatch cls_s rest].
    rewrite cls_s_match, Hx. reflexivity.
  - eapply forallb_imp; [|exact Hw]. intros y Hy. rewrite cls_S_match. exact Hy.
  - cbn [stops]. rewrite cls_S_match, Hx. reflexivity.
Qed.

(** ... and none for a word of two. *)
Lemma mention_tail_miss2 pv sp a b x X cs :
  is_space x = true ->
  rmatch fl_mention (cat mention_tail) (fun st => Some st)
    {| prev := pv; rest := sp :: a :: b :: x :: X; caps := cs |} = None.
Proof.
  intros Hx.
  change (rmatch fl_mention (cat mention_tail) (fun st => Some st)
      {| prev := pv; rest := sp :: a :: b :: x :: X; caps := cs |})
    with (if cls_match fl_mention false ws_ranges sp then
            if cls_match fl_mention true ws_ranges a then
              if cls_match fl_mention true ws_ranges b then
                if cls_match fl_mention true ws_ranges x then
                  rep_opt (S (length X)) (rmatch fl_mention (Cls true ws_ranges)) None true
                    (rmatch fl_mention (Grp 1 (Alt cls_s Eol)) (fun st => Some st))
                    {| prev := Some x; rest := X; caps := cs |}
                else None
              else None
            else None
          else None).
  rewrite (cls_S_match _ x), Hx. cbn [negb].
  repeat match goal with |- context [if ?b then _ else _] => destruct b end; reflexivity.
Qed.

Section Mention.

Variable cfg : config.
Variable rx : regexp.
Variable name : jsstring.
Hypothesis Hrx : mention_re cfg = Some rx.
Hypothesis Hname : map canon name = map canon (username cfg).

Lemma mention_rmatch X :
  rmatch (flags_of rx) (source rx) (fun st => Some st)
    {| prev := None; rest := "@"%char :: name ++ X; caps := [] |}
  = rmatch fl_mention (cat mention_tail) (fun st => Some st)
      {| prev := prev_after (Some "@"%char) name; rest := X; caps := [] |}.
Proof.
  destruct (mention_re_source cfg rx Hrx) as (rs & Hrs & ->).
  cbn [source flags_of flag_i flag_m app].
  change {| ignoreCase := true; multiline := false |} with fl_mention.
  rewrite rmatch_cat_cons. cbn [rmatch]. unfold at_bol. cbn [prev].
  rewrite rmatch_cat_cons. cbn [rmatch rest].
  change (chr_match fl_mention "@" "@") with true. cbn iota. unfold advance. cbn [caps].
  apply (name_match (username cfg)); assumption.
Qed.

Lemma mention_test_anchored s :
  test rx s = match match_at rx None s with Some _ => true | None => false end.
Proof.
  destruct (mention_re_source cfg rx Hrx) as (rs & Hrs & ->).
  apply (test_anchored _ (Chr "@" :: rs ++ mention_tail)); reflexivity.
Qed.

Lemma mention_test_word sp w x X :
  is_space sp = true ->
  forallb not_space w = true -> 3 <= length w ->
  is_space x = true ->
  test rx ("@"%char :: name ++ sp :: w ++ x :: X) = true.
Proof.
  intros Hsp Hw Hlen Hx. rewrite mention_test_anchored. unfold match_at.
  rewrite mention_rmatch.
  destruct w as [|a [|b [|c w]]]; cbn [length] in Hlen; try lia.
  destruct (mention_tail_hit (prev_after (Some "@"%char) name) sp a b c w x X [] Hsp Hw Hx) as (st' & ->).
  reflexivity.
Qed.

Lemma mention_test_two sp a b x X :
  is_space x = true ->
  test rx ("@"%char :: name ++ sp :: a :: b :: x :: X) = false.
Proof.
  intros Hx. rewrite mention_test_anchored. unfold match_at.
  rewrite mention_rmatch, mention_tail_miss2 by exact Hx. reflexivity.
Qed.

End Mention.

Lemma split_space_step pv cur c x t :
  is_space c = true -> is_space x = false ->
  split_from spaces_re pv 0 cur (c :: x :: t)
  = rev cur :: split_from spaces_re (Some c) 0 [] (x :: t).
Proof.
  intros Hc Hx. cbn [split_from]. rewrite (spaces_hit1 pv c x t Hc Hx). reflexivity.
Qed.

Lemma not_space_dead w : forallb not_space w = true -> Forall (dead spaces_re) w.
Proof. exact (nonspace_dead w). Qed.

Lemma replace_first_skip re f :
  forall P pv X,
    Forall (dead re) P ->
    replace_first_from re f pv (P ++ X) = P ++ replace_first_from re f (prev_after pv P) X.
Proof.
  induction P as [|c P IH]; intros pv X HP.
  - reflexivity.
  - inversion HP as [|? ? Hc HP']; subst.
    cbn [app replace_first_from]. rewrite Hc. f_equal. apply IH. assumption.
Qed.

Lemma trailing_miss pv c t : is_space c = false -> match_at trailing_spaces_re pv (c :: t) = None.
Proof.
  intros H. apply match_at_none. cbn. rewrite cls_s_match, H. reflexivity.
Qed.

Lemma canon_not_space u u' :
  map canon u' = map canon u -> forallb not_space u = true -> forallb not_space u' = true.
Proof.
  revert u'. induction u as [|c u IH]; intros [|c' u'] H Hu; try discriminate; [reflexivity|].
  cbn [map] in H. inversion H as [[Hc Hu']].
  cbn [forallb] in *. apply andb_prop in Hu. destruct Hu as [Hcs Hu].
  rewrite (IH u' Hu' Hu), andb_true_r.
  unfold not_space in *. rewrite <- space_canon, Hc, space_canon. exact Hcs.
Qed.

Lemma lower_not_space w : forallb not_space w = true -> forallb not_space (toLowerCase w) = true.
Proof.
  induction w as [|c w IH]; [reflexivity|].
  cbn [forallb toLowerCase map]. intros H. apply andb_prop in H. destruct H as [Hc Hw].
  fold (toLowerCase w). rewrite (IH Hw), andb_true_r.
  unfold not_space in *. rewrite space_lower. exact Hc.
Qed.

Section MentionCommand.

Variable cfg : config.
Variable rx : regexp.
Variable name word : jsstring.
Hypothesis Hrx : mention_re cfg = Some rx.
Hypothesis Hname : map canon name = map canon (username cfg).
Hypothesis Hname_ns : forallb not_space (username cfg) = true.
Hypothesis Hword : forallb not_space word = true.
Hypothesis Hlen : 3 <= length word.


Lemma mention_line_split :
  split spaces_re (mention_line name word) = [str "@" ++ name; word; str "thing"].
Proof.
  change (split_from spaces_re None 0 [] (("@"%char :: name) ++ " "%char :: word ++ str " thing")
          = [str "@" ++ name; word; str "thing"]).
  assert (Hn : forallb not_space ("@"%char :: name) = true).
  { cbn [forallb]. rewrite (canon_not_space _ _ Hname Hname_ns). reflexivity. }
  rewrite split_from_word by (apply not_space_dead, Hn).
  destruct word as [|a w] eqn:Ew; [cbn in Hlen; lia|].
  assert (Ha : is_space a = false).
  { cbn [forallb] in Hword. apply andb_prop in Hword. destruct Hword as [Ha _].
    apply negb_true_iff, Ha. }
  cbn [app]. rewrite split_space_step by (reflexivity || exact Ha).
  rewrite app_nil_r, rev_involutive. f_equal.
  change (split_from spaces_re (Some " "%char) 0 [] ((a :: w) ++ " "%char :: str "thing")
          = [a :: w; str "thing"]).
  rewrite split_from_word by (apply not_space_dead, Hword).
  change (str "thing") with ("t"%char :: str "hing") at 1.
  rewrite split_space_step by reflexivity.
  rewrite app_nil_r, rev_involutive. reflexivity.
Qed.

Lemma mention_line_input :
  replace trailing_spaces_re empty_replacement
    (str "!" ++ toLowerCase word ++ str " " ++ join (str " ") [str "thing"])
  = str "!" ++ toLowerCase word ++ str " thing".
Proof.
  change (replace_first_from trailing_spaces_re empty_replacement None
            (("!"%char :: toLowerCase word) ++ str " thing")
          = str "!" ++ toLowerCase word ++ str " thing").
  rewrite replace_first_skip.
  - reflexivity.
  - apply Forall_cons; [intros pv t; apply trailing_miss; reflexivity|].
    eapply Forall_of_forallb; [|exact (lower_not_space _ Hword)].
    intros c Hc pv t. apply trailing_miss. apply negb_true_iff, Hc.
Qed.

Lemma mention_command :
  parseMentionCommand (Some rx) (mention_line name word)
  = Ret (Some {| input := str "!" ++ toLowerCase word ++ str " thing";
                 command := toLowerCase word;
                 args := [str "thing"];
                 mention := Some (str "@" ++ name);
                 post := None |}).
Proof.
  unfold parseMentionCommand.
  assert (Ht : test rx (mention_line name word) = true).
  { unfold mention_line. cbn [str list_ascii_of_string app].
    apply (mention_test_word cfg rx name Hrx Hname " "%char word " "%char (str "thing"));
      reflexivity || assumption. }
  rewrite Ht. cbn [negb]. rewrite mention_line_split, mention_line_input. reflexivity.
Qed.

Lemma mention_two_letters :
  parseMentionCommand (Some rx) (str "@" ++ name ++ str " do thing") = Ret None.
Proof.
  unfold parseMentionCommand.
  assert (Ht : test rx (str "@" ++ name ++ str " do thing") = false).
  { cbn [str list_ascii_of_string app].
    apply (mention_test_two cfg rx name Hrx Hname). reflexivity. }
  rewrite Ht. reflexivity.
Qed.

End MentionCommand.


Section DispatchFacts.

Variable bus : Type.
Variable emit : jsstring -> payload -> bus -> bool * bus.
Variable c : ParsedCommand.
Variable p : Post.
Variable b : bus.


Lemma dispatch_trace :
  fst (dispatch emit c p b) =
  if negb (handled_first emit c p b) && negb (truthy (mention c)) then
    if negb (handled_fallback emit c p b) then [(first_event c p); (fallback_event c p); (report_event c)]
    else [(first_event c p); (fallback_event c p)]
  else [(first_event c p)].
Proof.
  unfold dispatch, handled_fallback, bus_after_first, handled_first.
  cbv zeta. cbn [fst snd with_post command mention].
  change (str "command#" ++ command c, PCommand (with_post c p)) with (first_event c p).
  destruct (emit (str "command#" ++ command c) (PCommand (with_post c p)) b) as [h1 b1] eqn:E1.
  unfold first_event. cbn [fst snd]. rewrite E1. cbn [fst snd].
  destruct (negb h1 && negb (truthy (mention c))); [|reflexivity].
  unfold fallback_event. cbn [fst snd].
  destruct (emit (str "command#ERROR") (PCommand (with_post c p)) b1) as [h2 b2] eqn:E2.
  cbn [fst snd].
  destruct (negb h2); [|reflexivity].
  destruct (emit (str "error") _ b2). reflexivity.
Qed.

Lemma first_event_not_error : jsstring_eqb (fst (first_event c p)) (str "error") = false.
Proof. reflexivity. Qed.

Lemma dispatch_unhandled :
  truthy (mention c) = false -> (handled_first emit c p b) = false ->
  ((handled_fallback emit c p b) = true -> fst (dispatch emit c p b) = [(first_event c p); (fallback_event c p)]) /\
  ((handled_fallback emit c p b) = false ->
     fst (dispatch emit c p b) = [(first_event c p); (fallback_event c p); (report_event c)] /\
     error_reports (fst (dispatch emit c p b)) = [(report_event c)]).
Proof.
  intros Hm Hf. rewrite dispatch_trace, Hm, Hf. cbn [negb andb].
  split; intros ->; cbn [negb]; [reflexivity|]. split; reflexivity.
Qed.

Lemma dispatch_mention :
  truthy (mention c) = true -> fst (dispatch emit c p b) = [(first_event c p)].
Proof.
  intros Hm. rewrite dispatch_trace, Hm, andb_false_r. reflexivity.
Qed.

Lemma dispatch_handled :
  (handled_first emit c p b) = true -> fst (dispatch emit c p b) = [(first_event c p)].
Proof.
  intros Hf. rewrite dispatch_trace, Hf. reflexivity.
Qed.

End DispatchFacts.

(** *** Posts without text *)

Lemma parseCommands_no_callback rx p : parseCommands rx p NotAFunction = Throw callback_missing.
Proof. reflexivity. Qed.

Lemma parseCommands_no_post rx : parseCommands rx None Function = Ret [Callback None []].
Proof. reflexivity. Qed.

Lemma parseCommands_no_raw rx p :
  truthy (raw p) = false -> parseCommands rx (Some p) Function = Ret [Callback None []].
Proof. intros H. unfold parseCommands. rewrite H. reflexivity. Qed.


(** ** The fuel of the matcher and of the loop is never used up *)


Lemma rep_opt_extensional m :
  extensional m -> forall fuel max greedy, extensional (rep_opt fuel m max greedy).
Proof.
  intros Hm. induction fuel as [|fuel IH]; intros max greedy k1 k2 Hk st.
  - destruct max as [[|n]|]; cbn [rep_opt]; [apply Hk | reflexivity | reflexivity].
  - assert (E : m (fun st' => if length (rest st') <? length (rest st)
                              then rep_opt fuel m (dec_max max) greedy k1 st' else None) st
                = m (fun st' => if length (rest st') <? length (rest st)
                                then rep_opt fuel m (dec_max max) greedy k2 st' else None) st).
    { apply Hm. intros st'. destruct (_ <? _); [|reflexivity]. apply IH. exact Hk. }
    destruct max as [[|n]|]; cbn [rep_opt]; [apply Hk | |];
      destruct greedy; rewrite ?E, (Hk st); reflexivity.
Qed.

Lemma rep_extensional m :
  extensional m -> forall min max greedy, extensional (rep min m max greedy).
Proof.
  intros Hm. induction min as [|min IH]; intros max greedy k1 k2 Hk st.
  - cbn [rep]. apply rep_opt_extensional; assumption.
  - cbn [rep]. destruct max as [[|n]|]; [apply Hk | |];
      apply Hm; intros st'; apply IH; exact Hk.
Qed.

Lemma rmatch_extensional fl r : extensional (rmatch fl r).
Proof.
  induction r as [|p|neg rs|r1 IH1 r2 IH2|r1 IH1 r2 IH2|min max greedy r IH|n r IH|n| | |r IH];
    intros k1 k2 Hk st; cbn [rmatch].
  - apply Hk.
  - destruct (rest st); [reflexivity|]. destruct (chr_match _ _ _); [apply Hk|reflexivity].
  - destruct (rest st); [reflexivity|]. destruct (cls_match _ _ _ _); [apply Hk|reflexivity].
  - apply IH1. intros st'. apply IH2. exact Hk.
  - rewrite (IH1 k1 k2 Hk st), (IH2 k1 k2 Hk st). reflexivity.
  - apply rep_extensional; assumption.
  - apply IH. intros st'. apply Hk.
  - destruct (get_cap _ _); [|apply Hk]. destruct (match_ref _ _ _); [apply Hk|reflexivity].
  - destruct (at_bol _ _); [apply Hk|reflexivity].
  - destruct (at_eol _ _); [apply Hk|reflexivity].
  - destruct (rmatch fl r _ st); [reflexivity|apply Hk].
Qed.

(** Any fuel above the length of the remaining input gives the same
    result: the quantifier is never stopped by its fuel. *)
Lemma rep_opt_enough_fuel m :
  extensional m ->
  forall fuel1 fuel2 max greedy k st,
    length (rest st) < fuel1 -> length (rest st) < fuel2 ->
    rep_opt fuel1 m max greedy k st = rep_opt fuel2 m max greedy k st.
Proof.
  intros Hm. induction fuel1 as [|fuel1 IH]; intros fuel2 max greedy k st H1 H2; [lia|].
  destruct fuel2 as [|fuel2]; [lia|].
  assert (E : m (fun st' => if length (rest st') <? length (rest st)
                            then rep_opt fuel1 m (dec_max max) greedy k st' else None) st
              = m (fun st' => if length (rest st') <? length (rest st)
                              then rep_opt fuel2 m (dec_max max) greedy k st' else None) st).
  { apply Hm. intros st'. destruct (_ <? _) eqn:El; [|reflexivity].
    apply Nat.ltb_lt in El. apply IH; lia. }
  destruct max as [[|n]|]; cbn [rep_opt]; [reflexivity | |];
    destruct greedy; rewrite ?E; reflexivity.
Qed.


Lemma rep_opt_consumes m :
  consumes 0 m -> forall fuel max greedy, consumes 0 (rep_opt fuel m max greedy).
Proof.
  intros Hm. induction fuel as [|fuel IH]; intros max greedy k st x H.
  - destruct max as [[|n]|]; cbn [rep_opt] in H; try discriminate.
    exists st. split; [exact H | lia].
  - assert (Hiter : m (fun st' => if length (rest st') <? length (rest st)
                                  then rep_opt fuel m (dec_max max) greedy k st' else None) st = Some x ->
                    exists st1, k st1 = Some x /\ length (rest st1) + 0 <= length (rest st)).
    { intros Hi. apply Hm in Hi. destruct Hi as (st1 & Hk1 & Hl1).
      destruct (_ <? _); [|discriminate].
      apply IH in Hk1. destruct Hk1 as (st2 & Hk2 & Hl2). exists st2. split; [exact Hk2 | lia]. }
    destruct max as [[|n]|]; cbn [rep_opt] in H.
    + exists st. split; [exact H | lia].
    + destruct greedy.
      * destruct (m _ st) eqn:Ei.
        -- inversion H; subst. apply Hiter. reflexivity.
        -- exists st. split; [exact H | lia].
      * destruct (k st) eqn:Ek.
        -- inversion H; subst. exists st. split; [exact Ek | lia].
        -- apply Hiter. exact H.
    + destruct greedy.
      * destruct (m _ st) eqn:Ei.
        -- inversion H; subst. apply Hiter. reflexivity.
        -- exists st. split; [exact H | lia].
      * destruct (k st) eqn:Ek.
        -- inversion H; subst. exists st. split; [exact Ek | lia].
        -- apply Hiter. exact H.
Qed.

Lemma one_char_consumes p m : one_char p m -> consumes 1 m.
Proof.
  intros Hm k [pv s cs] x H. rewrite Hm in H. destruct s as [|c t]; [discriminate|].
  destruct (p c); [|discriminate]. eexists. split; [exact H|]. cbn. lia.
Qed.

Lemma consumes_weaken n m : consumes (S n) m -> consumes n m.
Proof.
  intros H k st x Hx. destruct (H k st x Hx) as (st1 & H1 & H2).
  exists st1. split; [exact H1 | lia].
Qed.

Lemma innermost_match_length pv s m cs :
  match_at innermost_re pv s = Some (m, cs) -> 2 <= length m <= length s.
Proof.
  unfold match_at. destruct (rmatch _ _ _ _) as [st'|] eqn:E; [|discriminate].
  intros H. inversion H; subst; clear H.
  change (rmatch (flags_of innermost_re) (Chr STX)
            (fun st1 => rep_opt (S (length (rest st1)))
                          (rmatch (flags_of innermost_re) (Cls true [(2, 2); (3, 3)]%N)) None true
                          (rmatch (flags_of innermost_re) (Chr ETX) (fun st => Some st)) st1)
            {| prev := pv; rest := s; caps := [] |} = Some st') in E.
  apply (one_char_consumes _ _ (one_char_Chr _ _)) in E.
  destruct E as (st1 & E1 & L1). cbn [rest] in L1.
  apply (rep_opt_consumes _ (consumes_weaken _ _ (one_char_consumes _ _ (one_char_Cls _ _ _)))) in E1.
  destruct E1 as (st2 & E2 & L2).
  apply (one_char_consumes _ _ (one_char_Chr _ _)) in E2.
  destruct E2 as (st3 & E3 & L3). inversion E3; subst.
  rewrite length_firstn. lia.
Qed.

(** A round of the loop leaves the text as it is or shortens it. *)
Lemma innermost_round_from :
  forall s pv n,
    n <= length s ->
    length (replace_all_from innermost_re (template [TLit [SUB]]) pv n s) + n <= length s /\
    (n = 0 ->
       replace_all_from innermost_re (template [TLit [SUB]]) pv 0 s = s \/
       length (replace_all_from innermost_re (template [TLit [SUB]]) pv 0 s) < length s).
Proof.
  induction s as [|c t IH]; intros pv n Hn.
  - cbn [length] in Hn. assert (n = 0) by lia. subst n.
    cbn [replace_all_from]. destruct (match_at innermost_re pv []) as [[m cs]|] eqn:E.
    + apply innermost_match_length in E. cbn [length] in E. lia.
    + cbn. split; [lia | left; reflexivity].
  - destruct n as [|n].
    + cbn [replace_all_from].
      destruct (match_at innermost_re pv (c :: t)) as [[m cs]|] eqn:E.
      * apply innermost_match_length in E. cbn [length] in E.
        destruct (length m) as [|k] eqn:Ek; [lia|].
        destruct (IH (Some c) k ltac:(lia)) as [IH1 _].
        cbn [template flat_map app length]. split; [lia | intros _; right; lia].
      * destruct (IH (Some c) 0 ltac:(lia)) as [IH1 IH2].
        cbn [length]. split; [lia|]. intros _.
        destruct (IH2 eq_refl) as [-> | Hlt]; [left; reflexivity | right; lia].
    + cbn [replace_all_from length] in *.
      destruct (IH (Some c) n ltac:(lia)) as [IH1 _].
      split; [lia | discriminate].
Qed.

Lemma innermost_round s :
  replace innermost_re (template [TLit [SUB]]) s = s \/
  length (replace innermost_re (template [TLit [SUB]]) s) < length s.
Proof.
  rewrite replace_g by reflexivity.
  destruct (innermost_round_from s None 0 ltac:(lia)) as [_ H]. exact (H eq_refl).
Qed.

Lemma strip_loop_stable :
  forall fuel s,
    length s < fuel ->
    replace innermost_re (template [TLit [SUB]]) (strip_loop fuel s) = strip_loop fuel s.
Proof.
  induction fuel as [|fuel IH]; intros s Hs; [lia|].
  cbn [strip_loop].
  destruct (jsstring_eqb (replace innermost_re (template [TLit [SUB]]) s) s) eqn:E; cbn [negb].
  - apply jsstring_eqb_eq. exact E.
  - apply IH. destruct (innermost_round s) as [Heq | Hlt]; [|lia].
    rewrite Heq, jsstring_eqb_refl in E. discriminate.
Qed.

(** The loop ends because a round changed nothing, not for lack of fuel. *)
Lemma strip_nested_stable s :
  replace innermost_re (template [TLit [SUB]]) (strip_nested s) = strip_nested s.
Proof. apply strip_loop_stable. lia. Qed.


(* ================================================================== *)
(** * The statements of the specification *)

Lemma at_line_start_bol P : at_line_start P = true -> bol_ok (prev_after None P).
Proof.
  unfold at_line_start, bol_ok. destruct (prev_after None P) as [c|]; [|auto].
  intros H. apply Ascii.eqb_eq in H. subst. auto.
Qed.

Lemma Forall_lines ls :
  forallb (forallb line_char) ls = true -> Forall (fun l => forallb line_char l = true) ls.
Proof. intros H. apply Forall_forall. intros l Hl. rewrite forallb_forall in H. exact (H l Hl). Qed.

(** ** Quote stripping *)

(** C1. A post whose raw text is [A[quote]B[quote]C[/quote]D[/quote]E], where
    [A] to [E] are plain text (no control character, no backtick, no opening
    bracket), is cleaned to [AE]. The first round of the loop replaces the
    inner pair and its content by a marker, the second round the outer pair;
    the raw text is kept. *)
Theorem nested_quotes_removed (p : Post) (A B C D E : jsstring) :
  forallb plain A = true -> forallb plain B = true -> forallb plain C = true ->
  forallb plain D = true -> forallb plain E = true ->
  raw p = Some (A ++ str "[quote]" ++ B ++ str "[quote]" ++ C ++ str "[/quote]" ++
                D ++ str "[/quote]" ++ E) ->
  replace innermost_re (template [TLit [SUB]])
    (mark_quotes (A ++ str "[quote]" ++ B ++ str "[quote]" ++ C ++ str "[/quote]" ++
                  D ++ str "[/quote]" ++ E))
  = A ++ STX :: str "[quote]" ++ B ++ SUB :: D ++ str "[/quote]" ++ ETX :: E /\
  replace innermost_re (template [TLit [SUB]])
    (A ++ STX :: str "[quote]" ++ B ++ SUB :: D ++ str "[/quote]" ++ ETX :: E)
  = A ++ SUB :: E /\
  cleaned (cleanPostRaw p) = Some (A ++ E) /\
  raw (cleanPostRaw p) = raw p.
Proof.
  intros HA HB HC HD HE Hraw.
  fold (nested_text A B C D E) in *. fold (nested_round1 A B D E). fold (nested_round2 A E).
  repeat split.
  - rewrite (nested_mark A B C D E) by assumption.
    apply nested_round1_eq; assumption.
  - apply nested_round2_eq; assumption.
  - unfold cleanPostRaw. rewrite Hraw. cbn [cleaned set_cleaned].
    rewrite (nested_mark A B C D E), (nested_strip A B C D E), (nested_finish A E) by assumption.
    reflexivity.
Qed.

Lemma nested_quotes_removed_witness :
  cleaned (cleanPostRaw (post_of (str "A[quote]B[quote]C[/quote]D[/quote]E"))) = Some (str "AE").
Proof.
  exact (proj1 (proj2 (proj2
    (nested_quotes_removed (post_of (str "A[quote]B[quote]C[/quote]D[/quote]E"))
       (str "A") (str "B") (str "C") (str "D") (str "E")
       eq_refl eq_refl eq_refl eq_refl eq_refl eq_refl)))).
Defined.

(** Where a part is not plain text the cleaned text is not the plain
    concatenation: a Windows line end in [E] comes out as a new line. *)
Example nested_quotes_line_end :
  cleaned (cleanPostRaw (post_of (str "A[quote]B[quote]C[/quote]D[/quote]x" ++ [CR; LF] ++ str "y")))
  = Some (str "Ax" ++ [LF] ++ str "y").
Proof. vm_compute. reflexivity. Qed.

(** A closing tag inside the block does not end a quote opened before it,
    and an opening tag inside it is not ended by a closing tag after it. *)
Example fenced_close_tag_ignored :
  cleaned (cleanPostRaw (post_of
    (str "a[quote]b" ++ [LF] ++ block [] [str "[/quote]"] ++ str "c")))
  = Some (str "a[quote]b" ++ [LF] ++ str "c").
Proof. vm_compute. reflexivity. Qed.

Example fenced_open_tag_ignored :
  cleaned (cleanPostRaw (post_of (block [] [str "[quote]"] ++ str "foo[/quote]bar")))
  = Some (str "foo[/quote]bar").
Proof. vm_compute. reflexivity. Qed.

(** Outside a block the same tags are a quote. *)
Example unfenced_quote_removed :
  cleaned (cleanPostRaw (post_of (str "a[quote]b" ++ [LF] ++ str "[/quote]c")))
  = Some (str "ac").
Proof. vm_compute. reflexivity. Qed.

(** ** The queue worker *)

(** C3. When the body of the response does not decode, the callback of the
    task gets the error of the transport as it is and, as body, the text of
    the response: not [undefined]. *)
Theorem malformed_body_reaches_callback (JSON_parse : jsstring -> option json)
    (cfg : config) (t : task) (e : option jserror) (text : jsstring) :
  JSON_parse text = None ->
  reply (queueWorker JSON_parse cfg t {| err := e; body := Some text |}) = (e, VString text) /\
  snd (reply (queueWorker JSON_parse cfg t {| err := e; body := Some text |})) <> VUndefined.
Proof.
  intros H. rewrite (worker_malformed_body JSON_parse cfg t e text H).
  split; [reflexivity | discriminate].
Qed.

Lemma malformed_body_reaches_callback_witness :
  reply (queueWorker json_decode example_config (csrf_task 0)
           {| err := None; body := Some (str "<html>") |})
  = (None, VString (str "<html>")).
Proof.
  exact (proj1 (malformed_body_reaches_callback json_decode example_config (csrf_task 0)
                  None (str "<html>") eq_refl)).
Defined.

(** ** Commands *)

(** C4, as the code has it. The word after the mention needs three
    characters: [@BotName do thing] is no command. With a word of three
    characters or more, the bot name in any letter case, the line is the
    command of that word in lower case, with the argument [thing], the
    mention as written, and [input] rebuilt as [!word thing]. *)
Theorem mention_command_three_letters (cfg : config) (rx : regexp) (name word : jsstring) :
  mention_re cfg = Some rx ->
  map canon name = map canon (username cfg) ->
  forallb not_space (username cfg) = true ->
  forallb not_space word = true ->
  3 <= length word ->
  parseMentionCommand (Some rx) (str "@" ++ name ++ str " " ++ word ++ str " thing")
  = Ret (Some {| input := str "!" ++ toLowerCase word ++ str " thing";
                 command := toLowerCase word;
                 args := [str "thing"];
                 mention := Some (str "@" ++ name);
                 post := None |}) /\
  parseMentionCommand (Some rx) (str "@" ++ name ++ str " do thing") = Ret None.
Proof.
  intros Hrx Hname Hns Hword Hlen. split.
  - exact (mention_command cfg rx name word Hrx Hname Hns Hword Hlen).
  - exact (mention_two_letters cfg rx name Hrx Hname).
Qed.

Lemma mention_command_three_letters_witness :
  parseMentionCommand (mention_re example_config) (str "@botname DoIt thing")
  = Ret (Some {| input := str "!doit thing";
                 command := str "doit";
                 args := [str "thing"];
                 mention := Some (str "@botname");
                 post := None |}).
Proof.
  exact (proj1 (mention_command_three_letters example_config
                  {| source := cat ([Bol; Chr "@"] ++ map Chr (str "BotName") ++ mention_tail);
                     flag_g := false; flag_i := true; flag_m := false |}
                  (str "botname") (str "DoIt")
                  eq_refl eq_refl eq_refl eq_refl
                  (le_S _ _ (le_n 3)))).
Defined.

(** C4, as the specification states it, fails: the line is no command. *)
Lemma mention_do_thing_is_no_command :
  parseMentionCommand (mention_re example_config) (str "@BotName do thing") = Ret None /\
  ~ (exists c,
       parseMentionCommand (mention_re example_config) (str "@BotName do thing") = Ret (Some c) /\
       command c = str "do" /\ args c = [str "thing"] /\ input c = str "!do thing").
Proof.
  assert (H : parseMentionCommand (mention_re example_config) (str "@BotName do thing") = Ret None)
    by (vm_compute; reflexivity).
  split; [exact H|]. intros (c & Hc & _). rewrite H in Hc. discriminate.
Qed.

(** C5. The short form needs a word of three characters: [!ab foo] is no
    command, [!abc foo] is the command [abc] with the argument [foo] and
    without mention, the word is put in lower case, and whatever line is a
    short command has a command of three characters at least. *)
Theorem short_command_three_letters :
  parseShortCommand (str "!ab foo") = Ret None /\
  parseShortCommand (str "!abc foo")
  = Ret (Some {| input := str "!abc foo"; command := str "abc"; args := [str "foo"];
                 mention := None; post := None |}) /\
  parseShortCommand (str "!ABC foo")
  = Ret (Some {| input := str "!ABC foo"; command := str "abc"; args := [str "foo"];
                 mention := None; post := None |}) /\
  (forall line c, parseShortCommand line = Ret (Some c) ->
     3 <= length (command c) /\ mention c = None /\ input c = line).
Proof.
  repeat split; try (vm_compute; reflexivity);
    destruct (short_command_length line c H) as (H1 & H2 & H3); assumption.
Qed.

Lemma short_command_three_letters_witness :
  parseShortCommand (str "!abc foo")
  = Ret (Some {| input := str "!abc foo"; command := str "abc"; args := [str "foo"];
                 mention := None; post := None |}) /\
  3 <= length (str "abc").
Proof.
  split; [reflexivity|].
  exact (proj1 (proj2 (proj2 (proj2 short_command_three_letters))
                  (str "!abc foo")
                  {| input := str "!abc foo"; command := str "abc"; args := [str "foo"];
                     mention := None; post := None |}
                  eq_refl)).
Defined.

(** ** Reading posts *)

(** C6. [readPosts] issues one task for each slice of at most 200
    identifiers, in order, and calls the completion callback once, after the
    last task it issued. When no batch reports an error of the transport the
    slices are issued until the list is used up and the callback gets no
    error: for 450 identifiers these are three tasks, of 200, 200 and 50
    identifiers, and the callback comes after the third. *)
Theorem read_posts_batches (JSON_parse : jsstring -> option json) (cfg : config)
    (net : nat -> request -> response) (delay' topicId : N) (ids : list N) :
  exists p,
    readPosts delay' topicId (Ids ids) Function = Ret p /\
    concat (chunks ids) = ids /\
    Forall (fun part => 1 <= length part <= 200) (chunks ids) /\
    (exists parts others e,
       run JSON_parse cfg net 0 p
       = map (batch_event cfg delay' topicId) parts ++ [WhilstCompleted e] /\
       chunks ids = parts ++ others /\
       (e = None -> others = [])) /\
    ((forall n r, err (net n r) = None) ->
       run JSON_parse cfg net 0 p
       = map (batch_event cfg delay' topicId) (chunks ids) ++ [WhilstCompleted None] /\
       (length ids = 450 ->
        exists b1 b2 b3,
          ids = b1 ++ b2 ++ b3 /\ length b1 = 200 /\ length b2 = 200 /\ length b3 = 50 /\
          run JSON_parse cfg net 0 p
          = [batch_event cfg delay' topicId b1; batch_event cfg delay' topicId b2;
             batch_event cfg delay' topicId b3; WhilstCompleted None])).
Proof.
  eexists. split; [reflexivity|].
  split; [apply chunks_concat|].
  split; [exact (chunks_bounded ids)|].
  split; [exact (run_readPosts_shape JSON_parse cfg net delay' topicId ids 0)|].
  intros Hnet.
  assert (Hrun := run_readPosts_ok JSON_parse cfg net delay' topicId Hnet ids 0).
  split; [exact Hrun|].
  intros Hlen. destruct (chunks_450 ids Hlen) as (b1 & b2 & b3 & Hc & H1 & H2 & H3).
  exists b1, b2, b3. repeat split; try assumption.
  - rewrite <- (chunks_concat ids), Hc. cbn [concat]. rewrite app_nil_r. reflexivity.
  - rewrite Hrun, Hc. reflexivity.
Qed.

Lemma read_posts_batches_witness :
  exists p,
    readPosts 0 7 (Ids (map N.of_nat (seq 1 450))) Function = Ret p /\
    map (fun e => match e with
                  | Requested r =>
                      match req_form r with
                      | TimingsForm _ _ timings => Some (length timings)
                      | _ => None
                      end
                  | _ => None
                  end)
        (run json_decode example_config (fun _ _ => {| err := None; body := Some (str "{}") |}) 0 p)
    = [Some 200; Some 200; Some 50; None].
Proof.
  destruct (read_posts_batches json_decode example_config
              (fun _ _ => {| err := None; body := Some (str "{}") |}) 0 7
              (map N.of_nat (seq 1 450)))
    as (p & Hp & _ & _ & _ & Hok).
  destruct (Hok (fun _ _ => eq_refl)) as [Hrun _].
  exists p. split; [exact Hp|].
  rewrite Hrun. vm_compute. reflexivity.
Defined.

(** A batch that reports an error ends the submission: the completion
    callback gets the error and no further task is issued. *)
Example read_posts_error_stops :
  exists p,
    readPosts 0 7 (Ids (map N.of_nat (seq 1 450))) Function = Ret p /\
    run json_decode example_config (fun _ _ => {| err := Some (str "ETIMEDOUT"); body := None |}) 0 p
    = [batch_event example_config 0 7 (map N.of_nat (seq 1 200));
       WhilstCompleted (Some (str "ETIMEDOUT"))].
Proof. eexists. split; [reflexivity|]. vm_compute. reflexivity. Qed.

(** ** Login *)

(** C7. When the request for the token reports an error, [login] calls its
    callback with that error and ends: the task of [doLogin] is never
    pushed. *)
Theorem login_stops_on_csrf_error (JSON_parse : jsstring -> option json) (cfg : config)
    (net : nat -> request -> response) (delay' : N) (e : jserror) :
  err (net 0 (request_of cfg (csrf_task delay'))) = Some e ->
  exists p,
    login cfg delay' Function = Ret p /\
    run JSON_parse cfg net 0 p
    = [Requested (request_of cfg (csrf_task delay')); Completed (Some e) VUndefined] /\
    ~ In (Requested (request_of cfg (login_task cfg delay'))) (run JSON_parse cfg net 0 p).
Proof.
  intros He. eexists. split; [reflexivity|].
  assert (Hrun : run JSON_parse cfg net 0
                   (getCSRF delay'
                      (fun err' => match err' with
                                   | Some e0 => Return (Some e0) VUndefined
                                   | None => doLogin cfg delay' (fun e0 v => Return e0 v)
                                   end))
                 = [Requested (request_of cfg (csrf_task delay')); Completed (Some e) VUndefined]).
  { unfold getCSRF. cbn [run queueWorker reply sent fst snd]. rewrite He. reflexivity. }
  split; [exact Hrun|]. rewrite Hrun. intros [H | [H | []]]; [|discriminate].
  inversion H.
Qed.

Lemma login_stops_on_csrf_error_witness :
  exists p,
    login example_config 0 Function = Ret p /\
    run json_decode example_config
        (fun _ _ => {| err := Some (str "ECONNREFUSED"); body := None |}) 0 p
    = [Requested (request_of example_config (csrf_task 0));
       Completed (Some (str "ECONNREFUSED")) VUndefined].
Proof.
  destruct (login_stops_on_csrf_error json_decode example_config
              (fun _ _ => {| err := Some (str "ECONNREFUSED"); body := None |}) 0
              (str "ECONNREFUSED") eq_refl)
    as (p & Hp & Hrun & _).
  exists p. split; assumption.
Defined.

(** When the token is got, the login follows. *)
Example login_after_csrf :
  exists p,
    login example_config 0 Function = Ret p /\
    run json_decode example_config
        (fun n _ =>
           match n with
           | 0 => {| err := None;
                     body := Some (str "{" ++ dquote :: str "csrf" ++ dquote :: str ":" ++
                                   dquote :: str "token" ++ dquote :: str "}") |}
           | _ => {| err := None;
                     body := Some (str "{" ++ dquote :: str "user" ++ dquote :: str ":{}}") |}
           end) 0 p
    = [Requested (request_of example_config (csrf_task 0));
       HeaderSet (str "X-CSRF-Token") (VJson (JString (str "token")));
       Requested (request_of example_config (login_task example_config 0));
       Completed None (VJson (JObject []))].
Proof. eexists. split; [reflexivity|]. vm_compute. reflexivity. Qed.

(** ** Trust levels *)

(** C8. The rules of [setTrustLevel] in their order: the owner, then admin,
    moderator and staff, then the ignore list, the first that applies
    deciding; a post that none applies to is left as it is. A post flagged
    admin and moderator never gets the moderator level: it gets the admin
    level, unless the owner wrote it. *)
Theorem trust_level_precedence (cfg : config) (p : Post) :
  (post_username p = owner cfg ->
     trust_level (setTrustLevel cfg p) = trustLevels.owner) /\
  (post_username p <> owner cfg -> admin p = true ->
     trust_level (setTrustLevel cfg p) = trustLevels.admin) /\
  (post_username p <> owner cfg -> admin p = false -> moderator p = true ->
     trust_level (setTrustLevel cfg p) = trustLevels.moderator) /\
  (post_username p <> owner cfg -> admin p = false -> moderator p = false ->
   staff p = true ->
     trust_level (setTrustLevel cfg p) = trustLevels.staff) /\
  (post_username p <> owner cfg -> admin p = false -> moderator p = false ->
   staff p = false -> In (post_username p) (ignoreUsers cfg) ->
     trust_level (setTrustLevel cfg p) = trustLevels.ignored) /\
  (post_username p <> owner cfg -> admin p = false -> moderator p = false ->
   staff p = false -> ~ In (post_username p) (ignoreUsers cfg) ->
     setTrustLevel cfg p = p) /\
  (admin p = true -> moderator p = true ->
     trust_level (setTrustLevel cfg p) <> trustLevels.moderator /\
     (post_username p <> owner cfg ->
        trust_level (setTrustLevel cfg p) = trustLevels.admin)).
Proof. exact (trust_cases cfg p). Qed.

Lemma trust_level_precedence_witness :
  trust_level (setTrustLevel example_config
                 {| raw := None; cleaned := None; post_username := str "someone";
                    trust_level := 2; admin := true; moderator := true; staff := true |})
  = trustLevels.admin.
Proof.
  apply (proj2 (proj2 (proj2 (proj2 (proj2 (proj2 (proj2
           (trust_level_precedence example_config
              {| raw := None; cleaned := None; post_username := str "someone";
                 trust_level := 2; admin := true; moderator := true; staff := true |}))))))
           eq_refl eq_refl)).
  intros H. vm_compute in H. discriminate H.
Defined.

(** ** Dispatch *)

(** C9. The dispatch of a command without mention whose event had no
    subscriber emits [command#ERROR]; when that had none either it emits
    the error event, once, with the message about the unhandled command.
    A command with a mention, and so every command of the mention form, and
    a command that was handled, emit the event of the command only. The
    error is emitted by the deferred dispatch: [parseCommands] itself never
    throws it. *)
Theorem dispatch_fallback_chain (bus : Type) (emit : jsstring -> payload -> bus -> bool * bus)
    (c : ParsedCommand) (p : Post) (b : bus) :
  (truthy (mention c) = false -> handled_first emit c p b = false ->
     (handled_fallback emit c p b = true ->
        fst (dispatch emit c p b) = [first_event c p; fallback_event c p]) /\
     (handled_fallback emit c p b = false ->
        fst (dispatch emit c p b) = [first_event c p; fallback_event c p; report_event c] /\
        error_reports (fst (dispatch emit c p b)) = [(str "error", PError (unhandled c))])) /\
  (truthy (mention c) = true -> fst (dispatch emit c p b) = [first_event c p]) /\
  (handled_first emit c p b = true -> fst (dispatch emit c p b) = [first_event c p]) /\
  (forall cfg rx line c', mention_re cfg = Some rx ->
     parseMentionCommand (Some rx) line = Ret (Some c') -> truthy (mention c') = true) /\
  (forall rx post' callback msg,
     parseCommands rx post' callback = Throw msg -> msg <> unhandled c).
Proof.
  repeat split.
  - apply (dispatch_unhandled bus emit c p b); assumption.
  - apply (dispatch_unhandled bus emit c p b); assumption.
  - apply (dispatch_unhandled bus emit c p b); assumption.
  - apply dispatch_mention.
  - apply dispatch_handled.
  - intros cfg rx line c'. apply mention_truthy.
  - intros rx post' callback msg. apply unhandled_not_thrown.
Qed.

Lemma dispatch_fallback_chain_witness :
  error_reports
    (fst (dispatch (subscribed [])
            {| input := str "!help"; command := str "help"; args := [];
               mention := None; post := None |}
            (post_of (str "!help")) tt))
  = [(str "error", PError (str "command `help` was unhandled."))].
Proof.
  exact (proj2 (proj2 (proj1 (dispatch_fallback_chain unit (subscribed [])
            {| input := str "!help"; command := str "help"; args := [];
               mention := None; post := None |}
            (post_of (str "!help")) tt) eq_refl eq_refl) eq_refl)).
Defined.

(** The whole way of a post with a short command nobody handles. *)
Example unhandled_command_trace :
  exists effects,
    parseCommands (mention_re example_config) (Some (post_of (str "!help me"))) Function
    = Ret effects /\
    map fst (fst (run_immediates (subscribed []) effects tt))
    = [str "command#help"; str "command#ERROR"; str "error"].
Proof. eexists. split; [vm_compute; reflexivity|]. vm_compute. reflexivity. Qed.

(** C10. With a callback that is a function, a post that is missing or has
    no raw text makes [parseCommands] call the callback without error and
    with no command, and defer nothing, so that nothing is emitted. It
    throws at once only when the callback is no function. *)
Theorem parse_commands_without_text (rx : option regexp) (post' : option Post)
    (callback : callback_value) :
  (post' = None \/ exists p, post' = Some p /\ truthy (raw p) = false) ->
  (callback = Function ->
     parseCommands rx post' callback = Ret [Callback None []] /\
     forall (bus : Type) (emit : jsstring -> payload -> bus -> bool * bus) (b : bus),
       fst (run_immediates emit [Callback None []] b) = []) /\
  (callback = NotAFunction -> parseCommands rx post' callback = Throw callback_missing) /\
  (forall msg, parseCommands rx post' callback = Throw msg ->
     callback = NotAFunction /\ msg = callback_missing).
Proof.
  intros Hpost.
  assert (Hf : parseCommands rx post' Function = Ret [Callback None []]).
  { destruct Hpost as [-> | (p & -> & Hraw)];
      [apply parseCommands_no_post | apply parseCommands_no_raw; exact Hraw]. }
  split; [|split].
  - intros ->. split; [exact Hf|]. intros bus emit b. reflexivity.
  - intros ->. apply parseCommands_no_callback.
  - intros msg H. destruct callback.
    + rewrite parseCommands_no_callback in H. inversion H. split; reflexivity.
    + rewrite Hf in H. discriminate.
Qed.

Lemma parse_commands_without_text_witness :
  parseCommands (mention_re example_config)
    (Some {| raw := None; cleaned := None; post_username := str "someone";
             trust_level := 1; admin := false; moderator := false; staff := false |})
    Function
  = Ret [Callback None []].
Proof.
  exact (proj1 (proj1 (parse_commands_without_text (mention_re example_config)
            (Some {| raw := None; cleaned := None; post_username := str "someone";
                     trust_level := 1; admin := false; moderator := false; staff := false |})
            Function
            (or_intror (ex_intro _ _ (conj eq_refl eq_refl)))) eq_refl)).
Defined.

(* ================================================================== *)
(** ** Splitting at blanks, in general *)

Lemma spaces_run pv c W X :
  is_space c = true -> forallb is_space W = true -> stops is_space X ->
  match_at spaces_re pv (c :: W ++ X) = Some (c :: W, []).
Proof.
  intros Hc HW HX.
  apply (match_at_some spaces_re pv (c :: W) X [] (prev_after (Some c) W)).
  change (rmatch (flags_of spaces_re) (source spaces_re) (fun st => Some st)
            {| prev := pv; rest := (c :: W) ++ X; caps := [] |})
    with (if cls_match (flags_of spaces_re) false ws_ranges c
          then rep_opt (S (length (W ++ X))) (rmatch (flags_of spaces_re) (Cls false ws_ranges)) None true
                 (fun st => Some st) {| prev := Some c; rest := W ++ X; caps := [] |}
          else None).
  rewrite cls_s_match, Hc.
  rewrite (rep_opt_greedy _ _ (one_char_Cls _ _ _)); [| lia | | ].
  - apply greedy_run_end. reflexivity.
  - eapply forallb_imp; [|exact HW]. intros y Hy. rewrite cls_s_match. exact Hy.
  - destruct X as [|x X]; [exact I|]. cbn [stops] in *. rewrite cls_s_match. exact HX.
Qed.

Lemma split_from_pass re :
  forall M pv cur X,
    split_from re pv (length M) cur (M ++ X) = split_from re (prev_after pv M) 0 cur X
    \/ X = [].
Proof.
  induction M as [|c M IH]; intros pv cur X.
  - left. reflexivity.
  - cbn [length app split_from]. apply IH.
Qed.

Lemma split_from_skip_end re :
  forall M pv cur, split_from re pv (length M) cur M = [rev cur].
Proof.
  induction M as [|c M IH]; intros pv cur; [reflexivity|].
  cbn [length split_from]. apply IH.
Qed.

(** The longest run of blanks a text starts with. *)
Lemma blank_prefix s :
  exists W X, s = W ++ X /\ forallb is_space W = true /\ stops is_space X.
Proof.
  induction s as [|c s (W & X & E & HW & HX)].
  - exists [], []. repeat split.
  - destruct (is_space c) eqn:Hc.
    + exists (c :: W), X. subst. repeat split; [|exact HX].
      cbn [forallb]. rewrite Hc, HW. reflexivity.
    + exists [], (c :: s). repeat split. exact Hc.
Qed.

Lemma pieces_from_blanks W :
  forall X, forallb is_space W = true ->
    pieces_from [] true (W ++ X) = pieces_from [] true X.
Proof.
  induction W as [|c W IH]; intros X H; [reflexivity|].
  cbn [forallb] in H. apply andb_prop in H. destruct H as [Hc HW].
  cbn [app pieces_from]. rewrite Hc. apply IH, HW.
Qed.

Lemma split_spaces_from :
  forall n s, length s <= n ->
    forall pv cur, split_from spaces_re pv 0 cur s = pieces_from cur false s.
Proof.
  induction n as [|n IH]; intros s Hn pv cur.
  - destruct s; [reflexivity|cbn in Hn; lia].
  - destruct s as [|c t]; [reflexivity|].
    cbn [length] in Hn.
    destruct (is_space c) eqn:Hc.
    + destruct (blank_prefix t) as (W & X & -> & HW & HX).
      cbn [split_from pieces_from]. rewrite (spaces_run pv c W X Hc HW HX), Hc.
      cbn [length]. rewrite pieces_from_blanks by exact HW.
      destruct X as [|x X].
      * rewrite app_nil_r, split_from_skip_end. reflexivity.
      * destruct (split_from_pass spaces_re W (Some c) [] (x :: X)) as [->|]; [|discriminate].
        rewrite IH by (rewrite length_app in Hn; lia).
        cbn [stops] in HX. cbn [pieces_from]. rewrite HX. reflexivity.
    + cbn [split_from pieces_from]. rewrite (spaces_miss pv c t Hc), Hc.
      apply IH. lia.
Qed.

(** [text.split(/\s+/)] gives the pieces between the runs of blanks. *)
Lemma split_spaces s : split spaces_re s = pieces s.
Proof.
  destruct s as [|c t]; [reflexivity|].
  unfold split, pieces. apply (split_spaces_from (length (c :: t))). lia.
Qed.

Lemma pieces_from_word w :
  forall cur ib X, w <> [] -> forallb not_space w = true ->
    pieces_from cur ib (w ++ X) = pieces_from (rev w ++ cur) false X.
Proof.
  induction w as [|c w IH]; intros cur ib X Hne Hw; [congruence|].
  cbn [forallb] in Hw. apply andb_prop in Hw. destruct Hw as [Hc Hw].
  unfold not_space in Hc. apply negb_true_iff in Hc.
  cbn [app pieces_from]. rewrite Hc.
  destruct w as [|d w].
  - reflexivity.
  - rewrite IH by (discriminate || exact Hw). cbn [rev]. rewrite <- !app_assoc. reflexivity.
Qed.

Lemma pieces_from_word0 w :
  forall cur X, forallb not_space w = true ->
    pieces_from cur false (w ++ X) = pieces_from (rev w ++ cur) false X.
Proof.
  intros cur X Hw. destruct w as [|c w]; [reflexivity|].
  apply pieces_from_word; [discriminate|exact Hw].
Qed.

Lemma blank_run_inv s :
  blank_run s = true -> exists c W, s = c :: W /\ is_space c = true /\ forallb is_space W = true.
Proof.
  destruct s as [|c W]; [discriminate|]. cbn [blank_run forallb]. intros H.
  apply andb_prop in H. destruct H. exists c, W. auto.
Qed.

Lemma is_word_inv s :
  is_word s = true -> s <> [] /\ forallb not_space s = true.
Proof. destruct s; [discriminate|]. intros H. split; [discriminate|exact H]. Qed.

Lemma pieces_from_run s :
  forall cur X, blank_run s = true ->
    pieces_from cur false (s ++ X) = rev cur :: pieces_from [] true X.
Proof.
  intros cur X H. destruct (blank_run_inv s H) as (c & W & -> & Hc & HW).
  cbn [app pieces_from]. rewrite Hc. f_equal. apply pieces_from_blanks, HW.
Qed.

Lemma pieces_spaced tail :
  well_spaced tail = true ->
  forall cur, pieces_from cur false (spaced tail) = rev cur :: map snd tail.
Proof.
  induction tail as [|[s a] tail IH]; intros H cur; [reflexivity|].
  cbn [well_spaced forallb fst snd] in H. apply andb_prop in H. destruct H as [H Ht].
  apply andb_prop in H. destruct H as [Hs Ha].
  destruct (is_word_inv a Ha) as [Hne Hw].
  cbn [spaced flat_map fst snd map]. fold (spaced tail). rewrite <- app_assoc.
  rewrite pieces_from_run by exact Hs. f_equal.
  rewrite pieces_from_word by assumption.
  rewrite (IH Ht). rewrite app_nil_r, rev_involutive. reflexivity.
Qed.

(** A run of blanks at the end leaves an empty piece after it. *)
Lemma pieces_spaced_blank tail B :
  well_spaced tail = true -> blank_run B = true ->
  forall cur, pieces_from cur false (spaced tail ++ B) = rev cur :: map snd tail ++ [[]].
Proof.
  intros Ht HB. induction tail as [|[s a] tail IH]; intros cur.
  - cbn [spaced flat_map app map]. rewrite <- (app_nil_r B).
    rewrite pieces_from_run by exact HB. reflexivity.
  - cbn [well_spaced forallb fst snd] in Ht. apply andb_prop in Ht. destruct Ht as [H Ht].
    apply andb_prop in H. destruct H as [Hs Ha].
    destruct (is_word_inv a Ha) as [Hne Hw].
    cbn [spaced flat_map fst snd map]. fold (spaced tail). rewrite <- !app_assoc.
    rewrite pieces_from_run by exact Hs. f_equal.
    rewrite pieces_from_word by assumption.
    rewrite (IH Ht). rewrite app_nil_r, rev_involutive. reflexivity.
Qed.

(** A text with a blank in it has two pieces at least. *)
Lemma pieces_from_two s :
  forall cur, existsb is_space s = true -> 2 <= length (pieces_from cur false s).
Proof.
  assert (H1 : forall t cur ib, 1 <= length (pieces_from cur ib t)).
  { induction t as [|c t IH]; intros cur ib; cbn [pieces_from]; [cbn; lia|].
    destruct (is_space c); [destruct ib|]; cbn [length]; try apply IH; lia. }
  induction s as [|c s IH]; intros cur H; [discriminate|].
  cbn [existsb] in H. cbn [pieces_from]. destruct (is_space c).
  - cbn [length]. specialize (H1 s [] true). lia.
  - apply IH. exact H.
Qed.

(* ================================================================== *)
(** ** The command word *)

(** A word of three characters at least, before a blank or the end. *)
Lemma word_tail_hit fl pv a b c w X cs :
  forallb not_space (a :: b :: c :: w) = true ->
  stops not_space X ->
  exists st',
    rmatch fl (cat word_tail) (fun st => Some st)
      {| prev := pv; rest := (a :: b :: c :: w) ++ X; caps := cs |} = Some st'.
Proof.
  intros Hw HX.
  cbn [forallb] in Hw. apply andb_prop in Hw. destruct Hw as [Ha Hw].
  apply andb_prop in Hw. destruct Hw as [Hb Hw].
  apply andb_prop in Hw. destruct Hw as [Hc Hw].
  unfold not_space in Ha, Hb, Hc.
  change (rmatch fl (cat word_tail) (fun st => Some st)
      {| prev := pv; rest := (a :: b :: c :: w) ++ X; caps := cs |})
    with (if cls_match fl true ws_ranges a then
            if cls_match fl true ws_ranges b then
              if cls_match fl true ws_ranges c then
                rep_opt (S (length (w ++ X))) (rmatch fl (Cls true ws_ranges)) None true
                  (rmatch fl (Grp 1 (Alt cls_s Eol)) (fun st => Some st))
                  {| prev := Some c; rest := w ++ X; caps := cs |}
              else None
            else None
          else None).
  rewrite !cls_S_match, Ha, Hb, Hc. cbn iota.
  rewrite (rep_opt_greedy _ _ (one_char_Cls _ _ _)); [| lia | | ].
  - destruct X as [|x X].
    + eexists. apply greedy_run_end. cbn [greedy_run rmatch cls_s rest]. reflexivity.
    + cbn [stops] in HX. unfold not_space in HX. apply negb_false_iff in HX.
      eexists. apply greedy_run_end. cbn [greedy_run rmatch cls_s rest].
      rewrite cls_s_match, HX. reflexivity.
  - eapply forallb_imp; [|exact Hw]. intros y Hy. rewrite cls_S_match. exact Hy.
  - destruct X as [|x X]; [exact I|]. cbn [stops] in *. rewrite cls_S_match. exact HX.
Qed.

(** What the pattern of the command word passes starts with three
    characters that are no blanks. *)
Lemma word_tail_inv fl k st x :
  rmatch fl (cat word_tail) k st = Some x ->
  exists a b c t,
    rest st = a :: b :: c :: t /\
    is_space a = false /\ is_space b = false /\ is_space c = false.
Proof.
  destruct st as [pv s cs]. cbn [rest]. intros H.
  destruct s as [|a [|b [|c t]]]; cbn in H;
    repeat match type of H with
           | context [if ?b then _ else _] => destruct b eqn:?
           end; try discriminate.
  all: exists a, b, c, t.
  all: repeat match goal with
         | E : cls_match _ true ws_ranges ?x = true |- _ =>
             rewrite cls_S_match in E; apply negb_true_iff in E
         end.
  all: auto.
Qed.

Lemma short_test_word w X :
  forallb not_space w = true -> 3 <= length w -> stops not_space X ->
  test short_re ("!"%char :: w ++ X) = true.
Proof.
  intros Hw Hlen HX.
  rewrite (test_anchored short_re (Chr "!" :: word_tail)) by reflexivity.
  unfold match_at.
  destruct w as [|a [|b [|c w]]]; cbn [length] in Hlen; try lia.
  destruct (word_tail_hit (flags_of short_re) (Some "!"%char) a b c w X [] Hw HX) as (st' & E).
  change (rmatch (flags_of short_re) (source short_re) (fun st => Some st)
            {| prev := None; rest := "!"%char :: (a :: b :: c :: w) ++ X; caps := [] |})
    with (rmatch (flags_of short_re) (cat word_tail) (fun st => Some st)
            {| prev := Some "!"%char; rest := (a :: b :: c :: w) ++ X; caps := [] |}).
  rewrite E. reflexivity.
Qed.

Lemma well_spaced_stops tail X :
  well_spaced tail = true -> stops not_space X -> stops not_space (spaced tail ++ X).
Proof.
  destruct tail as [|[s a] tail]; [intros _ H; exact H|].
  cbn [well_spaced forallb fst snd]. intros H _.
  apply andb_prop in H. destruct H as [H _]. apply andb_prop in H. destruct H as [Hs _].
  destruct (blank_run_inv s Hs) as (c & W & -> & Hc & _).
  cbn [spaced flat_map fst snd app stops]. unfold not_space. rewrite Hc. reflexivity.
Qed.

Lemma short_words w tail :
  forallb not_space w = true -> 3 <= length w -> well_spaced tail = true ->
  parseShortCommand ("!"%char :: w ++ spaced tail)
  = Ret (Some {| input := "!"%char :: w ++ spaced tail;
                 command := toLowerCase w;
                 args := map snd tail;
                 mention := None;
                 post := None |}).
Proof.
  intros Hw Hlen Ht. unfold parseShortCommand.
  assert (HX : stops not_space (spaced tail)).
  { rewrite <- (app_nil_r (spaced tail)). apply well_spaced_stops; [exact Ht|exact I]. }
  rewrite (short_test_word w (spaced tail) Hw Hlen HX). cbn [negb].
  rewrite split_spaces. unfold pieces.
  change ("!"%char :: w ++ spaced tail) with (("!"%char :: w) ++ spaced tail).
  rewrite pieces_from_word0 by (cbn [forallb]; rewrite Hw; reflexivity).
  rewrite pieces_spaced by exact Ht.
  rewrite app_nil_r, rev_involutive. reflexivity.
Qed.

Lemma short_words_blank w tail B :
  forallb not_space w = true -> 3 <= length w -> well_spaced tail = true ->
  blank_run B = true ->
  parseShortCommand ("!"%char :: w ++ spaced tail ++ B)
  = Ret (Some {| input := "!"%char :: w ++ spaced tail ++ B;
                 command := toLowerCase w;
                 args := map snd tail ++ [[]];
                 mention := None;
                 post := None |}).
Proof.
  intros Hw Hlen Ht HB. unfold parseShortCommand.
  assert (HX : stops not_space (spaced tail ++ B)).
  { apply well_spaced_stops; [exact Ht|].
    destruct (blank_run_inv B HB) as (c & W & -> & Hc & _).
    cbn [stops]. unfold not_space. rewrite Hc. reflexivity. }
  rewrite (short_test_word w _ Hw Hlen HX). cbn [negb].
  rewrite split_spaces. unfold pieces.
  change ("!"%char :: w ++ spaced tail ++ B) with (("!"%char :: w) ++ spaced tail ++ B).
  rewrite pieces_from_word0 by (cbn [forallb]; rewrite Hw; reflexivity).
  rewrite pieces_spaced_blank by assumption.
  rewrite app_nil_r, rev_involutive. reflexivity.
Qed.

(* ================================================================== *)
(** ** The blanks at the end of a line *)

Lemma rstrip_blank s : forallb is_space s = true -> rstrip s = [].
Proof.
  induction s as [|c s IH]; [reflexivity|].
  cbn [forallb rstrip]. intros H. apply andb_prop in H. destruct H as [Hc Hs].
  rewrite (IH Hs), Hc. reflexivity.
Qed.

Lemma rstrip_nonblank s : existsb not_space s = true -> rstrip s <> [].
Proof.
  induction s as [|c s IH]; [discriminate|].
  cbn [existsb rstrip]. intros H. destruct (rstrip s) eqn:E; [|discriminate].
  unfold not_space in H. destruct (is_space c); [|discriminate].
  cbn [negb orb] in H. exfalso. exact (IH H eq_refl).
Qed.

Lemma rstrip_cons c s : rstrip s <> [] -> rstrip (c :: s) = c :: rstrip s.
Proof. cbn [rstrip]. destruct (rstrip s); [congruence|reflexivity]. Qed.

Lemma rstrip_cons_word c s : is_space c = false -> rstrip (c :: s) = c :: rstrip s.
Proof. intros H. cbn [rstrip]. rewrite H. destruct (rstrip s); reflexivity. Qed.

Lemma greedy_run_none k cs :
  forall W pv X,
    X <> [] ->
    (forall pv' r, r <> [] -> k {| prev := pv'; rest := r; caps := cs |} = None) ->
    greedy_run k cs pv W X = None.
Proof.
  induction W as [|w W IH]; intros pv X HX Hk; cbn [greedy_run].
  - apply Hk, HX.
  - rewrite IH by assumption. apply Hk. discriminate.
Qed.

(** Blanks before a character that is none are no blanks at the end. *)
Lemma trailing_blank_miss pv c W x X :
  forallb is_space W = true -> is_space x = false ->
  match_at trailing_spaces_re pv (c :: W ++ x :: X) = None.
Proof.
  intros HW Hx. apply match_at_none.
  change (rmatch (flags_of trailing_spaces_re) (source trailing_spaces_re) (fun st => Some st)
            {| prev := pv; rest := c :: W ++ x :: X; caps := [] |})
    with (if cls_match (flags_of trailing_spaces_re) false ws_ranges c
          then rep_opt (S (length (W ++ x :: X)))
                 (rmatch (flags_of trailing_spaces_re) (Cls false ws_ranges)) None true
                 (rmatch (flags_of trailing_spaces_re) Eol (fun st => Some st))
                 {| prev := Some c; rest := W ++ x :: X; caps := [] |}
          else None).
  destruct (cls_match _ _ _ c); [|reflexivity].
  rewrite (rep_opt_greedy _ _ (one_char_Cls _ _ _)); [| lia | | ].
  - apply greedy_run_none; [discriminate|].
    intros pv' r Hr. destruct r; [congruence|reflexivity].
  - eapply forallb_imp; [|exact HW]. intros y Hy. rewrite cls_s_match. exact Hy.
  - cbn [stops]. rewrite cls_s_match. exact Hx.
Qed.

(** Blanks up to the end are. *)
Lemma trailing_blank_hit pv c W :
  is_space c = true -> forallb is_space W = true ->
  match_at trailing_spaces_re pv (c :: W) = Some (c :: W, []).
Proof.
  intros Hc HW.
  rewrite <- (app_nil_r W) at 1.
  apply (match_at_some trailing_spaces_re pv (c :: W) [] [] (prev_after (Some c) W)).
  change (rmatch (flags_of trailing_spaces_re) (source trailing_spaces_re) (fun st => Some st)
            {| prev := pv; rest := (c :: W) ++ []; caps := [] |})
    with (if cls_match (flags_of trailing_spaces_re) false ws_ranges c
          then rep_opt (S (length (W ++ [])))
                 (rmatch (flags_of trailing_spaces_re) (Cls false ws_ranges)) None true
                 (rmatch (flags_of trailing_spaces_re) Eol (fun st => Some st))
                 {| prev := Some c; rest := W ++ []; caps := [] |}
          else None).
  rewrite cls_s_match, Hc.
  rewrite (rep_opt_greedy _ _ (one_char_Cls _ _ _)); [| lia | | exact I].
  - apply greedy_run_end. reflexivity.
  - eapply forallb_imp; [|exact HW]. intros y Hy. rewrite cls_s_match. exact Hy.
Qed.

Lemma stops_nonblank X : stops is_space X -> X <> [] -> existsb not_space X = true.
Proof.
  destruct X as [|x X]; [congruence|]. cbn [stops existsb]. intros H _.
  unfold not_space. rewrite H. reflexivity.
Qed.

Lemma existsb_app_r (p : ascii -> bool) W X : existsb p X = true -> existsb p (W ++ X) = true.
Proof. intros H. rewrite existsb_app, H. apply orb_true_r. Qed.

(** [line.replace(/\s+$/, '')] takes the blanks at the end away. *)
Lemma strip_trailing :
  forall s pv, replace_first_from trailing_spaces_re empty_replacement pv s = rstrip s.
Proof.
  induction s as [|c s IH]; intros pv; [reflexivity|].
  destruct (is_space c) eqn:Hc.
  - destruct (blank_prefix s) as (W & X & -> & HW & HX).
    destruct X as [|x X].
    + rewrite app_nil_r in *. cbn [replace_first_from].
      rewrite (trailing_blank_hit pv c W Hc HW).
      rewrite skipn_all. rewrite rstrip_blank; [reflexivity|].
      cbn [forallb]. rewrite Hc, HW. reflexivity.
    + cbn [stops] in HX. cbn [replace_first_from].
      rewrite (trailing_blank_miss pv c W x X HW HX). rewrite IH.
      symmetry. apply rstrip_cons. apply rstrip_nonblank, existsb_app_r.
      cbn [existsb]. unfold not_space. rewrite HX. reflexivity.
  - cbn [replace_first_from]. rewrite (trailing_miss pv c s Hc), IH.
    symmetry. apply rstrip_cons_word, Hc.
Qed.

Lemma replace_trailing s : replace trailing_spaces_re empty_replacement s = rstrip s.
Proof. apply strip_trailing. Qed.

Lemma rstrip_spec s :
  exists B, s = rstrip s ++ B /\ forallb is_space B = true.
Proof.
  induction s as [|c s (B & E & HB)].
  - exists []. split; reflexivity.
  - cbn [rstrip]. destruct (rstrip s) as [|r rs] eqn:Er.
    + destruct (is_space c) eqn:Hc.
      * exists (c :: s). split; [reflexivity|].
        cbn [forallb]. rewrite Hc. cbn [app] in E. rewrite E. exact HB.
      * exists s. split; [reflexivity|]. cbn [app] in E. rewrite E. exact HB.
    + exists B. split; [|exact HB]. cbn [app]. f_equal. exact E.
Qed.

Lemma rstrip_last s r c : rstrip s = r ++ [c] -> is_space c = false.
Proof.
  revert r. induction s as [|x s IH]; intros r H.
  - destruct r; discriminate.
  - cbn [rstrip] in H. destruct (rstrip s) as [|y ys] eqn:Er.
    + destruct (is_space x) eqn:Hx.
      * destruct r; discriminate.
      * destruct r as [|? [|? ?]]; inversion H; subst. exact Hx.
    + destruct r as [|z r].
      * inversion H.
      * inversion H; subst. apply (IH r). assumption.
Qed.

(* ================================================================== *)
(** ** The mention form, in general *)

Lemma dot_mention c : cls_match fl_mention true [(10, 10); (13, 13)]%N c = negb (is_line_terminator c).
Proof. ascii_cases c. Qed.

Lemma name_like_match :
  forall u rs u' tail k pv X cs,
    name_pattern u = Some rs ->
    name_like u u' = true ->
    rmatch fl_mention (cat (rs ++ tail)) k {| prev := pv; rest := u' ++ X; caps := cs |}
    = rmatch fl_mention (cat tail) k {| prev := prev_after pv u'; rest := X; caps := cs |}.
Proof.
  induction u as [|c u IH]; intros rs u' tail k pv X cs Hrs Hu.
  - destruct u'; [|discriminate]. cbn in Hrs. inversion Hrs; subst. reflexivity.
  - destruct u' as [|c' u']; [discriminate|].
    cbn [name_like] in Hu. apply andb_prop in Hu. destruct Hu as [Hc Hu'].
    cbn [name_pattern] in Hrs.
    destruct (name_pattern u) as [rs0|] eqn:E0; [|discriminate].
    destruct (Ascii.eqb c "."%char) eqn:Edot.
    + inversion Hrs; subst.
      cbn [app]. rewrite rmatch_cat_cons. cbn [rmatch dot rest].
      rewrite dot_mention, Hc. unfold advance. cbn [caps].
      apply (IH rs0 u' tail k (Some c') X cs eq_refl Hu').
    + destruct (existsb (Ascii.eqb c) syntax_chars); [discriminate|].
      inversion Hrs; subst.
      cbn [app]. rewrite rmatch_cat_cons. cbn [rmatch rest].
      unfold chr_match. cbn [ignoreCase fl_mention]. rewrite Hc.
      unfold advance. cbn [caps].
      apply (IH rs0 u' tail k (Some c') X cs eq_refl Hu').
Qed.

(** What the pattern of the name passes is like the name. *)
Lemma name_like_inv :
  forall u rs tail k pv s cs x,
    name_pattern u = Some rs ->
    rmatch fl_mention (cat (rs ++ tail)) k {| prev := pv; rest := s; caps := cs |} = Some x ->
    exists u' X,
      s = u' ++ X /\ name_like u u' = true /\
      rmatch fl_mention (cat tail) k {| prev := prev_after pv u'; rest := X; caps := cs |} = Some x.
Proof.
  induction u as [|c u IH]; intros rs tail k pv s cs x Hrs H.
  - cbn in Hrs. inversion Hrs; subst. exists [], s. repeat split. exact H.
  - cbn [name_pattern] in Hrs.
    destruct (name_pattern u) as [rs0|] eqn:E0; [|discriminate].
    destruct (Ascii.eqb c "."%char) eqn:Edot.
    + inversion Hrs; subst. cbn [app] in H. rewrite rmatch_cat_cons in H.
      cbn [rmatch dot rest] in H. destruct s as [|c' t]; [discriminate|].
      rewrite dot_mention in H. destruct (negb (is_line_terminator c')) eqn:Hc; [|discriminate].
      unfold advance in H. cbn [caps] in H.
      destruct (IH rs0 tail k (Some c') t cs x eq_refl H) as (u' & X & -> & Hl & Hr).
      exists (c' :: u'), X. repeat split; [|exact Hr].
      cbn [name_like]. rewrite Edot, Hc, Hl. reflexivity.
    + destruct (existsb (Ascii.eqb c) syntax_chars); [discriminate|].
      inversion Hrs; subst. cbn [app] in H. rewrite rmatch_cat_cons in H.
      cbn [rmatch rest] in H. destruct s as [|c' t]; [discriminate|].
      unfold chr_match in H. cbn [ignoreCase fl_mention] in H.
      destruct (Ascii.eqb (canon c) (canon c')) eqn:Hc; [|discriminate].
      unfold advance in H. cbn [caps] in H.
      destruct (IH rs0 tail k (Some c') t cs x eq_refl H) as (u' & X & -> & Hl & Hr).
      exists (c' :: u'), X. repeat split; [|exact Hr].
      cbn [name_like]. rewrite Edot, Hc, Hl. reflexivity.
Qed.

Lemma mention_tail_step k pv s cs :
  rmatch fl_mention (cat mention_tail) k {| prev := pv; rest := s; caps := cs |}
  = match s with
    | sp :: t =>
        if is_space sp
        then rmatch fl_mention (cat word_tail) k {| prev := Some sp; rest := t; caps := cs |}
        else None
    | [] => None
    end.
Proof.
  change (cat mention_tail) with (cat (cls_s :: word_tail)).
  rewrite rmatch_cat_cons. cbn [rmatch cls_s rest]. destruct s as [|sp t]; [reflexivity|].
  rewrite cls_s_match. reflexivity.
Qed.

Section MentionGeneral.

Variable cfg : config.
Variable rx : regexp.
Hypothesis Hrx : mention_re cfg = Some rx.

Lemma mention_like_rmatch name X :
  name_like (username cfg) name = true ->
  rmatch (flags_of rx) (source rx) (fun st => Some st)
    {| prev := None; rest := "@"%char :: name ++ X; caps := [] |}
  = rmatch fl_mention (cat mention_tail) (fun st => Some st)
      {| prev := prev_after (Some "@"%char) name; rest := X; caps := [] |}.
Proof.
  intros Hname.
  destruct (mention_re_source cfg rx Hrx) as (rs & Hrs & ->).
  cbn [source flags_of flag_i flag_m app].
  change {| ignoreCase := true; multiline := false |} with fl_mention.
  rewrite rmatch_cat_cons. cbn [rmatch]. unfold at_bol. cbn [prev].
  rewrite rmatch_cat_cons. cbn [rmatch rest].
  change (chr_match fl_mention "@" "@") with true. cbn iota. unfold advance. cbn [caps].
  apply (name_like_match (username cfg)); assumption.
Qed.

(** A line the pattern passes: the mention, one blank, and a word of three
    characters at least. *)
Lemma mention_test_inv line :
  test rx line = true ->
  exists name sp a b c t,
    line = "@"%char :: name ++ sp :: a :: b :: c :: t /\
    name_like (username cfg) name = true /\
    is_space sp = true /\
    is_space a = false /\ is_space b = false /\ is_space c = false.
Proof.
  rewrite (mention_test_anchored cfg rx Hrx). unfold match_at.
  destruct (rmatch _ _ _ _) as [x|] eqn:H; [|discriminate]. intros _.
  destruct (mention_re_source cfg rx Hrx) as (rs & Hrs & ->).
  cbn [source flags_of flag_i flag_m app] in H.
  change {| ignoreCase := true; multiline := false |} with fl_mention in H.
  rewrite rmatch_cat_cons in H. cbn [rmatch] in H. unfold at_bol in H. cbn [prev] in H.
  rewrite rmatch_cat_cons in H. cbn [rmatch rest] in H.
  destruct line as [|c0 t0]; [discriminate|].
  unfold chr_match in H. cbn [ignoreCase fl_mention] in H.
  destruct (Ascii.eqb (canon "@") (canon c0)) eqn:E; [|discriminate].
  apply canon_at in E. subst c0. unfold advance in H. cbn [caps] in H.
  destruct (name_like_inv (username cfg) rs mention_tail _ _ _ _ _ Hrs H)
    as (name & X & -> & Hl & Hr).
  rewrite mention_tail_step in Hr. destruct X as [|sp t]; [discriminate|].
  destruct (is_space sp) eqn:Hsp; [|discriminate].
  destruct (word_tail_inv _ _ _ _ Hr) as (a & b & c & t' & Et & Ha & Hb & Hc).
  cbn [rest] in Et. subst t.
  exists name, sp, a, b, c, t'. repeat split; assumption.
Qed.

Lemma mention_like_test name sp w X :
  name_like (username cfg) name = true ->
  is_space sp = true ->
  forallb not_space w = true -> 3 <= length w ->
  stops not_space X ->
  test rx ("@"%char :: name ++ sp :: w ++ X) = true.
Proof.
  intros Hname Hsp Hw Hlen HX. rewrite (mention_test_anchored cfg rx Hrx). unfold match_at.
  rewrite mention_like_rmatch by exact Hname. rewrite mention_tail_step, Hsp.
  destruct w as [|a [|b [|c w]]]; cbn [length] in Hlen; try lia.
  destruct (word_tail_hit fl_mention (Some sp) a b c w X [] Hw HX) as (st' & ->).
  reflexivity.
Qed.

(** Two blanks after the name are no mention. *)
Lemma mention_like_two_blanks name sp sp' X :
  name_like (username cfg) name = true ->
  is_space sp' = true ->
  test rx ("@"%char :: name ++ sp :: sp' :: X) = false.
Proof.
  intros Hname Hsp'. rewrite (mention_test_anchored cfg rx Hrx). unfold match_at.
  rewrite mention_like_rmatch by exact Hname. rewrite mention_tail_step.
  destruct (is_space sp); [|reflexivity].
  destruct (rmatch _ _ _ _) as [x|] eqn:H; [|reflexivity].
  destruct (word_tail_inv _ _ _ _ H) as (a & b & c & t' & Et & Ha & _).
  cbn [rest] in Et. inversion Et; subst. congruence.
Qed.

End MentionGeneral.

(* ================================================================== *)
(** ** Lines without blanks at the end *)

Lemma rstrip_word_app w X : forallb not_space w = true -> rstrip (w ++ X) = w ++ rstrip X.
Proof.
  induction w as [|c w IH]; [reflexivity|].
  cbn [forallb app]. intros H. apply andb_prop in H. destruct H as [Hc Hw].
  unfold not_space in Hc. apply negb_true_iff in Hc.
  rewrite rstrip_cons_word by exact Hc. rewrite IH by exact Hw. reflexivity.
Qed.

Lemma rstrip_word w : forallb not_space w = true -> rstrip w = w.
Proof.
  intros H. rewrite <- (app_nil_r w) at 1. rewrite rstrip_word_app by exact H.
  apply app_nil_r.
Qed.

Lemma rstrip_blank_app B X : forallb is_space B = true -> X <> [] -> rstrip X = X ->
  rstrip (B ++ X) = B ++ X.
Proof.
  intros HB HX E. induction B as [|c B IH]; [exact E|].
  cbn [forallb] in HB. apply andb_prop in HB. destruct HB as [_ HB].
  cbn [app]. rewrite rstrip_cons; rewrite (IH HB); [reflexivity|].
  destruct B; [exact HX|discriminate].
Qed.

Lemma rstrip_spaced tail : well_spaced tail = true -> rstrip (spaced tail) = spaced tail.
Proof.
  induction tail as [|[s a] tail IH]; [reflexivity|].
  cbn [well_spaced forallb fst snd]. intros H.
  apply andb_prop in H. destruct H as [H Ht].
  apply andb_prop in H. destruct H as [Hs Ha].
  destruct (is_word_inv a Ha) as [Hne Hw].
  destruct (blank_run_inv s Hs) as (c & W & -> & Hc & HW).
  cbn [spaced flat_map fst snd]. fold (spaced tail). rewrite <- app_assoc.
  apply rstrip_blank_app.
  - cbn [forallb]. rewrite Hc, HW. reflexivity.
  - destruct a; [congruence|discriminate].
  - rewrite rstrip_word_app by exact Hw. rewrite (IH Ht). reflexivity.
Qed.

Lemma rstrip_words w tail :
  forallb not_space w = true -> well_spaced tail = true ->
  rstrip (w ++ spaced tail) = w ++ spaced tail.
Proof. intros Hw Ht. rewrite rstrip_word_app, rstrip_spaced by assumption. reflexivity. Qed.

Lemma rstrip_tail c s : rstrip (c :: s) = c :: s -> rstrip s = s.
Proof.
  cbn [rstrip]. destruct (rstrip s) as [|r rs] eqn:E.
  - destruct (is_space c); intros H; inversion H; reflexivity.
  - intros H. inversion H. reflexivity.
Qed.

Lemma rstrip_suffix P R : rstrip (P ++ R) = P ++ R -> rstrip R = R.
Proof.
  induction P as [|c P IH]; [auto|]. cbn [app]. intros H. apply IH, (rstrip_tail c), H.
Qed.

Lemma rstrip_not_blank c : is_space c = true -> rstrip [c] <> [c].
Proof. intros H. cbn [rstrip]. rewrite H. discriminate. Qed.

(** A text without blanks at its end is a word, maybe empty, and words
    after runs of blanks. *)
Lemma words_of s :
  rstrip s = s ->
  exists w tail, s = w ++ spaced tail /\ forallb not_space w = true /\ well_spaced tail = true.
Proof.
  induction s as [|c s IH]; intros H.
  - exists [], []. repeat split.
  - destruct (IH (rstrip_tail c s H)) as (w & tail & -> & Hw & Ht).
    destruct (is_space c) eqn:Hc.
    + destruct w as [|x w].
      * destruct tail as [|[s1 a1] tail].
        -- exfalso. exact (rstrip_not_blank c Hc H).
        -- exists [], ((c :: s1, a1) :: tail). repeat split.
           unfold well_spaced in *. cbn [forallb fst snd] in *.
           apply andb_prop in Ht. destruct Ht as [Ht1 Ht].
           apply andb_prop in Ht1. destruct Ht1 as [Hs1 Ha1].
           rewrite Ht, Ha1. cbn [blank_run forallb]. rewrite Hc.
           destruct s1; [discriminate|]. cbn [blank_run] in Hs1. rewrite Hs1. reflexivity.
      * exists [], (([c], x :: w) :: tail). repeat split.
        unfold well_spaced in *. cbn [forallb fst snd blank_run is_word] in *.
        rewrite Hc, Ht. cbn [forallb] in Hw. rewrite Hw. reflexivity.
    + exists (c :: w), tail. repeat split; [|exact Ht].
      cbn [forallb]. unfold not_space at 1. rewrite Hc, Hw. reflexivity.
Qed.

(** The same, for a text that starts with three characters that are no
    blanks: the first word has them. *)
Lemma words_of3 a b c t :
  is_space a = false -> is_space b = false -> is_space c = false ->
  rstrip (a :: b :: c :: t) = a :: b :: c :: t ->
  exists w tail,
    a :: b :: c :: t = w ++ spaced tail /\
    forallb not_space w = true /\ 3 <= length w /\ well_spaced tail = true.
Proof.
  intros Ha Hb Hc H.
  destruct (words_of t (rstrip_tail _ _ (rstrip_tail _ _ (rstrip_tail _ _ H))))
    as (w & tail & -> & Hw & Ht).
  exists (a :: b :: c :: w), tail. repeat split; [|cbn [length]; lia|exact Ht].
  cbn [forallb]. unfold not_space at 1 2 3. rewrite Ha, Hb, Hc, Hw. reflexivity.
Qed.

(* ================================================================== *)
(** ** Joined words *)

Lemma join_cons (sep x : jsstring) y l : join sep (x :: y :: l) = x ++ sep ++ join sep (y :: l).
Proof. reflexivity. Qed.

Lemma join_single_spaced x l :
  join [" "%char] (x :: l) = x ++ spaced (single_spaced l).
Proof.
  revert x. induction l as [|y l IH]; intros x.
  - cbn. rewrite app_nil_r. reflexivity.
  - rewrite join_cons, IH. reflexivity.
Qed.

Lemma single_spaced_well l : forallb is_word l = true -> well_spaced (single_spaced l) = true.
Proof.
  induction l as [|a l IH]; [reflexivity|].
  cbn [forallb single_spaced map well_spaced fst snd]. intros H.
  apply andb_prop in H. destruct H as [Ha Hl]. rewrite Ha. cbn [blank_run forallb andb].
  apply (IH Hl).
Qed.

Lemma single_spaced_snd l : map snd (single_spaced l) = l.
Proof. unfold single_spaced. rewrite map_map. cbn [snd]. apply map_id. Qed.

Lemma well_spaced_words tail : well_spaced tail = true -> forallb is_word (map snd tail) = true.
Proof.
  induction tail as [|[s a] tail IH]; [reflexivity|].
  cbn [well_spaced forallb fst snd map]. intros H.
  apply andb_prop in H. destruct H as [H Ht]. apply andb_prop in H. destruct H as [_ Ha].
  rewrite Ha. apply (IH Ht).
Qed.

(** The input of a command of the mention form: the blank after the word
    goes when there is no argument. *)
Lemma mention_input w l :
  forallb not_space w = true -> forallb is_word l = true ->
  replace trailing_spaces_re empty_replacement
    (str "!" ++ w ++ str " " ++ join (str " ") l)
  = join (str " ") (("!"%char :: w) :: l).
Proof.
  intros Hw Hl. rewrite replace_trailing.
  change (str "!" ++ w ++ str " " ++ join (str " ") l)
    with (("!"%char :: w) ++ " "%char :: join [" "%char] l).
  change (str " ") with [" "%char].
  rewrite rstrip_word_app by (cbn [forallb]; rewrite Hw; reflexivity).
  destruct l as [|a l].
  - cbn. rewrite app_nil_r. reflexivity.
  - rewrite join_cons. f_equal.
    change (" "%char :: join [" "%char] (a :: l)) with ([" "%char] ++ join [" "%char] (a :: l)).
    f_equal. rewrite join_single_spaced.
    cbn [forallb] in Hl. apply andb_prop in Hl. destruct Hl as [Ha Hl].
    destruct (is_word_inv a Ha) as [Hne Hwa].
    assert (E : rstrip (a ++ spaced (single_spaced l)) = a ++ spaced (single_spaced l))
      by (apply rstrip_words; [exact Hwa|apply single_spaced_well, Hl]).
    change (rstrip ([" "%char] ++ a ++ spaced (single_spaced l))
            = [" "%char] ++ a ++ spaced (single_spaced l)).
    apply rstrip_blank_app; [reflexivity| |exact E].
    destruct a; [congruence|discriminate].
Qed.

Lemma lower_lower c : lower (lower c) = lower c.
Proof. ascii_cases c. Qed.

Lemma toLowerCase_idem s : toLowerCase (toLowerCase s) = toLowerCase s.
Proof.
  unfold toLowerCase. rewrite map_map. apply map_ext. intros c. apply lower_lower.
Qed.

Lemma lower_word w : is_word w = true -> is_word (toLowerCase w) = true.
Proof.
  intros H. destruct (is_word_inv w H) as [Hne Hw].
  destruct w as [|c w]; [congruence|].
  exact (lower_not_space (c :: w) Hw).
Qed.

(* ================================================================== *)
(** ** Commands, in general *)

Section MentionWords.

Variable cfg : config.
Variable rx : regexp.
Hypothesis Hrx : mention_re cfg = Some rx.

Lemma mention_words name sp w tail :
  name_like (username cfg) name = true ->
  forallb not_space name = true ->
  is_space sp = true ->
  forallb not_space w = true -> 3 <= length w ->
  well_spaced tail = true ->
  parseMentionCommand (Some rx) ("@"%char :: name ++ sp :: w ++ spaced tail)
  = Ret (Some {| input := join (str " ") (("!"%char :: toLowerCase w) :: map snd tail);
                 command := toLowerCase w;
                 args := map snd tail;
                 mention := Some ("@"%char :: name);
                 post := None |}).
Proof.
  intros Hname Hns Hsp Hw Hlen Ht. unfold parseMentionCommand.
  assert (HX : stops not_space (spaced tail)).
  { rewrite <- (app_nil_r (spaced tail)). apply well_spaced_stops; [exact Ht|exact I]. }
  rewrite (mention_like_test cfg rx Hrx name sp w (spaced tail) Hname Hsp Hw Hlen HX).
  cbn [negb]. rewrite split_spaces. unfold pieces.
  change ("@"%char :: name ++ sp :: w ++ spaced tail)
    with (("@"%char :: name) ++ [sp] ++ w ++ spaced tail).
  rewrite pieces_from_word0 by (cbn [forallb]; rewrite Hns; reflexivity).
  rewrite pieces_from_run by (cbn [blank_run forallb]; rewrite Hsp; reflexivity).
  rewrite pieces_from_word by (assumption || (destruct w; [cbn in Hlen; lia|discriminate])).
  rewrite pieces_spaced by exact Ht.
  rewrite !app_nil_r, !rev_involutive.
  rewrite mention_input; [reflexivity| apply lower_not_space, Hw | apply well_spaced_words, Ht].
Qed.

Lemma mention_two_blanks name sp sp' X :
  name_like (username cfg) name = true ->
  is_space sp' = true ->
  parseMentionCommand (Some rx) ("@"%char :: name ++ sp :: sp' :: X) = Ret None.
Proof.
  intros Hname Hsp'. unfold parseMentionCommand.
  rewrite (mention_like_two_blanks cfg rx Hrx name sp sp' X Hname Hsp'). reflexivity.
Qed.

(** The mention form never fails on a line the pattern passes: the line has
    a blank, and so two pieces at least. *)
Lemma mention_returns line : exists r, parseMentionCommand (Some rx) line = Ret r.
Proof.
  unfold parseMentionCommand. destruct (test rx line) eqn:Ht; cbn [negb]; [|eauto].
  destruct (mention_test_inv cfg rx Hrx line Ht) as (name & sp & a & b & c & t & -> & _ & Hsp & _).
  rewrite split_spaces. unfold pieces.
  assert (H2 : 2 <= length (pieces_from [] false ("@"%char :: name ++ sp :: a :: b :: c :: t))).
  { apply pieces_from_two. cbn [existsb]. rewrite existsb_app. cbn [existsb].
    rewrite Hsp. rewrite orb_true_r. apply orb_true_r. }
  destruct (pieces_from _ _ _) as [|m [|cmd l]]; cbn [length] in H2; try lia.
  eauto.
Qed.

End MentionWords.

Lemma short_returns line : exists r, parseShortCommand line = Ret r.
Proof.
  unfold parseShortCommand. destruct (test short_re line) eqn:Ht; cbn [negb]; [|eauto].
  destruct (short_re_inv line Ht) as (a & b & c & t & -> & _).
  destruct (split_nonempty spaces_re ("!"%char :: a :: b :: c :: t)) as [H|H]; [|discriminate].
  destruct (split spaces_re _); [congruence|eauto].
Qed.

Lemma parse_line_returns cfg rx line :
  mention_re cfg = Some rx -> exists r, parse_line (Some rx) line = Ret r.
Proof.
  intros Hrx. unfold parse_line.
  assert (Hs := short_returns line). assert (Hm := mention_returns cfg rx Hrx line).
  destruct line as [|c t]; [exact Hm|].
  destruct c as [[] [] [] [] [] [] [] []]; assumption.
Qed.

Lemma map_outcome_returns (A B : Type) (f : A -> outcome B) l :
  (forall x, exists y, f x = Ret y) -> exists ys, map_outcome f l = Ret ys /\ length ys = length l.
Proof.
  intros Hf. induction l as [|x l (ys & E & Hl)]; [exists []; split; reflexivity|].
  destruct (Hf x) as (y & Ey). exists (y :: ys). cbn [map_outcome]. rewrite Ey, E.
  split; [reflexivity|]. cbn [length]. rewrite Hl. reflexivity.
Qed.

Lemma map_outcome_In (A B : Type) (f : A -> outcome B) l ys y :
  map_outcome f l = Ret ys -> In y ys -> exists x, In x l /\ f x = Ret y.
Proof.
  revert ys. induction l as [|x l IH]; intros ys; cbn [map_outcome].
  - intros H. inversion H. intros [].
  - destruct (f x) as [y0|] eqn:E; [|discriminate].
    destruct (map_outcome f l) as [ys0|]; [|discriminate].
    intros H. inversion H; subst. intros [->|Hy].
    + exists x. split; [left; reflexivity|exact E].
    + destruct (IH ys0 eq_refl Hy) as (x' & Hx' & Ex'). exists x'. split; [right|]; assumption.
Qed.

Lemma filter_some_In (A : Type) (l : list (option A)) x : In x (filter_some l) -> In (Some x) l.
Proof.
  induction l as [|[y|] l IH]; cbn [filter_some]; [intros []| |].
  - intros [->|H]; [left; reflexivity|right; apply IH, H].
  - intros H. right. apply IH, H.
Qed.

Lemma filter_some_length (A : Type) (l : list (option A)) : length (filter_some l) <= length l.
Proof. induction l as [|[y|] l IH]; cbn [filter_some length]; lia. Qed.

Lemma name_like_not_space u :
  forall name, forallb name_char u = true -> name_like u name = true ->
    forallb not_space name = true.
Proof.
  induction u as [|c u IH]; intros [|c' name] Hu Hl; try discriminate; [reflexivity|].
  cbn [forallb] in Hu. apply andb_prop in Hu. destruct Hu as [Hc Hu].
  cbn [name_like] in Hl. apply andb_prop in Hl. destruct Hl as [Hcc Hl].
  unfold name_char in Hc. apply andb_prop in Hc. destruct Hc as [Hns Hdot].
  apply negb_true_iff in Hdot. rewrite Hdot in Hcc. apply Ascii.eqb_eq in Hcc.
  cbn [forallb]. rewrite (IH name Hu Hl), andb_true_r.
  unfold not_space in *. rewrite <- space_canon, <- Hcc, space_canon. exact Hns.
Qed.

Lemma rstrip_idem s : rstrip (rstrip s) = rstrip s.
Proof.
  induction s as [|c s IH]; [reflexivity|].
  cbn [rstrip]. destruct (rstrip s) as [|r rs] eqn:E.
  - destruct (is_space c) eqn:Hc; [reflexivity|]. cbn [rstrip]. rewrite Hc. reflexivity.
  - rewrite rstrip_cons; rewrite IH; [reflexivity|discriminate].
Qed.

Lemma short_form_of line c :
  rstrip line = line ->
  parseShortCommand line = Ret (Some c) ->
  exists w tail,
    line = "!"%char :: w ++ spaced tail /\
    forallb not_space w = true /\ 3 <= length w /\ well_spaced tail = true /\
    c = {| input := line; command := toLowerCase w; args := map snd tail;
           mention := None; post := None |}.
Proof.
  intros Hr H.
  assert (Ht : test short_re line = true).
  { unfold parseShortCommand in H. destruct (test short_re line); [reflexivity|discriminate]. }
  destruct (short_re_inv line Ht) as (a & b & x & t & -> & Ha & Hb & Hx).
  destruct (words_of3 a b x t Ha Hb Hx (rstrip_tail _ _ Hr)) as (w & tail & E & Hw & Hlen & Hwt).
  rewrite E in H. rewrite (short_words w tail Hw Hlen Hwt) in H.
  inversion H; subst. exists w, tail. rewrite E. repeat split; assumption.
Qed.

Lemma mention_form_of cfg rx line c :
  mention_re cfg = Some rx ->
  forallb name_char (username cfg) = true ->
  rstrip line = line ->
  parseMentionCommand (Some rx) line = Ret (Some c) ->
  exists name sp w tail,
    line = "@"%char :: name ++ sp :: w ++ spaced tail /\
    name_like (username cfg) name = true /\ forallb not_space name = true /\
    is_space sp = true /\
    forallb not_space w = true /\ 3 <= length w /\ well_spaced tail = true /\
    c = {| input := join (str " ") (("!"%char :: toLowerCase w) :: map snd tail);
           command := toLowerCase w; args := map snd tail;
           mention := Some ("@"%char :: name); post := None |}.
Proof.
  intros Hrx Hu Hr H.
  assert (Ht : test rx line = true).
  { unfold parseMentionCommand in H. destruct (test rx line); [reflexivity|discriminate]. }
  destruct (mention_test_inv cfg rx Hrx line Ht)
    as (name & sp & a & b & x & t & -> & Hl & Hsp & Ha & Hb & Hx).
  assert (Hns := name_like_not_space _ _ Hu Hl).
  assert (Hr' : rstrip (a :: b :: x :: t) = a :: b :: x :: t).
  { apply (rstrip_suffix ("@"%char :: name ++ [sp])).
    cbn [app]. rewrite <- app_assoc. exact Hr. }
  destruct (words_of3 a b x t Ha Hb Hx Hr') as (w & tail & E & Hw & Hlen & Hwt).
  rewrite E in H. rewrite (mention_words cfg rx Hrx name sp w tail Hl Hns Hsp Hw Hlen Hwt) in H.
  inversion H; subst. exists name, sp, w, tail. rewrite E. repeat split; assumption.
Qed.

(** What holds of the command of a line of either form. *)
Lemma parse_line_well_formed cfg rx line c :
  mention_re cfg = Some rx ->
  forallb name_char (username cfg) = true ->
  rstrip line = line ->
  parse_line (Some rx) line = Ret (Some c) ->
  is_word (command c) = true /\ 3 <= length (command c) /\
  toLowerCase (command c) = command c /\
  forallb is_word (args c) = true /\
  parseShortCommand (input c) = Ret (Some (short_form c)).
Proof.
  intros Hrx Hu Hr H.
  assert (Hform :
    exists w tail, forallb not_space w = true /\ 3 <= length w /\ well_spaced tail = true /\
      command c = toLowerCase w /\ args c = map snd tail /\
      (input c = "!"%char :: w ++ spaced tail \/
       input c = join (str " ") (("!"%char :: toLowerCase w) :: map snd tail))).
  { unfold parse_line in H.
    assert (Hs : parseShortCommand line = Ret (Some c) -> exists w tail,
      forallb not_space w = true /\ 3 <= length w /\ well_spaced tail = true /\
      command c = toLowerCase w /\ args c = map snd tail /\
      (input c = "!"%char :: w ++ spaced tail \/
       input c = join (str " ") (("!"%char :: toLowerCase w) :: map snd tail))).
    { intros Hs. destruct (short_form_of line c Hr Hs) as (w & tail & E & Hw & Hlen & Ht & ->).
      exists w, tail. cbn [command args input]. repeat split; try assumption. left. exact E. }
    assert (Hm : parseMentionCommand (Some rx) line = Ret (Some c) -> exists w tail,
      forallb not_space w = true /\ 3 <= length w /\ well_spaced tail = true /\
      command c = toLowerCase w /\ args c = map snd tail /\
      (input c = "!"%char :: w ++ spaced tail \/
       input c = join (str " ") (("!"%char :: toLowerCase w) :: map snd tail))).
    { intros Hm. destruct (mention_form_of cfg rx line c Hrx Hu Hr Hm)
        as (name & sp & w & tail & E & _ & _ & _ & Hw & Hlen & Ht & ->).
      exists w, tail. cbn [command args input]. repeat split; try assumption. right. reflexivity. }
    destruct line as [|x t]; [exact (Hm H)|].
    destruct x as [[] [] [] [] [] [] [] []]; (exact (Hm H) || exact (Hs H)). }
  destruct Hform as (w & tail & Hw & Hlen & Ht & Ec & Ea & Ei).
  assert (Hlw : forallb not_space (toLowerCase w) = true) by (apply lower_not_space, Hw).
  assert (Hll : 3 <= length (toLowerCase w)) by (rewrite toLowerCase_length; exact Hlen).
  rewrite Ec, Ea. repeat split.
  - destruct (toLowerCase w) eqn:E; [cbn in Hll; lia|exact Hlw].
  - exact Hll.
  - apply toLowerCase_idem.
  - apply well_spaced_words, Ht.
  - unfold short_form. rewrite Ec, Ea. destruct Ei as [-> | ->].
    + rewrite (short_words w tail Hw Hlen Ht). reflexivity.
    + rewrite join_single_spaced. cbn [app].
      rewrite (short_words (toLowerCase w) (single_spaced (map snd tail)) Hlw Hll).
      * rewrite single_spaced_snd, toLowerCase_idem. reflexivity.
      * apply single_spaced_well, well_spaced_words, Ht.
Qed.

(* ================================================================== *)
(** * Further properties of the command parser *)

(** X1. The short form in general: an exclamation mark, a word of three
    characters or more and any number of further words, each after a run of
    one or more blanks, is the command of the first word in lower case with
    the other words as arguments, in order; the input is the line. Called
    on a line that ends in blanks, [parseShortCommand] gives one more
    argument, the empty string. *)
Theorem short_command_words (w : jsstring) (tail : list (jsstring * jsstring)) (B : jsstring) :
  forallb not_space w = true -> 3 <= length w ->
  well_spaced tail = true -> blank_run B = true ->
  parseShortCommand ("!"%char :: w ++ spaced tail)
  = Ret (Some {| input := "!"%char :: w ++ spaced tail;
                 command := toLowerCase w;
                 args := map snd tail;
                 mention := None;
                 post := None |}) /\
  parseShortCommand ("!"%char :: w ++ spaced tail ++ B)
  = Ret (Some {| input := "!"%char :: w ++ spaced tail ++ B;
                 command := toLowerCase w;
                 args := map snd tail ++ [[]];
                 mention := None;
                 post := None |}).
Proof.
  intros Hw Hlen Ht HB. split.
  - apply short_words; assumption.
  - apply short_words_blank; assumption.
Qed.

Lemma short_command_words_witness :
  parseShortCommand (str "!Roll 2d6  now")
  = Ret (Some {| input := str "!Roll 2d6  now"; command := str "roll";
                 args := [str "2d6"; str "now"]; mention := None; post := None |}) /\
  parseShortCommand (str "!Roll 2d6  now ")
  = Ret (Some {| input := str "!Roll 2d6  now "; command := str "roll";
                 args := [str "2d6"; str "now"; []]; mention := None; post := None |}).
Proof.
  exact (short_command_words (str "Roll") [(str " ", str "2d6"); (str "  ", str "now")] (str " ")
           eq_refl (le_S _ _ (le_n 3)) eq_refl eq_refl).
Defined.

(** X2. The mention form in general: the name as the pattern of the
    configured name passes it (either letter case; any character for a dot
    of the configured name), one blank, a word of three characters or more
    and any number of further words after runs of blanks. The command is
    the word in lower case, the arguments are the further words, the
    mention is the name as written, and the input is the short form of the
    command: the words joined by single blanks, without a blank at the end
    when there is no argument. A second blank after the name makes the line
    no command. *)
Theorem mention_command_words (cfg : config) (rx : regexp) (name : jsstring) (sp : ascii)
    (w : jsstring) (tail : list (jsstring * jsstring)) :
  mention_re cfg = Some rx ->
  name_like (username cfg) name = true ->
  forallb not_space name = true ->
  is_space sp = true ->
  forallb not_space w = true -> 3 <= length w ->
  well_spaced tail = true ->
  parseMentionCommand (Some rx) ("@"%char :: name ++ sp :: w ++ spaced tail)
  = Ret (Some {| input := join (str " ") (("!"%char :: toLowerCase w) :: map snd tail);
                 command := toLowerCase w;
                 args := map snd tail;
                 mention := Some ("@"%char :: name);
                 post := None |}) /\
  (forall sp' X, is_space sp' = true ->
     parseMentionCommand (Some rx) ("@"%char :: name ++ sp :: sp' :: X) = Ret None).
Proof.
  intros Hrx Hname Hns Hsp Hw Hlen Ht. split.
  - apply (mention_words cfg); assumption.
  - intros sp' X Hsp'. apply (mention_two_blanks cfg); assumption.
Qed.

Lemma mention_command_words_witness :
  parseMentionCommand (Some dotted_mention) (str "@John-Doe Help me   please")
  = Ret (Some {| input := str "!help me please"; command := str "help";
                 args := [str "me"; str "please"];
                 mention := Some (str "@John-Doe"); post := None |}) /\
  parseMentionCommand (Some dotted_mention) (str "@John-Doe  Help") = Ret None.
Proof.
  destruct (mention_command_words dotted_config dotted_mention (str "John-Doe") " "%char
              (str "Help") [(str " ", str "me"); (str "   ", str "please")]
              eq_refl eq_refl eq_refl eq_refl eq_refl (le_S _ _ (le_n 3)) eq_refl) as [H1 H2].
  split; [exact H1|]. exact (H2 " "%char (str "Help") eq_refl).
Defined.

(** A mention without argument: the input has no blank at its end. *)
Example mention_without_argument :
  parseMentionCommand (Some example_mention) (str "@BotName help")
  = Ret (Some {| input := str "!help"; command := str "help"; args := [];
                 mention := Some (str "@BotName"); post := None |}).
Proof. vm_compute. reflexivity. Qed.

(** X3. The commands that [parseCommands] hands to its callback, for a
    configured name without blank and without dot: the command is a word of
    three characters or more, in lower case; every argument is a word (not
    empty, no blank in it); and the input of the command, parsed as a short
    form line, gives the same command and arguments. *)
Theorem parsed_commands_well_formed (cfg : config) (rx : regexp) (p : Post)
    (effects : list parse_effect) :
  mention_re cfg = Some rx ->
  forallb name_char (username cfg) = true ->
  parseCommands (Some rx) (Some p) Function = Ret effects ->
  forall e cs c, In (Callback e cs) effects -> In c cs ->
    is_word (command c) = true /\ 3 <= length (command c) /\
    toLowerCase (command c) = command c /\
    forallb is_word (args c) = true /\
    parseShortCommand (input c) = Ret (Some (short_form c)).
Proof.
  intros Hrx Hu H e cs c He Hc. unfold parseCommands in H.
  destruct (negb (truthy (raw p))).
  - inversion H; subst. destruct He as [He|[]]. inversion He; subst. destruct Hc.
  - destruct (map_outcome _ _) as [parsed|] eqn:E; [|discriminate].
    inversion H; subst. apply in_app_or in He. destruct He as [He|[He|[]]].
    + apply in_map_iff in He. destruct He as (x & Hx & _). discriminate.
    + inversion He; subst.
      apply filter_some_In in Hc.
      destruct (map_outcome_In _ _ _ _ _ _ E Hc) as (line & Hl & Hp).
      apply in_map_iff in Hl. destruct Hl as (l0 & <- & _).
      apply (parse_line_well_formed cfg rx
               (replace trailing_spaces_re empty_replacement l0) c Hrx Hu); [|exact Hp].
      rewrite replace_trailing. apply rstrip_idem.
Qed.

Lemma parsed_commands_well_formed_witness :
  parseShortCommand (str "!help me")
  = Ret (Some {| input := str "!help me"; command := str "help"; args := [str "me"];
                 mention := None; post := None |}).
Proof.
  exact (proj2 (proj2 (proj2 (proj2
    (parsed_commands_well_formed example_config example_mention
       (post_of (str "@BotName Help  me "))
       [SetImmediate {| input := str "!help me"; command := str "help"; args := [str "me"];
                        mention := Some (str "@BotName"); post := None |}
                     (post_of (str "@BotName Help  me "));
        Callback None [{| input := str "!help me"; command := str "help"; args := [str "me"];
                          mention := Some (str "@BotName"); post := None |}]]
       eq_refl eq_refl eq_refl
       None
       [{| input := str "!help me"; command := str "help"; args := [str "me"];
           mention := Some (str "@BotName"); post := None |}]
       {| input := str "!help me"; command := str "help"; args := [str "me"];
          mention := Some (str "@BotName"); post := None |}
       (or_intror (or_introl eq_refl)) (or_introl eq_refl)))))).
Defined.

Lemma map_outcome_Forall2 (A B : Type) (f : A -> outcome B) l ys :
  map_outcome f l = Ret ys -> Forall2 (fun x y => f x = Ret y) l ys.
Proof.
  revert ys. induction l as [|x l IH]; intros ys; cbn [map_outcome].
  - intros H. injection H as <-. constructor.
  - destruct (f x) as [y|] eqn:E; [|discriminate].
    destruct (map_outcome f l) as [ys0|]; [|discriminate].
    intros H. injection H as <-. constructor; [exact E | apply IH; reflexivity].
Qed.

Lemma Forall2_map_l (A B C : Type) (g : A -> B) (R : B -> C -> Prop) l ys :
  Forall2 R (map g l) ys -> Forall2 (fun x y => R (g x) y) l ys.
Proof.
  revert ys. induction l as [|x l IH]; intros ys H; inversion H; subst; constructor; auto.
Qed.

Lemma filter_some_flat_map (A : Type) (l : list (option A)) :
  filter_some l = flat_map (fun r => match r with Some c => [c] | None => [] end) l.
Proof.
  induction l as [|[x|] l IH]; cbn [filter_some flat_map app]; [reflexivity| |exact IH].
  rewrite IH. reflexivity.
Qed.

Lemma parse_line_empty cfg rx :
  mention_re cfg = Some rx -> parse_line (Some rx) [] = Ret None.
Proof.
  intros Hrx. cbn [parse_line]. unfold parseMentionCommand.
  destruct (test rx []) eqn:Ht; [|reflexivity].
  destruct (mention_re_inv cfg rx [] Hrx Ht) as (t & E). discriminate E.
Qed.

(** X4. With the parser prepared, [parseCommands] returns for every post
    and every text: no line makes it throw. Each line, its blanks at the end
    taken off, is parsed to a command or to none; the commands are those of
    the lines that have one, in the order of the lines. For each of them one
    dispatch is deferred, in this order, and then the callback is called,
    once, without error and with the commands; there are no more commands
    than lines. *)
Theorem parse_commands_returns (cfg : config) (rx : regexp) (post' : option Post) :
  mention_re cfg = Some rx ->
  exists results cs,
    Forall2 (fun line r =>
               parse_line (Some rx) (replace trailing_spaces_re empty_replacement line) = Ret r)
            (lines_of post') results /\
    cs = flat_map (fun r => match r with Some c => [c] | None => [] end) results /\
    parseCommands (Some rx) post' Function = Ret (deferred post' cs ++ [Callback None cs]) /\
    length cs <= length (lines_of post').
Proof.
  intros Hrx. unfold parseCommands, lines_of, deferred.
  destruct post' as [p|]; [|exists [], []; repeat split; [constructor|cbn; lia]].
  destruct (raw p) as [text|] eqn:Eraw; cbn [truthy negb].
  2:{ exists [], []. repeat split; [constructor|cbn; lia]. }
  destruct text as [|x text]; cbn [negb].
  - exists [None], []. split.
    + change (split_char LF []) with [@nil ascii]. constructor; [|constructor].
      rewrite replace_trailing. exact (parse_line_empty cfg rx Hrx).
    + repeat split. cbn. lia.
  - destruct (map_outcome_returns _ _ (parse_line (Some rx))
                (map (replace trailing_spaces_re empty_replacement)
                     (split_char LF (x :: text)))
                (fun line => parse_line_returns cfg rx line Hrx)) as (ys & E & Hl).
    rewrite E. exists ys, (filter_some ys).
    split.
    { apply (Forall2_map_l _ _ _ (replace trailing_spaces_re empty_replacement)
               (fun line r => parse_line (Some rx) line = Ret r)).
      apply map_outcome_Forall2, E. }
    split; [apply filter_some_flat_map|]. split; [reflexivity|].
    rewrite length_map in Hl.
    pose proof (filter_some_length _ ys). lia.
Qed.

Lemma parse_commands_returns_witness :
  exists results cs,
    Forall2 (fun line r =>
               parse_line (Some example_mention)
                 (replace trailing_spaces_re empty_replacement line) = Ret r)
            [str "hello"; str "!help"; str "@botname x"] results /\
    cs = flat_map (fun r => match r with Some c => [c] | None => [] end) results /\
    parseCommands (Some example_mention)
      (Some (post_of (str "hello" ++ [LF] ++ str "!help" ++ [LF] ++ str "@botname x")))
      Function
    = Ret (deferred (Some (post_of (str "hello" ++ [LF] ++ str "!help" ++ [LF] ++ str "@botname x")))
             cs ++ [Callback None cs]) /\
    length cs <= 3.
Proof.
  exact (parse_commands_returns example_config example_mention
           (Some (post_of (str "hello" ++ [LF] ++ str "!help" ++ [LF] ++ str "@botname x")))
           eq_refl).
Defined.

(** The commands of three lines, the first of which is none. *)
Example commands_in_line_order :
  parseCommands (Some example_mention)
    (Some (post_of (str "hello" ++ [LF] ++ str "!help me" ++ [LF] ++ str "@botname say x")))
    Function
  = Ret (map (fun c => SetImmediate c
                         (post_of (str "hello" ++ [LF] ++ str "!help me" ++ [LF] ++
                                   str "@botname say x")))
             [{| input := str "!help me"; command := str "help"; args := [str "me"];
                 mention := None; post := None |};
              {| input := str "!say x"; command := str "say"; args := [str "x"];
                 mention := Some (str "@botname"); post := None |}]
         ++ [Callback None
               [{| input := str "!help me"; command := str "help"; args := [str "me"];
                   mention := None; post := None |};
                {| input := str "!say x"; command := str "say"; args := [str "x"];
                   mention := Some (str "@botname"); post := None |}]]).
Proof. vm_compute. reflexivity. Qed.

Lemma split_char_first sep :
  forall s cur, exists ext ls, split_char_from sep cur s = (rev cur ++ ext) :: ls.
Proof.
  induction s as [|c s IH]; intros cur; cbn [split_char_from].
  - exists [], []. rewrite app_nil_r. reflexivity.
  - destruct (Ascii.eqb c sep).
    + exists [], (split_char_from sep [] s). rewrite app_nil_r. reflexivity.
    + destruct (IH (c :: cur)) as (ext & ls & E). exists (c :: ext), ls.
      rewrite E. cbn [rev]. rewrite <- app_assoc. reflexivity.
Qed.

Lemma rstrip_head c l : rstrip (c :: l) = [] \/ exists r, rstrip (c :: l) = c :: r.
Proof.
  cbn [rstrip]. destruct (rstrip l) as [|x r].
  - destruct (is_space c); [left; reflexivity|right; exists []; reflexivity].
  - right. exists (x :: r). reflexivity.
Qed.

Lemma parse_line_unprepared line :
  (line = [] \/ exists c t, line = c :: t /\ c <> "!"%char) ->
  parse_line None line = Throw TypeError_null.
Proof.
  intros [->|(c & t & -> & Hc)]; [reflexivity|].
  unfold parse_line. destruct c as [[] [] [] [] [] [] [] []]; try reflexivity. congruence.
Qed.

(** X5. Before [prepareParser] has set the pattern of the mention,
    [parseCommands] throws a type error on every post whose text does not
    start with an exclamation mark: its first line goes to the mention form,
    which reads the pattern. *)
Theorem parse_commands_unprepared (p : Post) (c : ascii) (t : jsstring) :
  raw p = Some (c :: t) -> c <> "!"%char ->
  parseCommands None (Some p) Function = Throw TypeError_null.
Proof.
  intros Hraw Hc. unfold parseCommands. rewrite Hraw. cbn [truthy negb].
  unfold split_char. cbn [split_char_from rev].
  match goal with
  | |- context [map (replace trailing_spaces_re empty_replacement) ?L] =>
      assert (Hfirst : exists l ls, L = l :: ls /\ (l = [] \/ exists l', l = c :: l'))
  end.
  { destruct (Ascii.eqb c LF).
    - exists [], (split_char_from LF [] t). split; [reflexivity|left; reflexivity].
    - destruct (split_char_first LF t [c]) as (ext & ls & E). rewrite E.
      exists (rev [c] ++ ext), ls. split; [reflexivity|right]. exists ext. reflexivity. }
  destruct Hfirst as (l & ls & -> & Hl). cbn [map map_outcome rev app].
  rewrite replace_trailing.
  rewrite parse_line_unprepared; [reflexivity|].
  destruct Hl as [->|(l' & ->)]; [left; reflexivity|].
  destruct (rstrip_head c l') as [->|(r & ->)]; [left; reflexivity|right].
  exists c, r. split; [reflexivity|exact Hc].
Qed.

Lemma parse_commands_unprepared_witness :
  parseCommands None (Some (post_of (str "hello !help"))) Function = Throw TypeError_null.
Proof.
  apply (parse_commands_unprepared (post_of (str "hello !help")) "h"%char (str "ello !help") eq_refl).
  discriminate.
Defined.

(** A first line of the short form is parsed without the pattern. *)
Example unprepared_short_form :
  exists effects,
    parseCommands None (Some (post_of (str "!help"))) Function = Ret effects.
Proof. eexists. vm_compute. reflexivity. Qed.

(** X6. The replacement that [parseCommands] applies to each line, and
    [parseMentionCommand] to the input it builds, takes the blanks at the end
    of the text away and nothing else: the text is the result followed by
    blanks only, and the result does not end in a blank. *)
Theorem trailing_blanks_stripped (s : jsstring) :
  exists B,
    s = replace trailing_spaces_re empty_replacement s ++ B /\
    forallb is_space B = true /\
    (forall r c, replace trailing_spaces_re empty_replacement s = r ++ [c] ->
       is_space c = false).
Proof.
  rewrite replace_trailing. destruct (rstrip_spec s) as (B & E & HB).
  exists B. split; [exact E|]. split; [exact HB|]. intros r c. apply rstrip_last.
Qed.

(** X7. A line is a command only when its first character is the
    exclamation mark, and then it is of the short form, without mention, or
    the at sign, and then it is of the mention form: a command after other
    text, or after blanks, is none. *)
Theorem commands_start_lines (cfg : config) (rx : regexp) (line : jsstring) (c : ParsedCommand) :
  mention_re cfg = Some rx ->
  parse_line (Some rx) line = Ret (Some c) ->
  exists t,
    (line = "!"%char :: t /\ mention c = None) \/
    (line = "@"%char :: t /\ truthy (mention c) = true).
Proof.
  intros Hrx H. unfold parse_line in H.
  assert (Hs : parseShortCommand line = Ret (Some c) ->
               exists t, (line = "!"%char :: t /\ mention c = None) \/
                         (line = "@"%char :: t /\ truthy (mention c) = true)).
  { intros Hs. destruct (short_command_length line c Hs) as (_ & Hm & _).
    assert (Ht : test short_re line = true).
    { unfold parseShortCommand in Hs. destruct (test short_re line); [reflexivity|discriminate]. }
    destruct (short_re_inv line Ht) as (a & b & x & t & -> & _).
    exists (a :: b :: x :: t). left. split; [reflexivity|exact Hm]. }
  assert (Hm : parseMentionCommand (Some rx) line = Ret (Some c) ->
               exists t, (line = "!"%char :: t /\ mention c = None) \/
                         (line = "@"%char :: t /\ truthy (mention c) = true)).
  { intros Hm.
    assert (Ht : test rx line = true).
    { unfold parseMentionCommand in Hm. destruct (test rx line); [reflexivity|discriminate]. }
    destruct (mention_re_inv cfg rx line Hrx Ht) as (t & ->).
    exists t. right. split; [reflexivity|]. exact (mention_truthy cfg rx _ c Hrx Hm). }
  destruct line as [|x t]; [exact (Hm H)|].
  destruct x as [[] [] [] [] [] [] [] []]; (exact (Hm H) || exact (Hs H)).
Qed.

Lemma commands_start_lines_witness :
  exists t, str "@BotName help" = "@"%char :: t.
Proof.
  destruct (commands_start_lines example_config example_mention (str "@BotName help")
              {| input := str "!help"; command := str "help"; args := [];
                 mention := Some (str "@BotName"); post := None |}
              eq_refl eq_refl) as (t & [[H _]|[H _]]).
  - discriminate H.
  - exists t. exact H.
Defined.

(** A command after a blank or after other text is none. *)
Example command_after_blank :
  parse_line (Some example_mention) (str " !help") = Ret None /\
  parse_line (Some example_mention) (str "> @BotName help") = Ret None.
Proof. split; vm_compute; reflexivity. Qed.

(* ================================================================== *)
(** ** The normaliser on any text *)

(** *** Control characters *)

Lemma control_filter :
  forall s pv, replace_all_from control_re empty_replacement pv 0 s = filter no_control s.
Proof.
  induction s as [|c s IH]; intros pv.
  - cbn [replace_all_from]. rewrite dead_end_control. reflexivity.
  - cbn [filter]. unfold no_control at 1. destruct (is_control c) eqn:Hc; cbn [negb].
    + rewrite control_step by exact Hc. apply IH.
    + rewrite replace_all_miss by (apply dead_control, Hc). rewrite IH. reflexivity.
Qed.

Lemma forallb_filter_self (p : ascii -> bool) s : forallb p (filter p s) = true.
Proof.
  induction s as [|c s IH]; [reflexivity|].
  cbn [filter]. destruct (p c) eqn:E; [|exact IH]. cbn [forallb]. rewrite E, IH. reflexivity.
Qed.

(** A replacement by nothing leaves characters of the text only. *)
Lemma erase_forallb re (p : ascii -> bool) :
  forall s pv skip,
    forallb p s = true ->
    forallb p (replace_all_from re empty_replacement pv skip s) = true.
Proof.
  induction s as [|c s IH]; intros pv skip H.
  - destruct skip; cbn [replace_all_from]; [|reflexivity].
    destruct (match_at re pv []) as [[m cs]|]; reflexivity.
  - cbn [forallb] in H. apply andb_prop in H. destruct H as [Hc Hs].
    destruct skip as [|n]; cbn [replace_all_from]; [|apply IH, Hs].
    destruct (match_at re pv (c :: s)) as [[m cs]|].
    + cbn [empty_replacement template flat_map app].
      destruct (length m); [cbn [forallb]; rewrite Hc|]; apply IH, Hs.
    + cbn [forallb]. rewrite Hc. apply IH, Hs.
Qed.

Lemma erase_stage re (p : ascii -> bool) s :
  flag_g re = true -> forallb p s = true -> forallb p (replace re empty_replacement s) = true.
Proof. intros Hg H. rewrite replace_g by exact Hg. apply erase_forallb, H. Qed.

Lemma finish_no_control text : forallb no_control (finish text) = true.
Proof.
  unfold finish. apply erase_stage; [reflexivity|]. apply erase_stage; [reflexivity|].
  rewrite (replace_g control_re) by reflexivity. rewrite control_filter.
  apply forallb_filter_self.
Qed.

(** *** Hidden tags *)

Lemma hidetags_hide_open :
  forall s pv,
    replace_all_from hidetags_re (template [TLit ["["%char; DLE]]) pv 0 s = hide_open s.
Proof.
  induction s as [|c s IH]; intros pv.
  - cbn [replace_all_from]. rewrite dead_end_hidetags. reflexivity.
  - cbn [hide_open]. destruct (Ascii.eqb_spec "["%char c) as [<-|Hne].
    + destruct s as [|d s].
      * rewrite (replace_all_hit1 hidetags_re _ pv "["%char [] [])
          by (apply hidetags_bracket; exact I).
        cbn [replace_all_from]. rewrite dead_end_hidetags. reflexivity.
      * destruct (Ascii.eqb DLE d) eqn:Ed.
        -- apply Ascii.eqb_eq in Ed. subst d.
           rewrite replace_all_miss by apply hidetags_hidden_bracket.
           rewrite IH. reflexivity.
        -- rewrite (replace_all_hit1 hidetags_re _ pv "["%char (d :: s) [])
             by (apply hidetags_bracket; exact Ed).
           rewrite IH. reflexivity.
    + rewrite replace_all_miss by (apply dead_hidetags, Ascii.eqb_neq, Hne).
      rewrite IH. reflexivity.
Qed.

Lemma hidetags_eq s : hidetags s = hide_open s.
Proof. unfold hidetags. rewrite replace_g by reflexivity. apply hidetags_hide_open. Qed.

Lemma hide_open_head c s d t : hide_open (c :: s) = d :: t -> d = c.
Proof.
  cbn [hide_open]. destruct (Ascii.eqb "["%char c).
  - destruct s as [|e s]; [|destruct (Ascii.eqb DLE e)]; intros H; inversion H; reflexivity.
  - intros H; inversion H; reflexivity.
Qed.

Lemma hide_open_hidden s : hidden (hide_open s) = true.
Proof.
  induction s as [|c s IH]; [reflexivity|].
  cbn [hide_open]. destruct (Ascii.eqb "["%char c) eqn:Ec.
  - destruct s as [|d s].
    + cbn [hidden]. rewrite Ec. reflexivity.
    + destruct (Ascii.eqb DLE d) eqn:Ed.
      * cbn [hidden]. rewrite Ec.
        destruct (hide_open (d :: s)) as [|e t] eqn:E.
        -- cbn [hide_open] in E. destruct (Ascii.eqb "["%char d);
             [destruct s as [|x s]; [|destruct (Ascii.eqb DLE x)]|]; discriminate.
        -- pose proof (hide_open_head d s e t E) as He. subst e.
           rewrite Ed. cbn [andb]. exact IH.
      * cbn [hidden]. rewrite Ec. cbn [andb].
        change (Ascii.eqb "["%char DLE) with false. cbn [andb]. exact IH.
  - cbn [hidden]. rewrite Ec. cbn [andb]. exact IH.
Qed.

Lemma hidden_hide_open s : hidden s = true -> hide_open s = s.
Proof.
  induction s as [|c s IH]; [reflexivity|].
  cbn [hidden hide_open]. intros H. apply andb_prop in H. destruct H as [Hc Hs].
  destruct (Ascii.eqb "["%char c).
  - destruct s as [|d s]; [discriminate|]. rewrite Hc, (IH Hs). reflexivity.
  - rewrite (IH Hs). reflexivity.
Qed.

(** No quote tag is found in a text whose brackets are hidden. *)
Lemma hidden_dead re f :
  (forall pv T, match_at re pv ("["%char :: DLE :: T) = None) ->
  (forall c, Ascii.eqb "["%char c = false -> dead re c) ->
  dead_end re ->
  forall s pv, hidden s = true -> replace_all_from re f pv 0 s = s.
Proof.
  intros Hb Hd He. induction s as [|c s IH]; intros pv H.
  - cbn [replace_all_from]. rewrite He. reflexivity.
  - cbn [hidden] in H. apply andb_prop in H. destruct H as [Hc Hs].
    destruct (Ascii.eqb "["%char c) eqn:Ec.
    + apply Ascii.eqb_eq in Ec. subst c. destruct s as [|d s]; [discriminate|].
      apply Ascii.eqb_eq in Hc. subst d.
      rewrite replace_all_miss by apply Hb. rewrite (IH _ Hs). reflexivity.
    + rewrite replace_all_miss by (apply Hd, Ec). rewrite (IH _ Hs). reflexivity.
Qed.

(** *** Line ends *)

Lemma dead_newline_other c : Ascii.eqb CR c = false -> dead newline_re c.
Proof. intros H. dead_tac. Qed.

Lemma newline_CRLF pv X : match_at newline_re pv (CR :: LF :: X) = Some ([CR; LF], []).
Proof.
  apply (match_at_some newline_re pv [CR; LF] X [] (Some LF)). cbn.
  rewrite Nat.leb_refl. reflexivity.
Qed.

Lemma newline_CR pv X :
  stops (Ascii.eqb LF) X -> match_at newline_re pv (CR :: X) = Some ([CR], []).
Proof.
  intros H. apply (match_at_some newline_re pv [CR] X [] (Some CR)).
  destruct X as [|x X]; [reflexivity|]. cbn [stops] in H.
  cbn. unfold LF in *. rewrite H. reflexivity.
Qed.

Lemma newline_id s :
  forall pv, forallb not_CR s = true ->
    replace_all_from newline_re (template [TLit [LF]]) pv 0 s = s.
Proof.
  intros pv H. apply replace_all_id; [|exact dead_end_newline].
  eapply Forall_of_forallb; [|exact H]. intros c Hc. apply dead_newline_other.
  unfold not_CR in Hc. apply negb_true_iff, Hc.
Qed.

Lemma newline_crlf s :
  forall pv, forallb not_CR s = true ->
    replace_all_from newline_re (template [TLit [LF]]) pv 0 (to_crlf s) = s.
Proof.
  induction s as [|c s IH]; intros pv H.
  - cbn [to_crlf flat_map replace_all_from]. rewrite dead_end_newline. reflexivity.
  - cbn [forallb] in H. apply andb_prop in H. destruct H as [Hc Hs].
    unfold not_CR in Hc. apply negb_true_iff in Hc.
    cbn [to_crlf flat_map]. fold (to_crlf s). destruct (Ascii.eqb_spec c LF) as [->|Hne].
    + cbn [app].
      rewrite (replace_all_hit newline_re _ pv CR [LF] (to_crlf s) [] (newline_CRLF pv (to_crlf s))).
      cbn [template flat_map app prev_after fold_left]. rewrite IH by exact Hs. reflexivity.
    + cbn [app]. rewrite replace_all_miss by (apply dead_newline_other, Hc).
      rewrite IH by exact Hs. reflexivity.
Qed.

Lemma to_cr_head s : forallb not_CR s = true -> stops (Ascii.eqb LF) (to_cr s).
Proof.
  destruct s as [|c s]; [intros _; exact I|]. cbn [forallb to_cr map stops]. intros H.
  apply andb_prop in H. destruct H as [Hc _]. unfold not_CR in Hc. apply negb_true_iff in Hc.
  destruct (Ascii.eqb_spec c LF) as [->|Hne]; [reflexivity|].
  rewrite Ascii.eqb_sym. apply Ascii.eqb_neq. exact Hne.
Qed.

Lemma newline_cr s :
  forall pv, forallb not_CR s = true ->
    replace_all_from newline_re (template [TLit [LF]]) pv 0 (to_cr s) = s.
Proof.
  induction s as [|c s IH]; intros pv H.
  - cbn [to_cr map replace_all_from]. rewrite dead_end_newline. reflexivity.
  - assert (Hs : forallb not_CR s = true)
      by (cbn [forallb] in H; apply andb_prop in H; tauto).
    assert (Hc : Ascii.eqb CR c = false)
      by (cbn [forallb] in H; apply andb_prop in H; destruct H as [Hc _];
          unfold not_CR in Hc; apply negb_true_iff, Hc).
    cbn [to_cr map]. fold (to_cr s). destruct (Ascii.eqb_spec c LF) as [->|Hne].
    + rewrite (replace_all_hit1 newline_re _ pv CR (to_cr s) [])
        by (apply newline_CR, to_cr_head, Hs).
      cbn [template flat_map app]. rewrite IH by exact Hs. reflexivity.
    + rewrite replace_all_miss by (apply dead_newline_other, Hc).
      rewrite IH by exact Hs. reflexivity.
Qed.

(* ================================================================== *)
(** * Further properties of the content normaliser *)

Lemma no_control_In c s : forallb no_control s = true -> is_control c = true -> ~ In c s.
Proof.
  intros H Hc Hin. rewrite forallb_forall in H. specialize (H c Hin).
  unfold no_control in H. rewrite Hc in H. discriminate.
Qed.

(** X8. Whatever the post, [cleanPostRaw] sets [cleaned] to a text without
    control characters other than the tabulator and the new line: no
    carriage return is left in it and none of the markers the function works
    with (start and end of a quote, removed block, hidden bracket). The raw
    text is kept. *)
Theorem cleaned_without_control (p : Post) :
  exists s,
    cleaned (cleanPostRaw p) = Some s /\
    forallb no_control s = true /\
    ~ In CR s /\ ~ In STX s /\ ~ In ETX s /\ ~ In DLE s /\ ~ In SUB s /\
    raw (cleanPostRaw p) = raw p.
Proof.
  eexists. split; [reflexivity|].
  assert (H := finish_no_control
                 (strip_nested (mark_quotes match raw p with Some s => s | None => [] end))).
  split; [exact H|].
  repeat split; try (apply (no_control_In _ _ H); reflexivity).
Qed.


(** A bracket that is hidden already gets no second escape. *)
Example hidetags_twice :
  hidetags (str "a[0] [quote]") = str "a[" ++ DLE :: str "0] [" ++ DLE :: str "quote]" /\
  hidetags (str "a[" ++ DLE :: str "0] [quote]")
  = str "a[" ++ DLE :: str "0] [" ++ DLE :: str "quote]".
Proof. split; vm_compute; reflexivity. Qed.

(** X10. The line ends of the raw text do not matter: a text without
    carriage return is cleaned to the same text when each of its new lines
    is written as carriage return and new line, or as carriage return
    alone. *)
Theorem line_ends_normalised (p q : Post) (t : jsstring) :
  forallb not_CR t = true ->
  raw p = Some t ->
  raw q = Some (to_crlf t) \/ raw q = Some (to_cr t) ->
  cleaned (cleanPostRaw q) = cleaned (cleanPostRaw p).
Proof.
  intros Ht Hp Hq. unfold cleanPostRaw. cbn [cleaned set_cleaned]. rewrite Hp.
  assert (E : forall t', raw q = Some t' ->
            replace newline_re (template [TLit [LF]]) t' = t ->
            Some (finish (strip_nested (mark_quotes match raw q with Some s => s | None => [] end)))
            = Some (finish (strip_nested (mark_quotes t)))).
  { intros t' Hq' Hn. rewrite Hq'. unfold mark_quotes. rewrite Hn.
    rewrite (replace_g newline_re _ t) by reflexivity. rewrite (newline_id t None Ht). reflexivity. }
  destruct Hq as [Hq|Hq]; apply (E _ Hq); rewrite replace_g by reflexivity.
  - apply newline_crlf, Ht.
  - apply newline_cr, Ht.
Qed.

Lemma line_ends_normalised_witness :
  cleaned (cleanPostRaw (post_of (str "a" ++ CR :: LF :: str "[quote]b" ++ CR :: LF :: str "[/quote]c")))
  = cleaned (cleanPostRaw (post_of (str "a" ++ LF :: str "[quote]b" ++ LF :: str "[/quote]c"))).
Proof.
  exact (line_ends_normalised
           (post_of (str "a" ++ LF :: str "[quote]b" ++ LF :: str "[/quote]c"))
           (post_of (str "a" ++ CR :: LF :: str "[quote]b" ++ CR :: LF :: str "[/quote]c"))
           (str "a" ++ LF :: str "[quote]b" ++ LF :: str "[/quote]c")
           eq_refl eq_refl (or_introl eq_refl)).
Defined.

Lemma strip_loop_fuel :
  forall f1 f2 s, length s < f1 -> length s < f2 -> strip_loop f1 s = strip_loop f2 s.
Proof.
  induction f1 as [|f1 IH]; intros f2 s H1 H2; [lia|].
  destruct f2 as [|f2]; [lia|]. cbn [strip_loop].
  destruct (jsstring_eqb (replace innermost_re (template [TLit [SUB]]) s) s) eqn:E;
    cbn [negb]; [reflexivity|].
  destruct (innermost_round s) as [Heq|Hlt].
  - rewrite Heq, jsstring_eqb_refl in E. discriminate.
  - apply IH; lia.
Qed.

(** X11. The loop of [cleanPostRaw] ends on every text: a round that
    replaces the innermost quotes either changes nothing, which ends the
    loop, or makes the text shorter. So the loop has run at most as many
    rounds as the text is long when it ends, a further round would change
    nothing in the text it leaves, and a bound on the rounds above the length
    of the text has no effect on the result. *)
Theorem strip_loop_terminates (s : jsstring) :
  (replace innermost_re (template [TLit [SUB]]) s = s \/
   length (replace innermost_re (template [TLit [SUB]]) s) < length s) /\
  replace innermost_re (template [TLit [SUB]]) (strip_nested s) = strip_nested s /\
  (forall fuel, length s < fuel -> strip_loop fuel s = strip_nested s).
Proof.
  split; [apply innermost_round|]. split; [apply strip_nested_stable|].
  intros fuel H. unfold strip_nested. apply strip_loop_fuel; lia.
Qed.

(* ================================================================== *)
(** ** Quotes of any depth *)

Lemma lit_cons fl c s k st :
  rmatch fl (lit (c :: s)) k st = rmatch fl (Chr c) (rmatch fl (lit s) k) st.
Proof. destruct s; reflexivity. Qed.

(** A literal passes its text in any letter case when case is ignored. *)
Lemma lit_match fl :
  ignoreCase fl = true ->
  forall s s' k pv X cs,
    map canon s' = map canon s ->
    rmatch fl (lit s) k {| prev := pv; rest := s' ++ X; caps := cs |}
    = k {| prev := prev_after pv s'; rest := X; caps := cs |}.
Proof.
  intros Hi. induction s as [|c s IH]; intros [|c' s'] k pv X cs H; try discriminate.
  - reflexivity.
  - cbn [map] in H. inversion H as [[Hc Hs]].
    rewrite lit_cons. cbn [rmatch rest app]. unfold chr_match. rewrite Hi, Hc, Ascii.eqb_refl.
    unfold advance. cbn [caps]. exact (IH s' k (Some c') X cs Hs).
Qed.

Lemma canon_letter c : in_range 65 90 (canon c) = true -> attr_char c = true.
Proof. ascii_cases c. Qed.

Lemma quote_word_inv kw :
  quote_word kw = true -> map canon kw = str "QUOTE" /\ forallb attr_char kw = true.
Proof.
  unfold quote_word. intros H. apply jsstring_eqb_eq in H. split; [exact H|].
  destruct kw as [|a [|b [|c [|d [|e [|f kw]]]]]]; try discriminate.
  cbn [map] in H. inversion H as [[Ha Hb Hc Hd He]].
  cbn [forallb]. rewrite !canon_letter; [reflexivity| | | | |];
    rewrite ?Ha, ?Hb, ?Hc, ?Hd, ?He; reflexivity.
Qed.

Lemma attr_char_plain c : attr_char c = true -> plain c = true.
Proof. unfold attr_char. intros H. apply andb_prop in H. tauto. Qed.

Lemma attr_char_class c :
  attr_char c = true ->
  cls_match (flags_of quote_open_re) true [(91, 91); (93, 93)]%N c = true.
Proof. ascii_cases c. Qed.

Lemma tag_ok_inv t :
  tag_ok t = true ->
  quote_word (open_word t) = true /\ quote_word (close_word t) = true /\
  match attribute t with Some a => forallb attr_char a = true | None => True end.
Proof.
  unfold tag_ok. intros H. apply andb_prop in H. destruct H as [H Ha].
  apply andb_prop in H. destruct H as [Ho Hc]. repeat split; try assumption.
  destruct (attribute t); [exact Ha|exact I].
Qed.

Lemma open_tag_forall (P : ascii -> bool) t :
  tag_ok t = true ->
  (forall c, attr_char c = true -> P c = true) ->
  P "["%char = true -> P "="%char = true -> P "]"%char = true ->
  forallb P (open_tag t) = true.
Proof.
  intros H HP H1 H2 H3. destruct (tag_ok_inv t H) as (Ho & _ & Ha).
  destruct (quote_word_inv _ Ho) as [_ Hw].
  unfold open_tag. cbn [forallb]. rewrite H1, !forallb_app.
  rewrite (forallb_imp _ _ _ HP Hw). cbn [forallb]. rewrite H3.
  destruct (attribute t) as [a|]; [|reflexivity].
  cbn [forallb]. rewrite H2, (forallb_imp _ _ _ HP Ha). reflexivity.
Qed.

Lemma close_tag_forall (P : ascii -> bool) t :
  tag_ok t = true ->
  (forall c, attr_char c = true -> P c = true) ->
  P "["%char = true -> P "/"%char = true -> P "]"%char = true ->
  forallb P (close_tag t) = true.
Proof.
  intros H HP H1 H2 H3. destruct (tag_ok_inv t H) as (_ & Hc & _).
  destruct (quote_word_inv _ Hc) as [_ Hw].
  unfold close_tag. cbn [forallb]. rewrite H1, H2, !forallb_app.
  rewrite (forallb_imp _ _ _ HP Hw). cbn [forallb]. rewrite H3. reflexivity.
Qed.

(** *** The tags are found *)

Lemma open_tag_hit pv t X :
  tag_ok t = true ->
  match_at quote_open_re pv (open_tag t ++ X) = Some (open_tag t, []).
Proof.
  intros H. destruct (tag_ok_inv t H) as (Ho & _ & Ha).
  destruct (quote_word_inv _ Ho) as [Hw _].
  set (tl := match attribute t with Some a => "="%char :: a | None => [] end ++ ["]"%char]).
  apply (match_at_some quote_open_re pv (open_tag t) X [] (Some "]"%char)).
  change (source quote_open_re)
    with (cat [lit (str "[quote");
               opt (Seq (Chr "=") (star (Cls true [(91, 91); (93, 93)]%N)));
               Chr "]"]).
  rewrite rmatch_cat_cons.
  replace (open_tag t ++ X) with (("["%char :: open_word t) ++ tl ++ X)
    by (unfold open_tag, tl; cbn [app]; rewrite <- !app_assoc; reflexivity).
  rewrite (lit_match (flags_of quote_open_re) eq_refl (str "[quote")).
  2:{ cbn [map]. rewrite Hw. reflexivity. }
  rewrite rmatch_cat_cons. unfold tl. destruct (attribute t) as [a|].
  - cbn [app]. 
    change (rmatch (flags_of quote_open_re)
              (opt (Seq (Chr "=") (star (Cls true [(91, 91); (93, 93)]%N))))
              (rmatch (flags_of quote_open_re) (cat [Chr "]"]) (fun st => Some st))
              {| prev := prev_after pv ("["%char :: open_word t);
                 rest := "="%char :: (a ++ ["]"%char]) ++ X; caps := [] |})
      with (match
              rep_opt (S (length ((a ++ ["]"%char]) ++ X)))
                (rmatch (flags_of quote_open_re) (Cls true [(91, 91); (93, 93)]%N)) None true
                (fun st' =>
                   if length (rest st') <? length ("="%char :: (a ++ ["]"%char]) ++ X)
                   then rmatch (flags_of quote_open_re) (Chr "]") (fun st => Some st) st'
                   else None)
                {| prev := Some "="%char; rest := (a ++ ["]"%char]) ++ X; caps := [] |}
            with
            | Some x => Some x
            | None => rmatch (flags_of quote_open_re) (Chr "]") (fun st => Some st)
                        {| prev := prev_after pv ("["%char :: open_word t);
                           rest := "="%char :: (a ++ ["]"%char]) ++ X; caps := [] |}
            end).
    rewrite <- (app_assoc a).
    rewrite (rep_opt_greedy _ _ (one_char_Cls _ _ _)); [| lia | | reflexivity].
    2:{ eapply forallb_imp; [|exact Ha]. exact attr_char_class. }
    erewrite greedy_run_end; [reflexivity|].
    cbn [greedy_run rest app].
    replace (length ("]"%char :: X) <? length ("="%char :: a ++ "]"%char :: X)) with true
      by (symmetry; apply Nat.ltb_lt; cbn [length]; rewrite length_app; cbn [length]; lia).
    cbn [rmatch rest]. reflexivity.
  - reflexivity.
Qed.

Lemma close_tag_hit pv t X :
  tag_ok t = true ->
  match_at quote_close_re pv (close_tag t ++ X) = Some (close_tag t, []).
Proof.
  intros H. destruct (tag_ok_inv t H) as (_ & Hc & _).
  destruct (quote_word_inv _ Hc) as [Hw _].
  apply (match_at_some quote_close_re pv (close_tag t) X [] (prev_after pv (close_tag t))).
  change (source quote_close_re) with (lit (str "[/quote]")).
  apply (lit_match (flags_of quote_close_re) eq_refl (str "[/quote]")).
  unfold close_tag. cbn [map]. rewrite map_app, Hw. reflexivity.
Qed.

Lemma open_miss_close pv X : match_at quote_open_re pv ("["%char :: "/"%char :: X) = None.
Proof. apply match_at_none. reflexivity. Qed.

Lemma close_miss_open pv c X :
  Ascii.eqb "/"%char (canon c) = false ->
  match_at quote_close_re pv ("["%char :: c :: X) = None.
Proof.
  intros H. apply match_at_none.
  change (rmatch (flags_of quote_close_re) (source quote_close_re) (fun st => Some st)
            {| prev := pv; rest := "["%char :: c :: X; caps := [] |})
    with (if Ascii.eqb "/"%char (canon c)
          then rmatch (flags_of quote_close_re) (lit (str "quote]")) (fun st => Some st)
                 {| prev := Some c; rest := X; caps := [] |}
          else None).
  rewrite H. reflexivity.
Qed.

Lemma quote_word_head kw :
  quote_word kw = true -> exists a kw', kw = a :: kw' /\ Ascii.eqb "/"%char (canon a) = false.
Proof.
  intros H. destruct (quote_word_inv kw H) as [Hw _].
  destruct kw as [|a kw']; [discriminate|]. exists a, kw'. split; [reflexivity|].
  cbn [map] in Hw. injection Hw as Ha _. rewrite Ha. reflexivity.
Qed.

Lemma attr_dead_open c : attr_char c = true -> dead quote_open_re c.
Proof. intros H. apply dead_quote_open. apply attr_char_plain, plain_inv in H. tauto. Qed.

Lemma attr_dead_close c : attr_char c = true -> dead quote_close_re c.
Proof. intros H. apply dead_quote_close. apply attr_char_plain, plain_inv in H. tauto. Qed.

(** *** The two passes that mark the tags *)

Ltac pv_tac :=
  unfold prev_after; repeat first [rewrite fold_left_app | progress cbn [fold_left app]].

Lemma open_doc d :
  well_marked d = true ->
  forall pv X,
    replace_all_from quote_open_re (template [TLit [STX]; TWhole]) pv 0 (render d ++ X)
    = opened d ++
      replace_all_from quote_open_re (template [TLit [STX]; TWhole])
        (prev_after pv (render d)) 0 X.
Proof.
  induction d as [|s r IHr|r IHr|t b IHb r IHr]; intros H pv X.
  - reflexivity.
  - cbn [well_marked] in H. apply andb_prop in H. destruct H as [Hs Hr].
    cbn [render opened]. rewrite <- !app_assoc.
    rewrite replace_all_skip by (apply plain_dead_open, Hs).
    rewrite (IHr Hr). rewrite prev_after_app. reflexivity.
  - cbn [well_marked] in H. cbn [render opened app].
    rewrite replace_all_miss by (apply dead_quote_open; reflexivity).
    rewrite (IHr H). reflexivity.
  - cbn [well_marked] in H. apply andb_prop in H. destruct H as [H Hr].
    apply andb_prop in H. destruct H as [Ht Hb].
    destruct (tag_ok_inv t Ht) as (_ & Hc & _). destruct (quote_word_inv _ Hc) as [_ Hcw].
    cbn [render opened]. rewrite <- !app_assoc.
    assert (Hhit := open_tag_hit pv t (render b ++ close_tag t ++ render r ++ X) Ht).
    remember (skipn 1 (open_tag t)) as M eqn:EM.
    assert (EO : open_tag t = "["%char :: M) by (subst M; reflexivity).
    rewrite EO in Hhit |- *. cbn [app] in Hhit |- *.
    rewrite (replace_all_hit quote_open_re _ pv _ _ _ _ Hhit). rewrite template_open.
    rewrite (IHb Hb).
    remember (skipn 1 (close_tag t)) as N eqn:EN.
    assert (EC : close_tag t = "["%char :: N) by (subst N; reflexivity).
    assert (HN : Forall (dead quote_open_re) N).
    { subst N. unfold close_tag. cbn [skipn].
      apply Forall_cons; [apply dead_quote_open; reflexivity|]. apply Forall_app. split.
      - eapply Forall_of_forallb; [|exact Hcw]. exact attr_dead_open.
      - apply Forall_cons; [apply dead_quote_open; reflexivity|constructor]. }
    rewrite EC. cbn [app].
    rewrite replace_all_miss.
    2:{ subst N. unfold close_tag. cbn [skipn app]. apply open_miss_close. }
    rewrite replace_all_skip by exact HN.
    rewrite (IHr Hr).
    repeat first [rewrite <- app_assoc | progress cbn [app]]. pv_tac. reflexivity.
Qed.

Lemma close_doc d :
  well_marked d = true ->
  forall pv X,
    replace_all_from quote_close_re (template [TWhole; TLit [ETX]]) pv 0 (opened d ++ X)
    = marked d ++
      replace_all_from quote_close_re (template [TWhole; TLit [ETX]])
        (prev_after pv (opened d)) 0 X.
Proof.
  induction d as [|s r IHr|r IHr|t b IHb r IHr]; intros H pv X.
  - reflexivity.
  - cbn [well_marked] in H. apply andb_prop in H. destruct H as [Hs Hr].
    cbn [opened marked]. rewrite <- !app_assoc.
    rewrite replace_all_skip by (apply plain_dead_close, Hs).
    rewrite (IHr Hr). rewrite prev_after_app. reflexivity.
  - cbn [well_marked] in H. cbn [opened marked app].
    rewrite replace_all_miss by (apply dead_quote_close; reflexivity).
    rewrite (IHr H). reflexivity.
  - cbn [well_marked] in H. apply andb_prop in H. destruct H as [H Hr].
    apply andb_prop in H. destruct H as [Ht Hb].
    destruct (tag_ok_inv t Ht) as (Ho & Hc & Ha).
    destruct (quote_word_head _ Ho) as (a & kw' & Ekw & Hhead).
    destruct (quote_word_inv _ Ho) as [_ How].
    cbn [opened marked app]. rewrite close_pass_STX.
    remember (skipn 1 (open_tag t)) as M eqn:EM.
    assert (EO : open_tag t = "["%char :: M) by (subst M; reflexivity).
    assert (HM : Forall (dead quote_close_re) M).
    { subst M. unfold open_tag. cbn [skipn].
      apply Forall_app. split; [eapply Forall_of_forallb; [|exact How]; exact attr_dead_close|].
      apply Forall_app. split.
      - destruct (attribute t) as [at'|]; [|constructor].
        apply Forall_cons; [apply dead_quote_close; reflexivity|].
        eapply Forall_of_forallb; [|exact Ha]. exact attr_dead_close.
      - apply Forall_cons; [apply dead_quote_close; reflexivity|constructor]. }
    rewrite EO. rewrite <- !app_assoc. cbn [app].
    rewrite replace_all_miss.
    2:{ subst M. unfold open_tag. cbn [skipn]. rewrite Ekw. cbn [app].
        apply close_miss_open, Hhead. }
    rewrite replace_all_skip by exact HM.
    rewrite (IHb Hb).
    remember (skipn 1 (close_tag t)) as N eqn:EN.
    assert (EC : close_tag t = "["%char :: N) by (subst N; reflexivity).
    match goal with |- context [replace_all_from _ _ ?p 0 (close_tag t ++ _)] =>
      assert (Hhit := close_tag_hit p t (opened r ++ X) Ht) end.
    rewrite EC in Hhit |- *. cbn [app] in Hhit |- *.
    rewrite (replace_all_hit quote_close_re _ _ _ _ _ _ Hhit). rewrite template_close.
    rewrite (IHr Hr).
    repeat first [rewrite <- app_assoc | progress cbn [app]]. pv_tac. reflexivity.
Qed.

(** *** One round of the loop *)

Lemma leaf_inner d :
  well_marked d = true -> leaf d = true -> forallb inner_char (marked d) = true.
Proof.
  induction d as [|s r IHr|r IHr|t b IHb r IHr]; intros H Hl.
  - reflexivity.
  - cbn [well_marked] in H. apply andb_prop in H. destruct H as [Hs Hr].
    cbn [marked leaf] in *. rewrite forallb_app, (plain_inner _ Hs), (IHr Hr Hl). reflexivity.
  - cbn [well_marked marked leaf forallb] in *. rewrite (IHr H Hl). reflexivity.
  - discriminate.
Qed.

Lemma attr_inner c : attr_char c = true -> inner_char c = true.
Proof.
  intros H. apply inner_char_not_control.
  apply attr_char_plain, plain_calm, calm_inv in H. tauto.
Qed.

Lemma attr_nostx c : attr_char c = true -> nostx c = true.
Proof. intros H. apply calm_nostx, plain_calm, attr_char_plain, H. Qed.

(** Up to the first quote of a text that has one. *)
Lemma first_quote d :
  well_marked d = true -> leaf d = false ->
  exists W Y, marked d = W ++ STX :: Y /\ forallb inner_char W = true.
Proof.
  induction d as [|s r IHr|r IHr|t b IHb r IHr]; intros H Hl.
  - discriminate.
  - cbn [well_marked] in H. apply andb_prop in H. destruct H as [Hs Hr].
    destruct (IHr Hr Hl) as (W & Y & E & HW). exists (s ++ W), Y.
    cbn [marked]. rewrite E, <- app_assoc. split; [reflexivity|].
    rewrite forallb_app, (plain_inner _ Hs), HW. reflexivity.
  - cbn [well_marked] in H. destruct (IHr H Hl) as (W & Y & E & HW).
    exists (SUB :: W), Y. cbn [marked]. rewrite E. split; [reflexivity|].
    cbn [forallb]. rewrite HW. reflexivity.
  - exists [], (open_tag t ++ marked b ++ close_tag t ++ ETX :: marked r).
    split; reflexivity.
Qed.

Lemma round_well_marked d : well_marked d = true -> well_marked (round d) = true.
Proof.
  induction d as [|s r IHr|r IHr|t b IHb r IHr]; intros H; cbn [round well_marked] in *.
  - reflexivity.
  - apply andb_prop in H. destruct H as [Hs Hr]. rewrite Hs, (IHr Hr). reflexivity.
  - apply IHr, H.
  - apply andb_prop in H. destruct H as [H Hr]. apply andb_prop in H. destruct H as [Ht Hb].
    destruct (leaf b); cbn [well_marked]; [apply IHr, Hr|].
    rewrite Ht, (IHb Hb), (IHr Hr). reflexivity.
Qed.

Lemma round_doc d :
  well_marked d = true ->
  forall pv X,
    replace_all_from innermost_re (template [TLit [SUB]]) pv 0 (marked d ++ X)
    = marked (round d) ++
      replace_all_from innermost_re (template [TLit [SUB]]) (prev_after pv (marked d)) 0 X.
Proof.
  induction d as [|s r IHr|r IHr|t b IHb r IHr]; intros H pv X.
  - reflexivity.
  - cbn [well_marked] in H. apply andb_prop in H. destruct H as [Hs Hr].
    cbn [marked round]. rewrite <- !app_assoc.
    rewrite replace_all_skip by (apply plain_dead_innermost, Hs).
    rewrite (IHr Hr). rewrite prev_after_app. reflexivity.
  - cbn [well_marked] in H. cbn [marked round app].
    rewrite replace_all_miss by (apply dead_innermost; reflexivity).
    rewrite (IHr H). reflexivity.
  - cbn [well_marked] in H. apply andb_prop in H. destruct H as [H Hr].
    apply andb_prop in H. destruct H as [Ht Hb].
    assert (HO : forallb inner_char (open_tag t) = true)
      by (apply open_tag_forall; [exact Ht|exact attr_inner|reflexivity..]).
    assert (HC : forallb inner_char (close_tag t) = true)
      by (apply close_tag_forall; [exact Ht|exact attr_inner|reflexivity..]).
    cbn [marked round]. destruct (leaf b) eqn:Hl.
    + cbn [marked app].
      replace (STX :: (open_tag t ++ marked b ++ close_tag t ++ ETX :: marked r) ++ X)
        with (STX :: (open_tag t ++ marked b ++ close_tag t) ++ ETX :: (marked r ++ X))
        by (rewrite <- !app_assoc; reflexivity).
      rewrite replace_all_hit'.
      2:{ rewrite !forallb_app, HO, HC, (leaf_inner b Hb Hl). reflexivity. }
      rewrite (IHr Hr). cbn [template flat_map app].
      repeat first [rewrite <- app_assoc | progress cbn [app]]. pv_tac. reflexivity.
    + destruct (first_quote b Hb Hl) as (W & Y & EW & HW).
      cbn [marked app]. rewrite <- !app_assoc.
      rewrite replace_all_miss.
      2:{ rewrite EW. rewrite <- !app_assoc. rewrite app_assoc. cbn [app].
          apply innermost_miss. rewrite forallb_app, HO, HW. reflexivity. }
      rewrite replace_all_skip.
      2:{ apply nostx_dead. apply open_tag_forall; [exact Ht|exact attr_nostx|reflexivity..]. }
      rewrite (IHb Hb).
      rewrite replace_all_skip.
      2:{ apply nostx_dead. apply close_tag_forall; [exact Ht|exact attr_nostx|reflexivity..]. }
      cbn [app]. rewrite replace_all_miss by (apply dead_innermost; reflexivity).
      rewrite (IHr Hr).
      repeat first [rewrite <- app_assoc | progress cbn [app]]. pv_tac. reflexivity.
Qed.

(** *** The rounds of the loop *)

Lemma leaf_depth d : leaf d = true <-> depth d = 0.
Proof.
  induction d as [|s r IHr|r IHr|t b IHb r IHr]; cbn [leaf depth]; try tauto.
  split; [discriminate|]. intros H. destruct (depth r); cbn in H; discriminate.
Qed.

Lemma round_depth d : depth (round d) = Nat.pred (depth d).
Proof.
  induction d as [|s r IHr|r IHr|t b IHb r IHr]; cbn [round depth]; try assumption; [reflexivity|].
  destruct (leaf b) eqn:Hl.
  - apply leaf_depth in Hl. rewrite Hl. cbn [depth]. rewrite IHr. destruct (depth r); reflexivity.
  - cbn [depth]. rewrite IHb, IHr.
    assert (depth b <> 0) by (intros E; apply leaf_depth in E; congruence).
    destruct (depth b); [congruence|]. destruct (depth r); cbn; lia.
Qed.

Lemma round_leaf d : leaf d = true -> round d = d.
Proof.
  induction d as [|s r IHr|r IHr|t b IHb r IHr]; cbn [leaf round]; intros H;
    try (rewrite (IHr H)); try reflexivity. discriminate.
Qed.

Lemma round_top d : top (round d) = top d.
Proof.
  induction d as [|s r IHr|r IHr|t b IHb r IHr]; cbn [round top]; try congruence.
  destruct (leaf b); cbn [top]; assumption.
Qed.

Lemma iter_round_depth n d : depth (Nat.iter n round d) = depth d - n.
Proof.
  induction n as [|n IH]; [cbn [Nat.iter nat_rect]; lia|rewrite Nat.iter_succ].
  rewrite round_depth, IH. lia.
Qed.

Lemma iter_round_top n d : top (Nat.iter n round d) = top d.
Proof. induction n as [|n IH]; [reflexivity|rewrite Nat.iter_succ]. rewrite round_top. exact IH. Qed.

Lemma iter_round_well_marked n d :
  well_marked d = true -> well_marked (Nat.iter n round d) = true.
Proof.
  intros H. induction n as [|n IH]; [exact H|rewrite Nat.iter_succ].
  apply round_well_marked, IH.
Qed.

Lemma round_marked d :
  well_marked d = true ->
  replace innermost_re (template [TLit [SUB]]) (marked d) = marked (round d).
Proof.
  intros H. rewrite replace_g by reflexivity.
  rewrite <- (app_nil_r (marked d)) at 1. rewrite (round_doc d H).
  cbn [replace_all_from]. rewrite dead_end_innermost. apply app_nil_r.
Qed.

Lemma iter_round_marked n d :
  well_marked d = true ->
  Nat.iter n (replace innermost_re (template [TLit [SUB]])) (marked d)
  = marked (Nat.iter n round d).
Proof.
  intros H. induction n as [|n IH]; [reflexivity|rewrite Nat.iter_succ].
  rewrite IH. apply round_marked, iter_round_well_marked, H.
Qed.

Lemma iter_fixed (A : Type) (f : A -> A) x : f x = x -> forall k, Nat.iter k f x = x.
Proof. intros H. induction k as [|k IH]; [reflexivity|rewrite Nat.iter_succ; congruence]. Qed.

(** The loop gives the first text that a round leaves as it is. *)
Lemma strip_loop_reaches :
  forall fuel s k,
    length s < fuel ->
    replace innermost_re (template [TLit [SUB]])
      (Nat.iter k (replace innermost_re (template [TLit [SUB]])) s)
    = Nat.iter k (replace innermost_re (template [TLit [SUB]])) s ->
    strip_loop fuel s = Nat.iter k (replace innermost_re (template [TLit [SUB]])) s.
Proof.
  induction fuel as [|fuel IH]; intros s k Hf Hk; [lia|].
  cbn [strip_loop].
  destruct (jsstring_eqb (replace innermost_re (template [TLit [SUB]]) s) s) eqn:E; cbn [negb].
  - apply jsstring_eqb_eq in E. rewrite iter_fixed by exact E. reflexivity.
  - destruct k as [|k].
    + cbn [Nat.iter nat_rect] in Hk. rewrite Hk, jsstring_eqb_refl in E. discriminate.
    + rewrite Nat.iter_succ_r in *. apply IH; [|exact Hk].
      destruct (innermost_round s) as [Heq|Hlt]; [|lia].
      rewrite Heq, jsstring_eqb_refl in E. discriminate.
Qed.

Lemma strip_doc d :
  well_marked d = true ->
  strip_nested (marked d) = marked (Nat.iter (depth d) round d).
Proof.
  intros H. unfold strip_nested.
  rewrite <- (iter_round_marked (depth d) d H).
  apply strip_loop_reaches; [lia|].
  rewrite (iter_round_marked (depth d) d H).
  rewrite round_marked by (apply iter_round_well_marked, H).
  rewrite round_leaf; [reflexivity|].
  apply leaf_depth. rewrite iter_round_depth. lia.
Qed.

(** *** After the loop *)

Lemma leaf_forall (P : ascii -> bool) d :
  (forall c, plain c = true -> P c = true) -> P SUB = true ->
  well_marked d = true -> leaf d = true -> forallb P (marked d) = true.
Proof.
  intros HP HS. induction d as [|s r IHr|r IHr|t b IHb r IHr]; intros H Hl.
  - reflexivity.
  - cbn [well_marked] in H. apply andb_prop in H. destruct H as [Hs Hr].
    cbn [marked leaf] in *. rewrite forallb_app, (forallb_imp _ _ _ HP Hs), (IHr Hr Hl). reflexivity.
  - cbn [well_marked marked leaf forallb] in *. rewrite HS, (IHr H Hl). reflexivity.
  - discriminate.
Qed.

Lemma top_plain d : well_marked d = true -> forallb plain (top d) = true.
Proof.
  induction d as [|s r IHr|r IHr|t b IHb r IHr]; intros H; cbn [well_marked top] in *.
  - reflexivity.
  - apply andb_prop in H. destruct H as [Hs Hr]. rewrite forallb_app, Hs, (IHr Hr). reflexivity.
  - apply IHr, H.
  - apply andb_prop in H. destruct H as [_ Hr]. apply IHr, Hr.
Qed.

Lemma filter_all (p : ascii -> bool) s : forallb p s = true -> filter p s = s.
Proof.
  induction s as [|c s IH]; [reflexivity|]. cbn [forallb filter]. intros H.
  apply andb_prop in H. destruct H as [Hc Hs]. rewrite Hc, (IH Hs). reflexivity.
Qed.

Lemma leaf_filter d :
  well_marked d = true -> leaf d = true -> filter no_control (marked d) = top d.
Proof.
  induction d as [|s r IHr|r IHr|t b IHb r IHr]; intros H Hl.
  - reflexivity.
  - cbn [well_marked] in H. apply andb_prop in H. destruct H as [Hs Hr].
    cbn [marked leaf top] in *. rewrite filter_app, (IHr Hr Hl).
    rewrite filter_all; [reflexivity|].
    eapply forallb_imp; [|exact Hs]. intros c Hc. apply calm_no_control, plain_calm, Hc.
  - cbn [well_marked marked leaf top filter] in *. apply (IHr H Hl).
  - discriminate.
Qed.

Lemma plain_finish s : forallb plain s = true ->
  replace fencedlazy empty_replacement (replace fencedgreedy empty_replacement s) = s.
Proof.
  intros H. assert (Hc := forallb_imp _ _ _ plain_calm H).
  rewrite (stage_id fencedgreedy); [| reflexivity | | exact dead_end_fencedgreedy].
  2:{ eapply Forall_of_forallb; [|exact Hc]. intros c Hcc. apply dead_fencedgreedy, calm_inv, Hcc. }
  rewrite (stage_id fencedlazy); [| reflexivity | | exact dead_end_fencedlazy].
  2:{ eapply Forall_of_forallb; [|exact Hc]. intros c Hcc. apply dead_fencedlazy, calm_inv, Hcc. }
  reflexivity.
Qed.

Lemma finish_leaf d :
  well_marked d = true -> leaf d = true -> finish (marked d) = top d.
Proof.
  intros H Hl. unfold finish.
  rewrite (stage_id unbalanced_re); [| reflexivity | | exact dead_end_unbalanced].
  2:{ apply nostx_dead_unbalanced. apply leaf_forall; [|reflexivity|exact H|exact Hl].
      intros c Hc. apply calm_nostx, plain_calm, Hc. }
  rewrite (stage_id coalesce_re); [| reflexivity | | exact dead_end_coalesce].
  2:{ eapply Forall_of_forallb;
        [|exact (leaf_forall not_backtick d
                   (fun c Hc => calm_not_backtick c (plain_calm c Hc)) eq_refl H Hl)].
      intros c Hc. apply dead_coalesce. unfold not_backtick in Hc. apply negb_true_iff, Hc. }
  rewrite (replace_g control_re) by reflexivity. rewrite control_filter.
  rewrite (leaf_filter d H Hl). apply plain_finish, top_plain, H.
Qed.

(** *** The text as it is written *)

Lemma written_well_marked d : written d = true -> well_marked d = true.
Proof.
  induction d as [|s r IHr|r IHr|t b IHb r IHr]; cbn [written well_marked]; intros H.
  - reflexivity.
  - apply andb_prop in H. destruct H as [Hs Hr]. rewrite Hs, (IHr Hr). reflexivity.
  - discriminate.
  - apply andb_prop in H. destruct H as [H Hr]. apply andb_prop in H. destruct H as [Ht Hb].
    rewrite Ht, (IHb Hb), (IHr Hr). reflexivity.
Qed.

Lemma render_calm d : written d = true -> forallb calm (render d) = true.
Proof.
  induction d as [|s r IHr|r IHr|t b IHb r IHr]; cbn [written render]; intros H.
  - reflexivity.
  - apply andb_prop in H. destruct H as [Hs Hr].
    rewrite forallb_app, (forallb_imp _ _ _ plain_calm Hs), (IHr Hr). reflexivity.
  - discriminate.
  - apply andb_prop in H. destruct H as [H Hr]. apply andb_prop in H. destruct H as [Ht Hb].
    rewrite !forallb_app, (IHb Hb), (IHr Hr).
    rewrite (open_tag_forall calm t Ht (fun c Hc => plain_calm c (attr_char_plain c Hc)))
      by reflexivity.
    rewrite (close_tag_forall calm t Ht (fun c Hc => plain_calm c (attr_char_plain c Hc)))
      by reflexivity.
    reflexivity.
Qed.

Lemma mark_doc d : written d = true -> mark_quotes (render d) = marked d.
Proof.
  intros H. assert (Hm := written_well_marked d H).
  unfold mark_quotes. rewrite calm_unprotected by (apply render_calm, H).
  rewrite (replace_g quote_open_re) by reflexivity.
  rewrite <- (app_nil_r (render d)). rewrite (open_doc d Hm).
  cbn [replace_all_from]. rewrite dead_end_quote_open.
  rewrite (replace_g quote_close_re) by reflexivity.
  rewrite (close_doc d Hm).
  cbn [replace_all_from]. rewrite dead_end_quote_close. apply app_nil_r.
Qed.

Lemma clean_doc d :
  written d = true -> finish (strip_nested (mark_quotes (render d))) = top d.
Proof.
  intros H. assert (Hm := written_well_marked d H).
  rewrite (mark_doc d H), (strip_doc d Hm).
  rewrite finish_leaf.
  - apply iter_round_top.
  - apply iter_round_well_marked, Hm.
  - apply leaf_depth. rewrite iter_round_depth. lia.
Qed.



(** Five quotes in each other. *)
Example five_quotes_deep :
  cleaned (cleanPostRaw (post_of (str "<" ++ render (nest plain_tag 5 (str "x")) ++ str ">")))
  = Some (str "<>").
Proof. vm_compute. reflexivity. Qed.

(* ================================================================== *)
(** ** Code between single backticks *)

Lemma fencedgreedy_tick pv X :
  stops (Ascii.eqb backtick) X -> match_at fencedgreedy pv (backtick :: X) = None.
Proof.
  intros H. apply match_at_none. destruct X as [|c X]; cbn; destruct (at_bol _ _); try reflexivity.
  cbn [stops] in H. unfold backtick in *. rewrite H. reflexivity.
Qed.

Lemma fencedlazy_tick pv X :
  stops (Ascii.eqb backtick) X -> match_at fencedlazy pv (backtick :: X) = None.
Proof.
  intros H. apply match_at_none. destruct X as [|c X]; cbn; destruct (at_bol _ _); try reflexivity.
  cbn [stops] in H. unfold backtick in *. rewrite H. reflexivity.
Qed.

Lemma coalesce_tick pv X :
  stops (fun c => Ascii.eqb backtick c || Ascii.eqb SUB c) X ->
  match_at coalesce_re pv (backtick :: X) = None.
Proof.
  intros H. apply match_at_none. destruct X as [|c X]; cbn; destruct (at_bol _ _); try reflexivity.
  cbn [stops] in H. apply orb_false_iff in H. destruct H as [H1 H2].
  unfold backtick, SUB in *. rewrite H1, ?H2.
  repeat match goal with |- context [if ?b then _ else _] => destruct b end; reflexivity.
Qed.

Lemma inline_tick_span pv W R :
  forallb not_backtick W = true ->
  rmatch fl_inline (Seq (star_lazy any) (Ref 1)) (fun st => Some st)
    {| prev := pv; rest := W ++ backtick :: R; caps := [(1, [backtick])] |}
  = Some {| prev := Some backtick; rest := R; caps := [(1, [backtick])] |}.
Proof.
  intros HW.
  change (rmatch fl_inline (Seq (star_lazy any) (Ref 1)) (fun st => Some st)
    {| prev := pv; rest := W ++ backtick :: R; caps := [(1, [backtick])] |})
    with (rep_opt (S (length (W ++ backtick :: R))) (rmatch fl_inline (Cls true [])) None false
            (rmatch fl_inline (Ref 1) (fun st => Some st))
            {| prev := pv; rest := W ++ backtick :: R; caps := [(1, [backtick])] |}).
  rewrite <- (app_nil_r (W ++ backtick :: R)) at 2.
  rewrite (rep_opt_lazy _ _ (one_char_Cls _ _ _));
    [| rewrite app_nil_r; lia | apply forallb_any | exact I].
  change (W ++ backtick :: R) with (W ++ [backtick] ++ R).
  rewrite lazy_run_skip.
  - cbn. rewrite app_nil_r. reflexivity.
  - intros pv' U1 w U2 ->. rewrite forallb_app in HW. apply andb_prop in HW.
    destruct HW as [_ HW]. simpl in HW. apply andb_prop in HW. destruct HW as [Hw _].
    unfold not_backtick in Hw. apply negb_true_iff in Hw.
    cbn. unfold backtick in *. rewrite Hw. reflexivity.
Qed.

Lemma inline_tick_rmatch pv w W R :
  forallb not_backtick (w :: W) = true ->
  rmatch fl_inline (source inline) (fun st => Some st)
    {| prev := pv; rest := backtick :: (w :: W) ++ backtick :: R; caps := [] |}
  = Some {| prev := Some backtick; rest := R; caps := [(1, [backtick])] |}.
Proof.
  intros HW.
  assert (Hw : Ascii.eqb backtick w = false).
  { simpl in HW. apply andb_prop in HW. destruct HW as [Hw _].
    unfold not_backtick in Hw. apply negb_true_iff in Hw. exact Hw. }
  set (X := (w :: W) ++ backtick :: R) in *.
  change (rmatch fl_inline (source inline) (fun st => Some st)
    {| prev := pv; rest := backtick :: X; caps := [] |})
    with (rep_opt (S (length ([] ++ X))) (rmatch fl_inline (Chr backtick)) None true
            (fun st' => rmatch fl_inline (Seq (star_lazy any) (Ref 1)) (fun st => Some st)
                          (set_cap 1 (consumed {| prev := pv; rest := backtick :: X; caps := [] |} st') st'))
            {| prev := Some backtick; rest := [] ++ X; caps := [] |}).
  rewrite (rep_opt_greedy _ _ (one_char_Chr _ _)); [| lia | reflexivity | exact Hw].
  cbn [greedy_run]. unfold consumed. cbn [rest].
  replace (length (backtick :: X) - length X) with 1 by (cbn [length]; lia).
  cbn [firstn]. unfold set_cap. cbn [prev rest caps].
  apply inline_tick_span. exact HW.
Qed.

Lemma inline_tick_hit pv w W R :
  forallb not_backtick (w :: W) = true ->
  match_at inline pv (inline_code (w :: W) ++ R)
  = Some (inline_code (w :: W), [(1, [backtick])]).
Proof.
  intros HW. eapply match_at_some.
  unfold inline_code. cbn [app]. rewrite <- app_assoc. cbn [app].
  apply inline_tick_rmatch. exact HW.
Qed.

Lemma inline_tick_step f pv w W R :
  forallb not_backtick (w :: W) = true ->
  replace_all_from inline f pv 0 (inline_code (w :: W) ++ R)
  = f (inline_code (w :: W)) [(1, [backtick])] ++ replace_all_from inline f (Some backtick) 0 R.
Proof.
  intros HW. assert (Hhit := inline_tick_hit pv w W R HW).
  unfold inline_code in *.
  change ((backtick :: (w :: W) ++ [backtick]) ++ R)
    with (backtick :: ((w :: W) ++ [backtick]) ++ R) in *.
  rewrite (replace_all_hit inline f pv backtick ((w :: W) ++ [backtick]) R _ Hhit).
  rewrite prev_after_snoc. reflexivity.
Qed.

(** A text with one piece of inline code passes a replacement that finds
    nothing at its characters and nothing at the two backticks. *)
Lemma tick_stage re f P M T :
  Forall (dead re) P -> Forall (dead re) M -> Forall (dead re) T -> dead_end re ->
  (forall pv, match_at re pv (backtick :: M ++ backtick :: T) = None) ->
  (forall pv, match_at re pv (backtick :: T) = None) ->
  forall pv,
    replace_all_from re f pv 0 (P ++ backtick :: M ++ backtick :: T)
    = P ++ backtick :: M ++ backtick :: T.
Proof.
  intros HP HM HT He H1 H2 pv.
  rewrite replace_all_skip by exact HP. f_equal.
  rewrite replace_all_miss by apply H1. f_equal.
  rewrite replace_all_skip by exact HM. f_equal.
  rewrite replace_all_miss by apply H2. f_equal.
  apply replace_all_id; assumption.
Qed.

Lemma hide_head w W :
  Ascii.eqb backtick w = false -> is_control w = false ->
  stops (fun c => Ascii.eqb backtick c || Ascii.eqb SUB c) (hide (w :: W) ++ backtick :: nil).
Proof.
  intros Hb Hc. cbn [hide]. destruct (Ascii.eqb "["%char w) eqn:E.
  - reflexivity.
  - cbn [app stops]. rewrite Hb. rewrite (control_neq SUB w eq_refl Hc). reflexivity.
Qed.

Lemma stops_app (p : ascii -> bool) c M Y : stops p ((c :: M) ++ Y) <-> p c = false.
Proof. reflexivity. Qed.

Lemma plain_stops_tick T : forallb plain T = true -> stops (Ascii.eqb backtick) T.
Proof.
  destruct T as [|t T]; [intros _; exact I|]. cbn [forallb stops]. intros H.
  apply andb_prop in H. destruct H as [H _]. apply plain_calm, calm_inv in H. tauto.
Qed.

Lemma plain_stops_tick_sub T :
  forallb plain T = true -> stops (fun c => Ascii.eqb backtick c || Ascii.eqb SUB c) T.
Proof.
  destruct T as [|t T]; [intros _; exact I|]. cbn [forallb stops]. intros H.
  apply andb_prop in H. destruct H as [H _]. apply plain_calm, calm_inv in H.
  destruct H as [Hc Hb]. rewrite Hb, (control_neq SUB t eq_refl Hc). reflexivity.
Qed.

Section InlineCode.

Variables P T : jsstring.
Variable w : ascii.
Variable W : jsstring.
Hypothesis HP : forallb plain P = true.
Hypothesis HW : forallb calm (w :: W) = true.
Hypothesis HT : forallb plain T = true.

Lemma inline_w : Ascii.eqb backtick w = false /\ is_control w = false.
Proof.
  cbn [forallb] in HW. apply andb_prop in HW. destruct HW as [H _].
  apply calm_inv in H. tauto.
Qed.

Lemma inline_calm_dead re :
  (forall c, Ascii.eqb backtick c = false -> dead re c) ->
  Forall (dead re) P /\ Forall (dead re) (w :: W) /\ Forall (dead re) T.
Proof.
  intros H. repeat split.
  - eapply Forall_of_forallb; [|exact HP]. intros c Hc. apply H, calm_inv, plain_calm, Hc.
  - eapply Forall_of_forallb; [|exact HW]. intros c Hc. apply H, calm_inv, Hc.
  - eapply Forall_of_forallb; [|exact HT]. intros c Hc. apply H, calm_inv, plain_calm, Hc.
Qed.

Lemma inline_text_no_control :
  forallb no_control (P ++ backtick :: (w :: W) ++ backtick :: T) = true.
Proof.
  rewrite forallb_app. cbn [forallb]. rewrite forallb_app. cbn [forallb].
  rewrite (forallb_imp _ _ _ (fun c Hc => calm_no_control c (plain_calm c Hc)) HP).
  rewrite (forallb_imp _ _ _ (fun c Hc => calm_no_control c (plain_calm c Hc)) HT).
  cbn [forallb] in HW. apply andb_prop in HW. destruct HW as [H1 H2].
  rewrite (calm_no_control w H1), (forallb_imp _ _ _ calm_no_control H2). reflexivity.
Qed.

Lemma inline_fenced f pv :
  replace_all_from fencedgreedy f pv 0 (P ++ backtick :: (w :: W) ++ backtick :: T)
  = P ++ backtick :: (w :: W) ++ backtick :: T /\
  replace_all_from fencedlazy f pv 0 (P ++ backtick :: (w :: W) ++ backtick :: T)
  = P ++ backtick :: (w :: W) ++ backtick :: T.
Proof.
  destruct inline_w as [Hb _]. split.
  - destruct (inline_calm_dead fencedgreedy dead_fencedgreedy) as (H1 & H2 & H3).
    apply tick_stage; try assumption; [exact dead_end_fencedgreedy| |];
      intros pv'; apply fencedgreedy_tick; [exact Hb|apply plain_stops_tick, HT].
  - destruct (inline_calm_dead fencedlazy dead_fencedlazy) as (H1 & H2 & H3).
    apply tick_stage; try assumption; [exact dead_end_fencedlazy| |];
      intros pv'; apply fencedlazy_tick; [exact Hb|apply plain_stops_tick, HT].
Qed.

Lemma hidetags_code :
  hidetags (inline_code (w :: W)) = inline_code (hide (w :: W)).
Proof.
  unfold hidetags. rewrite replace_g by reflexivity. rewrite hidetags_fresh.
  - unfold inline_code. change (backtick :: (w :: W) ++ [backtick])
      with ([backtick] ++ (w :: W) ++ [backtick]).
    rewrite !hide_app. reflexivity.
  - unfold inline_code. cbn [forallb]. rewrite forallb_app. cbn [forallb].
    cbn [forallb] in HW. apply andb_prop in HW. destruct HW as [H1 H2].
    rewrite (calm_no_control w H1), (forallb_imp _ _ _ calm_no_control H2). reflexivity.
Qed.

Lemma inline_mark :
  mark_quotes (P ++ inline_code (w :: W) ++ T) = P ++ inline_code (hide (w :: W)) ++ T.
Proof.
  unfold mark_quotes.
  assert (E : P ++ inline_code (w :: W) ++ T = P ++ backtick :: (w :: W) ++ backtick :: T).
  { unfold inline_code. cbn [app]. rewrite <- app_assoc. reflexivity. }
  rewrite E.
  rewrite (stage_id newline_re); [| reflexivity | | exact dead_end_newline].
  2:{ eapply Forall_of_forallb; [|exact inline_text_no_control].
      intros c Hc. apply dead_newline. unfold no_control in Hc. apply negb_true_iff, Hc. }
  rewrite (stage_id control_re); [| reflexivity | | exact dead_end_control].
  2:{ eapply Forall_of_forallb; [|exact inline_text_no_control].
      intros c Hc. apply dead_control. unfold no_control in Hc. apply negb_true_iff, Hc. }
  rewrite (replace_g fencedgreedy) by reflexivity.
  rewrite (proj1 (inline_fenced _ None)).
  rewrite (replace_g fencedlazy) by reflexivity.
  rewrite (proj2 (inline_fenced _ None)).
  rewrite (replace_g inline) by reflexivity. rewrite <- E.
  rewrite replace_all_skip.
  2:{ eapply Forall_of_forallb; [|exact HP]. intros c Hc. apply dead_inline, calm_inv, plain_calm, Hc. }
  rewrite inline_tick_step by (eapply forallb_imp; [|exact HW]; exact calm_not_backtick).
  unfold by_function. rewrite hidetags_code.
  rewrite replace_all_id; [| | exact dead_end_inline].
  2:{ eapply Forall_of_forallb; [|exact HT]. intros c Hc. apply dead_inline, calm_inv, plain_calm, Hc. }
  rewrite (replace_g quote_open_re) by reflexivity.
  rewrite replace_all_skip by (apply plain_dead_open, HP).
  unfold inline_code. cbn [app]. rewrite <- !app_assoc.
  rewrite replace_all_miss by (apply dead_quote_open; reflexivity).
  rewrite quote_open_hidden. cbn [app].
  rewrite replace_all_miss by (apply dead_quote_open; reflexivity).
  rewrite replace_all_id by (apply plain_dead_open, HT || exact dead_end_quote_open).
  rewrite (replace_g quote_close_re) by reflexivity.
  rewrite replace_all_skip by (apply plain_dead_close, HP).
  rewrite replace_all_miss by (apply dead_quote_close; reflexivity).
  rewrite quote_close_hidden. cbn [app].
  rewrite replace_all_miss by (apply dead_quote_close; reflexivity).
  rewrite replace_all_id by (apply plain_dead_close, HT || exact dead_end_quote_close).
  reflexivity.
Qed.

Lemma inline_hidden_nostx :
  forallb nostx (P ++ inline_code (hide (w :: W)) ++ T) = true.
Proof.
  unfold inline_code. rewrite forallb_app. cbn [app forallb]. rewrite !forallb_app. cbn [forallb].
  rewrite (plain_nostx _ HP), (plain_nostx _ HT).
  rewrite (hide_forallb nostx (w :: W) eq_refl eq_refl (forallb_imp _ _ _ calm_nostx HW)).
  reflexivity.
Qed.

Lemma inline_strip :
  strip_nested (P ++ inline_code (hide (w :: W)) ++ T) = P ++ inline_code (hide (w :: W)) ++ T.
Proof.
  unfold strip_nested. cbn [strip_loop].
  rewrite (stage_id innermost_re);
    [| reflexivity | apply nostx_dead, inline_hidden_nostx | exact dead_end_innermost].
  rewrite jsstring_eqb_refl. reflexivity.
Qed.

Lemma inline_finish :
  finish (P ++ inline_code (hide (w :: W)) ++ T) = P ++ inline_code (w :: W) ++ T.
Proof.
  unfold finish. destruct inline_w as [Hb Hc].
  rewrite (stage_id unbalanced_re);
    [| reflexivity | apply nostx_dead_unbalanced, inline_hidden_nostx | exact dead_end_unbalanced].
  assert (E : P ++ inline_code (hide (w :: W)) ++ T
              = P ++ backtick :: hide (w :: W) ++ backtick :: T).
  { unfold inline_code. cbn [app]. rewrite <- app_assoc. reflexivity. }
  rewrite E.
  rewrite (replace_g coalesce_re) by reflexivity.
  rewrite tick_stage; [| | | | exact dead_end_coalesce | |].
  2:{ eapply Forall_of_forallb; [|exact HP]. intros c Hcc. apply dead_coalesce, calm_inv, plain_calm, Hcc. }
  2:{ eapply Forall_of_forallb;
        [|exact (hide_forallb not_backtick (w :: W) eq_refl eq_refl
                   (forallb_imp _ _ _ calm_not_backtick HW))].
      intros c Hcc. apply dead_coalesce. unfold not_backtick in Hcc. apply negb_true_iff, Hcc. }
  2:{ eapply Forall_of_forallb; [|exact HT]. intros c Hcc. apply dead_coalesce, calm_inv, plain_calm, Hcc. }
  2:{ intros pv. apply coalesce_tick.
      assert (H := hide_head w W Hb Hc). destruct (hide (w :: W)) as [|x xs] eqn:Eh.
      - cbn [hide] in Eh. destruct (Ascii.eqb "["%char w); discriminate.
      - exact H. }
  2:{ intros pv. apply coalesce_tick, plain_stops_tick_sub, HT. }
  rewrite (replace_g control_re) by reflexivity.
  rewrite replace_all_skip.
  2:{ eapply Forall_of_forallb; [|exact HP]. intros c Hcc. apply dead_control, calm_inv, plain_calm, Hcc. }
  rewrite replace_all_miss by (apply dead_control; reflexivity).
  rewrite control_hidden by (eapply forallb_imp; [|exact HW]; exact calm_no_control).
  rewrite replace_all_miss by (apply dead_control; reflexivity).
  rewrite replace_all_id; [| | exact dead_end_control].
  2:{ eapply Forall_of_forallb; [|exact HT]. intros c Hcc. apply dead_control, calm_inv, plain_calm, Hcc. }
  rewrite (replace_g fencedgreedy) by reflexivity.
  rewrite (proj1 (inline_fenced _ None)).
  rewrite (replace_g fencedlazy) by reflexivity.
  rewrite (proj2 (inline_fenced _ None)).
  unfold inline_code. cbn [app]. rewrite <- app_assoc. reflexivity.
Qed.

Lemma inline_no_marks :
  ~ In STX (P ++ inline_code (hide (w :: W)) ++ T) /\
  ~ In ETX (P ++ inline_code (hide (w :: W)) ++ T).
Proof.
  assert (HS : forall c, is_control c = true -> Ascii.eqb DLE c = false ->
               ~ In c (P ++ inline_code (hide (w :: W)) ++ T)).
  { intros c Hc Hd Hin. apply in_app_or in Hin. destruct Hin as [Hin|Hin].
    - rewrite forallb_forall in HP. specialize (HP c Hin).
      apply plain_calm, calm_inv in HP. destruct HP; congruence.
    - apply in_app_or in Hin. destruct Hin as [Hin|Hin].
      + unfold inline_code in Hin. cbn [In] in Hin. destruct Hin as [<-|Hin]; [discriminate|].
        apply in_app_or in Hin. destruct Hin as [Hin|[<-|[]]]; [|discriminate].
        assert (Hall : forallb (fun x => negb (is_control x) || Ascii.eqb DLE x) (w :: W) = true).
        { apply forallb_forall. intros x Hx.
          rewrite forallb_forall in HW. specialize (HW x Hx). apply calm_inv in HW.
          destruct HW as [-> _]. reflexivity. }
        pose proof (hide_forallb (fun x => negb (is_control x) || Ascii.eqb DLE x) (w :: W)
                      eq_refl eq_refl Hall) as Hh.
        rewrite forallb_forall in Hh.
        assert (Hq := Hh c Hin). cbv beta in Hq.
        rewrite Hc, Hd in Hq. discriminate.
      + rewrite forallb_forall in HT. specialize (HT c Hin).
        apply plain_calm, calm_inv in HT. destruct HT; congruence. }
  split; apply HS; reflexivity.
Qed.

End InlineCode.

(* ================================================================== *)
(** ** Tags without their partner *)

Lemma innermost_miss_end pv W :
  forallb inner_char W = true -> match_at innermost_re pv (STX :: W) = None.
Proof.
  intros HW. apply match_at_none. rewrite <- (app_nil_r W).
  rewrite innermost_rmatch; [reflexivity | exact HW | exact I].
Qed.

Lemma not_SUB_SUB c : not_SUB c = true -> Ascii.eqb SUB c = false.
Proof. revert c. intros c. ascii_cases c. Qed.

Lemma plain_not_SUB s : forallb plain s = true -> forallb not_SUB s = true.
Proof.
  apply forallb_imp. intros c Hc. apply plain_calm, calm_inv in Hc. destruct Hc as [Hc _].
  revert Hc. ascii_cases c.
Qed.

Lemma unbalanced_rmatch pv W Y :
  forallb not_SUB W = true ->
  stops not_SUB Y ->
  rmatch (flags_of unbalanced_re) (source unbalanced_re) (fun st => Some st)
    {| prev := pv; rest := STX :: W ++ Y; caps := [] |}
  = match Y with
    | c :: X => if Ascii.eqb SUB c then Some {| prev := Some c; rest := X; caps := [] |} else None
    | [] => None
    end.
Proof.
  intros HW HY.
  change (rmatch (flags_of unbalanced_re) (source unbalanced_re) (fun st => Some st)
    {| prev := pv; rest := STX :: W ++ Y; caps := [] |})
    with (rep_opt (S (length (W ++ Y))) (rmatch (flags_of unbalanced_re) (Cls true [(26, 26)]%N)) None true
            (rmatch (flags_of unbalanced_re) (Chr SUB) (fun st => Some st))
            {| prev := Some STX; rest := W ++ Y; caps := [] |}).
  rewrite (rep_opt_greedy _ _ (one_char_Cls _ _ _)); [| lia | exact HW | exact HY].
  rewrite greedy_run_only_end.
  - destruct Y; reflexivity.
  - intros pv' W1 w W2 ->. rewrite forallb_app in HW. apply andb_prop in HW.
    destruct HW as [_ HW]. simpl in HW. apply andb_prop in HW. destruct HW as [Hw _].
    apply not_SUB_SUB in Hw. cbn. unfold SUB in *. rewrite Hw. reflexivity.
Qed.

Lemma unbalanced_miss_end pv W :
  forallb not_SUB W = true -> match_at unbalanced_re pv (STX :: W) = None.
Proof.
  intros HW. apply match_at_none. rewrite <- (app_nil_r W).
  rewrite unbalanced_rmatch; [reflexivity | exact HW | exact I].
Qed.

Lemma unbalanced_hit pv W X :
  forallb not_SUB W = true ->
  match_at unbalanced_re pv (STX :: W ++ SUB :: X) = Some (STX :: W ++ [SUB], []).
Proof.
  intros HW.
  replace (STX :: W ++ SUB :: X) with ((STX :: W ++ [SUB]) ++ X)
    by (simpl; rewrite <- app_assoc; reflexivity).
  eapply match_at_some.
  replace ((STX :: W ++ [SUB]) ++ X) with (STX :: W ++ SUB :: X)
    by (simpl; rewrite <- app_assoc; reflexivity).
  rewrite unbalanced_rmatch; [reflexivity | exact HW | reflexivity].
Qed.

Lemma unbalanced_step f pv W X :
  forallb not_SUB W = true ->
  replace_all_from unbalanced_re f pv 0 (STX :: W ++ SUB :: X)
  = f (STX :: W ++ [SUB]) [] ++ replace_all_from unbalanced_re f (Some SUB) 0 X.
Proof.
  intros HW.
  assert (H := unbalanced_hit pv W X HW).
  replace (STX :: W ++ SUB :: X) with (STX :: (W ++ [SUB]) ++ X) in *
    by (rewrite <- app_assoc; reflexivity).
  rewrite (replace_all_hit unbalanced_re f pv STX (W ++ [SUB]) X [] H).
  rewrite prev_after_snoc. reflexivity.
Qed.

Lemma calm_fenced s : forallb calm s = true ->
  replace fencedlazy empty_replacement (replace fencedgreedy empty_replacement s) = s.
Proof.
  intros Hc.
  rewrite (stage_id fencedgreedy); [| reflexivity | | exact dead_end_fencedgreedy].
  2:{ eapply Forall_of_forallb; [|exact Hc]. intros c Hcc. apply dead_fencedgreedy, calm_inv, Hcc. }
  rewrite (stage_id fencedlazy); [| reflexivity | | exact dead_end_fencedlazy].
  2:{ eapply Forall_of_forallb; [|exact Hc]. intros c Hcc. apply dead_fencedlazy, calm_inv, Hcc. }
  reflexivity.
Qed.

Lemma plain_dead_coalesce s : forallb plain s = true -> Forall (dead coalesce_re) s.
Proof.
  apply Forall_of_forallb. intros c Hc. apply dead_coalesce, calm_inv, plain_calm, Hc.
Qed.

Lemma plain_dead_control s : forallb plain s = true -> Forall (dead control_re) s.
Proof.
  apply Forall_of_forallb. intros c Hc. apply dead_control, calm_inv, plain_calm, Hc.
Qed.

Lemma plain_dead_unbalanced s : forallb plain s = true -> Forall (dead unbalanced_re) s.
Proof. intros H. apply nostx_dead_unbalanced, plain_nostx, H. Qed.

Lemma tag_dead re :
  (forall c, is_control c = false -> Ascii.eqb backtick c = false -> dead re c) ->
  Forall (dead re) (str "[quote]") /\ Forall (dead re) (str "[/quote]").
Proof. intros H. split; repeat constructor; apply H; reflexivity. Qed.

Section Unbalanced.

Variables A B C D : jsstring.
Hypothesis HA : forallb plain A = true.
Hypothesis HB : forallb plain B = true.
Hypothesis HC : forallb plain C = true.
Hypothesis HD : forallb plain D = true.

(** An opening tag alone. *)
Lemma lone_open_mark :
  mark_quotes (A ++ str "[quote]" ++ B) = A ++ STX :: str "[quote]" ++ B.
Proof.
  unfold mark_quotes. rewrite calm_unprotected.
  2:{ rewrite !forallb_app, (forallb_imp _ _ _ plain_calm HA), (forallb_imp _ _ _ plain_calm HB).
      reflexivity. }
  rewrite (replace_g quote_open_re) by reflexivity.
  rewrite replace_all_skip by (apply plain_dead_open, HA).
  rewrite open_step.
  rewrite replace_all_id by (apply plain_dead_open, HB || exact dead_end_quote_open).
  rewrite (replace_g quote_close_re) by reflexivity.
  rewrite replace_all_skip by (apply plain_dead_close, HA).
  cbn [app]. rewrite close_pass_STX, close_pass.
  rewrite replace_all_id by (apply plain_dead_close, HB || exact dead_end_quote_close).
  reflexivity.
Qed.

Lemma lone_open_round X :
  forallb plain X = true ->
  replace innermost_re (template [TLit [SUB]]) (A ++ STX :: str "[quote]" ++ X)
  = A ++ STX :: str "[quote]" ++ X.
Proof.
  intros HX. rewrite replace_g by reflexivity.
  rewrite replace_all_skip by (apply plain_dead_innermost, HA).
  rewrite replace_all_miss.
  2:{ apply innermost_miss_end. rewrite forallb_app, (plain_inner _ HX). reflexivity. }
  rewrite replace_all_id; [reflexivity| | exact dead_end_innermost].
  apply nostx_dead. rewrite forallb_app, (plain_nostx _ HX). reflexivity.
Qed.

Lemma lone_open_strip :
  strip_nested (A ++ STX :: str "[quote]" ++ B) = A ++ STX :: str "[quote]" ++ B.
Proof.
  unfold strip_nested. cbn [strip_loop]. rewrite (lone_open_round B HB), jsstring_eqb_refl.
  reflexivity.
Qed.

Lemma lone_open_finish :
  finish (A ++ STX :: str "[quote]" ++ B) = A ++ str "[quote]" ++ B.
Proof.
  unfold finish.
  rewrite (replace_g unbalanced_re) by reflexivity.
  rewrite replace_all_skip by (apply plain_dead_unbalanced, HA).
  rewrite replace_all_miss.
  2:{ apply unbalanced_miss_end. rewrite forallb_app, (plain_not_SUB _ HB). reflexivity. }
  rewrite replace_all_id; [| | exact dead_end_unbalanced].
  2:{ apply nostx_dead_unbalanced. rewrite forallb_app, (plain_nostx _ HB). reflexivity. }
  rewrite (stage_id coalesce_re); [| reflexivity | | exact dead_end_coalesce].
  2:{ apply Forall_app. split; [apply plain_dead_coalesce, HA|].
      apply Forall_cons; [apply dead_coalesce; reflexivity|]. apply Forall_app. split.
      - repeat constructor; apply dead_coalesce; reflexivity.
      - apply plain_dead_coalesce, HB. }
  rewrite (replace_g control_re) by reflexivity.
  rewrite replace_all_skip by (apply plain_dead_control, HA).
  rewrite control_step by reflexivity.
  rewrite replace_all_id; [| | exact dead_end_control].
  2:{ apply Forall_app. split; [|apply plain_dead_control, HB].
      repeat constructor; apply dead_control; reflexivity. }
  apply calm_fenced.
  rewrite !forallb_app, (forallb_imp _ _ _ plain_calm HA), (forallb_imp _ _ _ plain_calm HB).
  reflexivity.
Qed.

(** A closing tag alone. *)
Lemma lone_close_mark :
  mark_quotes (A ++ str "[/quote]" ++ B) = A ++ str "[/quote]" ++ ETX :: B.
Proof.
  unfold mark_quotes. rewrite calm_unprotected.
  2:{ rewrite !forallb_app, (forallb_imp _ _ _ plain_calm HA), (forallb_imp _ _ _ plain_calm HB).
      reflexivity. }
  rewrite (replace_g quote_open_re) by reflexivity.
  rewrite replace_all_skip by (apply plain_dead_open, HA).
  rewrite open_pass.
  rewrite replace_all_id by (apply plain_dead_open, HB || exact dead_end_quote_open).
  rewrite (replace_g quote_close_re) by reflexivity.
  rewrite replace_all_skip by (apply plain_dead_close, HA).
  rewrite close_step.
  rewrite replace_all_id by (apply plain_dead_close, HB || exact dead_end_quote_close).
  reflexivity.
Qed.

Lemma lone_close_nostx : forallb nostx (A ++ str "[/quote]" ++ ETX :: B) = true.
Proof.
  rewrite !forallb_app. cbn [forallb]. rewrite (plain_nostx _ HA), (plain_nostx _ HB). reflexivity.
Qed.

Lemma lone_close_strip :
  strip_nested (A ++ str "[/quote]" ++ ETX :: B) = A ++ str "[/quote]" ++ ETX :: B.
Proof.
  unfold strip_nested. cbn [strip_loop].
  rewrite (stage_id innermost_re);
    [| reflexivity | apply nostx_dead, lone_close_nostx | exact dead_end_innermost].
  rewrite jsstring_eqb_refl. reflexivity.
Qed.

Lemma lone_close_finish :
  finish (A ++ str "[/quote]" ++ ETX :: B) = A ++ str "[/quote]" ++ B.
Proof.
  unfold finish.
  rewrite (stage_id unbalanced_re);
    [| reflexivity | apply nostx_dead_unbalanced, lone_close_nostx | exact dead_end_unbalanced].
  rewrite (stage_id coalesce_re); [| reflexivity | | exact dead_end_coalesce].
  2:{ apply Forall_app. split; [apply plain_dead_coalesce, HA|]. apply Forall_app. split.
      - repeat constructor; apply dead_coalesce; reflexivity.
      - apply Forall_cons; [apply dead_coalesce; reflexivity|apply plain_dead_coalesce, HB]. }
  rewrite (replace_g control_re) by reflexivity.
  rewrite replace_all_skip by (apply plain_dead_control, HA).
  rewrite replace_all_skip by (repeat constructor; apply dead_control; reflexivity).
  rewrite control_step by reflexivity.
  rewrite replace_all_id by (apply plain_dead_control, HB || exact dead_end_control).
  apply calm_fenced.
  rewrite !forallb_app, (forallb_imp _ _ _ plain_calm HA), (forallb_imp _ _ _ plain_calm HB).
  reflexivity.
Qed.

(** An opening tag without its closing tag, before a quote. *)
Lemma open_before_mark :
  mark_quotes (A ++ str "[quote]" ++ B ++ str "[quote]" ++ C ++ str "[/quote]" ++ D)
  = A ++ STX :: str "[quote]" ++ B ++ STX :: str "[quote]" ++ C ++ str "[/quote]" ++ ETX :: D.
Proof.
  unfold mark_quotes. rewrite calm_unprotected.
  2:{ rewrite !forallb_app, (forallb_imp _ _ _ plain_calm HA), (forallb_imp _ _ _ plain_calm HB),
        (forallb_imp _ _ _ plain_calm HC), (forallb_imp _ _ _ plain_calm HD). reflexivity. }
  rewrite (replace_g quote_open_re) by reflexivity.
  rewrite replace_all_skip by (apply plain_dead_open, HA).
  rewrite open_step.
  rewrite replace_all_skip by (apply plain_dead_open, HB).
  rewrite open_step.
  rewrite replace_all_skip by (apply plain_dead_open, HC).
  rewrite open_pass.
  rewrite replace_all_id by (apply plain_dead_open, HD || exact dead_end_quote_open).
  rewrite (replace_g quote_close_re) by reflexivity.
  rewrite replace_all_skip by (apply plain_dead_close, HA).
  cbn [app]. rewrite close_pass_STX, close_pass.
  rewrite replace_all_skip by (apply plain_dead_close, HB).
  rewrite close_pass_STX, close_pass.
  rewrite replace_all_skip by (apply plain_dead_close, HC).
  rewrite close_step.
  rewrite replace_all_id by (apply plain_dead_close, HD || exact dead_end_quote_close).
  reflexivity.
Qed.

Lemma open_before_round :
  replace innermost_re (template [TLit [SUB]])
    (A ++ STX :: str "[quote]" ++ B ++ STX :: str "[quote]" ++ C ++ str "[/quote]" ++ ETX :: D)
  = A ++ STX :: str "[quote]" ++ B ++ SUB :: D.
Proof.
  rewrite replace_g by reflexivity.
  rewrite replace_all_skip by (apply plain_dead_innermost, HA).
  rewrite (app_assoc (str "[quote]") B).
  rewrite replace_all_miss.
  2:{ apply innermost_miss. rewrite forallb_app, (plain_inner _ HB). reflexivity. }
  rewrite replace_all_skip.
  2:{ apply nostx_dead. rewrite forallb_app, (plain_nostx _ HB). reflexivity. }
  rewrite (app_assoc (str "[quote]") C), (app_assoc _ (str "[/quote]")).
  rewrite replace_all_hit'.
  2:{ rewrite !forallb_app, (plain_inner _ HC). reflexivity. }
  rewrite replace_all_id; [| | exact dead_end_innermost].
  2:{ apply plain_dead_innermost, HD. }
  rewrite <- !app_assoc. reflexivity.
Qed.

Lemma plain_SUB_plain : forallb plain (B ++ D) = true.
Proof. rewrite forallb_app, HB, HD. reflexivity. Qed.

Lemma open_before_stable :
  replace innermost_re (template [TLit [SUB]]) (A ++ STX :: str "[quote]" ++ B ++ SUB :: D)
  = A ++ STX :: str "[quote]" ++ B ++ SUB :: D.
Proof.
  rewrite replace_g by reflexivity.
  rewrite replace_all_skip by (apply plain_dead_innermost, HA).
  rewrite replace_all_miss.
  2:{ apply innermost_miss_end. rewrite !forallb_app. cbn [forallb].
      rewrite (plain_inner _ HB), (plain_inner _ HD). reflexivity. }
  rewrite replace_all_id; [reflexivity| | exact dead_end_innermost].
  apply nostx_dead. rewrite !forallb_app. cbn [forallb].
  rewrite (plain_nostx _ HB), (plain_nostx _ HD). reflexivity.
Qed.

Lemma open_before_strip :
  strip_nested
    (A ++ STX :: str "[quote]" ++ B ++ STX :: str "[quote]" ++ C ++ str "[/quote]" ++ ETX :: D)
  = A ++ STX :: str "[quote]" ++ B ++ SUB :: D.
Proof.
  unfold strip_nested. rewrite <- open_before_round.
  apply (strip_loop_reaches _ _ 1); [lia|].
  cbn [Nat.iter nat_rect]. rewrite open_before_round. apply open_before_stable.
Qed.

Lemma open_before_finish :
  finish (A ++ STX :: str "[quote]" ++ B ++ SUB :: D) = A ++ D.
Proof.
  rewrite <- (nested_finish A D HA HD). unfold finish, nested_round2.
  do 4 f_equal.
  rewrite !(replace_g unbalanced_re) by reflexivity.
  rewrite !replace_all_skip by (apply plain_dead_unbalanced, HA). f_equal.
  rewrite (app_assoc (str "[quote]") B).
  rewrite unbalanced_step by (rewrite forallb_app, (plain_not_SUB _ HB); reflexivity).
  rewrite replace_all_miss by (apply dead_unbalanced; reflexivity).
  rewrite !replace_all_id by (apply plain_dead_unbalanced, HD || exact dead_end_unbalanced).
  reflexivity.
Qed.

End Unbalanced.

(** X13. Code between two single backticks, inside plain text: whatever
    quote tags and brackets the code holds, no tag is marked in the text (no
    start and no end sentinel), and the cleaned text is the raw text: inline
    code is kept as it is written, where a fenced block is removed. *)
Theorem inline_code_kept (p : Post) (P T : jsstring) (w : ascii) (W : jsstring) :
  forallb plain P = true -> forallb calm (w :: W) = true -> forallb plain T = true ->
  raw p = Some (P ++ inline_code (w :: W) ++ T) ->
  ~ In STX (mark_quotes (P ++ inline_code (w :: W) ++ T)) /\
  ~ In ETX (mark_quotes (P ++ inline_code (w :: W) ++ T)) /\
  cleaned (cleanPostRaw p) = Some (P ++ inline_code (w :: W) ++ T).
Proof.
  intros HP HW HT Hraw.
  assert (Hm := inline_mark P T w W HP HW HT).
  destruct (inline_no_marks P T w W HP HW HT) as [H1 H2].
  rewrite Hm. split; [exact H1|]. split; [exact H2|].
  unfold cleanPostRaw. rewrite Hraw. cbn [cleaned set_cleaned].
  rewrite Hm, (inline_strip P T w W HP HW HT), (inline_finish P T w W HP HW HT). reflexivity.
Qed.

Lemma inline_code_kept_witness :
  cleaned (cleanPostRaw (post_of (str "use `[quote]x[/quote] a[0]` for code")))
  = Some (str "use `[quote]x[/quote] a[0]` for code").
Proof.
  exact (proj2 (proj2
    (inline_code_kept (post_of (str "use `[quote]x[/quote] a[0]` for code"))
       (str "use ") (str " for code") "["%char (str "quote]x[/quote] a[0]")
       eq_refl eq_refl eq_refl eq_refl))).
Defined.

(** The same tags without the backticks are a quote. *)
Example no_inline_code :
  cleaned (cleanPostRaw (post_of (str "use [quote]x[/quote] a[0] for code")))
  = Some (str "use  a[0] for code").
Proof. vm_compute. reflexivity. Qed.

(** X14. Tags without their partner, between plain text. An opening tag
    that is never closed and a closing tag that was never opened stay in the
    cleaned text, as text. An opening tag that is not closed, before a
    complete quote, goes with all the text up to the end of that quote: the
    place where the quote was removed stands for the missing closing tag. *)
Theorem unbalanced_quote_tags (p : Post) (A B C D : jsstring) :
  forallb plain A = true -> forallb plain B = true ->
  forallb plain C = true -> forallb plain D = true ->
  (raw p = Some (A ++ str "[quote]" ++ B) ->
     cleaned (cleanPostRaw p) = Some (A ++ str "[quote]" ++ B)) /\
  (raw p = Some (A ++ str "[/quote]" ++ B) ->
     cleaned (cleanPostRaw p) = Some (A ++ str "[/quote]" ++ B)) /\
  (raw p = Some (A ++ str "[quote]" ++ B ++ str "[quote]" ++ C ++ str "[/quote]" ++ D) ->
     cleaned (cleanPostRaw p) = Some (A ++ D)).
Proof.
  intros HA HB HC HD. unfold cleanPostRaw. cbn [cleaned set_cleaned].
  split; [|split]; intros ->.
  - rewrite (lone_open_mark A B HA HB), (lone_open_strip A B HA HB),
      (lone_open_finish A B HA HB). reflexivity.
  - rewrite (lone_close_mark A B HA HB), (lone_close_strip A B HA HB),
      (lone_close_finish A B HA HB). reflexivity.
  - rewrite (open_before_mark A B C D HA HB HC HD), (open_before_strip A B C D HA HB HC HD),
      (open_before_finish A B D HA HB HD). reflexivity.
Qed.

Lemma unbalanced_quote_tags_witness :
  cleaned (cleanPostRaw (post_of (str "a[quote]b[quote]c[/quote]d"))) = Some (str "ad").
Proof.
  exact (proj2 (proj2
    (unbalanced_quote_tags (post_of (str "a[quote]b[quote]c[/quote]d"))
       (str "a") (str "b") (str "c") (str "d") eq_refl eq_refl eq_refl eq_refl)) eq_refl).
Defined.

(** A closing tag too many after a quote stays, as text. *)
Example close_after_quote :
  cleaned (cleanPostRaw (post_of (str "a[quote]b[/quote]c[/quote]d"))) = Some (str "ac[/quote]d").
Proof. vm_compute. reflexivity. Qed.

(* ================================================================== *)
(** ** Trust levels, links and [cleanPost] *)

Lemma setTrustLevel_frame cfg p :
  raw (setTrustLevel cfg p) = raw p /\ cleaned (setTrustLevel cfg p) = cleaned p /\
  post_username (setTrustLevel cfg p) = post_username p /\
  admin (setTrustLevel cfg p) = admin p /\ moderator (setTrustLevel cfg p) = moderator p /\
  staff (setTrustLevel cfg p) = staff p.
Proof.
  unfold setTrustLevel.
  repeat match goal with |- context [if ?b then _ else _] => destruct b eqn:? end;
    cbn [raw cleaned post_username admin moderator staff set_trust_level];
    repeat split; congruence.
Qed.

Lemma setTrustLevel_idem cfg p : setTrustLevel cfg (setTrustLevel cfg p) = setTrustLevel cfg p.
Proof.
  unfold setTrustLevel.
  destruct (jsstring_eqb (post_username p) (owner cfg)) eqn:E1; cbn [post_username set_trust_level];
    rewrite ?E1; [reflexivity|].
  destruct (admin p) eqn:E2; cbn [post_username admin set_trust_level]; rewrite ?E1, ?E2; [reflexivity|].
  destruct (moderator p) eqn:E3; cbn [post_username admin moderator set_trust_level];
    rewrite ?E1, ?E2, ?E3; [reflexivity|].
  destruct (staff p) eqn:E4; cbn [post_username admin moderator staff set_trust_level];
    rewrite ?E1, ?E2, ?E3, ?E4; [reflexivity|].
  destruct (0 <=? indexOf (ignoreUsers cfg) (post_username p))%Z eqn:E5;
    cbn [post_username admin moderator staff set_trust_level];
    rewrite ?E1, ?E2, ?E3, ?E4, ?E5; reflexivity.
Qed.

Lemma setTrustLevel_range cfg p :
  trust_level (setTrustLevel cfg p) = trust_level p \/
  In (trust_level (setTrustLevel cfg p))
     [trustLevels.owner; trustLevels.admin; trustLevels.moderator; trustLevels.staff;
      trustLevels.ignored].
Proof.
  unfold setTrustLevel.
  repeat match goal with |- context [if ?b then _ else _] => destruct b end;
    cbn [trust_level set_trust_level In]; auto 10.
Qed.

Lemma clean_trust_commute cfg p :
  setTrustLevel cfg (cleanPostRaw p) = cleanPostRaw (setTrustLevel cfg p).
Proof.
  unfold setTrustLevel, cleanPostRaw. cbn [post_username admin moderator staff set_cleaned].
  repeat match goal with |- context [if ?b then _ else _] => destruct b end; reflexivity.
Qed.

Lemma cleanPostRaw_idem p : cleanPostRaw (cleanPostRaw p) = cleanPostRaw p.
Proof. reflexivity. Qed.

Lemma decimal_inj a b : decimal a = decimal b -> a = b.
Proof.
  unfold decimal. intros H.
  apply (f_equal string_of_list_ascii) in H. rewrite !string_of_list_ascii_of_string in H.
  apply DecimalN.Unsigned.to_uint_inj.
  assert (Hn : forall n, N.to_uint n <> Decimal.Nil).
  { intros [|q]; [discriminate|]. cbn. apply DecimalPos.Unsigned.to_uint_nonnil. }
  assert (Ha := NilZero.usu _ (Hn a)). assert (Hb := NilZero.usu _ (Hn b)).
  rewrite H in Ha. rewrite Ha in Hb. inversion Hb. reflexivity.
Qed.

Lemma setPostUrl_idem cfg l : setPostUrl cfg (setPostUrl cfg l) = setPostUrl cfg l.
Proof. reflexivity. Qed.

Lemma cleanPost_frame cfg fp :
  raw (content (cleanPost cfg fp)) = raw (content fp) /\
  cleaned (content (cleanPost cfg fp))
  = Some (finish (strip_nested (mark_quotes match raw (content fp) with
                                            | Some s => s
                                            | None => []
                                            end))) /\
  post_username (content (cleanPost cfg fp)) = post_username (content fp) /\
  trust_level (content (cleanPost cfg fp)) = trust_level (setTrustLevel cfg (content fp)) /\
  admin (content (cleanPost cfg fp)) = admin (content fp) /\
  moderator (content (cleanPost cfg fp)) = moderator (content fp) /\
  staff (content (cleanPost cfg fp)) = staff (content fp).
Proof.
  unfold cleanPost, on_links, on_content. cbn [content links].
  destruct (setTrustLevel_frame cfg (cleanPostRaw (content fp))) as (H1 & H2 & H3 & H4 & H5 & H6).
  rewrite H1, H2, H3, H4, H5, H6. rewrite clean_trust_commute.
  repeat split.
Qed.

(** X15. [setTrustLevel] only writes the trust level: the texts, the name
    and the flags of the post are as before, so that a second call changes
    nothing. The level it leaves is the one the post had or one of the five
    levels of owner, admin, moderator, staff and ignored; the levels 1 to 4
    are never given by it. *)
Theorem trust_level_settled (cfg : config) (p : Post) :
  setTrustLevel cfg (setTrustLevel cfg p) = setTrustLevel cfg p /\
  raw (setTrustLevel cfg p) = raw p /\
  cleaned (setTrustLevel cfg p) = cleaned p /\
  post_username (setTrustLevel cfg p) = post_username p /\
  admin (setTrustLevel cfg p) = admin p /\
  moderator (setTrustLevel cfg p) = moderator p /\
  staff (setTrustLevel cfg p) = staff p /\
  (trust_level (setTrustLevel cfg p) = trust_level p \/
   In (trust_level (setTrustLevel cfg p))
      [trustLevels.owner; trustLevels.admin; trustLevels.moderator; trustLevels.staff;
       trustLevels.ignored]) /\
  (trust_level (setTrustLevel cfg p) <> trust_level p ->
   ~ In (trust_level (setTrustLevel cfg p))
        [trustLevels.tl1; trustLevels.tl2; trustLevels.tl3; trustLevels.tl4]).
Proof.
  split; [apply setTrustLevel_idem|].
  destruct (setTrustLevel_frame cfg p) as (H1 & H2 & H3 & H4 & H5 & H6).
  repeat (split; [assumption|]).
  split; [apply setTrustLevel_range|].
  intros Hne. destruct (setTrustLevel_range cfg p) as [H | H]; [contradiction|].
  cbn [In] in H. cbn [In].
  unfold trustLevels.owner, trustLevels.admin, trustLevels.moderator, trustLevels.staff,
    trustLevels.ignored in H.
  unfold trustLevels.tl1, trustLevels.tl2, trustLevels.tl3, trustLevels.tl4.
  lia.
Qed.

(** A user of level 3 on the ignore list falls to level 0, and stays
    there. *)
Example ignored_user_level :
  let p := {| raw := None; cleaned := None; post_username := str "spammer";
              trust_level := 3; admin := false; moderator := false; staff := false |} in
  let cfg := {| username := str "BotName"; owner := str "boss";
                ignoreUsers := [str "blocked"; str "spammer"];
                forum := str "https://forum.example"; password := str "secret" |} in
  trust_level (setTrustLevel cfg p) = 0%N /\
  setTrustLevel cfg (setTrustLevel cfg p) = setTrustLevel cfg p.
Proof. split; reflexivity. Qed.

(** X16. The links [setPostUrl] sets. The link of a post is the link of its
    topic followed by the number of the post, so that two posts of a topic
    have the same link only when they have the same number. The link
    [reply_to] of a reply is the link of the post it answers; for a post that
    answers none, with no number or the number 0, it is the link of the
    topic. Links set before are overwritten, not extended: a second call
    changes nothing. *)
Theorem post_links (cfg : config) (l r : PostLinks) :
  same_topic l r ->
  post_url (setPostUrl cfg l) = Some (topic_link cfg l ++ decimal (post_number l)) /\
  (reply_to_post_number l = None \/ reply_to_post_number l = Some 0%N ->
     reply_to (setPostUrl cfg l) = Some (topic_link cfg l)) /\
  (reply_to_post_number l = Some (post_number r) -> post_number r <> 0%N ->
     reply_to (setPostUrl cfg l) = post_url (setPostUrl cfg r)) /\
  (post_url (setPostUrl cfg l) = post_url (setPostUrl cfg r) <->
     post_number l = post_number r) /\
  setPostUrl cfg (setPostUrl cfg l) = setPostUrl cfg l.
Proof.
  intros [Hs Hi].
  assert (Ht : topic_link cfg l = topic_link cfg r) by (unfold topic_link; rewrite Hs, Hi; reflexivity).
  split; [reflexivity|]. split; [|split; [|split; [|reflexivity]]].
  - intros [H | H]; unfold setPostUrl; cbn [reply_to]; rewrite H; cbn [reply_text N.eqb];
      fold (topic_link cfg l); rewrite app_nil_r; reflexivity.
  - intros H Hn. unfold setPostUrl. cbn [reply_to post_url]. rewrite H. cbn [reply_text].
    destruct (N.eqb_spec (post_number r) 0) as [E | _]; [contradiction|].
    fold (topic_link cfg l) (topic_link cfg r). rewrite Ht. reflexivity.
  - unfold setPostUrl. cbn [post_url]. fold (topic_link cfg l) (topic_link cfg r). rewrite Ht.
    split.
    + intros H. injection H as H. apply app_inv_head in H. apply decimal_inj, H.
    + intros H. rewrite H. reflexivity.
Qed.

Lemma post_links_witness :
  reply_to (setPostUrl example_config (example_links 7 (Some 3%N)))
  = post_url (setPostUrl example_config (example_links 3 None)) /\
  reply_to (setPostUrl example_config (example_links 3 None))
  = Some (forum example_config ++ str "/t/the-topic/1000/").
Proof.
  destruct (post_links example_config (example_links 7 (Some 3%N)) (example_links 3 None)
              (conj eq_refl eq_refl)) as (_ & _ & H & _).
  destruct (post_links example_config (example_links 3 None) (example_links 3 None)
              (conj eq_refl eq_refl)) as (_ & H' & _).
  split.
  - apply H; [reflexivity | discriminate].
  - rewrite (H' (or_introl eq_refl)). reflexivity.
Defined.

(** The links of post 7 of a topic, an answer to post 3. *)
Example links_of_a_reply :
  let l := setPostUrl example_config (example_links 7 (Some 3%N)) in
  post_url l = Some (forum example_config ++ str "/t/the-topic/1000/7") /\
  reply_to l = Some (forum example_config ++ str "/t/the-topic/1000/3").
Proof. split; reflexivity. Qed.

(** X17. [cleanPost] can be applied again without effect: the cleaned text
    is computed from the raw text, which stays, the trust level from the name
    and the flags, which stay, and the links from the slug and the numbers.
    Its first two steps do not depend on their order. *)
Theorem cleanPost_idempotent (cfg : config) (fp : FullPost) :
  cleanPost cfg (cleanPost cfg fp) = cleanPost cfg fp /\
  on_content (setTrustLevel cfg) (on_content cleanPostRaw fp)
  = on_content cleanPostRaw (on_content (setTrustLevel cfg) fp) /\
  raw (content (cleanPost cfg fp)) = raw (content fp) /\
  cleaned (content (cleanPost cfg fp)) = cleaned (cleanPostRaw (content fp)) /\
  trust_level (content (cleanPost cfg fp)) = trust_level (setTrustLevel cfg (content fp)) /\
  links (cleanPost cfg fp) = setPostUrl cfg (links fp).
Proof.
  unfold cleanPost, on_links, on_content. cbn [content links].
  destruct (setTrustLevel_frame cfg (cleanPostRaw (content fp))) as (H1 & H2 & _).
  split; [|split; [|split; [|split; [|split]]]].
  - f_equal. rewrite (clean_trust_commute cfg (setTrustLevel cfg (cleanPostRaw (content fp)))).
    rewrite setTrustLevel_idem. rewrite <- clean_trust_commute.
    rewrite cleanPostRaw_idem. reflexivity.
  - f_equal. apply clean_trust_commute.
  - rewrite H1. reflexivity.
  - exact H2.
  - rewrite clean_trust_commute. reflexivity.
  - reflexivity.
Qed.

(* ================================================================== *)
(** ** Login and notifications on the queue *)

Lemma getCSRF_never_throws (data : jsvalue) :
  exists token, get_field (str "csrf") (if truthy_value data then data else empty_object) = Ret token.
Proof.
  destruct data as [|s|[ |b|t|s|items|fields]]; cbn [truthy_value get_field empty_object];
    repeat match goal with |- context [if ?b then _ else _] => destruct b end;
    cbn [get_field]; eexists; reflexivity.
Qed.

Lemma or_empty_truthy (v : jsvalue) :
  truthy_value (if truthy_value v then v else empty_object) = true.
Proof. destruct (truthy_value v) eqn:E; [exact E | reflexivity]. Qed.

Section LoginRun.

Variable JSON_parse : jsstring -> option json.
Variable cfg : config.
Variable net : nat -> request -> response.
Variable delay' : N.

Hypothesis csrf_ok : err (net 0 (request_of cfg (csrf_task delay'))) = None.
Hypothesis login_ok : err (net 1 (request_of cfg (login_task cfg delay'))) = None.

Lemma login_run (p : proc) :
  login cfg delay' Function = Ret p ->
  exists token,
    get_field (str "csrf")
      (if truthy_value (decode JSON_parse (body (net 0 (request_of cfg (csrf_task delay')))))
       then decode JSON_parse (body (net 0 (request_of cfg (csrf_task delay'))))
       else empty_object) = Ret token /\
    run JSON_parse cfg net 0 p
    = [Requested (request_of cfg (csrf_task delay'));
       HeaderSet (str "X-CSRF-Token") token;
       Requested (request_of cfg (login_task cfg delay'));
       match get_field (str "user")
               (decode JSON_parse (body (net 1 (request_of cfg (login_task cfg delay'))))) with
       | Throw msg => Crashed msg
       | Ret user => Completed None (if truthy_value user then user else empty_object)
       end].
Proof.
  intros Hp. injection Hp as <-.
  destruct (getCSRF_never_throws
              (decode JSON_parse (body (net 0 (request_of cfg (csrf_task delay'))))))
    as [token Ht].
  exists token. split; [exact Ht|].
  unfold getCSRF. cbn [run queueWorker reply sent fst snd].
  rewrite csrf_ok. rewrite Ht.
  unfold doLogin. cbn [run queueWorker reply sent fst snd].
  rewrite login_ok.
  destruct (get_field (str "user")
              (decode JSON_parse (body (net 1 (request_of cfg (login_task cfg delay'))))));
    reflexivity.
Qed.

End LoginRun.

Lemma call_function e v : call Function e v = Return e v.
Proof. reflexivity. Qed.

(** X18. [login] when the transport reports no error for its two requests:
    whatever the forum answers. The header of the token is set to the
    member [csrf] of the first answer, and to [undefined] when the answer
    has none or is no object; the credentials are sent in either case. The
    completion callback never gets an error: it gets the member [user] of the
    second answer as it is, when this is truthy, and an empty object when it
    is falsy or when there is none, be it that the forum rejected the
    credentials or that the answer is not JSON. Only an
    answer that decodes to [null], or a response without body, ends in a
    TypeError, with the callback not called. *)
Theorem login_without_transport_error (JSON_parse : jsstring -> option json) (cfg : config)
    (net : nat -> request -> response) (delay' : N) :
  err (net 0 (request_of cfg (csrf_task delay'))) = None ->
  err (net 1 (request_of cfg (login_task cfg delay'))) = None ->
  exists p token last,
    login cfg delay' Function = Ret p /\
    run JSON_parse cfg net 0 p
    = [Requested (request_of cfg (csrf_task delay'));
       HeaderSet (str "X-CSRF-Token") token;
       Requested (request_of cfg (login_task cfg delay'));
       last] /\
    (forall fields,
       decode JSON_parse (body (net 0 (request_of cfg (csrf_task delay')))) = VJson (JObject fields) ->
       token = match member (str "csrf") fields with Some j => VJson j | None => VUndefined end) /\
    (forall text,
       decode JSON_parse (body (net 0 (request_of cfg (csrf_task delay')))) = VString text ->
       token = VUndefined) /\
    (forall data, data = decode JSON_parse (body (net 1 (request_of cfg (login_task cfg delay')))) ->
       (data = VUndefined -> last = Crashed TypeError_undefined) /\
       (data = VJson JNull -> last = Crashed TypeError_null) /\
       (data <> VUndefined -> data <> VJson JNull ->
          exists user, last = Completed None user /\ truthy_value user = true) /\
       (forall text, data = VString text -> last = Completed None empty_object) /\
       (forall fields, data = VJson (JObject fields) -> member (str "user") fields = None ->
          last = Completed None empty_object) /\
       (forall fields user,
          data = VJson (JObject fields) -> member (str "user") fields = Some user ->
          last = Completed None (if truthy_value (VJson user) then VJson user
                                 else empty_object))).
Proof.
  intros H0 H1.
  destruct (login_run JSON_parse cfg net delay' H0 H1 _ eq_refl) as (token & Ht & Hrun).
  eexists. exists token. eexists. split; [reflexivity|]. split; [exact Hrun|].
  split; [|split].
  - intros fields E. rewrite E in Ht. cbn [truthy_value get_field] in Ht.
    injection Ht as <-. reflexivity.
  - intros text E. rewrite E in Ht.
    destruct (truthy_value (VString text)); cbn [get_field empty_object member] in Ht;
      injection Ht as <-; reflexivity.
  - intros data ->.
    destruct (decode JSON_parse (body (net 1 (request_of cfg (login_task cfg delay')))))
      as [|s|[ |b|t|s|items|fields]]; cbn [get_field].
    all: repeat split; try discriminate; try congruence; try reflexivity.
    all: try (intros _ _; eexists; split; [reflexivity | apply or_empty_truthy]).
    all: intros fields'; intros; match goal with E : VJson _ = VJson _ |- _ => injection E as <- end.
    all: match goal with Hm : member _ _ = _ |- _ => rewrite Hm end; reflexivity.
Qed.

Lemma login_without_transport_error_witness :
  exists p,
    login example_config 0 Function = Ret p /\
    run json_decode example_config
        (answer_each [json_text_member (str "csrf") (str "token");
                      json_text_member (str "error") (str "Incorrect username, email or password")])
        0 p
    = [Requested (request_of example_config (csrf_task 0));
       HeaderSet (str "X-CSRF-Token") (VJson (JString (str "token")));
       Requested (request_of example_config (login_task example_config 0));
       Completed None empty_object].
Proof.
  destruct (login_without_transport_error json_decode example_config
              (answer_each [json_text_member (str "csrf") (str "token");
                            json_text_member (str "error")
                              (str "Incorrect username, email or password")])
              0 eq_refl eq_refl)
    as (p & token & last & Hp & Hrun & Htoken & _ & Hlast).
  exists p. split; [exact Hp|]. rewrite Hrun.
  rewrite (Htoken [(str "csrf", JString (str "token"))]) by (vm_compute; reflexivity).
  destruct (Hlast _ eq_refl) as (_ & _ & _ & _ & Hobj & _).
  rewrite (Hobj [(str "error", JString (str "Incorrect username, email or password"))])
    by (vm_compute; reflexivity).
  reflexivity.
Defined.

(** The user of the second answer reaches the callback. *)
Example login_hands_over_user :
  exists p,
    login example_config 0 Function = Ret p /\
    run json_decode example_config
        (answer_each [json_text_member (str "csrf") (str "token");
                      str "{" ++ dquote :: str "user" ++ dquote :: str ":" ++
                      json_text_member (str "username") (str "BotName") ++ str "}"])
        0 p
    = [Requested (request_of example_config (csrf_task 0));
       HeaderSet (str "X-CSRF-Token") (VJson (JString (str "token")));
       Requested (request_of example_config (login_task example_config 0));
       Completed None (VJson (JObject [(str "username", JString (str "BotName"))]))].
Proof. eexists. split; [reflexivity|]. vm_compute. reflexivity. Qed.

(** A page that is not JSON in place of both answers: the header is set to
    [undefined] and the login is reported as done. A response without body
    to the credentials ends in the TypeError. *)
Example login_with_html_answers :
  exists p,
    login example_config 0 Function = Ret p /\
    run json_decode example_config (answer_all (str "<html>Service Unavailable</html>")) 0 p
    = [Requested (request_of example_config (csrf_task 0));
       HeaderSet (str "X-CSRF-Token") VUndefined;
       Requested (request_of example_config (login_task example_config 0));
       Completed None empty_object] /\
    run json_decode example_config (answer_each [str "{}"]) 0 p
    = [Requested (request_of example_config (csrf_task 0));
       HeaderSet (str "X-CSRF-Token") VUndefined;
       Requested (request_of example_config (login_task example_config 0));
       Crashed TypeError_undefined].
Proof. eexists. split; [reflexivity|]. split; vm_compute; reflexivity. Qed.

(** X19. [getNotifications] asks for the notifications and then marks them
    read, in this order and with no other request. An error of the first
    request goes to the callback and nothing is marked. After the second
    request the callback gets the notifications as the first answer decoded,
    together with the error of the second request if there is one. The
    callback is not checked: when it is no function the first request is sent
    all the same and the TypeError comes where it would be called. *)
Theorem notifications_then_mark_read (JSON_parse : jsstring -> option json) (cfg : config)
    (net : nat -> request -> response) (delay' : N) :
  let first := request_of cfg (notifications_task delay') in
  let second := request_of cfg (mark_read_task delay') in
  req_url first = forum cfg ++ str "/notifications.json" /\
  req_method first = str "GET" /\
  req_url second = forum cfg ++ str "/notifications/mark-read" /\
  req_method second = str "PUT" /\
  (forall e, err (net 0 first) = Some e ->
     run JSON_parse cfg net 0 (getNotifications delay' Function)
     = [Requested first; Completed (Some e) VUndefined] /\
     run JSON_parse cfg net 0 (getNotifications delay' NotAFunction)
     = [Requested first; Crashed TypeError_not_a_function]) /\
  (err (net 0 first) = None ->
     run JSON_parse cfg net 0 (getNotifications delay' Function)
     = [Requested first; Requested second;
        Completed (err (net 1 second)) (decode JSON_parse (body (net 0 first)))] /\
     run JSON_parse cfg net 0 (getNotifications delay' NotAFunction)
     = [Requested first; Requested second; Crashed TypeError_not_a_function]).
Proof.
  cbv zeta. repeat (split; [reflexivity|]).
  split.
  - intros e He. unfold getNotifications. cbn [run queueWorker reply sent fst snd].
    rewrite He. split; reflexivity.
  - intros He. unfold getNotifications. cbn [run queueWorker reply sent fst snd].
    rewrite He. cbn [run queueWorker reply sent fst snd call]. split; reflexivity.
Qed.

Lemma notifications_then_mark_read_witness :
  run json_decode example_config (answer_all (str "[]")) 0 (getNotifications 0 Function)
  = [Requested (request_of example_config (notifications_task 0));
     Requested (request_of example_config (mark_read_task 0));
     Completed None (VJson (JArray []))].
Proof.
  destruct (notifications_then_mark_read json_decode example_config (answer_all (str "[]")) 0)
    as (_ & _ & _ & _ & _ & H).
  exact (proj1 (H eq_refl)).
Defined.

(* ================================================================== *)
(** ** Members of a decoded post *)

Lemma member_remove name fields : member name (remove_member name fields) = None.
Proof.
  induction fields as [|[k j] fields IH]; [reflexivity|]. cbn [remove_member].
  destruct (jsstring_eqb k name) eqn:E; [exact IH|]. cbn [member]. rewrite IH, E. reflexivity.
Qed.

Lemma member_remove_other name other fields :
  jsstring_eqb name other = false ->
  member other (remove_member name fields) = member other fields.
Proof.
  intros Hne. induction fields as [|[k j] fields IH]; [reflexivity|]. cbn [remove_member member].
  destruct (jsstring_eqb k name) eqn:E.
  - rewrite IH. apply jsstring_eqb_eq in E. subst k. rewrite Hne.
    destruct (member other fields); reflexivity.
  - cbn [member]. rewrite IH. reflexivity.
Qed.

(** What is set is what is read, and the other members are as before. *)
Lemma member_set name v fields : member name (set_member name v fields) = Some v.
Proof.
  induction fields as [|[k j] fields IH]; cbn [set_member member].
  - rewrite jsstring_eqb_refl. reflexivity.
  - destruct (jsstring_eqb k name) eqn:E; cbn [member].
    + rewrite member_remove, E. reflexivity.
    + rewrite IH. reflexivity.
Qed.

Lemma member_set_other name other v fields :
  jsstring_eqb name other = false ->
  member other (set_member name v fields) = member other fields.
Proof.
  intros Hne. induction fields as [|[k j] fields IH]; cbn [set_member member].
  - rewrite Hne. reflexivity.
  - destruct (jsstring_eqb k name) eqn:E; cbn [member].
    + rewrite member_remove_other by exact Hne. apply jsstring_eqb_eq in E. subst k.
      rewrite Hne. reflexivity.
    + rewrite IH. reflexivity.
Qed.

(** Zero is the one number whose numeral is falsy. *)
Lemma uint_zero (d : Decimal.uint) :
  number_is_zero (list_ascii_of_string (NilEmpty.string_of_uint d)) = true ->
  Pos.of_uint d = 0%N.
Proof.
  induction d; cbn; intros H; try discriminate; try reflexivity; auto.
Qed.

Lemma decimal_zero (n : N) : number_is_zero (decimal n) = (n =? 0)%N.
Proof.
  destruct (N.eqb_spec n 0) as [-> | Hn]; [reflexivity|].
  destruct (number_is_zero (decimal n)) eqn:E; [|reflexivity].
  exfalso. apply Hn. rewrite <- (DecimalN.Unsigned.of_to n).
  unfold decimal in E. destruct (N.to_uint n) eqn:Eu; try (apply uint_zero, E).
Qed.

Lemma member_set_eq name other v fields :
  member other (set_member name v fields)
  = if jsstring_eqb name other then Some v else member other fields.
Proof.
  destruct (jsstring_eqb name other) eqn:E.
  - apply jsstring_eqb_eq in E. subst other. apply member_set.
  - apply member_set_other, E.
Qed.

Lemma post_members_lookup fp :
  map (fun name => member name (post_members fp)) post_names
  = [option_map JString (raw (content fp));
     Some (JString (post_username (content fp)));
     Some (JNumber (decimal (trust_level (content fp))));
     Some (JBool (admin (content fp)));
     Some (JBool (moderator (content fp)));
     Some (JBool (staff (content fp)));
     Some (JString (topic_slug (links fp)));
     Some (JNumber (decimal (topic_id (links fp))));
     Some (JNumber (decimal (post_number (links fp))));
     Some (match reply_to_post_number (links fp) with
           | Some n => JNumber (decimal n)
           | None => JNull
           end);
     option_map JString (cleaned (content fp));
     option_map JString (post_url (links fp));
     option_map JString (reply_to (links fp))].
Proof.
  destruct fp as [[raw' cleaned' user tl adm mod' stf] [slug tid pn rpn url' rto]].
  unfold post_members.
  cbn [content links raw cleaned post_username trust_level admin moderator staff
       topic_slug topic_id post_number reply_to_post_number post_url reply_to].
  destruct raw', cleaned', url', rto; reflexivity.
Qed.

(** The thirteen members of an object that describes a post. *)
Lemma describes_lookup fp fields :
  describes fp fields <->
  map (fun name => member name fields) post_names
  = map (fun name => member name (post_members fp)) post_names.
Proof.
  unfold describes. generalize post_names. intros l. induction l as [|k l IH]; cbn [map].
  - split; [reflexivity | constructor].
  - split.
    + intros H. inversion H as [|? ? H1 H2]; subst. rewrite H1. f_equal. apply IH, H2.
    + intros H. injection H as H1 H2. constructor; [exact H1 | apply IH, H2].
Qed.

Section Members.

Variable number_text : jsstring -> jsstring.
Variable cfg : config.

(** Each step writes the members it is to write, and no other. *)
Lemma cleanPostRaw_members_other fields fields' name :
  cleanPostRaw_members fields = Ret fields' ->
  jsstring_eqb (str "cleaned") name = false ->
  member name fields' = member name fields.
Proof.
  unfold cleanPostRaw_members. intros H Hn.
  destruct (if truthy_member (member (str "raw") fields) then member (str "raw") fields
            else Some (JString [])) as [[ | | |text| | ]|]; try discriminate.
  injection H as <-. apply member_set_other, Hn.
Qed.

Lemma setTrustLevel_members_other fields name :
  jsstring_eqb (str "trust_level") name = false ->
  member name (setTrustLevel_members cfg fields) = member name fields.
Proof.
  intros Hn. unfold setTrustLevel_members.
  repeat match goal with |- context [if ?b then _ else _] => destruct b end;
    try reflexivity; apply member_set_other, Hn.
Qed.

Lemma setPostUrl_members_other fields name :
  jsstring_eqb (str "url") name = false ->
  jsstring_eqb (str "reply_to") name = false ->
  member name (setPostUrl_members number_text cfg fields) = member name fields.
Proof.
  intros H1 H2. unfold setPostUrl_members.
  rewrite !member_set_eq, H1, H2. reflexivity.
Qed.

Lemma cleanPostRaw_members_returns fields :
  raw_ok (member (str "raw") fields) ->
  cleanPostRaw_members fields
  = Ret (set_member (str "cleaned")
           (JString (clean_text match member (str "raw") fields with
                                | Some (JString s) => s
                                | _ => []
                                end)) fields).
Proof.
  unfold cleanPostRaw_members. intros [H | [s H]].
  - rewrite H. destruct (member (str "raw") fields) as [[ | | |s| | ]|]; try reflexivity.
    cbn [truthy_member truthy_value truthy] in H. destruct s; [reflexivity | discriminate].
  - rewrite H. cbn [truthy_member truthy_value truthy]. destruct s; reflexivity.
Qed.

Lemma cleanPostRaw_members_throws fields :
  ~ raw_ok (member (str "raw") fields) ->
  cleanPostRaw_members fields = Throw TypeError_replace.
Proof.
  unfold cleanPostRaw_members, raw_ok. intros H.
  destruct (truthy_member (member (str "raw") fields)) eqn:E.
  - destruct (member (str "raw") fields) as [[ | | |s| | ]|]; try reflexivity.
    exfalso. apply H. right. exists s. reflexivity.
  - exfalso. apply H. left. reflexivity.
Qed.

End Members.

Lemma describes_inv fp fields :
  describes fp fields ->
  member (str "raw") fields = option_map JString (raw (content fp)) /\
  member (str "username") fields = Some (JString (post_username (content fp))) /\
  member (str "trust_level") fields = Some (JNumber (decimal (trust_level (content fp)))) /\
  member (str "admin") fields = Some (JBool (admin (content fp))) /\
  member (str "moderator") fields = Some (JBool (moderator (content fp))) /\
  member (str "staff") fields = Some (JBool (staff (content fp))) /\
  member (str "topic_slug") fields = Some (JString (topic_slug (links fp))) /\
  member (str "topic_id") fields = Some (JNumber (decimal (topic_id (links fp)))) /\
  member (str "post_number") fields = Some (JNumber (decimal (post_number (links fp)))) /\
  member (str "reply_to_post_number") fields
  = Some (match reply_to_post_number (links fp) with
          | Some n => JNumber (decimal n)
          | None => JNull
          end) /\
  member (str "cleaned") fields = option_map JString (cleaned (content fp)) /\
  member (str "url") fields = option_map JString (post_url (links fp)) /\
  member (str "reply_to") fields = option_map JString (reply_to (links fp)).
Proof.
  intros H. apply describes_lookup in H. rewrite post_members_lookup in H.
  unfold post_names in H. cbn [map] in H.
  repeat split.
  - exact (f_equal (fun l => nth 0 l None) H).
  - exact (f_equal (fun l => nth 1 l None) H).
  - exact (f_equal (fun l => nth 2 l None) H).
  - exact (f_equal (fun l => nth 3 l None) H).
  - exact (f_equal (fun l => nth 4 l None) H).
  - exact (f_equal (fun l => nth 5 l None) H).
  - exact (f_equal (fun l => nth 6 l None) H).
  - exact (f_equal (fun l => nth 7 l None) H).
  - exact (f_equal (fun l => nth 8 l None) H).
  - exact (f_equal (fun l => nth 9 l None) H).
  - exact (f_equal (fun l => nth 10 l None) H).
  - exact (f_equal (fun l => nth 11 l None) H).
  - exact (f_equal (fun l => nth 12 l None) H).
Qed.

Lemma describes_intro fp fields :
  member (str "raw") fields = option_map JString (raw (content fp)) ->
  member (str "username") fields = Some (JString (post_username (content fp))) ->
  member (str "trust_level") fields = Some (JNumber (decimal (trust_level (content fp)))) ->
  member (str "admin") fields = Some (JBool (admin (content fp))) ->
  member (str "moderator") fields = Some (JBool (moderator (content fp))) ->
  member (str "staff") fields = Some (JBool (staff (content fp))) ->
  member (str "topic_slug") fields = Some (JString (topic_slug (links fp))) ->
  member (str "topic_id") fields = Some (JNumber (decimal (topic_id (links fp)))) ->
  member (str "post_number") fields = Some (JNumber (decimal (post_number (links fp)))) ->
  member (str "reply_to_post_number") fields
  = Some (match reply_to_post_number (links fp) with
          | Some n => JNumber (decimal n)
          | None => JNull
          end) ->
  member (str "cleaned") fields = option_map JString (cleaned (content fp)) ->
  member (str "url") fields = option_map JString (post_url (links fp)) ->
  member (str "reply_to") fields = option_map JString (reply_to (links fp)) ->
  describes fp fields.
Proof.
  intros. apply describes_lookup. rewrite post_members_lookup.
  unfold post_names. cbn [map]. congruence.
Qed.

Section Refines.

Variable number_text : jsstring -> jsstring.
Hypothesis numerals : forall n, number_text (decimal n) = decimal n.
Variable cfg : config.

Lemma setTrustLevel_members_level (p : Post) fields :
  member (str "username") fields = Some (JString (post_username p)) ->
  member (str "trust_level") fields = Some (JNumber (decimal (trust_level p))) ->
  member (str "admin") fields = Some (JBool (admin p)) ->
  member (str "moderator") fields = Some (JBool (moderator p)) ->
  member (str "staff") fields = Some (JBool (staff p)) ->
  member (str "trust_level") (setTrustLevel_members cfg fields)
  = Some (JNumber (decimal (trust_level (setTrustLevel cfg p)))).
Proof.
  intros Hu Ht Ha Hm Hs. unfold setTrustLevel_members, setTrustLevel.
  rewrite Hu, Ha, Hm, Hs. cbn [truthy_member truthy_value].
  destruct (jsstring_eqb (post_username p) (owner cfg)); [apply member_set|].
  destruct (admin p); [apply member_set|].
  destruct (moderator p); [apply member_set|].
  destruct (staff p); [apply member_set|].
  destruct (0 <=? indexOf (ignoreUsers cfg) (post_username p))%Z; [apply member_set|].
  exact Ht.
Qed.

Lemma setPostUrl_members_links (l : PostLinks) fields :
  member (str "topic_slug") fields = Some (JString (topic_slug l)) ->
  member (str "topic_id") fields = Some (JNumber (decimal (topic_id l))) ->
  member (str "post_number") fields = Some (JNumber (decimal (post_number l))) ->
  member (str "reply_to_post_number") fields
  = Some (match reply_to_post_number l with
          | Some n => JNumber (decimal n)
          | None => JNull
          end) ->
  member (str "url") (setPostUrl_members number_text cfg fields)
  = option_map JString (post_url (setPostUrl cfg l)) /\
  member (str "reply_to") (setPostUrl_members number_text cfg fields)
  = option_map JString (reply_to (setPostUrl cfg l)).
Proof.
  intros Hs Hi Hp Hr. unfold setPostUrl_members, setPostUrl. cbn [post_url reply_to option_map].
  rewrite !member_set_eq.
  change (jsstring_eqb (str "url") (str "url")) with true.
  change (jsstring_eqb (str "reply_to") (str "reply_to")) with true.
  change (jsstring_eqb (str "url") (str "reply_to")) with false.
  change (jsstring_eqb (str "url") (str "post_number")) with false.
  change (jsstring_eqb (str "reply_to") (str "post_number")) with false.
  change (jsstring_eqb (str "url") (str "reply_to_post_number")) with false.
  cbv iota. rewrite Hs, Hi, Hp, Hr. cbn [member_text to_text]. rewrite !numerals.
  split; [reflexivity|]. do 2 f_equal. f_equal.
  destruct (reply_to_post_number l) as [n|]; cbn [truthy_member truthy_value reply_text];
    [|reflexivity].
  rewrite decimal_zero. destruct (n =? 0)%N; cbn [negb to_text]; [reflexivity | apply numerals].
Qed.

Lemma cleanPost_members_refines (fp : FullPost) fields :
  describes fp fields ->
  exists fields',
    cleanPost_members number_text cfg fields = Ret fields' /\
    describes (cleanPost cfg fp) fields' /\
    (forall name, ~ In name post_names -> member name fields' = member name fields).
Proof.
  intros Hd. apply describes_inv in Hd.
  destruct Hd as (Hraw & Huser & Htl & Hadm & Hmod & Hstf & Hslug & Htid & Hpn & Hrpn &
                  Hcl & Hurl & Hrto).
  assert (Hok : raw_ok (member (str "raw") fields)).
  { rewrite Hraw. destruct (raw (content fp)) as [s|]; [right; exists s | left]; reflexivity. }
  unfold cleanPost_members. rewrite (cleanPostRaw_members_returns fields Hok).
  clear Hok. set (C := clean_text _).
  assert (HC : C = finish (strip_nested (mark_quotes match raw (content fp) with
                                                     | Some s => s
                                                     | None => []
                                                     end))).
  { unfold C, clean_text. do 3 f_equal. rewrite Hraw.
    destruct (raw (content fp)); reflexivity. }
  clearbody C.
  set (f1 := set_member (str "cleaned") (JString C) fields).
  assert (H1 : forall name, jsstring_eqb (str "cleaned") name = false ->
                            member name f1 = member name fields).
  { intros name Hn. apply member_set_other, Hn. }
  set (f2 := setTrustLevel_members cfg f1).
  assert (H2 : forall name, jsstring_eqb (str "cleaned") name = false ->
                            jsstring_eqb (str "trust_level") name = false ->
                            member name f2 = member name fields).
  { intros name Hn Hn'. unfold f2. rewrite setTrustLevel_members_other by exact Hn'.
    apply H1, Hn. }
  assert (H3 : forall name, jsstring_eqb (str "cleaned") name = false ->
                            jsstring_eqb (str "trust_level") name = false ->
                            jsstring_eqb (str "url") name = false ->
                            jsstring_eqb (str "reply_to") name = false ->
                            member name (setPostUrl_members number_text cfg f2)
                            = member name fields).
  { intros name Ha Hb Hc Hd. rewrite setPostUrl_members_other by assumption.
    apply H2; assumption. }
  assert (Hc1 : member (str "cleaned") f1 = Some (JString C)) by apply member_set.
  assert (Ht2 : member (str "trust_level") f2
                = Some (JNumber (decimal (trust_level (setTrustLevel cfg (content fp)))))).
  { unfold f2. apply setTrustLevel_members_level; rewrite H1 by reflexivity; assumption. }
  destruct (setPostUrl_members_links (links fp) f2) as [Hu3 Hr3];
    try (rewrite H2 by reflexivity; assumption).
  destruct (cleanPost_frame cfg fp) as (F1 & F2 & F3 & F4 & F5 & F6 & F7).
  eexists. split; [reflexivity|]. split.
  - apply describes_intro.
    + rewrite H3 by reflexivity. rewrite F1. exact Hraw.
    + rewrite H3 by reflexivity. rewrite F3. exact Huser.
    + rewrite setPostUrl_members_other by reflexivity. rewrite Ht2, F4. reflexivity.
    + rewrite H3 by reflexivity. rewrite F5. exact Hadm.
    + rewrite H3 by reflexivity. rewrite F6. exact Hmod.
    + rewrite H3 by reflexivity. rewrite F7. exact Hstf.
    + rewrite H3 by reflexivity. exact Hslug.
    + rewrite H3 by reflexivity. exact Htid.
    + rewrite H3 by reflexivity. exact Hpn.
    + rewrite H3 by reflexivity. exact Hrpn.
    + rewrite setPostUrl_members_other by reflexivity.
      unfold f2. rewrite setTrustLevel_members_other by reflexivity.
      rewrite Hc1, F2, HC. reflexivity.
    + exact Hu3.
    + exact Hr3.
  - intros name Hn. apply H3; apply not_true_is_false; intros E; apply jsstring_eqb_eq in E;
      apply Hn; subst name; unfold post_names; cbn [In]; auto 20.
Qed.

End Refines.

(* ================================================================== *)
(** ** [cleanPost] on decoded bodies *)

(** X20. [cleanPost] on a post as the forum sends it, an object with the
    text [raw], the name, the flags, the slug and the numbers of the post
    among its members: it returns the object, in which the members [cleaned],
    [trust_level], [url] and [reply_to] are those that [cleanPostRaw],
    [setTrustLevel] and [setPostUrl] give for the post, the other members it
    reads are as before, and every further member is kept. *)
Theorem cleanPost_on_decoded_post (number_text : jsstring -> jsstring) (cfg : config)
    (fp : FullPost) (fields : list (jsstring * json)) :
  (forall n, number_text (decimal n) = decimal n) ->
  describes fp fields ->
  exists fields',
    cleanPost_value number_text cfg (VJson (JObject fields))
    = Ret {| items_of := None; members := fields' |} /\
    describes (cleanPost cfg fp) fields' /\
    member (str "cleaned") fields'
    = Some (JString (clean_text match raw (content fp) with Some s => s | None => [] end)) /\
    member (str "trust_level") fields'
    = Some (JNumber (decimal (trust_level (setTrustLevel cfg (content fp))))) /\
    member (str "url") fields' = option_map JString (post_url (setPostUrl cfg (links fp))) /\
    member (str "reply_to") fields' = option_map JString (reply_to (setPostUrl cfg (links fp))) /\
    (forall name, ~ In name post_names -> member name fields' = member name fields).
Proof.
  intros Hn Hd.
  destruct (cleanPost_members_refines number_text Hn cfg fp fields Hd) as (fields' & H & Hd' & Ho).
  exists fields'. cbn [cleanPost_value]. rewrite H. split; [reflexivity|].
  split; [exact Hd'|].
  destruct (describes_inv _ _ Hd') as (_ & _ & Htl & _ & _ & _ & _ & _ & _ & _ & Hcl & Hurl & Hrto).
  destruct (cleanPost_frame cfg fp) as (_ & F2 & _ & F4 & _).
  rewrite Hcl, Htl, Hurl, Hrto, F2, F4. repeat split. exact Ho.
Qed.

Lemma cleanPost_on_decoded_post_witness :
  exists fields',
    cleanPost_value (fun text => text) example_forum
      (VJson (JObject ((str "id", JNumber (str "17")) :: post_members example_post)))
    = Ret {| items_of := None; members := fields' |} /\
    member (str "cleaned") fields' = Some (JString (str "ac")) /\
    member (str "trust_level") fields' = Some (JNumber (str "9")) /\
    member (str "url") fields' = Some (JString (str "https://forum.example/t/the-topic/1000/7")) /\
    member (str "reply_to") fields'
    = Some (JString (str "https://forum.example/t/the-topic/1000/3")) /\
    member (str "id") fields' = Some (JNumber (str "17")).
Proof.
  destruct (cleanPost_on_decoded_post (fun text => text) example_forum example_post
              ((str "id", JNumber (str "17")) :: post_members example_post)
              (fun n => eq_refl))
    as (fields' & H & _ & Hc & Ht & Hu & Hr & Ho).
  - apply describes_lookup. reflexivity.
  - exists fields'. split; [exact H|]. rewrite Hc, Ht, Hu, Hr.
    repeat (split; [vm_compute; reflexivity|]).
    rewrite Ho; [reflexivity|].
    unfold post_names. cbn [In]. intros E.
    repeat (destruct E as [E | E]; [discriminate E|]). exact E.
Defined.

(** X21. What [cleanPost] returns for. It returns for an object whose
    member [raw] is a text or is falsy, and for an array, on which it sets
    its members. For [undefined], for [null], for a text, a number or a
    boolean, and for an object whose [raw] is anything else, it ends in a
    TypeError. So a body that is not JSON, which the worker hands on as text,
    is never cleaned. *)
Theorem cleanPost_value_returns (number_text : jsstring -> jsstring) (cfg : config)
    (JSON_parse : jsstring -> option json) (v : jsvalue) :
  ((exists p, cleanPost_value number_text cfg v = Ret p) <->
   (exists fields, v = VJson (JObject fields) /\ raw_ok (member (str "raw") fields)) \/
   (exists items, v = VJson (JArray items))) /\
  (forall p, cleanPost_value number_text cfg v = Ret p ->
     (forall items, v = VJson (JArray items) <-> items_of p = Some items) /\
     exists text, member (str "cleaned") (members p) = Some (JString text)) /\
  (forall text, JSON_parse text = None ->
     cleanPost_value number_text cfg (decode JSON_parse (Some text)) = Throw TypeError_primitive).
Proof.
  split; [|split].
  - split.
    + intros [p H]. destruct v as [|s|[ |b|t|s|items|fields]]; try discriminate H.
      * right. exists items. reflexivity.
      * left. exists fields. split; [reflexivity|].
        cbn [cleanPost_value] in H. unfold cleanPost_members in H.
        destruct (cleanPostRaw_members fields) eqn:E; [|discriminate H].
        unfold cleanPostRaw_members in E. unfold raw_ok.
        destruct (truthy_member (member (str "raw") fields)); [|left; reflexivity].
        destruct (member (str "raw") fields) as [[ | | |s| | ]|]; try discriminate E.
        right. exists s. reflexivity.
    + intros [[fields [-> Hok]] | [items ->]]; cbn [cleanPost_value]; unfold cleanPost_members.
      * rewrite (cleanPostRaw_members_returns fields Hok). eexists. reflexivity.
      * eexists. reflexivity.
  - intros p H. destruct v as [|s|[ |b|t|s|items|fields]]; try discriminate H;
      cbn [cleanPost_value] in H; unfold cleanPost_members in H.
    + cbn [cleanPostRaw_members member truthy_member] in H. cbv iota in H.
      injection H as <-. cbn [items_of members]. split.
      * intros items'. split; intros E; injection E as ->; reflexivity.
      * eexists. rewrite setPostUrl_members_other by reflexivity.
        rewrite setTrustLevel_members_other by reflexivity. reflexivity.
    + destruct (cleanPostRaw_members fields) as [f1|] eqn:E; [|discriminate H].
      injection H as <-. cbn [items_of members]. split.
      * intros items. split; intros E'; discriminate E'.
      * rewrite setPostUrl_members_other by reflexivity.
        rewrite setTrustLevel_members_other by reflexivity.
        unfold cleanPostRaw_members in E.
        destruct (if truthy_member (member (str "raw") fields) then member (str "raw") fields
                  else Some (JString [])) as [[ | | |text| | ]|]; try discriminate E.
        injection E as <-. eexists. apply member_set.
  - intros text H. unfold decode. rewrite H. reflexivity.
Qed.

Lemma cleanPost_value_returns_witness :
  cleanPost_value (fun text => text) example_forum
    (decode json_decode (Some (str "<html>Service Unavailable</html>")))
  = Throw TypeError_primitive.
Proof.
  destruct (cleanPost_value_returns (fun text => text) example_forum json_decode VUndefined)
    as (_ & _ & H).
  apply H. vm_compute. reflexivity.
Defined.

(** An array, a text and an object whose [raw] is a number. *)
Example cleanPost_value_edges :
  cleanPost_value (fun text => text) example_forum (VJson (JArray [JNull]))
  = Ret {| items_of := Some [JNull];
           members := [(str "cleaned", JString []);
                       (str "url",
                        JString (str "https://forum.example/t/undefined/undefined/undefined"));
                       (str "reply_to",
                        JString (str "https://forum.example/t/undefined/undefined/"))] |} /\
  cleanPost_value (fun text => text) example_forum (VString (str "done"))
  = Throw TypeError_primitive /\
  cleanPost_value (fun text => text) example_forum
    (VJson (JObject [(str "raw", JNumber (str "1"))]))
  = Throw TypeError_replace.
Proof. repeat split; vm_compute; reflexivity. Qed.

(* ================================================================== *)
(** ** Writing and fetching a post *)

Section PostingFacts.

Variable number_text : jsstring -> jsstring.
Variable cfg : config.

Lemma cleaned_callback_error callback e v :
  is_function callback = true ->
  cleaned_callback number_text cfg callback (Some e) v = Called (Some e) None.
Proof. intros H. unfold cleaned_callback. rewrite H. reflexivity. Qed.

Lemma cleaned_callback_text (JSON_parse : jsstring -> option json) callback text :
  JSON_parse text = None ->
  cleaned_callback number_text cfg callback None (decode JSON_parse (Some text))
  = Raised TypeError_primitive.
Proof. intros H. unfold cleaned_callback, decode. rewrite H. reflexivity. Qed.

Lemma createPost_task delay' topicId replyTo content source :
  createPost number_text cfg delay' topicId replyTo content (AFunction source)
  = Ret {| task_method := str "POST";
           task_url := str "/posts";
           task_form := Some [(str "raw", FText (argument_text content ++ signature));
                              (str "topic_id", FArgument topicId);
                              (str "is_warning", FBoolean false);
                              (str "reply_to_post_number", FArgument replyTo);
                              (str "category", FText []);
                              (str "archetype", FText (str "regular"));
                              (str "auto_close_time", FText [])];
           task_callback := cleaned_callback number_text cfg (AFunction source);
           task_delay := delay' |}.
Proof. reflexivity. Qed.

Lemma createPost_shift delay' topicId content callback :
  is_undefined callback = false ->
  createPost number_text cfg delay' topicId content callback AUndefined
  = createPost number_text cfg delay' topicId AUndefined content callback.
Proof.
  unfold createPost. cbn [is_undefined].
  destruct callback; cbn [is_undefined is_function negb]; intros H;
    try discriminate H; reflexivity.
Qed.

Lemma editPost_shift delay' postId content callback :
  is_undefined callback = false ->
  editPost number_text cfg delay' postId content callback AUndefined
  = editPost number_text cfg delay' postId content (AString []) callback.
Proof.
  unfold editPost. cbn [is_undefined].
  destruct callback; cbn [is_undefined is_function negb]; intros H;
    try discriminate H; reflexivity.
Qed.

End PostingFacts.

Section PostingTasks.

Variable number_text : jsstring -> jsstring.
Variable cfg : config.
Variable delay' : N.

(** The task of an operation that was given a completion callback. *)
Lemma posting_task (a b c d : argument) (t : post_task) :
  createPost number_text cfg delay' a b c d = Ret t \/
  createPrivateMessage number_text cfg delay' a b c d = Ret t \/
  editPost number_text cfg delay' a b c d = Ret t \/
  (t = getPost number_text cfg delay' a d /\ is_function d = true) ->
  exists callback text,
    is_function callback = true /\
    task_callback t = cleaned_callback number_text cfg callback /\
    task_delay t = delay' /\
    (task_form t = None \/ sent_raw t = Some (text ++ signature)) /\
    (text = argument_text b \/ text = argument_text c).
Proof.
  intros [H | [H | [H | [-> H]]]].
  - unfold createPost in H. destruct (is_undefined d).
    + destruct (is_function c) eqn:E; [|discriminate H]. injection H as <-.
      exists c, (argument_text b). cbn. repeat split; auto.
    + destruct (is_function d) eqn:E; [|discriminate H]. injection H as <-.
      exists d, (argument_text c). cbn. repeat split; auto.
  - unfold createPrivateMessage in H.
    destruct (is_function d) eqn:E; [|discriminate H]. injection H as <-.
    exists d, (argument_text c). cbn. repeat split; auto.
  - unfold editPost in H. destruct (is_undefined d).
    + destruct (is_function c) eqn:E; [|discriminate H]. injection H as <-.
      exists c, (argument_text b). cbn. repeat split; auto.
    + destruct (is_function d) eqn:E; [|discriminate H]. injection H as <-.
      exists d, (argument_text b). cbn. repeat split; auto.
  - exists d, (argument_text b). cbn. repeat split; auto.
Qed.

End PostingTasks.

(** X22. The arguments of [createPost], [createPrivateMessage] and
    [editPost]. The number of the post replied to and the reason of an edit
    can be left out: the callback is then taken from the place before, and
    the call is the one with [undefined], or the empty reason, in that place.
    Without a function as callback the operations throw and push no task.
    The text sent as [raw] is the content followed by the signature. *)
Theorem post_arguments (number_text : jsstring -> jsstring) (cfg : config) (delay' : N)
    (a b c d : argument) (source : jsstring) :
  createPost number_text cfg delay' a b (AFunction source) AUndefined
  = createPost number_text cfg delay' a AUndefined b (AFunction source) /\
  editPost number_text cfg delay' a b (AFunction source) AUndefined
  = editPost number_text cfg delay' a b (AString []) (AFunction source) /\
  (is_function d = false -> is_undefined d = false ->
     createPost number_text cfg delay' a b c d = Throw callback_missing /\
     editPost number_text cfg delay' a b c d = Throw callback_missing) /\
  (is_function c = false ->
     createPost number_text cfg delay' a b c AUndefined = Throw callback_missing /\
     editPost number_text cfg delay' a b c AUndefined = Throw callback_missing) /\
  (is_function d = false ->
     createPrivateMessage number_text cfg delay' a b c d = Throw callback_missing) /\
  (exists t4 t3 m e,
     createPost number_text cfg delay' a b c (AFunction source) = Ret t4 /\
     createPost number_text cfg delay' a c (AFunction source) AUndefined = Ret t3 /\
     createPrivateMessage number_text cfg delay' a b c (AFunction source) = Ret m /\
     editPost number_text cfg delay' a c b (AFunction source) = Ret e /\
     sent_raw t4 = Some (argument_text c ++ signature) /\
     sent_raw t3 = Some (argument_text c ++ signature) /\
     sent_raw m = Some (argument_text c ++ signature) /\
     sent_raw e = Some (argument_text c ++ signature) /\
     task_url e = str "/posts/" ++ argument_text a /\
     option_map (form_member (str "reply_to_post_number")) (task_form t4)
     = Some (Some (FArgument b)) /\
     option_map (form_member (str "reply_to_post_number")) (task_form t3)
     = Some (Some (FArgument AUndefined))).
Proof.
  split; [apply createPost_shift; reflexivity|].
  split; [apply editPost_shift; reflexivity|].
  split; [|split; [|split]].
  - intros Hf Hu. unfold createPost, editPost. rewrite Hu, Hf. split; reflexivity.
  - intros Hf. unfold createPost, editPost. cbn [is_undefined]. rewrite Hf. split; reflexivity.
  - intros Hf. unfold createPrivateMessage. rewrite Hf. reflexivity.
  - do 4 eexists. repeat (split; [reflexivity|]). reflexivity.
Qed.

Lemma post_arguments_witness :
  createPost (fun text => text) example_forum 0 (ANumber 1000) (AString (str "hello"))
    (AString (str "oops")) (ANumber 3)
  = Throw callback_missing /\
  createPost (fun text => text) example_forum 0 (ANumber 1000) (AString (str "hello"))
    (AString (str "oops")) AUndefined
  = Throw callback_missing.
Proof.
  destruct (post_arguments (fun text => text) example_forum 0 (ANumber 1000)
              (AString (str "hello")) (AString (str "oops")) (ANumber 3) [])
    as (_ & _ & H1 & H2 & _).
  split; [exact (proj1 (H1 eq_refl eq_refl)) | exact (proj1 (H2 eq_refl))].
Defined.

(** A reply to post 3 of topic 1000. *)
Example reply_task :
  exists t,
    createPost (fun text => text) example_forum 5000 (ANumber 1000) (ANumber 3)
      (AString (str "hello")) (AFunction (str "(err, post) => {}")) = Ret t /\
    task_form t
    = Some [(str "raw", FText (str "hello" ++ [LF; LF] ++ str "<!-- Posted by a clever robot -->"));
            (str "topic_id", FArgument (ANumber 1000));
            (str "is_warning", FBoolean false);
            (str "reply_to_post_number", FArgument (ANumber 3));
            (str "category", FText []);
            (str "archetype", FText (str "regular"));
            (str "auto_close_time", FText [])] /\
    task_delay t = 5000%N.
Proof. eexists. split; [reflexivity|]. split; reflexivity. Qed.

(** X23. How the tasks of [createPost], [createPrivateMessage], [editPost]
    and [getPost] complete, when these were given a function as callback.
    An error of the transport goes to the callback, alone. Without error the
    callback gets the post that [cleanPost] makes of the decoded answer: for
    an object that describes a post, an object with the members [cleaned],
    [trust_level], [url] and [reply_to] set for that post. When the answer is
    not JSON the callback is never called: the task ends in a TypeError. *)
Theorem post_completion (number_text : jsstring -> jsstring) (cfg : config)
    (JSON_parse : jsstring -> option json) (delay' : N) (a b c d : argument) (t : post_task) :
  (forall n, number_text (decimal n) = decimal n) ->
  createPost number_text cfg delay' a b c d = Ret t \/
  createPrivateMessage number_text cfg delay' a b c d = Ret t \/
  editPost number_text cfg delay' a b c d = Ret t \/
  (t = getPost number_text cfg delay' a d /\ is_function d = true) ->
  (forall e v, task_callback t (Some e) v = Called (Some e) None) /\
  (forall text, JSON_parse text = None ->
     task_callback t None (decode JSON_parse (Some text)) = Raised TypeError_primitive) /\
  (forall text fields fp,
     JSON_parse text = Some (JObject fields) -> describes fp fields ->
     exists fields',
       task_callback t None (decode JSON_parse (Some text))
       = Called None (Some {| items_of := None; members := fields' |}) /\
       describes (cleanPost cfg fp) fields' /\
       (forall name, ~ In name post_names -> member name fields' = member name fields)).
Proof.
  intros Hn Ht.
  destruct (posting_task number_text cfg delay' a b c d t Ht) as (cb & text & Hf & Hc & _).
  rewrite Hc. split; [|split].
  - intros e v. apply cleaned_callback_error, Hf.
  - intros text' H. apply cleaned_callback_text, H.
  - intros text' fields fp H Hd.
    destruct (cleanPost_members_refines number_text Hn cfg fp fields Hd) as (fields' & E & Hd' & Ho).
    exists fields'. unfold cleaned_callback, decode. rewrite H. cbn [cleanPost_value].
    rewrite E, Hf. repeat split; assumption.
Qed.

Lemma post_completion_witness :
  task_callback (getPost (fun text => text) example_forum 0 (ANumber 17)
                   (AFunction (str "(err, post) => {}")))
    None (decode json_decode (Some (str "<html>Service Unavailable</html>")))
  = Raised TypeError_primitive.
Proof.
  destruct (post_completion (fun text => text) example_forum json_decode 0
              (ANumber 17) AUndefined AUndefined (AFunction (str "(err, post) => {}"))
              (getPost (fun text => text) example_forum 0 (ANumber 17)
                 (AFunction (str "(err, post) => {}")))
              (fun n => eq_refl)
              (or_intror (or_intror (or_intror (conj eq_refl eq_refl)))))
    as (_ & H & _).
  apply H. vm_compute. reflexivity.
Defined.

(** [getPost] does not check its callback: the task is pushed, and the
    TypeError comes when the answer is there. *)
Example getPost_without_callback :
  task_url (getPost (fun text => text) example_forum 0 (ANumber 17) AUndefined)
  = str "/posts/17.json" /\
  task_callback (getPost (fun text => text) example_forum 0 (ANumber 17) AUndefined)
    (Some (str "ETIMEDOUT")) VUndefined
  = Raised TypeError_not_a_function.
Proof. split; reflexivity. Qed.

(* ================================================================== *)
(** ** Topics *)

Section TopicFacts.

Variable number_text : jsstring -> jsstring.

Lemma topic_members_other fields name :
  jsstring_eqb (str "post_stream") name = false ->
  jsstring_eqb (str "details") name = false ->
  jsstring_eqb (str "url") name = false ->
  member name (topic_members number_text fields) = member name fields.
Proof.
  intros H1 H2 H3. unfold topic_members. rewrite member_set_eq, H3.
  destruct (member (str "details") (remove_member (str "post_stream") fields))
    as [[ | | | | |d]|];
    rewrite ?member_set_eq, ?H2; apply member_remove_other, H1.
Qed.

Lemma topic_members_post_stream fields :
  member (str "post_stream") (topic_members number_text fields) = None.
Proof.
  unfold topic_members. rewrite member_set_eq.
  change (jsstring_eqb (str "url") (str "post_stream")) with false. cbv iota.
  destruct (member (str "details") (remove_member (str "post_stream") fields))
    as [[ | | | | |d]|];
    rewrite ?member_set_eq; apply member_remove.
Qed.

Lemma topic_members_details fields :
  member (str "details") (topic_members number_text fields)
  = match member (str "details") fields with
    | Some (JObject details) =>
        Some (JObject (remove_member (str "suggested_topics")
                         (remove_member (str "participants")
                            (remove_member (str "links") details))))
    | other => other
    end.
Proof.
  unfold topic_members. rewrite member_set_eq.
  change (jsstring_eqb (str "url") (str "details")) with false. cbv iota.
  rewrite (member_remove_other (str "post_stream") (str "details") fields) by reflexivity.
  destruct (member (str "details") fields) as [[ | | | | |d]|] eqn:E;
    rewrite ?member_set; try (rewrite member_remove_other by reflexivity; exact E).
  reflexivity.
Qed.

Lemma topic_members_url fields :
  member (str "url") (topic_members number_text fields)
  = Some (JString (str "/t/" ++ member_text number_text (member (str "slug") fields) ++
                   str "/" ++ member_text number_text (member (str "id") fields))).
Proof.
  unfold topic_members. rewrite member_set.
  assert (H : forall name,
            jsstring_eqb (str "post_stream") name = false ->
            jsstring_eqb (str "details") name = false ->
            member name
              match member (str "details") (remove_member (str "post_stream") fields) with
              | Some (JObject details) =>
                  set_member (str "details")
                    (JObject (remove_member (str "suggested_topics")
                                (remove_member (str "participants")
                                   (remove_member (str "links") details))))
                    (remove_member (str "post_stream") fields)
              | _ => remove_member (str "post_stream") fields
              end
            = member name fields).
  { intros name H1 H2.
    destruct (member (str "details") (remove_member (str "post_stream") fields))
      as [[ | | | | |d]|];
      rewrite ?member_set_eq, ?H2; apply member_remove_other, H1. }
  rewrite !H by reflexivity. reflexivity.
Qed.

Lemma trimmed_details details name :
  member name (remove_member (str "suggested_topics")
                 (remove_member (str "participants")
                    (remove_member (str "links") details)))
  = if existsb (jsstring_eqb name)
         [str "links"; str "participants"; str "suggested_topics"]
    then None else member name details.
Proof.
  cbn [existsb].
  destruct (jsstring_eqb name (str "links")) eqn:E1.
  { apply jsstring_eqb_eq in E1. subst name. cbn [orb].
    rewrite !member_remove_other by reflexivity. apply member_remove. }
  destruct (jsstring_eqb name (str "participants")) eqn:E2.
  { apply jsstring_eqb_eq in E2. subst name. cbn [orb].
    rewrite !member_remove_other by reflexivity. apply member_remove. }
  destruct (jsstring_eqb name (str "suggested_topics")) eqn:E3.
  { apply jsstring_eqb_eq in E3. subst name. cbn [orb]. apply member_remove. }
  cbn [orb].
  assert (S : forall a b, jsstring_eqb a b = false -> jsstring_eqb b a = false).
  { intros a b H. destruct (jsstring_eqb b a) eqn:E; [|reflexivity].
    apply jsstring_eqb_eq in E. subst. rewrite jsstring_eqb_refl in H. discriminate. }
  rewrite !member_remove_other by (apply S; assumption). reflexivity.
Qed.

End TopicFacts.

(** X24. The topic that [getTopic] hands to a callback that is a function.
    Of an object it takes the member [post_stream] away, and the members
    [links], [participants] and [suggested_topics] of its member [details]
    when this is an object; it sets [url] to ['/t/'], the slug, ['/'] and the
    id of the topic, a link without the address of the forum; every other
    member, of the topic and of its details, is as it was sent. An error of
    the transport goes to the callback alone, and when the answer is not JSON
    the callback is never called: the task ends in a TypeError. *)
Theorem topic_trimmed (number_text : jsstring -> jsstring)
    (JSON_parse : jsstring -> option json) (delay' : N) (topicId callback : argument)
    (fields : list (jsstring * json)) :
  is_function callback = true ->
  (exists fields',
     task_callback (getTopic number_text delay' topicId callback) None (VJson (JObject fields))
     = Called None (Some {| items_of := None; members := fields' |}) /\
     member (str "post_stream") fields' = None /\
     member (str "url") fields'
     = Some (JString (str "/t/" ++ member_text number_text (member (str "slug") fields) ++
                      str "/" ++ member_text number_text (member (str "id") fields))) /\
     (forall details,
        member (str "details") fields = Some (JObject details) ->
        exists details',
          member (str "details") fields' = Some (JObject details') /\
          forall name,
            member name details'
            = if existsb (jsstring_eqb name)
                   [str "links"; str "participants"; str "suggested_topics"]
              then None else member name details) /\
     ((forall details, member (str "details") fields <> Some (JObject details)) ->
        member (str "details") fields' = member (str "details") fields) /\
     (forall name,
        ~ In name [str "post_stream"; str "details"; str "url"] ->
        member name fields' = member name fields)) /\
  (forall e v,
     task_callback (getTopic number_text delay' topicId callback) (Some e) v
     = Called (Some e) None) /\
  (forall text,
     JSON_parse text = None ->
     task_callback (getTopic number_text delay' topicId callback) None
       (decode JSON_parse (Some text))
     = Raised TypeError_primitive).
Proof.
  intros Hf. split; [|split].
  - exists (topic_members number_text fields).
    cbn [getTopic task_callback topic_callback trim_topic]. rewrite Hf.
    split; [reflexivity|].
    split; [apply topic_members_post_stream|].
    split; [apply topic_members_url|].
    split; [|split].
    + intros details Hd. eexists. rewrite topic_members_details, Hd.
      split; [reflexivity|]. intros name. apply trimmed_details.
    + intros Hd. rewrite topic_members_details.
      destruct (member (str "details") fields) as [[ | | | | |d]|]; try reflexivity.
      exfalso. apply (Hd d). reflexivity.
    + intros name Hn. apply topic_members_other; apply not_true_is_false; intros E;
        apply jsstring_eqb_eq in E; apply Hn; subst name; cbn [In]; auto.
  - intros e v. cbn [getTopic task_callback topic_callback]. rewrite Hf. reflexivity.
  - intros text H. cbn [getTopic task_callback topic_callback]. unfold decode. rewrite H.
    reflexivity.
Qed.

Lemma topic_trimmed_witness :
  exists fields',
    task_callback (getTopic (fun text => text) 0 (ANumber 1000)
                     (AFunction (str "(err, topic) => {}")))
      None (VJson (JObject example_topic))
    = Called None (Some {| items_of := None; members := fields' |}) /\
    member (str "post_stream") fields' = None /\
    member (str "url") fields' = Some (JString (str "/t/the-topic/1000")) /\
    member (str "title") fields' = Some (JString (str "The topic")).
Proof.
  destruct (topic_trimmed (fun text => text) json_decode 0 (ANumber 1000)
              (AFunction (str "(err, topic) => {}")) example_topic eq_refl)
    as ((fields' & H & Hp & Hu & _ & _ & Ho) & _).
  exists fields'. split; [exact H|]. split; [exact Hp|]. split; [exact Hu|].
  rewrite Ho; [reflexivity|].
  cbn [In]. intros E. repeat (destruct E as [E | E]; [discriminate E|]). exact E.
Defined.

(** The topic of the examples, trimmed. *)
Example trimmed_example_topic :
  task_callback (getTopic (fun text => text) 0 (ANumber 1000)
                   (AFunction (str "(err, topic) => {}")))
    None (VJson (JObject example_topic))
  = Called None
      (Some {| items_of := None;
               members := [(str "id", JNumber (str "1000"));
                           (str "slug", JString (str "the-topic"));
                           (str "details", JObject [(str "created_by", JString (str "boss"))]);
                           (str "title", JString (str "The topic"));
                           (str "url", JString (str "/t/the-topic/1000"))] |}).
Proof. reflexivity. Qed.

(** The task of [getTopic], and its end when the answer is no JSON. *)
Example getTopic_task :
  task_url (getTopic (fun text => text) 0 (ANumber 1000) (AFunction []))
  = str "/t/1000.json?include_raw=1&track_visit=true" /\
  task_callback (getTopic (fun text => text) 0 (ANumber 1000) (AFunction [])) None
    (decode json_decode (Some (str "Not found")))
  = Raised TypeError_primitive.
Proof. split; vm_compute; reflexivity. Qed.

(* ================================================================== *)
(** ** Walks over posts and topics *)

Lemma until_error_none {A : Type} (each : nat -> A -> option jserror) m items :
  (forall k item, each k item = None) ->
  until_error each m items = (items, None).
Proof.
  intros H. revert m. induction items as [|x xs IH]; intros m; cbn [until_error].
  - reflexivity.
  - rewrite H, IH. reflexivity.
Qed.

Section WalkFacts.

Variable JSON_parse : jsstring -> option json.
Variable cfg : config.
Variable net : nat -> request -> response.
Variable eachPost : nat -> cleaned_post -> option jserror.
Variable eachTopic : nat -> json -> option jserror.

Lemma run_eachSeries_posts items callback n m :
  run_walk JSON_parse cfg net eachPost eachTopic n m (eachSeries HandPost items callback)
  = map PostHanded (fst (until_error eachPost m items)) ++
    run_walk JSON_parse cfg net eachPost eachTopic n
      (m + length (fst (until_error eachPost m items)))
      (callback (snd (until_error eachPost m items))).
Proof.
  revert m. induction items as [|p ps IH]; intros m; cbn [eachSeries until_error].
  - cbn [fst snd map app length]. rewrite Nat.add_0_r. reflexivity.
  - cbn [run_walk]. destruct (eachPost m p) as [e|] eqn:E.
    + cbn [fst snd map app length]. rewrite Nat.add_1_r. reflexivity.
    + rewrite IH. destruct (until_error eachPost (S m) ps) as [handed e].
      cbn [fst snd map app length]. rewrite Nat.add_succ_r. reflexivity.
Qed.

Lemma run_eachSeries_topics items callback n m :
  run_walk JSON_parse cfg net eachPost eachTopic n m (eachSeries HandTopic items callback)
  = map TopicHanded (fst (until_error eachTopic m items)) ++
    run_walk JSON_parse cfg net eachPost eachTopic n
      (m + length (fst (until_error eachTopic m items)))
      (callback (snd (until_error eachTopic m items))).
Proof.
  revert m. induction items as [|p ps IH]; intros m; cbn [eachSeries until_error].
  - cbn [fst snd map app length]. rewrite Nat.add_0_r. reflexivity.
  - cbn [run_walk]. destruct (eachTopic m p) as [e|] eqn:E.
    + cbn [fst snd map app length]. rewrite Nat.add_1_r. reflexivity.
    + rewrite IH. destruct (until_error eachTopic (S m) ps) as [handed e].
      cbn [fst snd map app length]. rewrite Nat.add_succ_r. reflexivity.
Qed.

End WalkFacts.

Lemma slices_cons l : l <> [] -> slices l = firstn batch_limit l :: slices (skipn batch_limit l).
Proof. destruct l; [congruence|]. intros _. simp slices. reflexivity. Qed.

Lemma slices_concat l : concat (slices l) = l.
Proof.
  induction l as [l IH] using length_ind.
  destruct l as [|x l]; [reflexivity|].
  rewrite slices_cons by congruence. cbn [concat]. rewrite IH.
  - apply firstn_skipn.
  - rewrite length_skipn. unfold batch_limit. cbn [length]. lia.
Qed.

Lemma slices_bounded l : Forall (fun c => 1 <= length c <= batch_limit) (slices l).
Proof.
  induction l as [l IH] using length_ind.
  destruct l as [|x l]; [simp slices; constructor|].
  rewrite slices_cons by congruence. constructor.
  - rewrite length_firstn. unfold batch_limit. cbn [length]. lia.
  - apply IH. rewrite length_skipn. unfold batch_limit. cbn [length]. lia.
Qed.

Section WalkRuns.

Variable number_text : jsstring -> jsstring.
Variable positive : option json -> bool.
Variable JSON_parse : jsstring -> option json.
Variable cfg : config.
Variable net : nat -> request -> response.
Variable eachPost : nat -> cleaned_post -> option jserror.
Variable eachTopic : nat -> json -> option jserror.
Variable delay' : N.

Lemma run_getPosts_loop (base : jsstring) (cleaned' : nat -> list cleaned_post) :
  forall ids n m,
    (forall k, n <= k < n + length (slices ids) ->
       batch_answer number_text JSON_parse cfg net k (cleaned' k)) ->
    run_walk JSON_parse cfg net eachPost eachTopic n m
      (getPosts_loop number_text cfg delay' base ids)
    = batches_seen number_text cfg eachPost delay' base cleaned' n m (slices ids).
Proof.
  intros ids. induction ids as [ids IH] using length_ind.
  intros n m H. destruct ids as [|id ids].
  - simp getPosts_loop slices. reflexivity.
  - rewrite slices_cons in * by congruence. simp getPosts_loop.
    cbn [batches_seen run_walk queueWorker reply sent fst snd].
    destruct (H n ltac:(cbn [length]; lia)
                (request_of cfg (batch_task number_text delay' base
                                   (firstn batch_limit (id :: ids)))))
      as (He & items & Hi & Hc).
    rewrite He, Hi, Hc. f_equal. rewrite run_eachSeries_posts. f_equal.
    destruct (snd (until_error eachPost m (cleaned' n))) as [e|]; [reflexivity|].
    apply IH.
    + rewrite length_skipn. unfold batch_limit. cbn [length]. lia.
    + intros k Hk. apply H. cbn [length]. lia.
Qed.

Lemma run_getTopics_loop (address : nat -> jsstring) (topics : nat -> list json)
    (more : nat -> jsvalue) :
  forall pages fuel n m,
    pages <= fuel ->
    (forall k, n <= k < n + pages -> page_answer JSON_parse net k (topics k) (more k)) ->
    (forall k, n <= k -> S k < n + pages ->
       more k = VJson (JString (address (S k))) /\ truthy_value (more k) = true) ->
    (0 < pages -> truthy_value (more (n + pages - 1)) = false) ->
    0 < pages ->
    run_walk JSON_parse cfg net eachPost eachTopic n m
      (getTopics_loop fuel delay' (address n))
    = pages_seen cfg eachTopic delay' address topics n m pages.
Proof.
  induction pages as [|pages IH]; intros fuel n m Hf Ha Hm Hl Hp; [lia|].
  destruct fuel as [|fuel]; [lia|].
  cbn [getTopics_loop pages_seen run_walk queueWorker reply sent fst snd].
  destruct (Ha n ltac:(lia) (request_of cfg (get_task delay' (address n))))
    as (He & tl & Htl & Ht & Hmore).
  rewrite He, Htl, Hmore, Ht. f_equal. rewrite run_eachSeries_topics. f_equal.
  destruct (snd (until_error eachTopic m (topics n))) as [e|]; [reflexivity|].
  destruct pages as [|pages].
  - replace (n + 1 - 1) with n in Hl by lia. rewrite (Hl Hp). reflexivity.
  - destruct (Hm n ltac:(lia) ltac:(lia)) as [E T]. rewrite T, E.
    apply IH; try lia.
    + intros k Hk. apply Ha. lia.
    + intros k Hk Hk'. apply Hm; lia.
    + intros _. replace (S n + S pages - 1) with (n + S (S pages) - 1) by lia. apply Hl. lia.
Qed.

(** When every page names a next one the fuel is used up. *)
Lemma run_getTopics_endless (address : nat -> jsstring) (topics : nat -> list json)
    (more : nat -> jsvalue) :
  (forall k, page_answer JSON_parse net k (topics k) (more k)) ->
  (forall k, more k = VJson (JString (address (S k))) /\ truthy_value (more k) = true) ->
  (forall k topic, eachTopic k topic = None) ->
  forall fuel n m,
    run_walk JSON_parse cfg net eachPost eachTopic n m
      (getTopics_loop fuel delay' (address n))
    = concat (map (fun k => Sent (request_of cfg (get_task delay' (address k)))
                              :: map TopicHanded (topics k))
                  (seq n fuel)) ++ [Unfinished].
Proof.
  intros Ha Hm Hh. induction fuel as [|fuel IH]; intros n m.
  - reflexivity.
  - cbn [getTopics_loop run_walk queueWorker reply sent fst snd seq map concat].
    destruct (Ha n (request_of cfg (get_task delay' (address n))))
      as (He & tl & Htl & Ht & Hmore).
    rewrite He, Htl, Hmore, Ht. cbn [app]. f_equal. rewrite run_eachSeries_topics.
    rewrite (until_error_none eachTopic m (topics n) Hh). cbn [fst snd].
    rewrite <- app_assoc. f_equal.
    destruct (Hm n) as [E T]. rewrite T, E. apply IH.
Qed.

End WalkRuns.

Lemma batches_seen_quiet (number_text : jsstring -> jsstring) (cfg : config)
    (eachPost : nat -> cleaned_post -> option jserror) (delay' : N) (base : jsstring)
    (cleaned' : nat -> list cleaned_post) :
  (forall m p, eachPost m p = None) ->
  forall parts n m,
    batches_seen number_text cfg eachPost delay' base cleaned' n m parts
    = concat (map (fun kp => Sent (request_of cfg (batch_task number_text delay' base (snd kp)))
                               :: map PostHanded (cleaned' (fst kp)))
                  (combine (seq n (length parts)) parts)) ++ [Ended None].
Proof.
  intros Hh. induction parts as [|part parts IH]; intros n m.
  - reflexivity.
  - cbn [batches_seen length seq combine map concat fst snd].
    rewrite (until_error_none eachPost m (cleaned' n) Hh). cbn [fst snd app].
    rewrite IH. rewrite <- app_assoc. reflexivity.
Qed.

Lemma pages_seen_quiet (cfg : config) (eachTopic : nat -> json -> option jserror) (delay' : N)
    (address : nat -> jsstring) (topics : nat -> list json) :
  (forall m topic, eachTopic m topic = None) ->
  forall pages n m,
    pages_seen cfg eachTopic delay' address topics n m pages
    = concat (map (fun k => Sent (request_of cfg (get_task delay' (address k)))
                              :: map TopicHanded (topics k))
                  (seq n pages)) ++ [Ended None].
Proof.
  intros Hh. induction pages as [|pages IH]; intros n m.
  - reflexivity.
  - cbn [pages_seen seq map concat].
    rewrite (until_error_none eachTopic m (topics n) Hh). cbn [fst snd app].
    rewrite IH. rewrite <- app_assoc. reflexivity.
Qed.

(** X25. [getPosts] asks for the stream of the topic, in a task without
    delay, and then for the posts, in tasks with the delay of the queue, in
    slices of at most 200 identifiers in the order of the stream;
    the posts of an answer are all cleaned and then handed to the handler one
    by one, before the next slice is asked for. The first error that the
    handler reports ends the walk: the completion callback gets it, and no
    further post is handed over and no slice asked for. Without such an error
    every post of every answer is handed over, in order, and the completion
    callback is called once, at the end, with no error. An error of the first
    request goes to the completion callback; an answer to it that is not JSON
    ends in a TypeError, the completion callback not called. *)
Theorem posts_walk (number_text : jsstring -> jsstring) (positive : option json -> bool)
    (JSON_parse : jsstring -> option json) (cfg : config) (net : nat -> request -> response)
    (eachPost : nat -> cleaned_post -> option jserror)
    (eachTopic : nat -> json -> option jserror) (delay' : N) (topicId : argument) :
  let first := request_of cfg (get_task 0 (posts_base topicId ++ str "&post_ids=0")) in
  let seen' := run_walk JSON_parse cfg net eachPost eachTopic 0 0
                 (getPosts number_text positive cfg delay' topicId) in
  match getPosts number_text positive cfg delay' topicId with
  | Fetch t _ => delay t = 0%N
  | _ => False
  end /\
  (forall base part, delay (batch_task number_text delay' base part) = delay') /\
  (forall e, err (net 0 first) = Some e -> seen' = [Sent first; Ended (Some e)]) /\
  (forall text,
     err (net 0 first) = None -> body (net 0 first) = Some text -> JSON_parse text = None ->
     seen' = [Sent first; Faulted TypeError_undefined]) /\
  (forall ids cleaned',
     err (net 0 first) = None ->
     get_field2 (str "post_stream") (str "stream") (decode JSON_parse (body (net 0 first)))
     = Ret (VJson (JArray ids)) ->
     (forall k, 1 <= k < 1 + length (slices ids) ->
        batch_answer number_text JSON_parse cfg net k (cleaned' k)) ->
     concat (slices ids) = ids /\
     Forall (fun part => 1 <= length part <= 200) (slices ids) /\
     seen' = Sent first
               :: batches_seen number_text cfg eachPost delay' (posts_base topicId) cleaned'
                    1 0 (slices ids) /\
     ((forall m p, eachPost m p = None) ->
        seen' = Sent first
                  :: concat (map (fun kp =>
                                    Sent (request_of cfg
                                            (batch_task number_text delay' (posts_base topicId)
                                               (snd kp)))
                                      :: map PostHanded (cleaned' (fst kp)))
                                 (combine (seq 1 (length (slices ids))) (slices ids)))
                  ++ [Ended None])).
Proof.
  cbv zeta. split; [reflexivity|]. split; [reflexivity|]. split; [|split].
  - intros e He. unfold getPosts. cbn [run_walk queueWorker reply sent fst snd].
    rewrite He. reflexivity.
  - intros text He Hb Hp. unfold getPosts. cbn [run_walk queueWorker reply sent fst snd].
    rewrite He, Hb. unfold decode. rewrite Hp. reflexivity.
  - intros ids cleaned' He Hs Ha.
    assert (Hrun : run_walk JSON_parse cfg net eachPost eachTopic 0 0
                     (getPosts number_text positive cfg delay' topicId)
                   = Sent (request_of cfg (get_task 0 (posts_base topicId ++ str "&post_ids=0")))
                       :: batches_seen number_text cfg eachPost delay' (posts_base topicId)
                            cleaned' 1 0 (slices ids)).
    { unfold getPosts. cbn [run_walk queueWorker reply sent fst snd].
      rewrite He, Hs. f_equal. apply run_getPosts_loop. exact Ha. }
    split; [apply slices_concat|]. split; [exact (slices_bounded ids)|].
    split; [exact Hrun|].
    intros Hh. rewrite Hrun. f_equal. apply batches_seen_quiet, Hh.
Qed.

Lemma posts_walk_witness :
  run_walk json_decode example_forum posts_net (fun _ _ => None) (fun _ _ => None) 0 0
    (getPosts (fun text => text) (fun _ => false) example_forum 0 (ANumber 1000))
  = [Sent (request_of example_forum
             (get_task 0 (str "/t/1000/posts.json?include_raw=1&post_ids=0")));
     Sent (request_of example_forum
             (get_task 0 (str "/t/1000/posts.json?include_raw=1&post_ids[]=1&post_ids[]=2&post_ids[]=3")));
     PostHanded hi_post;
     Ended None].
Proof.
  destruct (posts_walk (fun text => text) (fun _ => false) json_decode example_forum posts_net
              (fun _ _ => None) (fun _ _ => None) 0 (ANumber 1000)) as (_ & _ & _ & _ & H).
  destruct (H [JNumber (str "1"); JNumber (str "2"); JNumber (str "3")] (fun _ => [hi_post])
              eq_refl) as (_ & _ & _ & Hq).
  - vm_compute. reflexivity.
  - intros k Hk r. split; [reflexivity|].
    exists [JObject [(str "raw", JString (str "hi"))]].
    destruct k as [|k]; [lia|]. split; vm_compute; reflexivity.
  - rewrite (Hq (fun _ _ => eq_refl)). reflexivity.
Defined.

(** A handler that reports an error for the first post: nothing follows. *)
Example handler_error_ends_walk :
  run_walk json_decode example_forum posts_net (fun _ _ => Some (str "stop")) (fun _ _ => None)
    0 0 (getPosts (fun text => text) (fun _ => false) example_forum 0 (ANumber 1000))
  = [Sent (request_of example_forum
             (get_task 0 (str "/t/1000/posts.json?include_raw=1&post_ids=0")));
     Sent (request_of example_forum
             (get_task 0 (str "/t/1000/posts.json?include_raw=1&post_ids[]=1&post_ids[]=2&post_ids[]=3")));
     PostHanded hi_post;
     Ended (Some (str "stop"))].
Proof. vm_compute. reflexivity. Qed.

(** X26. [getTopics] asks for the latest topics page by page, each page at
    the address that the page before named, and hands the topics of a page to
    the handler one by one before it asks for the next. The first error of
    the handler or of the transport ends the walk and goes to the completion
    callback; otherwise the walk ends, without error, after the first page
    that names no further page. When every page names a further one the walk
    never ends: whatever the bound on the pages, it is used up. *)
Theorem topics_walk (JSON_parse : jsstring -> option json) (cfg : config)
    (net : nat -> request -> response) (eachPost : nat -> cleaned_post -> option jserror)
    (eachTopic : nat -> json -> option jserror) (delay' : N)
    (address : nat -> jsstring) (topics : nat -> list json) (more : nat -> jsvalue) :
  address 0 = latest ->
  (forall e fuel,
     err (net 0 (request_of cfg (get_task delay' latest))) = Some e ->
     run_walk JSON_parse cfg net eachPost eachTopic 0 0 (getTopics (S fuel) delay')
     = [Sent (request_of cfg (get_task delay' latest)); Ended (Some e)]) /\
  (forall pages fuel,
     0 < pages <= fuel ->
     (forall k, k < pages -> page_answer JSON_parse net k (topics k) (more k)) ->
     (forall k, S k < pages ->
        more k = VJson (JString (address (S k))) /\ truthy_value (more k) = true) ->
     truthy_value (more (pages - 1)) = false ->
     run_walk JSON_parse cfg net eachPost eachTopic 0 0 (getTopics fuel delay')
     = pages_seen cfg eachTopic delay' address topics 0 0 pages /\
     ((forall m topic, eachTopic m topic = None) ->
        run_walk JSON_parse cfg net eachPost eachTopic 0 0 (getTopics fuel delay')
        = concat (map (fun k => Sent (request_of cfg (get_task delay' (address k)))
                                  :: map TopicHanded (topics k))
                      (seq 0 pages)) ++ [Ended None])) /\
  ((forall k, page_answer JSON_parse net k (topics k) (more k)) ->
   (forall k, more k = VJson (JString (address (S k))) /\ truthy_value (more k) = true) ->
   (forall m topic, eachTopic m topic = None) ->
   forall fuel,
     run_walk JSON_parse cfg net eachPost eachTopic 0 0 (getTopics fuel delay')
     = concat (map (fun k => Sent (request_of cfg (get_task delay' (address k)))
                               :: map TopicHanded (topics k))
                   (seq 0 fuel)) ++ [Unfinished]).
Proof.
  intros H0. split; [|split].
  - intros e fuel He. unfold getTopics.
    cbn [getTopics_loop run_walk queueWorker reply sent fst snd]. rewrite He. reflexivity.
  - intros pages fuel [Hp Hf] Ha Hm Hl.
    assert (Hrun : run_walk JSON_parse cfg net eachPost eachTopic 0 0 (getTopics fuel delay')
                   = pages_seen cfg eachTopic delay' address topics 0 0 pages).
    { unfold getTopics. rewrite <- H0.
      apply (run_getTopics_loop JSON_parse cfg net eachPost eachTopic delay' address topics more);
        try assumption.
      - intros k Hk. apply Ha. lia.
      - intros k _ Hk. apply Hm. exact Hk.
      - intros _. exact Hl. }
    split; [exact Hrun|]. intros Hh. rewrite Hrun. apply pages_seen_quiet, Hh.
  - intros Ha Hm Hh fuel. unfold getTopics. rewrite <- H0.
    apply (run_getTopics_endless JSON_parse cfg net eachPost eachTopic delay' address topics more);
      assumption.
Qed.

Lemma topics_walk_witness :
  run_walk json_decode example_forum pages_net (fun _ _ => None) (fun _ _ => None) 0 0
    (getTopics 5 0)
  = [Sent (request_of example_forum (get_task 0 latest));
     TopicHanded (JNumber (str "1")); TopicHanded (JNumber (str "2"));
     Sent (request_of example_forum (get_task 0 (str "/latest?page=1")));
     TopicHanded (JNumber (str "1")); TopicHanded (JNumber (str "2"));
     Ended None].
Proof.
  destruct (topics_walk json_decode example_forum pages_net (fun _ _ => None) (fun _ _ => None) 0
              page_address (fun _ => [JNumber (str "1"); JNumber (str "2")])
              (fun n => match n with
                        | 0 => VJson (JString (str "/latest?page=1"))
                        | _ => VJson JNull
                        end)
              eq_refl) as (_ & H & _).
  destruct (H 2 5) as (_ & Hq).
  - lia.
  - intros k Hk r. split; [reflexivity|].
    destruct k as [|[|k]]; [| |lia]; eexists; repeat split; vm_compute; reflexivity.
  - intros k Hk. assert (k = 0) as -> by lia. split; reflexivity.
  - reflexivity.
  - rewrite (Hq (fun _ _ => eq_refl)). reflexivity.
Defined.

(* ================================================================== *)
(** ** A fenced block between texts with quotes *)

Lemma hidden_block_filter s :
  forallb no_control s = true -> filter no_control (hide s) = s.
Proof.
  intros H. rewrite <- (app_nil_r (hide s)).
  rewrite <- (control_filter (hide s ++ []) None).
  rewrite (control_hidden s None [] H).
  rewrite control_filter. apply app_nil_r.
Qed.

(** Where the text as written starts a line, the text outside of the quotes
    does. *)
Lemma top_line_start d :
  well_marked d = true ->
  forall pv pv',
    (bol_ok pv -> bol_ok pv') ->
    bol_ok (prev_after pv (render d)) -> bol_ok (prev_after pv' (top d)).
Proof.
  induction d as [|s r IHr|r IHr|t b IHb r IHr]; intros H pv pv' Hpv Hb.
  - apply Hpv, Hb.
  - cbn [well_marked] in H. apply andb_prop in H. destruct H as [_ Hr].
    cbn [render top] in *. rewrite prev_after_app in *.
    apply (IHr Hr (prev_after pv s)); [|exact Hb].
    destruct s as [|c s]; [exact Hpv|]. intros Hs.
    assert (E : forall q q', prev_after q (c :: s) = prev_after q' (c :: s)).
    { clear. revert c. induction s as [|x s IH]; intros c q q'; [reflexivity|].
      unfold prev_after in *. cbn [fold_left] in *. apply (IH x (Some c) (Some c)). }
    rewrite (E pv' pv). exact Hs.
  - cbn [well_marked render top] in *.
    apply (IHr H (Some SUB)); [|exact Hb].
    intros [E|E]; discriminate E.
  - cbn [well_marked] in H. apply andb_prop in H. destruct H as [_ Hr].
    cbn [render top] in *.
    rewrite !prev_after_app in Hb.
    assert (E : prev_after (prev_after (prev_after pv (open_tag t)) (render b)) (close_tag t)
                = Some "]"%char).
    { unfold close_tag. generalize (prev_after (prev_after pv (open_tag t)) (render b)).
      intros q. change ("["%char :: "/"%char :: close_word t ++ ["]"%char])
        with (("["%char :: "/"%char :: close_word t) ++ ["]"%char]).
      rewrite prev_after_app. reflexivity. }
    rewrite E in Hb. apply (IHr Hr (Some "]"%char)); [|exact Hb].
    intros [E'|E']; discriminate E'.
Qed.

(** In a text whose only backticks are the fences of one block, that
    starts a line, the tags of the block are hidden and nothing else is
    changed. *)
Lemma calm_protect P T info ls :
  forallb calm P = true -> bol_ok (prev_after None P) ->
  forallb line_char info = true -> Forall (fun l => forallb line_char l = true) ls ->
  forallb calm T = true ->
  replace inline (by_function hidetags)
    (replace fencedlazy (by_function hidetags)
      (replace fencedgreedy (by_function hidetags)
        (replace control_re empty_replacement
          (replace newline_re (template [TLit [LF]]) (P ++ block info ls ++ T)))))
  = P ++ hidden_block info ls ++ T.
Proof.
  intros Hc1 Hl1 Hinfo Hls Hc2.
  assert (Hnc : forallb no_control (P ++ block info ls ++ T) = true).
  { rewrite !forallb_app, (block_no_control info ls Hinfo Hls).
    rewrite (forallb_imp _ _ _ calm_no_control Hc1), (forallb_imp _ _ _ calm_no_control Hc2).
    reflexivity. }
  rewrite (stage_id newline_re); [| reflexivity | | exact dead_end_newline].
  2:{ eapply Forall_of_forallb; [|exact Hnc].
      intros c Hc. apply dead_newline. apply negb_true_iff, Hc. }
  rewrite (stage_id control_re); [| reflexivity | | exact dead_end_control].
  2:{ eapply Forall_of_forallb; [|exact Hnc].
      intros c Hc. apply dead_control. apply negb_true_iff, Hc. }
  rewrite (replace_g fencedgreedy) by reflexivity.
  rewrite fencedgreedy_block by assumption.
  rewrite (replace_g fencedlazy) by reflexivity.
  rewrite fencedlazy_block by assumption.
  change (by_function hidetags (block info ls) []) with (hidetags (block info ls)).
  rewrite (hidetags_block info ls Hinfo Hls).
  rewrite (replace_g inline) by reflexivity.
  rewrite replace_all_skip.
  2:{ eapply Forall_of_forallb; [|exact Hc1]. intros c Hc. apply dead_inline, calm_inv, Hc. }
  destruct (hide_mid_cons info ls Hinfo) as (w & W & EW).
  assert (HW := hide_mid_not_backtick info ls Hinfo Hls).
  assert (Hs := hidetags_span info ls).
  unfold hidden_block.
  rewrite EW in HW, Hs |- *.
  rewrite <- !app_assoc.
  rewrite inline_step by exact HW.
  change (by_function hidetags (fence ++ (w :: W) ++ fence) [(1, fence)])
    with (hidetags (fence ++ (w :: W) ++ fence)).
  rewrite Hs.
  rewrite replace_all_id; [| | exact dead_end_inline].
  2:{ apply Forall_cons; [apply dead_inline; reflexivity|].
      eapply Forall_of_forallb; [|exact Hc2]. intros c Hc. apply dead_inline, calm_inv, Hc. }
  rewrite <- !app_assoc. reflexivity.
Qed.

(** The two patterns of the tags pass a hidden block by. *)
Lemma open_hidden_block f pv info ls X :
  replace_all_from quote_open_re f pv 0 (hidden_block info ls ++ X)
  = hidden_block info ls ++ replace_all_from quote_open_re f (Some LF) 0 X.
Proof.
  unfold hidden_block. rewrite <- !app_assoc.
  rewrite fence_skip by (apply dead_quote_open; reflexivity).
  rewrite quote_open_hidden.
  rewrite fence_skip by (apply dead_quote_open; reflexivity).
  cbn [app]. rewrite LF_skip by (apply dead_quote_open; reflexivity). reflexivity.
Qed.

Lemma close_hidden_block f pv info ls X :
  replace_all_from quote_close_re f pv 0 (hidden_block info ls ++ X)
  = hidden_block info ls ++ replace_all_from quote_close_re f (Some LF) 0 X.
Proof.
  unfold hidden_block. rewrite <- !app_assoc.
  rewrite fence_skip by (apply dead_quote_close; reflexivity).
  rewrite quote_close_hidden.
  rewrite fence_skip by (apply dead_quote_close; reflexivity).
  cbn [app]. rewrite LF_skip by (apply dead_quote_close; reflexivity). reflexivity.
Qed.

Section FencedAmongQuotes.

Variables d1 d2 : doc.
Variable info : jsstring.
Variable ls : list jsstring.
Hypothesis Hw1 : written d1 = true.
Hypothesis Hl1 : bol_ok (prev_after None (render d1)).
Hypothesis Hinfo : forallb line_char info = true.
Hypothesis Hls : Forall (fun l => forallb line_char l = true) ls.
Hypothesis Hw2 : written d2 = true.

(** The quotes before and after the block are marked, tag by tag; in the
    block nothing is. *)
Lemma among_mark :
  mark_quotes (render d1 ++ block info ls ++ render d2)
  = marked d1 ++ hidden_block info ls ++ marked d2.
Proof.
  assert (Hm1 := written_well_marked d1 Hw1). assert (Hm2 := written_well_marked d2 Hw2).
  unfold mark_quotes.
  rewrite calm_protect by (assumption || apply render_calm; assumption).
  rewrite (replace_g quote_open_re) by reflexivity.
  rewrite (open_doc d1 Hm1), open_hidden_block.
  rewrite <- (app_nil_r (render d2)). rewrite (open_doc d2 Hm2).
  cbn [replace_all_from]. rewrite dead_end_quote_open, app_nil_r.
  rewrite (replace_g quote_close_re) by reflexivity.
  rewrite (close_doc d1 Hm1), close_hidden_block.
  rewrite <- (app_nil_r (opened d2)). rewrite (close_doc d2 Hm2).
  cbn [replace_all_from]. rewrite dead_end_quote_close, app_nil_r.
  reflexivity.
Qed.

End FencedAmongQuotes.

Section HiddenBlock.

Variable info : jsstring.
Variable ls : list jsstring.
Hypothesis Hinfo : forallb line_char info = true.
Hypothesis Hls : Forall (fun l => forallb line_char l = true) ls.

Lemma hidden_block_nostx : forallb nostx (hidden_block info ls) = true.
Proof. exact (fenced_hidden_nostx [] info [] ls eq_refl Hinfo Hls eq_refl). Qed.

Lemma hidden_block_no_marks : ~ In STX (hidden_block info ls) /\ ~ In ETX (hidden_block info ls).
Proof. exact (fenced_no_marks [] info [] ls eq_refl Hinfo Hls eq_refl). Qed.

(** A round of the loop passes the block by. *)
Lemma among_round a b :
  well_marked a = true -> well_marked b = true ->
  replace innermost_re (template [TLit [SUB]]) (marked a ++ hidden_block info ls ++ marked b)
  = marked (round a) ++ hidden_block info ls ++ marked (round b).
Proof.
  intros Ha Hb. rewrite replace_g by reflexivity.
  rewrite (round_doc a Ha).
  rewrite replace_all_skip by (apply nostx_dead, hidden_block_nostx).
  rewrite <- (app_nil_r (marked b)). rewrite (round_doc b Hb).
  cbn [replace_all_from]. rewrite dead_end_innermost, !app_nil_r. reflexivity.
Qed.

Lemma among_rounds n a b :
  well_marked a = true -> well_marked b = true ->
  Nat.iter n (replace innermost_re (template [TLit [SUB]]))
    (marked a ++ hidden_block info ls ++ marked b)
  = marked (Nat.iter n round a) ++ hidden_block info ls ++ marked (Nat.iter n round b).
Proof.
  intros Ha Hb. induction n as [|n IH]; [reflexivity|].
  rewrite !Nat.iter_succ, IH.
  apply among_round; apply iter_round_well_marked; assumption.
Qed.

Lemma among_strip a b :
  well_marked a = true -> well_marked b = true ->
  strip_nested (marked a ++ hidden_block info ls ++ marked b)
  = marked (Nat.iter (Nat.max (depth a) (depth b)) round a) ++ hidden_block info ls ++
    marked (Nat.iter (Nat.max (depth a) (depth b)) round b).
Proof.
  intros Ha Hb. unfold strip_nested.
  rewrite <- (among_rounds (Nat.max (depth a) (depth b)) a b Ha Hb).
  apply strip_loop_reaches; [lia|].
  rewrite (among_rounds _ a b Ha Hb).
  rewrite among_round by (apply iter_round_well_marked; assumption).
  rewrite !round_leaf; [reflexivity| |]; apply leaf_depth; rewrite iter_round_depth; lia.
Qed.

Lemma hidden_block_not_SUB : forallb not_SUB (hidden_block info ls) = true.
Proof.
  unfold hidden_block. rewrite !forallb_app.
  rewrite (hide_forallb not_SUB (mid info ls) eq_refl eq_refl).
  - reflexivity.
  - eapply forallb_imp; [|exact (mid_calm info ls Hinfo Hls)].
    intros c Hc. apply calm_inv in Hc. destruct Hc as [Hc _]. revert Hc. ascii_cases c.
Qed.

Lemma hidden_block_inner : forallb inner_char (hidden_block info ls) = true.
Proof.
  unfold hidden_block. rewrite !forallb_app.
  rewrite (hide_forallb inner_char (mid info ls) eq_refl eq_refl).
  - reflexivity.
  - eapply forallb_imp; [|exact (mid_calm info ls Hinfo Hls)].
    intros c Hc. apply inner_char_not_control. apply calm_inv in Hc. tauto.
Qed.

(** After the loop, in a text that the pattern of the unbalanced quotes
    leaves as it is: the markers go, the hiding goes, and the block is found
    again and removed. *)
Lemma finish_hidden_block Q R P T :
  replace unbalanced_re (template [TLit [SUB]]) (Q ++ hidden_block info ls ++ R)
  = Q ++ hidden_block info ls ++ R ->
  forallb not_backtick Q = true -> forallb not_backtick R = true ->
  filter no_control Q = P -> filter no_control R = T ->
  forallb calm P = true -> bol_ok (prev_after None P) -> forallb calm T = true ->
  finish (Q ++ hidden_block info ls ++ R) = P ++ T.
Proof.
  intros Hu Hta Htb HQ HR Hca Hbol Hcb. unfold finish. rewrite Hu.
  assert (Hdead : forall s, forallb not_backtick s = true -> Forall (dead coalesce_re) s).
  { intros s. apply Forall_of_forallb. intros c Hc. apply dead_coalesce.
    unfold not_backtick in Hc. apply negb_true_iff, Hc. }
  (* backticks next to a removed quote: none *)
  rewrite (replace_g coalesce_re) by reflexivity.
  rewrite replace_all_skip by (apply Hdead, Hta).
  unfold hidden_block.
  destruct (hide_mid_head info ls Hinfo Hls) as (c & m & Ehm & Hc1 & Hc2).
  assert (HW := hide_mid_not_backtick info ls Hinfo Hls).
  rewrite Ehm in HW |- *. rewrite <- !app_assoc. cbn [app].
  rewrite coalesce_fence_pass by assumption.
  change (c :: m ++ fence ++ LF :: R) with ((c :: m) ++ fence ++ LF :: R).
  rewrite replace_all_skip by (apply Hdead, HW).
  rewrite coalesce_fence_pass by reflexivity.
  rewrite replace_all_id; [| | exact dead_end_coalesce].
  2:{ apply Forall_cons; [apply dead_coalesce; reflexivity|]. apply Hdead, Htb. }
  rewrite <- Ehm.
  (* the control characters go, and with them the markers and the hiding *)
  rewrite (replace_g control_re) by reflexivity. rewrite control_filter.
  rewrite !filter_app. cbn [filter].
  rewrite HQ, HR.
  rewrite hidden_block_filter by exact (forallb_imp _ _ _ calm_no_control (mid_calm info ls Hinfo Hls)).
  change (filter no_control fence) with fence.
  change (no_control LF) with true. cbv iota.
  (* the block is found again and removed *)
  replace (P ++ fence ++ mid info ls ++ fence ++ LF :: T) with (P ++ block info ls ++ T).
  2:{ rewrite block_mid, <- !app_assoc. reflexivity. }
  rewrite (replace_g fencedgreedy) by reflexivity.
  rewrite fencedgreedy_block by assumption.
  rewrite (replace_g fencedlazy) by reflexivity.
  rewrite fencedlazy_block by assumption.
  reflexivity.
Qed.

Lemma among_finish a b :
  well_marked a = true -> leaf a = true -> well_marked b = true -> leaf b = true ->
  bol_ok (prev_after None (top a)) ->
  finish (marked a ++ hidden_block info ls ++ marked b) = top a ++ top b.
Proof.
  intros Ha Hla Hb Hlb Hbol.
  assert (Hna : forallb nostx (marked a) = true).
  { apply leaf_forall; [|reflexivity|exact Ha|exact Hla].
    intros c Hc. apply calm_nostx, plain_calm, Hc. }
  assert (Hnb : forallb nostx (marked b) = true).
  { apply leaf_forall; [|reflexivity|exact Hb|exact Hlb].
    intros c Hc. apply calm_nostx, plain_calm, Hc. }
  apply finish_hidden_block.
  - apply stage_id; [reflexivity| |exact dead_end_unbalanced].
    apply nostx_dead_unbalanced. rewrite !forallb_app, Hna, Hnb, hidden_block_nostx.
    reflexivity.
  - exact (leaf_forall not_backtick a
             (fun c Hc => calm_not_backtick c (plain_calm c Hc)) eq_refl Ha Hla).
  - exact (leaf_forall not_backtick b
             (fun c Hc => calm_not_backtick c (plain_calm c Hc)) eq_refl Hb Hlb).
  - apply leaf_filter; assumption.
  - apply leaf_filter; assumption.
  - exact (forallb_imp _ _ _ plain_calm (top_plain a Ha)).
  - exact Hbol.
  - exact (forallb_imp _ _ _ plain_calm (top_plain b Hb)).
Qed.

(** *** An opening tag that is not closed, before the block *)

Section OpenBefore.

Variables A B T : jsstring.
Hypothesis HA : forallb plain A = true.
Hypothesis HB : forallb plain B = true.
Hypothesis HT : forallb plain T = true.
Hypothesis Hbol : bol_ok (prev_after None (A ++ str "[quote]" ++ B)).

Lemma open_before_block_mark :
  mark_quotes (A ++ str "[quote]" ++ B ++ block info ls ++ T)
  = A ++ STX :: str "[quote]" ++ B ++ hidden_block info ls ++ T.
Proof.
  unfold mark_quotes.
  replace (A ++ str "[quote]" ++ B ++ block info ls ++ T)
    with ((A ++ str "[quote]" ++ B) ++ block info ls ++ T)
    by (rewrite <- !app_assoc; reflexivity).
  rewrite calm_protect; try assumption.
  2:{ rewrite !forallb_app, (forallb_imp _ _ _ plain_calm HA), (forallb_imp _ _ _ plain_calm HB).
      reflexivity. }
  2:{ exact (forallb_imp _ _ _ plain_calm HT). }
  rewrite <- !app_assoc.
  rewrite (replace_g quote_open_re) by reflexivity.
  rewrite replace_all_skip by (apply plain_dead_open, HA).
  rewrite open_step.
  rewrite replace_all_skip by (apply plain_dead_open, HB).
  rewrite open_hidden_block.
  rewrite replace_all_id by (apply plain_dead_open, HT || exact dead_end_quote_open).
  rewrite (replace_g quote_close_re) by reflexivity.
  rewrite replace_all_skip by (apply plain_dead_close, HA).
  cbn [app]. rewrite close_pass_STX, close_pass.
  rewrite replace_all_skip by (apply plain_dead_close, HB).
  rewrite close_hidden_block.
  rewrite replace_all_id by (apply plain_dead_close, HT || exact dead_end_quote_close).
  reflexivity.
Qed.

Lemma open_before_block_strip :
  strip_nested (A ++ STX :: str "[quote]" ++ B ++ hidden_block info ls ++ T)
  = A ++ STX :: str "[quote]" ++ B ++ hidden_block info ls ++ T.
Proof.
  assert (E : replace innermost_re (template [TLit [SUB]])
                (A ++ STX :: str "[quote]" ++ B ++ hidden_block info ls ++ T)
              = A ++ STX :: str "[quote]" ++ B ++ hidden_block info ls ++ T).
  { rewrite replace_g by reflexivity.
    rewrite replace_all_skip by (apply plain_dead_innermost, HA).
    rewrite replace_all_miss.
    2:{ apply innermost_miss_end.
        rewrite !forallb_app, (plain_inner _ HB), (plain_inner _ HT), hidden_block_inner.
        reflexivity. }
    rewrite replace_all_id; [reflexivity| | exact dead_end_innermost].
    apply nostx_dead.
    rewrite !forallb_app, (plain_nostx _ HB), (plain_nostx _ HT), hidden_block_nostx.
    reflexivity. }
  unfold strip_nested. cbn [strip_loop]. rewrite E, jsstring_eqb_refl. reflexivity.
Qed.

Lemma open_before_block_finish :
  finish (A ++ STX :: str "[quote]" ++ B ++ hidden_block info ls ++ T)
  = A ++ str "[quote]" ++ B ++ T.
Proof.
  replace (A ++ STX :: str "[quote]" ++ B ++ hidden_block info ls ++ T)
    with ((A ++ STX :: str "[quote]" ++ B) ++ hidden_block info ls ++ T)
    by (rewrite <- !app_assoc; reflexivity).
  replace (A ++ str "[quote]" ++ B ++ T) with ((A ++ str "[quote]" ++ B) ++ T)
    by (rewrite <- !app_assoc; reflexivity).
  assert (Hf : forall s, forallb plain s = true -> filter no_control s = s).
  { intros s Hs. apply filter_all. eapply forallb_imp; [|exact Hs].
    intros c Hc. apply calm_no_control, plain_calm, Hc. }
  assert (Hn : forall s, forallb plain s = true -> forallb not_backtick s = true).
  { intros s. apply forallb_imp. intros c Hc. apply calm_not_backtick, plain_calm, Hc. }
  apply finish_hidden_block.
  - rewrite <- !app_assoc. cbn [app].
    rewrite replace_g by reflexivity.
    rewrite replace_all_skip by (apply plain_dead_unbalanced, HA).
    rewrite replace_all_miss.
    2:{ apply unbalanced_miss_end.
        rewrite !forallb_app, (plain_not_SUB _ HB), (plain_not_SUB _ HT), hidden_block_not_SUB.
        reflexivity. }
    rewrite replace_all_id; [reflexivity| | exact dead_end_unbalanced].
    apply nostx_dead_unbalanced.
    rewrite !forallb_app, (plain_nostx _ HB), (plain_nostx _ HT), hidden_block_nostx.
    reflexivity.
  - rewrite forallb_app. cbn [forallb]. rewrite forallb_app, (Hn A HA), (Hn B HB). reflexivity.
  - exact (Hn T HT).
  - rewrite filter_app. cbn [filter]. rewrite filter_app, (Hf A HA), (Hf B HB). reflexivity.
  - exact (Hf T HT).
  - rewrite !forallb_app, (forallb_imp _ _ _ plain_calm HA), (forallb_imp _ _ _ plain_calm HB).
    reflexivity.
  - exact Hbol.
  - exact (forallb_imp _ _ _ plain_calm HT).
Qed.

End OpenBefore.

End HiddenBlock.

(* ================================================================== *)
(** ** A fenced block that ends the text *)

Lemma fence_close_hit_end pv cs :
  rmatch fl_lazy fence_close (fun st => Some st) {| prev := pv; rest := fence; caps := cs |}
  = Some {| prev := Some backtick; rest := []; caps := cs |}.
Proof. reflexivity. Qed.

(** The lazy loop over the lines of the block stops at the closing fence,
    where the text ends. *)
Lemma lazy_lines_end :
  forall ls fuel pv cs,
    Forall (fun l => forallb line_char l = true) ls ->
    length (unlines ls ++ fence) < fuel ->
    rep_opt fuel (rmatch fl_lazy (Seq (star dot) (Chr LF))) None false
      (rmatch fl_lazy fence_close (fun st => Some st))
      {| prev := pv; rest := unlines ls ++ fence; caps := cs |}
    = Some {| prev := Some backtick; rest := []; caps := cs |}.
Proof.
  induction ls as [|l ls IH]; intros fuel pv cs Hls Hf.
  - destruct fuel as [|fuel]; [simpl in Hf; lia|]. reflexivity.
  - destruct fuel as [|fuel]; [simpl in Hf; lia|].
    inversion Hls as [|? ? Hl Hls']; subst.
    cbn [unlines]. rewrite <- app_assoc. cbn [app].
    destruct (line_head_not_backtick l (unlines ls ++ fence) Hl) as (c & t & Ect & Hc).
    cbn [rep_opt].
    rewrite Ect at 1. rewrite (fence_close_miss _ _ _ _ Hc).
    rewrite line_iter by (eapply forallb_imp; [exact line_char_dot | exact Hl]).
    cbn [rest dec_max].
    replace (length (unlines ls ++ fence) <? length (l ++ LF :: unlines ls ++ fence))
      with true by (symmetry; apply Nat.ltb_lt; rewrite !length_app; simpl; rewrite ?length_app; simpl; lia).
    apply IH; [assumption|].
    cbn [unlines] in Hf. rewrite <- app_assoc in Hf. rewrite !length_app in Hf. simpl in Hf.
    rewrite ?length_app in *. simpl in *. lia.
Qed.

Lemma fence_body_hit_end pv ls cs :
  Forall (fun l => forallb line_char l = true) ls ->
  rmatch fl_lazy fence_body (fun st => Some st)
    {| prev := pv; rest := LF :: unlines ls ++ fence; caps := cs |}
  = Some {| prev := Some backtick; rest := []; caps := cs |}.
Proof.
  intros Hls.
  change (rmatch fl_lazy fence_body (fun st => Some st)
    {| prev := pv; rest := LF :: unlines ls ++ fence; caps := cs |})
    with (rep_opt (S (length (unlines ls ++ fence)))
            (rmatch fl_lazy (Seq (star dot) (Chr LF))) None false
            (rmatch fl_lazy fence_close (fun st => Some st))
            {| prev := Some LF; rest := unlines ls ++ fence; caps := cs |}).
  apply lazy_lines_end; [assumption | lia].
Qed.

Lemma fencedlazy_rmatch_end pv info ls :
  bol_ok pv ->
  forallb line_char info = true ->
  Forall (fun l => forallb line_char l = true) ls ->
  rmatch fl_lazy (source fencedlazy) (fun st => Some st)
    {| prev := pv; rest := fence ++ info ++ LF :: unlines ls ++ fence; caps := [] |}
  = Some {| prev := Some backtick; rest := []; caps := [] |}.
Proof.
  intros Hpv Hinfo Hls.
  assert (Hbol : at_bol fl_lazy {| prev := pv; rest := fence ++ info ++ LF :: unlines ls ++ fence; caps := [] |} = true).
  { destruct Hpv as [-> | ->]; reflexivity. }
  destruct info as [|i info].
  - change (rmatch fl_lazy (source fencedlazy) (fun st => Some st)
      {| prev := pv; rest := fence ++ [] ++ LF :: unlines ls ++ fence; caps := [] |})
      with (if at_bol fl_lazy {| prev := pv; rest := fence ++ [] ++ LF :: unlines ls ++ fence; caps := [] |}
            then rmatch fl_lazy fence_body (fun st => Some st)
                   {| prev := Some backtick; rest := LF :: unlines ls ++ fence; caps := [] |}
            else None).
    rewrite Hbol. apply fence_body_hit_end. assumption.
  - simpl in Hinfo. apply andb_prop in Hinfo. destruct Hinfo as [Hi Hinfo].
    assert (Hi1 : cls_match fl_lazy true [(96, 96); (10, 10)]%N i = true).
    { revert Hi. clear. ascii_cases i. }
    change (rmatch fl_lazy (source fencedlazy) (fun st => Some st)
      {| prev := pv; rest := fence ++ (i :: info) ++ LF :: unlines ls ++ fence; caps := [] |})
      with (if at_bol fl_lazy {| prev := pv; rest := fence ++ (i :: info) ++ LF :: unlines ls ++ fence; caps := [] |}
            then
              match
                (if cls_match fl_lazy true [(96, 96); (10, 10)]%N i
                 then rep_opt (S (length (info ++ LF :: unlines ls ++ fence)))
                        (rmatch fl_lazy (Cls true [(10, 10); (13, 13)]%N)) None true
                        (fun st' =>
                           if length (rest st') <? S (length (info ++ LF :: unlines ls ++ fence))
                           then rmatch fl_lazy fence_body (fun st => Some st) st'
                           else None)
                        {| prev := Some i; rest := info ++ LF :: unlines ls ++ fence; caps := [] |}
                 else None)
              with
              | Some x => Some x
              | None => rmatch fl_lazy fence_body (fun st => Some st)
                          {| prev := Some backtick; rest := (i :: info) ++ LF :: unlines ls ++ fence; caps := [] |}
              end
            else None).
    rewrite Hbol, Hi1.
    rewrite (rep_opt_greedy _ _ (one_char_Cls _ _ _));
      [| lia | eapply forallb_imp; [exact line_char_dot | exact Hinfo] | reflexivity].
    erewrite greedy_run_end; [reflexivity|].
    cbn [greedy_run rest].
    replace (length (LF :: unlines ls ++ fence) <? S (length (info ++ LF :: unlines ls ++ fence)))
      with true by (symmetry; apply Nat.ltb_lt; rewrite !length_app; simpl; lia).
    apply fence_body_hit_end. assumption.
Qed.

Lemma last_block_mid info ls : last_block info ls = fence ++ mid info ls ++ fence.
Proof. unfold last_block, mid. rewrite <- app_assoc. reflexivity. Qed.

Lemma fencedlazy_hit_end pv info ls :
  bol_ok pv ->
  forallb line_char info = true ->
  Forall (fun l => forallb line_char l = true) ls ->
  match_at fencedlazy pv (last_block info ls ++ []) = Some (last_block info ls, []).
Proof.
  intros Hpv Hinfo Hls. eapply match_at_some. rewrite app_nil_r.
  apply fencedlazy_rmatch_end; assumption.
Qed.

(** The lazy pattern finds the block that ends the text, and nothing else. *)
Lemma fencedlazy_last_block f P info ls :
  forallb calm P = true ->
  bol_ok (prev_after None P) ->
  forallb line_char info = true ->
  Forall (fun l => forallb line_char l = true) ls ->
  replace_all_from fencedlazy f None 0 (P ++ last_block info ls)
  = P ++ f (last_block info ls) [].
Proof.
  intros HP Hbol Hinfo Hls.
  rewrite replace_all_skip by (apply calm_dead_fencedlazy, HP).
  set (M := [backtick; backtick] ++ info ++ LF :: unlines ls ++ fence).
  assert (H : match_at fencedlazy (prev_after None P) (backtick :: M ++ [])
              = Some (backtick :: M, [])).
  { exact (fencedlazy_hit_end _ info ls Hbol Hinfo Hls). }
  change (last_block info ls) with (backtick :: M).
  rewrite <- (app_nil_r (backtick :: M)) at 1.
  change ((backtick :: M) ++ []) with (backtick :: M ++ []).
  rewrite (replace_all_hit fencedlazy f _ backtick M [] [] H).
  cbn [replace_all_from]. rewrite dead_end_fencedlazy, app_nil_r. reflexivity.
Qed.

Lemma fencedgreedy_fence_end f pv :
  replace_all_from fencedgreedy f pv 0 fence = fence.
Proof.
  unfold fence.
  rewrite replace_all_miss.
  2:{ apply match_at_none. cbn. destruct (at_bol _ _); reflexivity. }
  rewrite replace_all_miss by (apply fencedgreedy_mid; reflexivity).
  rewrite replace_all_miss by (apply fencedgreedy_mid; reflexivity).
  cbn [replace_all_from]. rewrite dead_end_fencedgreedy. reflexivity.
Qed.

(** The greedy pattern finds nothing there. *)
Lemma fencedgreedy_last_block f pv P info ls :
  forallb calm P = true ->
  forallb line_char info = true ->
  Forall (fun l => forallb line_char l = true) ls ->
  replace_all_from fencedgreedy f pv 0 (P ++ last_block info ls) = P ++ last_block info ls.
Proof.
  intros HP Hinfo Hls.
  rewrite replace_all_skip by (apply calm_dead_fencedgreedy, HP).
  rewrite last_block_mid.
  assert (Hmid := mid_calm info ls Hinfo Hls).
  destruct (mid info ls) as [|c m] eqn:Emid.
  { unfold mid in Emid. destruct info; discriminate. }
  simpl in Hmid. apply andb_prop in Hmid. destruct Hmid as [Hc Hmid].
  cbn [app].
  change (backtick :: backtick :: backtick :: c :: m ++ fence) with (fence ++ c :: m ++ fence).
  rewrite fencedgreedy_fence by (apply calm_inv, Hc).
  change (c :: m ++ fence) with ((c :: m) ++ fence).
  rewrite replace_all_skip.
  2:{ apply calm_dead_fencedgreedy. simpl. rewrite Hc, Hmid. reflexivity. }
  rewrite fencedgreedy_fence_end. reflexivity.
Qed.

Section LastBlock.

Variable info : jsstring.
Variable ls : list jsstring.
Hypothesis Hinfo : forallb line_char info = true.
Hypothesis Hls : Forall (fun l => forallb line_char l = true) ls.

Lemma last_block_no_control : forallb no_control (last_block info ls) = true.
Proof.
  rewrite last_block_mid, !forallb_app.
  rewrite (forallb_imp _ _ _ calm_no_control (mid_calm info ls Hinfo Hls)). reflexivity.
Qed.

Lemma hidetags_last_block : hidetags (last_block info ls) = hidden_last_block info ls.
Proof.
  unfold hidetags. rewrite replace_g by reflexivity.
  rewrite (hidetags_fresh _ None last_block_no_control).
  rewrite last_block_mid, !hide_app. reflexivity.
Qed.

(** The tags of the block are hidden and nothing else is changed. *)
Lemma calm_protect_end P :
  forallb calm P = true -> bol_ok (prev_after None P) ->
  replace inline (by_function hidetags)
    (replace fencedlazy (by_function hidetags)
      (replace fencedgreedy (by_function hidetags)
        (replace control_re empty_replacement
          (replace newline_re (template [TLit [LF]]) (P ++ last_block info ls)))))
  = P ++ hidden_last_block info ls.
Proof.
  intros Hc1 Hl1.
  assert (Hnc : forallb no_control (P ++ last_block info ls) = true).
  { rewrite !forallb_app, last_block_no_control.
    rewrite (forallb_imp _ _ _ calm_no_control Hc1). reflexivity. }
  rewrite (stage_id newline_re); [| reflexivity | | exact dead_end_newline].
  2:{ eapply Forall_of_forallb; [|exact Hnc].
      intros c Hc. apply dead_newline. apply negb_true_iff, Hc. }
  rewrite (stage_id control_re); [| reflexivity | | exact dead_end_control].
  2:{ eapply Forall_of_forallb; [|exact Hnc].
      intros c Hc. apply dead_control. apply negb_true_iff, Hc. }
  rewrite (replace_g fencedgreedy) by reflexivity.
  rewrite fencedgreedy_last_block by assumption.
  rewrite (replace_g fencedlazy) by reflexivity.
  rewrite fencedlazy_last_block by assumption.
  change (by_function hidetags (last_block info ls) []) with (hidetags (last_block info ls)).
  rewrite hidetags_last_block.
  rewrite (replace_g inline) by reflexivity.
  rewrite replace_all_skip.
  2:{ eapply Forall_of_forallb; [|exact Hc1]. intros c Hc. apply dead_inline, calm_inv, Hc. }
  destruct (hide_mid_cons info ls Hinfo) as (w & W & EW).
  assert (HW := hide_mid_not_backtick info ls Hinfo Hls).
  assert (Hs := hidetags_span info ls).
  unfold hidden_last_block.
  rewrite EW in HW, Hs |- *.
  rewrite <- (app_nil_r (fence ++ (w :: W) ++ fence)) at 1.
  rewrite <- !app_assoc.
  rewrite inline_step by exact HW.
  change (by_function hidetags (fence ++ (w :: W) ++ fence) [(1, fence)])
    with (hidetags (fence ++ (w :: W) ++ fence)).
  rewrite Hs.
  cbn [replace_all_from]. rewrite dead_end_inline, app_nil_r. reflexivity.
Qed.

(** The two patterns of the tags pass the hidden block by. *)
Lemma open_hidden_last_block f pv :
  replace_all_from quote_open_re f pv 0 (hidden_last_block info ls) = hidden_last_block info ls.
Proof.
  unfold hidden_last_block.
  rewrite fence_skip by (apply dead_quote_open; reflexivity).
  rewrite quote_open_hidden.
  rewrite replace_all_id; [reflexivity| |exact dead_end_quote_open].
  repeat constructor; apply dead_quote_open; reflexivity.
Qed.

Lemma close_hidden_last_block f pv :
  replace_all_from quote_close_re f pv 0 (hidden_last_block info ls) = hidden_last_block info ls.
Proof.
  unfold hidden_last_block.
  rewrite fence_skip by (apply dead_quote_close; reflexivity).
  rewrite quote_close_hidden.
  rewrite replace_all_id; [reflexivity| |exact dead_end_quote_close].
  repeat constructor; apply dead_quote_close; reflexivity.
Qed.

(** The quotes before the block are marked, tag by tag; in the block
    nothing is. *)
Lemma before_last_mark d :
  written d = true -> bol_ok (prev_after None (render d)) ->
  mark_quotes (render d ++ last_block info ls) = marked d ++ hidden_last_block info ls.
Proof.
  intros Hw Hl. assert (Hm := written_well_marked d Hw).
  unfold mark_quotes.
  rewrite calm_protect_end by (assumption || apply render_calm; assumption).
  rewrite (replace_g quote_open_re) by reflexivity.
  rewrite (open_doc d Hm), open_hidden_last_block.
  rewrite (replace_g quote_close_re) by reflexivity.
  rewrite (close_doc d Hm), close_hidden_last_block.
  reflexivity.
Qed.

Lemma hidden_last_block_nostx : forallb nostx (hidden_last_block info ls) = true.
Proof.
  unfold hidden_last_block. rewrite !forallb_app.
  rewrite (hide_forallb nostx (mid info ls) eq_refl eq_refl
             (forallb_imp _ _ _ calm_nostx (mid_calm info ls Hinfo Hls))).
  reflexivity.
Qed.

Lemma hidden_last_block_no_marks :
  ~ In STX (hidden_last_block info ls) /\ ~ In ETX (hidden_last_block info ls).
Proof.
  destruct (hidden_block_no_marks info ls Hinfo Hls) as [H1 H2].
  unfold hidden_block, hidden_last_block in *.
  split; intros Hin; [apply H1 | apply H2];
    rewrite !in_app_iff in *; tauto.
Qed.

(** A round of the loop passes the block by. *)
Lemma before_last_round a :
  well_marked a = true ->
  replace innermost_re (template [TLit [SUB]]) (marked a ++ hidden_last_block info ls)
  = marked (round a) ++ hidden_last_block info ls.
Proof.
  intros Ha. rewrite replace_g by reflexivity.
  rewrite (round_doc a Ha).
  rewrite replace_all_id; [reflexivity| |exact dead_end_innermost].
  apply nostx_dead, hidden_last_block_nostx.
Qed.

Lemma before_last_rounds n a :
  well_marked a = true ->
  Nat.iter n (replace innermost_re (template [TLit [SUB]]))
    (marked a ++ hidden_last_block info ls)
  = marked (Nat.iter n round a) ++ hidden_last_block info ls.
Proof.
  intros Ha. induction n as [|n IH]; [reflexivity|].
  rewrite !Nat.iter_succ, IH.
  apply before_last_round. apply iter_round_well_marked; assumption.
Qed.

Lemma before_last_strip a :
  well_marked a = true ->
  strip_nested (marked a ++ hidden_last_block info ls)
  = marked (Nat.iter (depth a) round a) ++ hidden_last_block info ls.
Proof.
  intros Ha. unfold strip_nested.
  rewrite <- (before_last_rounds (depth a) a Ha).
  apply strip_loop_reaches; [lia|].
  rewrite (before_last_rounds _ a Ha).
  rewrite before_last_round by (apply iter_round_well_marked; assumption).
  rewrite !round_leaf; [reflexivity|]; apply leaf_depth; rewrite iter_round_depth; lia.
Qed.

Lemma coalesce_fence_end f pv : replace_all_from coalesce_re f pv 0 fence = fence.
Proof.
  unfold fence.
  rewrite replace_all_miss.
  2:{ apply match_at_none. cbn. destruct (at_bol _ _); reflexivity. }
  rewrite replace_all_miss by (apply coalesce_mid; reflexivity).
  rewrite replace_all_miss by (apply coalesce_mid; reflexivity).
  cbn [replace_all_from]. rewrite dead_end_coalesce. reflexivity.
Qed.

(** After the loop: the markers go, the hiding goes, and the block is found
    again and removed. *)
Lemma before_last_finish a :
  well_marked a = true -> leaf a = true ->
  bol_ok (prev_after None (top a)) ->
  finish (marked a ++ hidden_last_block info ls) = top a.
Proof.
  intros Ha Hla Hbol.
  assert (Hna : forallb nostx (marked a) = true).
  { apply leaf_forall; [|reflexivity|exact Ha|exact Hla].
    intros c Hc. apply calm_nostx, plain_calm, Hc. }
  assert (Hta : forallb not_backtick (marked a) = true).
  { exact (leaf_forall not_backtick a
             (fun c Hc => calm_not_backtick c (plain_calm c Hc)) eq_refl Ha Hla). }
  assert (Hca : forallb calm (top a) = true).
  { exact (forallb_imp _ _ _ plain_calm (top_plain a Ha)). }
  unfold finish.
  rewrite (stage_id unbalanced_re); [| reflexivity | | exact dead_end_unbalanced].
  2:{ apply nostx_dead_unbalanced. rewrite forallb_app, Hna, hidden_last_block_nostx.
      reflexivity. }
  assert (Hdead : forall s, forallb not_backtick s = true -> Forall (dead coalesce_re) s).
  { intros s. apply Forall_of_forallb. intros c Hc. apply dead_coalesce.
    unfold not_backtick in Hc. apply negb_true_iff, Hc. }
  rewrite (replace_g coalesce_re) by reflexivity.
  rewrite replace_all_skip by (apply Hdead, Hta).
  unfold hidden_last_block.
  destruct (hide_mid_head info ls Hinfo Hls) as (c & m & Ehm & Hc1 & Hc2).
  assert (HW := hide_mid_not_backtick info ls Hinfo Hls).
  rewrite Ehm in HW |- *. cbn [app].
  rewrite coalesce_fence_pass by assumption.
  change (c :: m ++ fence) with ((c :: m) ++ fence).
  rewrite replace_all_skip by (apply Hdead, HW).
  rewrite coalesce_fence_end.
  rewrite <- Ehm.
  rewrite (replace_g control_re) by reflexivity. rewrite control_filter.
  rewrite !filter_app.
  rewrite (leaf_filter a Ha Hla).
  rewrite hidden_block_filter by exact (forallb_imp _ _ _ calm_no_control (mid_calm info ls Hinfo Hls)).
  change (filter no_control fence) with fence.
  rewrite <- last_block_mid.
  rewrite (replace_g fencedgreedy) by reflexivity.
  rewrite fencedgreedy_last_block by assumption.
  rewrite (replace_g fencedlazy) by reflexivity.
  rewrite fencedlazy_last_block by assumption.
  apply app_nil_r.
Qed.

End LastBlock.




(** Fences of tildes are no fences for the code: the quote between them
    goes, the fences stay. *)
Example tilde_fences_stay :
  cleaned (cleanPostRaw (post_of
    (str "a" ++ [LF] ++ str "~~~" ++ [LF] ++ str "[quote]x[/quote]" ++ [LF] ++
     str "~~~" ++ [LF] ++ str "b")))
  = Some (str "a" ++ [LF] ++ str "~~~" ++ [LF] ++ [LF] ++ str "~~~" ++ [LF] ++ str "b").
Proof. vm_compute; reflexivity. Qed.
